(** * bloomd filter manager (src/bloomd/filter_manager.c)

    A shallow embedding of the multi-version filter registry of bloomd:
    the wrapper and version records, the heap they live in, the
    destructive operations (create / drop / clear), the key paths
    (check_keys / set_keys), the listings, the vacuum and the loader.

    Conventions.
    - Heap objects (versions and wrappers) live in two finite maps from
      addresses to records.  A nullable C pointer is an [option nat]; a
      dereference of NULL or of a freed address is the outcome [Fault].
    - The Bloom filter itself, the ART index and the directory scan are
      external to this file of the repository.  The filter is a type class
      ([FilterOps]); the index is a [gmap string nat] from filter names to
      wrapper addresses; the answers of the environment that the code
      tests (does [art_copy] succeed, what does [init_bloom_filter]
      return) are arguments of the operation that asks.
    - A C string is a [string] without the NUL character; its
      terminator is implicit.
    - [calloc] and [malloc] are taken to succeed, as the code takes them
      to; [art_copy], whose failure the code tests, may fail.
    - The code is modelled as one thread runs it: the mutexes, the rwlocks
      and the spin lock are not represented, nor are the calls to
      [syslog].  Whether [init_art_tree] and [pthread_create] succeed are
      answers of the environment too; the vacuum thread is one pass of
      its loop at a time, and its join in [destroy_filter_manager] is
      left out. *)

From stdpp Require Import gmap strings list fin_maps.
From Stdlib Require Import Ascii String ZArith Lia Sorted.

Local Open Scope Z_scope.

(** ** C strings *)

Definition strlen (s : string) : Z := Z.of_nat (String.length s).

Definition char_code (c : ascii) : Z := Z.of_nat (nat_of_ascii c).

(** [strncmp s1 s2 n]: the end of a string is its terminator, of code 0. *)
Fixpoint strncmp (s1 s2 : string) (n : nat) : Z :=
  match n with
  | O => 0
  | S k =>
      match s1, s2 with
      | EmptyString, EmptyString => 0
      | EmptyString, String c2 _ => 0 - char_code c2
      | String c1 _, EmptyString => char_code c1
      | String c1 r1, String c2 r2 =>
          if Ascii.eqb c1 c2 then strncmp r1 r2 k
          else char_code c1 - char_code c2
      end
  end.

Definition strcmp (s1 s2 : string) : Z :=
  strncmp s1 s2 (S (Nat.max (String.length s1) (String.length s2))).

(** Conversion of a value to [int] (32 bits, two's complement). *)
Definition to_int (z : Z) : Z := (z + 2 ^ 31) mod 2 ^ 32 - 2 ^ 31.

(** Conversion of an [int] to [char] (8 bits, signed), as in
    [*(result+i) = res]. *)
Definition to_char (z : Z) : Z := (z + 2 ^ 7) mod 2 ^ 8 - 2 ^ 7.

(** [unsigned long long] arithmetic wraps modulo 2^64. *)
Definition u64_max : Z := 2 ^ 64 - 1.
Definition u64_add (a b : Z) : Z := (a + b) mod 2 ^ 64.

(** ** Static declarations *)

Definition FOLDER_PREFIX : string := "bloomd.".
Definition FOLDER_PREFIX_LEN : nat := String.length FOLDER_PREFIX.
Definition WARN_THRESHOLD : Z := 32.

(** [filter_bloomd_folders]: the [scandir] filter, on the entry's name. *)
Definition filter_bloomd_folders (d_name : string) : Z :=
  let name_len := to_int (strlen d_name) in
  if name_len <? 8 then 0
  else if strncmp d_name FOLDER_PREFIX FOLDER_PREFIX_LEN =? 0 then 1
  else 0.

(** [folder_name + FOLDER_PREFIX_LEN] *)
Fixpoint str_drop (n : nat) (s : string) : string :=
  match n, s with
  | O, _ => s
  | S k, EmptyString => EmptyString
  | S k, String _ r => str_drop k r
  end.

(** [scandir] with a filter and no comparison function: the entries the
    filter keeps (a non-zero answer), in the order of the directory;
    [None] is the failure of the scan. *)
Definition scandir (dir : option (list string)) (keep : string → Z)
  : option (list string) :=
  match dir with
  | None => None
  | Some entries => Some (List.filter (λ n, negb (keep n =? 0)) entries)
  end.

(** ** The underlying filter (filter.h) *)

Class FilterOps (bloom_filter : Type) := {
  filter_name : bloom_filter → string;
  in_memory : bloom_filter → bool;
  bloomf_is_proxied : bloom_filter → bool;
  (* 0 or 1, and -1 on error *)
  bloomf_contains : bloom_filter → string → Z;
  bloomf_add : bloom_filter → string → Z * bloom_filter;
  bloomf_flush : bloom_filter → bloom_filter;
  bloomf_close : bloom_filter → bloom_filter
}.

Section Manager.

Context {bloom_filter : Type} `{!FilterOps bloom_filter}.

(** ** Data model *)

Record bloom_filter_wrapper := mk_wrapper {
  is_active : bool;
  is_hot : bool;
  should_delete : bool;
  filter : bloom_filter;
  custom : option nat
}.

Record filtmgr_vsn := mk_vsn {
  vsn : Z;
  filter_map : gmap string nat;
  deleted : option nat;
  prev : option nat
}.

Record filtmgr_client := mk_client {
  id : nat;
  cl_vsn : Z
}.

(** What [delete_filter] does to the outside world. *)
Inductive event :=
  | Ev_bloomf_delete (f : bloom_filter)
  | Ev_bloomf_close (f : bloom_filter)
  | Ev_destroy_bloom_filter (f : bloom_filter)
  | Ev_free_config (c : nat).

(** The manager ([struct bloom_filtmgr]: [config], [latest], [clients])
    together with the heap of versions and wrappers and the log of the
    external calls of [delete_filter]. *)
Record bloom_filtmgr := mk_mgr {
  config : nat;
  latest : option nat;
  clients : list filtmgr_client;
  versions : gmap nat filtmgr_vsn;
  wrappers : gmap nat bloom_filter_wrapper;
  trace : list event
}.

Definition set_latest (p : option nat) (m : bloom_filtmgr) : bloom_filtmgr :=
  mk_mgr (config m) p (clients m) (versions m) (wrappers m) (trace m).

Definition set_clients (cs : list filtmgr_client) (m : bloom_filtmgr)
  : bloom_filtmgr :=
  mk_mgr (config m) (latest m) cs (versions m) (wrappers m) (trace m).

Definition set_versions (vs : gmap nat filtmgr_vsn) (m : bloom_filtmgr)
  : bloom_filtmgr :=
  mk_mgr (config m) (latest m) (clients m) vs (wrappers m) (trace m).

Definition set_wrappers (ws : gmap nat bloom_filter_wrapper)
  (m : bloom_filtmgr) : bloom_filtmgr :=
  mk_mgr (config m) (latest m) (clients m) (versions m) ws (trace m).

(** ** Outcomes and the state monad *)

Inductive outcome (A : Type) :=
  | Ret (a : A) (m : bloom_filtmgr)
  | Fault
  | NoFuel.
Arguments Ret {A} a m.
Arguments Fault {A}.
Arguments NoFuel {A}.

Definition M (A : Type) : Type := bloom_filtmgr → outcome A.

Definition ret {A} (a : A) : M A := λ m, Ret a m.

Definition bind {A B} (c : M A) (k : A → M B) : M B :=
  λ m, match c m with
       | Ret a m' => k a m'
       | Fault => Fault
       | NoFuel => NoFuel
       end.

Definition fault {A} : M A := λ _, Fault.
Definition nofuel {A} : M A := λ _, NoFuel.
Definition get : M bloom_filtmgr := λ m, Ret m m.
Definition modify (f : bloom_filtmgr → bloom_filtmgr) : M unit :=
  λ m, Ret tt (f m).

#[global] Instance M_ret : MRet M := @ret.
#[global] Instance M_bind : MBind M := λ A B k c, bind c k.

(** ** Heap accesses *)

(** [*p] for a version pointer. *)
Definition deref_vsn (p : option nat) : M filtmgr_vsn :=
  λ m, match p with
       | None => Fault
       | Some a =>
           match versions m !! a with
           | Some v => Ret v m
           | None => Fault
           end
       end.

(** A store through a version pointer. *)
Definition store_vsn (p : option nat) (v : filtmgr_vsn) : M unit :=
  _ ← deref_vsn p;
  match p with
  | None => fault
  | Some a => modify (λ m, set_versions (<[a := v]> (versions m)) m)
  end.

Definition deref_wrapper (w : nat) : M bloom_filter_wrapper :=
  λ m, match wrappers m !! w with
       | Some W => Ret W m
       | None => Fault
       end.

Definition store_wrapper (w : nat) (W : bloom_filter_wrapper) : M unit :=
  _ ← deref_wrapper w;
  modify (λ m, set_wrappers (<[w := W]> (wrappers m)) m).

(** [calloc] of a version / of a wrapper: an address that is not in
    use. *)
Definition alloc_vsn (v : filtmgr_vsn) : M nat :=
  λ m, let a := fresh (dom (versions m)) in
       Ret a (set_versions (<[a := v]> (versions m)) m).

Definition alloc_wrapper (W : bloom_filter_wrapper) : M nat :=
  λ m, let w := fresh (dom (wrappers m)) in
       Ret w (set_wrappers (<[w := W]> (wrappers m)) m).

Definition free_vsn (a : nat) : M unit :=
  _ ← deref_vsn (Some a);
  modify (λ m, set_versions (delete a (versions m)) m).

Definition free_wrapper (w : nat) : M unit :=
  _ ← deref_wrapper w;
  modify (λ m, set_wrappers (delete w (wrappers m)) m).

Definition emit (e : event) : M unit :=
  modify (λ m, mk_mgr (config m) (latest m) (clients m) (versions m)
                      (wrappers m) (trace m ++ [e])).

Definition set_is_active (b : bool) (W : bloom_filter_wrapper) :=
  mk_wrapper b (is_hot W) (should_delete W) (filter W) (custom W).
Definition set_is_hot (b : bool) (W : bloom_filter_wrapper) :=
  mk_wrapper (is_active W) b (should_delete W) (filter W) (custom W).
Definition set_should_delete (b : bool) (W : bloom_filter_wrapper) :=
  mk_wrapper (is_active W) (is_hot W) b (filter W) (custom W).
Definition set_filter (f : bloom_filter) (W : bloom_filter_wrapper) :=
  mk_wrapper (is_active W) (is_hot W) (should_delete W) f (custom W).

Definition set_filter_map (fm : gmap string nat) (v : filtmgr_vsn) :=
  mk_vsn (vsn v) fm (deleted v) (prev v).
Definition set_deleted (d : option nat) (v : filtmgr_vsn) :=
  mk_vsn (vsn v) (filter_map v) d (prev v).
Definition set_prev (p : option nat) (v : filtmgr_vsn) :=
  mk_vsn (vsn v) (filter_map v) (deleted v) p.

(** ** Static helpers *)

(** [take_filter]: the wrapper of the name, if it is there and active. *)
Definition take_filter (v : option nat) (name : string) : M (option nat) :=
  ver ← deref_vsn v;
  match filter_map ver !! name with
  | None => mret None
  | Some w =>
      W ← deref_wrapper w;
      mret (if is_active W then Some w else None)
  end.

(** [delete_filter]: delete or close, destroy, release the custom
    config, release the struct. *)
Definition delete_filter (w : nat) : M unit :=
  W ← deref_wrapper w;
  (if should_delete W
   then emit (Ev_bloomf_delete (filter W))
   else emit (Ev_bloomf_close (filter W)));;
  emit (Ev_destroy_bloom_filter (filter W));;
  match custom W with
  | Some c => emit (Ev_free_config c)
  | None => mret tt
  end;;
  free_wrapper w.

(** [add_filter]; [init_res] is what [init_bloom_filter] answers
    ([None]: a non-zero result).  The wrapper that is allocated and freed
    again on failure leaves no mark on the heap. *)
Definition add_filter (v : option nat) (name : string) (cfg : nat)
    (hot : bool) (init_res : option bloom_filter) : M Z :=
  m ← get;
  match init_res with
  | None => mret (-1)
  | Some f =>
      w ← alloc_wrapper
            (mk_wrapper true hot false f
               (if decide (config m = cfg) then None else Some cfg));
      ver ← deref_vsn v;
      store_vsn v (set_filter_map (<[name := w]> (filter_map ver)) ver);;
      mret 0
  end.

(** [create_new_version]; [art_copy_res] is the result of [art_copy].
    The new version is not installed. *)
Definition create_new_version (art_copy_res : Z) : M (option nat) :=
  m ← get;
  current ← deref_vsn (latest m);
  if negb (art_copy_res =? 0) then mret None
  else
    p ← alloc_vsn (mk_vsn (u64_add (vsn current) 1) (filter_map current)
                          None (latest m));
    mret (Some p).

(** [destroy_version] *)
Definition destroy_version (v : option nat) : M unit :=
  match v with
  | None => fault
  | Some a => free_vsn a
  end.

(** [clean_old_versions]: one unit of fuel per version visited. *)
Fixpoint clean_old_versions (fuel : nat) (v : option nat) (min_vsn : Z)
  : M Z :=
  match fuel with
  | O => nofuel
  | S k =>
      ver ← deref_vsn v;
      match prev ver with
      | Some _ =>
          r ← clean_old_versions k (prev ver) min_vsn;
          if negb (r =? 0) then store_vsn v (set_prev None ver)
          else mret tt
      | None => mret tt
      end;;
      ver ← deref_vsn v;
      if vsn ver >=? min_vsn then mret 0
      else
        match deleted ver with
        | Some w => delete_filter w
        | None => mret tt
        end;;
        destroy_version v;;
        mret 1
  end.

(** ** Client participation *)

Fixpoint update_client (tid : nat) (v : Z) (cs : list filtmgr_client)
  : option (list filtmgr_client) :=
  match cs with
  | [] => None
  | c :: r =>
      if decide (id c = tid) then Some (mk_client tid v :: r)
      else cons c <$> update_client tid v r
  end.

(** [filtmgr_client_checkpoint]; [tid] is [pthread_self()]. *)
Definition filtmgr_client_checkpoint (tid : nat) : M unit :=
  m ← get;
  lv ← deref_vsn (latest m);
  match update_client tid (vsn lv) (clients m) with
  | Some cs => modify (set_clients cs)
  | None => modify (set_clients (mk_client tid (vsn lv) :: clients m))
  end.

Fixpoint unlink_client (tid : nat) (cs : list filtmgr_client)
  : list filtmgr_client :=
  match cs with
  | [] => []
  | c :: r => if decide (id c = tid) then r else c :: unlink_client tid r
  end.

(** [filtmgr_client_leave] *)
Definition filtmgr_client_leave (tid : nat) : M unit :=
  m ← get;
  modify (set_clients (unlink_client tid (clients m))).

(** ** Read/write paths *)

(** [filtmgr_flush_filter] *)
Definition filtmgr_flush_filter (name : string) : M Z :=
  m ← get;
  filt ← take_filter (latest m) name;
  match filt with
  | None => mret (-1)
  | Some w =>
      W ← deref_wrapper w;
      store_wrapper w (set_filter (bloomf_flush (filter W)) W);;
      mret 0
  end.

(** The loop of [filtmgr_check_keys], [n] iterations left at index [i]:
    [res = bloomf_contains(..., keys[i]); if (res == -1) break;
     *(result+i) = res;].  An access outside [keys] or [result] is
    [None]. *)
Fixpoint check_loop (f : bloom_filter) (keys : list string) (n i : nat)
    (res : Z) (result : list Z) : option (Z * list Z) :=
  match n with
  | O => Some (res, result)
  | S k =>
      match keys !! i with
      | None => None
      | Some key =>
          let res := bloomf_contains f key in
          if res =? -1 then Some (res, result)
          else if decide (i < List.length result)%nat
               then check_loop f keys k (S i) res (<[i := to_char res]> result)
               else None
      end
  end.

(** [filtmgr_check_keys]: the return code and the result array. *)
Definition filtmgr_check_keys (name : string) (keys : list string)
    (num_keys : Z) (result : list Z) : M (Z * list Z) :=
  m ← get;
  filt ← take_filter (latest m) name;
  match filt with
  | None => mret (-1, result)
  | Some w =>
      W ← deref_wrapper w;
      match check_loop (filter W) keys (Z.to_nat num_keys) 0 0 result with
      | None => fault
      | Some (res, result') =>
          W ← deref_wrapper w;
          store_wrapper w (set_is_hot true W);;
          mret (if res =? -1 then -2 else 0, result')
      end
  end.

(** The loop of [filtmgr_set_keys]; [bloomf_add] changes the filter. *)
Fixpoint set_loop (f : bloom_filter) (keys : list string) (n i : nat)
    (res : Z) (result : list Z) : option (Z * list Z * bloom_filter) :=
  match n with
  | O => Some (res, result, f)
  | S k =>
      match keys !! i with
      | None => None
      | Some key =>
          let '(res, f') := bloomf_add f key in
          if res =? -1 then Some (res, result, f')
          else if decide (i < List.length result)%nat
               then set_loop f' keys k (S i) res (<[i := to_char res]> result)
               else None
      end
  end.

(** [filtmgr_set_keys] *)
Definition filtmgr_set_keys (name : string) (keys : list string)
    (num_keys : Z) (result : list Z) : M (Z * list Z) :=
  m ← get;
  filt ← take_filter (latest m) name;
  match filt with
  | None => mret (-1, result)
  | Some w =>
      W ← deref_wrapper w;
      match set_loop (filter W) keys (Z.to_nat num_keys) 0 0 result with
      | None => fault
      | Some (res, result', f') =>
          store_wrapper w (set_filter f' W);;
          W ← deref_wrapper w;
          store_wrapper w (set_is_hot true W);;
          mret (if res =? -1 then -2 else 0, result')
      end
  end.

(** ** Destructive operations *)

(** The scan for a pending delete in [filtmgr_create_filter], from
    [mgr->latest->prev] backwards. *)
Fixpoint scan_pending (fuel : nat) (v : option nat) (name : string)
  : M bool :=
  match v with
  | None => mret false
  | Some _ =>
      match fuel with
      | O => nofuel
      | S k =>
          ver ← deref_vsn v;
          match deleted ver with
          | Some w =>
              W ← deref_wrapper w;
              if strcmp (filter_name (filter W)) name =? 0 then mret true
              else scan_pending k (prev ver) name
          | None => scan_pending k (prev ver) name
          end
      end
  end.

(** [filtmgr_create_filter] *)
Definition filtmgr_create_filter (name : string) (custom_config : option nat)
    (art_copy_res : Z) (init_res : option bloom_filter) : M Z :=
  m ← get;
  lv ← deref_vsn (latest m);
  match filter_map lv !! name with
  | Some _ => mret (-1)
  | None =>
      pending ← scan_pending (size (versions m)) (prev lv) name;
      if (pending : bool) then mret (-3)
      else
        new_vsn ← create_new_version art_copy_res;
        let cfg := match custom_config with
                   | Some c => c
                   | None => config m
                   end in
        res ← add_filter new_vsn name cfg true init_res;
        if negb (res =? 0) then
          destroy_version new_vsn;;
          mret (-2)
        else
          modify (set_latest new_vsn);;
          mret res
  end.

(** [art_delete(&v->filter_map, name, ...)] *)
Definition art_delete (v : option nat) (name : string) : M unit :=
  ver ← deref_vsn v;
  store_vsn v (set_filter_map (delete name (filter_map ver)) ver).

(** [filtmgr_drop_filter] *)
Definition filtmgr_drop_filter (name : string) (art_copy_res : Z) : M Z :=
  m ← get;
  let current := latest m in
  filt ← take_filter current name;
  match filt with
  | None => mret (-1)
  | Some w =>
      (* non-active, and marked for deletion *)
      W ← deref_wrapper w;
      store_wrapper w (set_is_active false W);;
      W ← deref_wrapper w;
      store_wrapper w (set_should_delete true W);;
      (* a new version without this filter *)
      new_vsn ← create_new_version art_copy_res;
      art_delete new_vsn name;;
      cur ← deref_vsn current;
      store_vsn current (set_deleted (Some w) cur);;
      (* install it *)
      modify (set_latest new_vsn);;
      mret 0
  end.

(** [filtmgr_unmap_filter] *)
Definition filtmgr_unmap_filter (name : string) : M Z :=
  m ← get;
  filt ← take_filter (latest m) name;
  match filt with
  | None => mret (-1)
  | Some w =>
      W ← deref_wrapper w;
      (if negb (in_memory (filter W))
       then store_wrapper w (set_filter (bloomf_close (filter W)) W)
       else mret tt);;
      mret 0
  end.

(** [filtmgr_clear_filter] *)
Definition filtmgr_clear_filter (name : string) (art_copy_res : Z) : M Z :=
  m ← get;
  let current := latest m in
  filt ← take_filter current name;
  match filt with
  | None => mret (-1)
  | Some w =>
      W ← deref_wrapper w;
      if negb (bloomf_is_proxied (filter W)) then mret (-2)
      else
        (* non-active, closed rather than deleted when reclaimed *)
        W ← deref_wrapper w;
        store_wrapper w (set_is_active false W);;
        W ← deref_wrapper w;
        store_wrapper w (set_should_delete false W);;
        new_vsn ← create_new_version art_copy_res;
        art_delete new_vsn name;;
        cur ← deref_vsn current;
        store_vsn current (set_deleted (Some w) cur);;
        modify (set_latest new_vsn);;
        mret 0
  end.

(** ** Listings *)

(** [art_iter] / [art_iter_prefix] with a callback that threads the list
    head: the entries in the order of the index. *)
Fixpoint iter_entries (cb : list string → string → nat → M (list string))
    (entries : list (string * nat)) (head : list string) : M (list string) :=
  match entries with
  | [] => mret head
  | (key, value) :: r =>
      head' ← cb head key value;
      iter_entries cb r head'
  end.

Definition art_iter (t : gmap string nat)
    (cb : list string → string → nat → M (list string)) (head : list string)
  : M (list string) :=
  iter_entries cb (map_to_list t) head.

Definition art_iter_prefix (t : gmap string nat) (pfx : string)
    (cb : list string → string → nat → M (list string)) (head : list string)
  : M (list string) :=
  iter_entries cb
    (List.filter (λ kv, String.prefix pfx (fst kv)) (map_to_list t)) head.

(** [filter_map_list_cb] *)
Definition filter_map_list_cb (head : list string) (key : string)
    (value : nat) : M (list string) :=
  filt ← deref_wrapper value;
  if negb (is_active filt) then mret head
  else mret (key :: head).

(** [filter_map_list_cold_cb] *)
Definition filter_map_list_cold_cb (head : list string) (key : string)
    (value : nat) : M (list string) :=
  filt ← deref_wrapper value;
  if is_hot filt then
    store_wrapper value (set_is_hot false filt);;
    mret head
  else if bloomf_is_proxied (filter filt) then mret head
  else mret (key :: head).

(** [filtmgr_list_filters]: the return code and the list. *)
Definition filtmgr_list_filters (pfx : option string)
  : M (Z * list string) :=
  m ← get;
  current ← deref_vsn (latest m);
  h ← match pfx with
      | Some p => art_iter_prefix (filter_map current) p filter_map_list_cb []
      | None => art_iter (filter_map current) filter_map_list_cb []
      end;
  mret (0, h).

(** [filtmgr_list_cold_filters] *)
Definition filtmgr_list_cold_filters : M (Z * list string) :=
  m ← get;
  current ← deref_vsn (latest m);
  h ← art_iter (filter_map current) filter_map_list_cold_cb [];
  mret (0, h).

(** [filtmgr_filter_cb]; the callback gets the filter object. *)
Definition filtmgr_filter_cb (name : string)
    (cb : string → bloom_filter → bloom_filter) : M Z :=
  m ← get;
  filt ← take_filter (latest m) name;
  match filt with
  | None => mret (-1)
  | Some w =>
      W ← deref_wrapper w;
      store_wrapper w (set_filter (cb name (filter W)) W);;
      mret 0
  end.

(** ** Vacuum *)

(** The minimum over the clients, in [filtmgr_thread_main]. *)
Fixpoint min_client_vsn (cs : list filtmgr_client) (min_vsn : Z) : Z :=
  match cs with
  | [] => min_vsn
  | cl :: r =>
      min_client_vsn r (if cl_vsn cl <? min_vsn then cl_vsn cl else min_vsn)
  end.

(** One pass of the loop of [filtmgr_thread_main], after the sleep. *)
Definition filtmgr_thread_pass : M unit :=
  m ← get;
  let current := latest m in
  cur ← deref_vsn current;
  match prev cur with
  | None => mret tt
  | Some _ =>
      let min_vsn := min_client_vsn (clients m) (vsn cur) in
      clean_old_versions (size (versions m)) current min_vsn;;
      mret tt
  end.

(** [filtmgr_vacuum] *)
Definition filtmgr_vacuum : M unit :=
  m ← get;
  lv ← deref_vsn (latest m);
  clean_old_versions (size (versions m)) (latest m) (vsn lv);;
  mret tt.

(** ** Teardown *)

(** [filter_map_delete_cb]: the wrapper is released with [should_delete]
    cleared first ("delete, but not the underlying files").  The data
    argument is not used. *)
Definition filter_map_delete_cb (data : list string) (key : string)
    (value : nat) : M (list string) :=
  filt ← deref_wrapper value;
  store_wrapper value (set_should_delete false filt);;
  delete_filter value;;
  mret data.

(** The loop over the versions in [destroy_filter_manager], from
    [mgr->latest] backwards: the lingering delete, then the version. *)
Fixpoint destroy_versions (fuel : nat) (v : option nat) : M unit :=
  match v with
  | None => mret tt
  | Some _ =>
      match fuel with
      | O => nofuel
      | S k =>
          ver ← deref_vsn v;
          match deleted ver with
          | Some w => delete_filter w
          | None => mret tt
          end;;
          ver ← deref_vsn v;
          let next := prev ver in
          destroy_version v;;
          destroy_versions k next
      end
  end.

(** [destroy_filter_manager], the join of the vacuum thread apart.  The
    client records are freed; the manager struct, which is not an object
    of the heap of the model, keeps the pointer [latest] it had. *)
Definition destroy_filter_manager : M Z :=
  m ← get;
  current ← deref_vsn (latest m);
  art_iter (filter_map current) filter_map_delete_cb [];;
  m ← get;
  destroy_versions (size (versions m)) (latest m);;
  modify (set_clients []);;
  mret 0.

(** ** Loader and initializer *)

Fixpoint load_loop (names : list string)
    (init : string → option bloom_filter) : M unit :=
  match names with
  | [] => mret tt
  | folder_name :: r =>
      m ← get;
      let fname := str_drop FOLDER_PREFIX_LEN folder_name in
      add_filter (latest m) fname (config m) false (init fname);;
      load_loop r init
  end.

(** [load_existing_filters]; [dir] is the content of the data directory
    and [init] what [init_bloom_filter] answers for each name. *)
Definition load_existing_filters (dir : option (list string))
    (init : string → option bloom_filter) : M Z :=
  match scandir dir filter_bloomd_folders with
  | None => mret (-1)
  | Some namelist => load_loop namelist init;; mret 0
  end.

(** The manager after the allocations of [init_filter_manager]: version
    0 with an empty index. *)
Definition fresh_manager (cfg : nat) : bloom_filtmgr :=
  mk_mgr cfg (Some O) [] {[ O := mk_vsn 0 ∅ None None ]} ∅ [].

(** [init_filter_manager].  [art_init_res] is what [init_art_tree]
    returns and [thread_res] what [pthread_create] returns.  When
    [init_art_tree] fails the manager struct is freed, and the version
    that was allocated is not; when the vacuum thread cannot be started
    the manager is torn down again. *)
Definition init_filter_manager (cfg : nat) (art_init_res : Z)
    (dir : option (list string)) (init : string → option bloom_filter)
    (thread_res : Z) : outcome Z :=
  (if negb (art_init_res =? 0) then mret (-1)
   else
     load_existing_filters dir init;;
     if negb (thread_res =? 0) then
       destroy_filter_manager;;
       mret 1
     else mret 0) (fresh_manager cfg).

(** ** The manager as a state machine

    One call of the public interface, or one pass of the vacuum thread,
    with the arguments of the call and the answers of the environment. *)

Inductive op :=
  | Op_checkpoint (tid : nat)
  | Op_leave (tid : nat)
  | Op_flush (name : string)
  | Op_check_keys (name : string) (keys : list string) (num_keys : Z)
                  (result : list Z)
  | Op_set_keys (name : string) (keys : list string) (num_keys : Z)
                (result : list Z)
  | Op_create (name : string) (custom_config : option nat)
              (art_copy_res : Z) (init_res : option bloom_filter)
  | Op_drop (name : string) (art_copy_res : Z)
  | Op_unmap (name : string)
  | Op_clear (name : string) (art_copy_res : Z)
  | Op_list (pfx : option string)
  | Op_list_cold
  | Op_filter_cb (name : string) (cb : string → bloom_filter → bloom_filter)
  | Op_vacuum
  | Op_thread_pass.

Inductive answer :=
  | A_unit
  | A_code (code : Z)
  | A_keys (code : Z) (result : list Z)
  | A_list (code : Z) (names : list string).

Definition exec (o : op) : M answer :=
  match o with
  | Op_checkpoint tid => filtmgr_client_checkpoint tid;; mret A_unit
  | Op_leave tid => filtmgr_client_leave tid;; mret A_unit
  | Op_flush name => r ← filtmgr_flush_filter name; mret (A_code r)
  | Op_check_keys name keys num_keys result =>
      r ← filtmgr_check_keys name keys num_keys result;
      mret (A_keys (fst r) (snd r))
  | Op_set_keys name keys num_keys result =>
      r ← filtmgr_set_keys name keys num_keys result;
      mret (A_keys (fst r) (snd r))
  | Op_create name custom_config art_copy_res init_res =>
      r ← filtmgr_create_filter name custom_config art_copy_res init_res;
      mret (A_code r)
  | Op_drop name art_copy_res =>
      r ← filtmgr_drop_filter name art_copy_res; mret (A_code r)
  | Op_unmap name => r ← filtmgr_unmap_filter name; mret (A_code r)
  | Op_clear name art_copy_res =>
      r ← filtmgr_clear_filter name art_copy_res; mret (A_code r)
  | Op_list pfx => r ← filtmgr_list_filters pfx; mret (A_list (fst r) (snd r))
  | Op_list_cold =>
      r ← filtmgr_list_cold_filters; mret (A_list (fst r) (snd r))
  | Op_filter_cb name cb => r ← filtmgr_filter_cb name cb; mret (A_code r)
  | Op_vacuum => filtmgr_vacuum;; mret A_unit
  | Op_thread_pass => filtmgr_thread_pass;; mret A_unit
  end.

(** The states the manager can be in: what [init_filter_manager] builds,
    followed by [n] operations that return. *)
Inductive reachable_in : nat → bloom_filtmgr → Prop :=
  | reachable_init cfg art_init_res dir init thread_res m :
      init_filter_manager cfg art_init_res dir init thread_res = Ret 0 m →
      reachable_in O m
  | reachable_step n m o a m' :
      reachable_in n m →
      exec o m = Ret a m' →
      reachable_in (S n) m'.

End Manager.

Arguments Ret {bloom_filter A} a m.
Arguments Fault {bloom_filter A}.
Arguments NoFuel {bloom_filter A}.

(** ** A small filter, to run the manager on

    An exact set of keys, with a list of keys on which the filter
    reports an internal error. *)

Record toy_filter := mk_toy {
  toy_name : string;
  toy_in_memory : bool;
  toy_proxied : bool;
  toy_keys : list string;
  toy_bad : list string
}.

Definition toy_contains (f : toy_filter) (key : string) : Z :=
  if bool_decide (key ∈ toy_bad f) then -1
  else if bool_decide (key ∈ toy_keys f) then 1 else 0.

Definition toy_add (f : toy_filter) (key : string) : Z * toy_filter :=
  if bool_decide (key ∈ toy_bad f) then (-1, f)
  else if bool_decide (key ∈ toy_keys f) then (0, f)
  else (1, mk_toy (toy_name f) (toy_in_memory f) (toy_proxied f)
                  (key :: toy_keys f) (toy_bad f)).

#[global] Instance toy_ops : FilterOps toy_filter := {|
  filter_name := toy_name;
  in_memory := toy_in_memory;
  bloomf_is_proxied := toy_proxied;
  bloomf_contains := toy_contains;
  bloomf_add := toy_add;
  bloomf_flush := λ f, f;
  bloomf_close := λ f, f
|}.

Definition toy_init (bad : list string) (name : string) : option toy_filter :=
  Some (mk_toy name false false [] bad).


(** * Vocabulary of the properties *)

(** A C string holds no NUL character. *)
Fixpoint nul_free (s : string) : bool :=
  match s with
  | EmptyString => true
  | String c r => negb (Ascii.eqb c zero) && nul_free r
  end.

Section Vocabulary.
Context {bloom_filter : Type} `{!FilterOps bloom_filter}.

(** The version chain reached from the pointer [p] by following [prev]
    down to NULL: addresses and records, newest first.  That such a
    finite list exists says that the chain has no cycle. *)
Fixpoint is_chain (vs : gmap nat filtmgr_vsn) (p : option nat)
    (l : list (nat * filtmgr_vsn)) : Prop :=
  match l with
  | [] => p = None
  | (a, v) :: r => p = Some a ∧ vs !! a = Some v ∧ is_chain vs (prev v) r
  end.

(** Version numbers strictly increase from the tail to the head. *)
Definition vsn_increasing (l : list (nat * filtmgr_vsn)) : Prop :=
  Sorted (λ x y, vsn (snd y) < vsn (snd x)) l.

(** The wrappers parked in the [deleted] slots of a chain, newest first. *)
Definition chain_deleted (l : list (nat * filtmgr_vsn)) : list nat :=
  omap (λ x, deleted (snd x)) l.

(** Is a wrapper of that filter name parked on one of the versions? *)
Definition has_pending (ws : gmap nat bloom_filter_wrapper)
    (l : list (nat * filtmgr_vsn)) (name : string) : Prop :=
  ∃ a v w W, (a, v) ∈ l ∧ deleted v = Some w ∧ ws !! w = Some W ∧
             filter_name (filter W) = name.

(** The parked wrappers are allocated, and their names are C strings. *)
Definition deleted_ok (ws : gmap nat bloom_filter_wrapper)
    (l : list (nat * filtmgr_vsn)) : Prop :=
  ∀ a v w, (a, v) ∈ l → deleted v = Some w →
    ∃ W, ws !! w = Some W ∧ nul_free (filter_name (filter W)) = true.

(** The external calls [delete_filter] makes for a wrapper. *)
Definition reclaim_events (W : @bloom_filter_wrapper bloom_filter)
  : list (@event bloom_filter) :=
  (if should_delete W then Ev_bloomf_delete (filter W)
   else Ev_bloomf_close (filter W))
  :: Ev_destroy_bloom_filter (filter W)
  :: match custom W with
     | Some c => [Ev_free_config c]
     | None => []
     end.

End Vocabulary.

Section ReclaimVocabulary.
Context {bloom_filter : Type} `{!FilterOps bloom_filter}.

(** The versions of a chain that [clean_old_versions] reclaims for a
    threshold, and those it keeps. *)
Definition reclaimed (min_vsn : Z) (l : list (nat * filtmgr_vsn))
  : list (nat * filtmgr_vsn) :=
  base.filter (λ x, vsn (snd x) < min_vsn) l.

Definition survivors (min_vsn : Z) (l : list (nat * filtmgr_vsn))
  : list (nat * filtmgr_vsn) :=
  base.filter (λ x, min_vsn ≤ vsn (snd x)) l.

(** A chain whose oldest version has lost its [prev] link. *)
Fixpoint clear_last_prev (l : list (nat * filtmgr_vsn))
  : list (nat * filtmgr_vsn) :=
  match l with
  | [] => []
  | (a, v) :: r =>
      match r with
      | [] => [(a, set_prev None v)]
      | _ :: _ => (a, v) :: clear_last_prev r
      end
  end.

(** The heap of versions without the versions of a list. *)
Definition free_versions (vs : gmap nat filtmgr_vsn)
    (l : list (nat * filtmgr_vsn)) : gmap nat filtmgr_vsn :=
  foldr (λ x acc, delete (fst x) acc) vs l.

(** The heap of wrappers without the wrappers of a list. *)
Definition free_wrappers (ws : gmap nat (@bloom_filter_wrapper bloom_filter))
    (l : list nat) : gmap nat bloom_filter_wrapper :=
  foldr delete ws l.

(** The external calls made for the parked wrapper of a version. *)
Definition version_events (ws : gmap nat (@bloom_filter_wrapper bloom_filter))
    (x : nat * filtmgr_vsn) : list event :=
  match deleted (snd x) with
  | Some w =>
      match ws !! w with
      | Some W => reclaim_events W
      | None => []
      end
  | None => []
  end.

(** ... and for the versions of a list, the oldest first. *)
Definition reclaim_log (ws : gmap nat (@bloom_filter_wrapper bloom_filter))
    (l : list (nat * filtmgr_vsn)) : list event :=
  flat_map (version_events ws) (reverse l).

(** The versions kept, with the oldest of them cut from what was
    reclaimed behind it. *)
Definition cut_after (S : list (nat * filtmgr_vsn))
    (vs : gmap nat filtmgr_vsn) : gmap nat filtmgr_vsn :=
  match last S with
  | Some (a, v) => <[a := set_prev None v]> vs
  | None => vs
  end.

End ReclaimVocabulary.

Section KeysVocabulary.
Context {bloom_filter : Type} `{!FilterOps bloom_filter}.

(** The answers of the filter to a batch of membership checks. *)
Definition contains_answers (f : bloom_filter) (keys : list string) : list Z :=
  map (bloomf_contains f) keys.

(** The answers of the filter to a batch of additions, each made on the
    filter the previous ones left. *)
Fixpoint add_answers (f : bloom_filter) (keys : list string) : list Z :=
  match keys with
  | [] => []
  | key :: r => fst (bloomf_add f key) :: add_answers (snd (bloomf_add f key)) r
  end.

(** The first internal error of a batch is at index [e]. *)
Definition first_error (answers : list Z) (e : nat) : Prop :=
  answers !! e = Some (-1) ∧ ∀ j, (j < e)%nat → answers !! j ≠ Some (-1).

Definition no_error (answers : list Z) : Prop :=
  ∀ j, answers !! j ≠ Some (-1).

(** Both loops, over the call made on each key. *)
Fixpoint keys_loop (op : bloom_filter → string → Z * bloom_filter)
    (f : bloom_filter) (keys : list string) (n i : nat)
    (res : Z) (result : list Z) : option (Z * list Z * bloom_filter) :=
  match n with
  | O => Some (res, result, f)
  | S k =>
      match keys !! i with
      | None => None
      | Some key =>
          let '(res, f') := op f key in
          if res =? -1 then Some (res, result, f')
          else if decide (i < List.length result)%nat
               then keys_loop op f' keys k (S i) res
                              (<[i := to_char res]> result)
               else None
      end
  end.

Fixpoint op_answers (op : bloom_filter → string → Z * bloom_filter)
    (f : bloom_filter) (keys : list string) : list Z :=
  match keys with
  | [] => []
  | key :: r => fst (op f key) :: op_answers op (snd (op f key)) r
  end.

(** What the cold sweep may do to the heap of wrappers: clear [is_hot],
    nothing else. *)
Definition cooled (ws ws' : gmap nat (@bloom_filter_wrapper bloom_filter))
  : Prop :=
  ∀ v, match ws !! v, ws' !! v with
       | Some V, Some V' => V' = V ∨ (is_hot V = true ∧ V' = set_is_hot false V)
       | None, None => True
       | _, _ => False
       end.

End KeysVocabulary.

Section EffectVocabulary.
Context {bloom_filter : Type} `{!FilterOps bloom_filter}.
Implicit Types m : @bloom_filtmgr bloom_filter.

(** An operation that at most replaces the filter object of a wrapper. *)
Definition tweaks_filter m m' : Prop :=
  m' = m ∨
  ∃ w W f, wrappers m !! w = Some W ∧
           m' = set_wrappers (<[w := set_filter f W]> (wrappers m)) m.

(** What [filtmgr_drop_filter] and [filtmgr_clear_filter] both do once
    they have the wrapper, with the value they give [should_delete]. *)
Definition retire_filter (current : option nat) (w : nat) (name : string)
    (del : bool) (art_copy_res : Z) : @M bloom_filter Z :=
  W ← deref_wrapper w;
  store_wrapper w (set_is_active false W);;
  W ← deref_wrapper w;
  store_wrapper w (set_should_delete del W);;
  new_vsn ← create_new_version art_copy_res;
  art_delete new_vsn name;;
  cur ← deref_vsn current;
  store_vsn current (set_deleted (Some w) cur);;
  modify (set_latest new_vsn);;
  mret 0.

(** The state drop and clear leave when they retire a wrapper. *)
Definition retired m a lv w W (name : string) (del : bool) : bloom_filtmgr :=
  mk_mgr (config m) (Some (fresh (dom (versions m)))) (clients m)
    (<[a := set_deleted (Some w) lv]>
       (<[fresh (dom (versions m)) :=
            mk_vsn (u64_add (vsn lv) 1) (delete name (filter_map lv))
                   None (Some a)]> (versions m)))
    (<[w := mk_wrapper false (is_hot W) del (filter W) (custom W)]>
       (wrappers m))
    (trace m).

(** What a reclaiming pass may do besides freeing versions: free
    wrappers and log. *)
Definition vacuumed m m' : Prop :=
  config m' = config m ∧ latest m' = latest m ∧ clients m' = clients m ∧
  ∀ w W, wrappers m' !! w = Some W → wrappers m !! w = Some W.

(** The invariant of the version chain after [n] operations: a chain from
    [latest] exists, its numbers strictly increase towards [latest] and
    lie between 0 and [n]. *)
Definition chain_inv (n : nat) m : Prop :=
  ∃ l, l ≠ [] ∧ is_chain (versions m) (latest m) l ∧ vsn_increasing l ∧
       ∀ a v, (a, v) ∈ l → 0 ≤ vsn v ≤ Z.of_nat n.

(** A manager with a single version, numbered [n], whose index holds at
    most the name ["foo"], with an active wrapper. *)
Definition single_version (n : Z) m : Prop :=
  ∃ a lv,
    latest m = Some a ∧ versions m = {[ a := lv ]} ∧
    vsn lv = n ∧ prev lv = None ∧ deleted lv = None ∧
    (filter_map lv !! "foo"%string = None ∨
     ∃ w W, filter_map lv !! "foo"%string = Some w ∧
            wrappers m !! w = Some W ∧ is_active W = true).

(** The operations that install versions. *)
Definition destructive (o : @op bloom_filter) : bool :=
  match o with
  | Op_create _ _ _ _ | Op_drop _ _ | Op_clear _ _ => true
  | _ => false
  end.

(** The operations that carry key traffic to the filter of a name. *)
Definition key_traffic (o : @op bloom_filter) (name : string) : Prop :=
  match o with
  | Op_check_keys n _ _ _ | Op_set_keys n _ _ _ => n = name
  | _ => False
  end.

(** The effect of an operation that returns. *)
Inductive effect (o : @op bloom_filter) m (ans : answer) m' : Prop :=
  | eff_none :
      m' = m → effect o m ans m'
  | eff_clients cs :
      m' = set_clients cs m → effect o m ans m'
  | eff_tweak :
      tweaks_filter m m' → effect o m ans m'
  | eff_keys name w W f code result' :
      key_traffic o name →
      take_filter (latest m) name m = Ret (Some w) m →
      wrappers m !! w = Some W →
      code = 0 ∨ code = -2 →
      ans = A_keys code result' →
      m' = set_wrappers
             (<[w := set_is_hot true (set_filter f W)]> (wrappers m)) m →
      effect o m ans m'
  | eff_create name cc r a lv f c :
      o = Op_create name cc r (Some f) →
      ans = A_code 0 →
      latest m = Some a →
      versions m !! a = Some lv →
      m' = mk_mgr (config m) (Some (fresh (dom (versions m)))) (clients m)
             (<[fresh (dom (versions m)) :=
                  mk_vsn (u64_add (vsn lv) 1)
                         (<[name := fresh (dom (wrappers m))]> (filter_map lv))
                         None (Some a)]> (versions m))
             (<[fresh (dom (wrappers m)) := mk_wrapper true true false f c]>
                (wrappers m))
             (trace m) →
      effect o m ans m'
  | eff_retire name a lv w W del :
      destructive o = true →
      latest m = Some a →
      versions m !! a = Some lv →
      wrappers m !! w = Some W →
      m' = retired m a lv w W name del →
      effect o m ans m'
  | eff_cold ws' :
      o = Op_list_cold →
      m' = set_wrappers ws' m →
      cooled (wrappers m) ws' →
      effect o m ans m'
  | eff_clean a lv fuel min_vsn r :
      latest m = Some a →
      versions m !! a = Some lv →
      min_vsn ≤ vsn lv →
      clean_old_versions fuel (latest m) min_vsn m = Ret r m' →
      effect o m ans m'.

End EffectVocabulary.

(** ** Concrete managers, on the small filter *)

(** The manager after a list of operations (one that does not return
    ends the run). *)
Fixpoint after (ops : list (@op toy_filter)) (m : @bloom_filtmgr toy_filter)
  : @bloom_filtmgr toy_filter :=
  match ops with
  | [] => m
  | o :: r =>
      match exec o m with
      | Ret _ m' => after r m'
      | _ => m
      end
  end.

(** A fresh manager on an empty directory, with the filter ["foo"]
    created ... *)
Definition toy_created : @bloom_filtmgr toy_filter :=
  after [Op_create "foo" None 0 (toy_init ["bad"] "foo")] (fresh_manager 7).

(** ... and then dropped: three versions, the wrapper of ["foo"] parked on
    the second. *)
Definition toy_dropped : @bloom_filtmgr toy_filter :=
  after [Op_drop "foo" 0] toy_created.

Definition toy_v0 : filtmgr_vsn := mk_vsn 0 ∅ None None.
Definition toy_v1 : filtmgr_vsn :=
  mk_vsn 1 {[ "foo"%string := O ]} None (Some O).
Definition toy_v1_parked : filtmgr_vsn :=
  mk_vsn 1 {[ "foo"%string := O ]} (Some O) (Some O).
Definition toy_v2 : filtmgr_vsn := mk_vsn 2 ∅ None (Some 1%nat).

Definition toy_chain : list (nat * filtmgr_vsn) :=
  [(2%nat, toy_v2); (1%nat, toy_v1_parked); (O, toy_v0)].

(** The wrapper of ["foo"] in [toy_created]. *)
Definition toy_wrapper : @bloom_filter_wrapper toy_filter :=
  mk_wrapper true true false (mk_toy "foo" false false [] ["bad"]) None.

(** A manager whose data directory held the folder [bloomd.f]: the
    loader's wrapper is cold. *)
Definition toy_loaded : @bloom_filtmgr toy_filter :=
  match init_filter_manager 7 0 (Some ["bloomd.f"%string; "other"%string])
          (toy_init ["bad"]) 0 with
  | Ret _ m => m
  | _ => fresh_manager 7
  end.

Definition toy_cold_wrapper : @bloom_filter_wrapper toy_filter :=
  mk_wrapper true false false (mk_toy "f" false false [] ["bad"]) None.

(** A batch on it that errs ... *)
Definition toy_batch : @op toy_filter :=
  Op_check_keys "f" ["bad"]%string 1 [9].

(** ... and the manager after it. *)
Definition toy_loaded_checked : @bloom_filtmgr toy_filter :=
  after [toy_batch] toy_loaded.

(** [toy_created] as a reader may see it in the middle of a drop: the
    wrapper is still in the index of [latest], inactive (and cold). *)
Definition toy_inactive : @bloom_filtmgr toy_filter :=
  set_wrappers
    {[ O := mk_wrapper false false true (mk_toy "foo" false false [] ["bad"])
                       None ]}
    toy_created.

(** A manager whose version counter is at its maximum. *)
Definition toy_last_vsn : @bloom_filtmgr toy_filter :=
  mk_mgr 7 (Some O) []
         {[ O := mk_vsn u64_max {[ "foo"%string := O ]} None None ]}
         {[ O := toy_wrapper ]} [].

(** ** Well-formed heaps *)

Section HeapVocabulary.
Context {bloom_filter : Type} `{!FilterOps bloom_filter}.
Implicit Types m : @bloom_filtmgr bloom_filter.
Implicit Types ws : gmap nat (@bloom_filter_wrapper bloom_filter).

(** An index names allocated, active wrappers, and no wrapper under two
    names. *)
Definition index_ok ws (fm : gmap string nat) : Prop :=
  (∀ k w, fm !! k = Some w →
     ∃ W, ws !! w = Some W ∧ is_active W = true) ∧
  (∀ k1 k2 w, fm !! k1 = Some w → fm !! k2 = Some w → k1 = k2).

(** The wrappers parked on the versions of a list are allocated, inactive
    and pairwise distinct. *)
Definition parked_ok ws (l : list (nat * filtmgr_vsn)) : Prop :=
  NoDup (chain_deleted l) ∧
  ∀ w, w ∈ chain_deleted l → ∃ W, ws !! w = Some W ∧ is_active W = false.

(** The shape of the heap between two operations: [latest] heads a chain
    of allocated versions that ends at NULL; it parks nothing itself; its
    index is as [index_ok] says; the older versions are as [parked_ok]
    says. *)
Definition mgr_wf m : Prop :=
  ∃ a lv l,
    is_chain (versions m) (latest m) ((a, lv) :: l) ∧
    deleted lv = None ∧
    index_ok (wrappers m) (filter_map lv) ∧
    parked_ok (wrappers m) l.

(** Nothing is allocated that [latest] does not reach: every version is
    on the chain, and every wrapper is in the index of [latest] or
    parked on an older version. *)
Definition mgr_tight m : Prop :=
  ∃ a lv l,
    is_chain (versions m) (latest m) ((a, lv) :: l) ∧
    (∀ b, is_Some (versions m !! b) → b ∈ ((a, lv) :: l).*1) ∧
    (∀ w, is_Some (wrappers m !! w) →
       (∃ k, filter_map lv !! k = Some w) ∨ w ∈ chain_deleted l).

(** Two heaps of wrappers with the same addresses and the same
    [is_active] flags. *)
Definition same_active ws ws' : Prop :=
  ∀ w, match ws !! w, ws' !! w with
       | Some V, Some V' => is_active V' = is_active V
       | None, None => True
       | _, _ => False
       end.

(** The registry of clients: one record per thread, none ahead of
    [latest]. *)
Definition clients_ok m : Prop :=
  NoDup (id <$> clients m) ∧
  ∃ a lv, latest m = Some a ∧ versions m !! a = Some lv ∧
          ∀ c, c ∈ clients m → cl_vsn c ≤ vsn lv.

(** The calls whose arguments and environment are as the code expects:
    the key and result arrays hold [num_keys] entries, and the copy of
    the index succeeds. *)
Definition op_ok (o : @op bloom_filter) : Prop :=
  match o with
  | Op_check_keys _ keys num_keys result
  | Op_set_keys _ keys num_keys result =>
      (Z.to_nat num_keys ≤ List.length keys)%nat ∧
      (Z.to_nat num_keys ≤ List.length result)%nat
  | Op_create _ _ art_copy_res _ | Op_drop _ art_copy_res
  | Op_clear _ art_copy_res => art_copy_res = 0
  | _ => True
  end.

(** [n] operations lead from one manager to another. *)
Inductive steps : nat → bloom_filtmgr → bloom_filtmgr → Prop :=
  | steps_refl m : steps O m m
  | steps_step n m0 m o a m' :
      steps n m0 m → exec o m = Ret a m' → steps (S n) m0 m'.

End HeapVocabulary.

(** ** Teardown vocabulary *)

Section TeardownVocabulary.
Context {bloom_filter : Type} `{!FilterOps bloom_filter}.

(** The external calls [filter_map_delete_cb] makes over the entries of
    an index: those of [delete_filter] on each wrapper, with
    [should_delete] cleared. *)
Definition close_log (ws : gmap nat (@bloom_filter_wrapper bloom_filter))
    (entries : list (string * nat)) : list event :=
  flat_map (λ kv, match ws !! snd kv with
                  | Some W => reclaim_events (set_should_delete false W)
                  | None => []
                  end) entries.

(** The external calls for the wrappers parked on a chain, the newest
    version first (the order of [destroy_filter_manager]). *)
Definition parked_log (ws : gmap nat (@bloom_filter_wrapper bloom_filter))
    (l : list (nat * filtmgr_vsn)) : list event :=
  flat_map (version_events ws) l.

(** Is the event a call of [bloomf_delete]? *)
Definition is_bloomf_delete (e : @event bloom_filter) : bool :=
  match e with
  | Ev_bloomf_delete _ => true
  | _ => false
  end.

End TeardownVocabulary.

(** ** More concrete managers *)

(** The older versions of [toy_dropped]. *)
Definition toy_older : list (nat * filtmgr_vsn) :=
  [(1%nat, toy_v1_parked); (O, toy_v0)].

(** [toy_dropped] with a client that checkpointed at version 1. *)
Definition toy_watched : @bloom_filtmgr toy_filter :=
  set_clients [mk_client 5 1] toy_dropped.

(** [toy_dropped] where thread 5 checkpointed before the drop and
    thread 6 after it. *)
Definition toy_two_clients : @bloom_filtmgr toy_filter :=
  set_clients [mk_client 6 2; mk_client 5 1] toy_dropped.

(** The folders of [toy_loaded]. *)
Definition toy_dir : option (list string) :=
  Some ["bloomd.f"%string; "other"%string].

(** A manager whose only filter, ["p"], is proxied. *)
Definition toy_proxied_mgr : @bloom_filtmgr toy_filter :=
  after [Op_create "p" (Some 9%nat) 0 (Some (mk_toy "p" false true [] []))]
        (fresh_manager 7).
(** * Properties *)

(** ** The loader's directory filter *)

Lemma char_code_inj c1 c2 : char_code c1 = char_code c2 → c1 = c2.
Proof.
  unfold char_code. intros H%Nat2Z.inj.
  rewrite <- (ascii_nat_embedding c1), <- (ascii_nat_embedding c2).
  by rewrite H.
Qed.

Lemma char_code_bounds c : 0 ≤ char_code c < 256.
Proof.
  unfold char_code. pose proof (nat_ascii_bounded c). lia.
Qed.

(** [strncmp] against a whole NUL-free string is a prefix test. *)
Lemma strncmp_prefix (p s : string) :
  nul_free p = true →
  strncmp s p (String.length p) = 0 ↔ String.prefix p s = true.
Proof.
  revert s. induction p as [|c p IH]; intros s Hp; simpl.
  - by destruct s.
  - apply andb_true_iff in Hp as [Hc Hp].
    destruct s as [|c' s]; simpl.
    + split; [|done]. intros Hz.
      assert (char_code c = char_code zero) as ->%char_code_inj
        by (change (char_code zero) with 0; lia).
      done.
    + destruct (Ascii.eqb_spec c' c) as [->|Hne].
      * destruct (ascii_dec c c) as [_|]; [|done]. by apply IH.
      * destruct (ascii_dec c c') as [->|_]; [done|].
        split; [|done]. intros Hz.
        destruct Hne. apply char_code_inj. lia.
Qed.

Lemma to_int_small z : 0 ≤ z < 2 ^ 31 → to_int z = z.
Proof.
  intros Hz. unfold to_int.
  rewrite Z.mod_small; lia.
Qed.

Lemma filter_bloomd_folders_iff (name : string) :
  (String.length name < 256)%nat →
  filter_bloomd_folders name = 1 ↔
  String.prefix FOLDER_PREFIX name = true ∧ (8 ≤ String.length name)%nat.
Proof.
  intros Hlen. unfold filter_bloomd_folders.
  rewrite to_int_small by (unfold strlen; lia).
  unfold strlen. destruct (Z.ltb_spec (Z.of_nat (String.length name)) 8).
  - split; [done|]. lia.
  - pose proof (strncmp_prefix FOLDER_PREFIX name eq_refl) as Hp.
    fold FOLDER_PREFIX_LEN in Hp.
    destruct (Z.eqb_spec (strncmp name FOLDER_PREFIX FOLDER_PREFIX_LEN) 0)
      as [Hz|Hz].
    + split; [|done]. intros _. split; [by apply Hp|lia].
    + split; [done|]. intros [Hpre _]. by apply Hp in Hpre.
Qed.

Lemma filter_bloomd_folders_01 (name : string) :
  filter_bloomd_folders name = 0 ∨ filter_bloomd_folders name = 1.
Proof.
  unfold filter_bloomd_folders.
  destruct (_ <? 8); [by left|]. destruct (_ =? 0); auto.
Qed.

Lemma str_drop_nonempty (n : nat) (s : string) :
  (n < String.length s)%nat → str_drop n s ≠ EmptyString.
Proof.
  revert s. induction n as [|n IH]; intros [|c s]; simpl; try lia.
  - done.
  - intros Hlt. apply IH. lia.
Qed.

(** ** Running the monad *)

Section Run.
Context {bloom_filter : Type} `{!FilterOps bloom_filter}.
Implicit Types m : @bloom_filtmgr bloom_filter.

Lemma bind_eq {A B} (c : M A) (k : A → M B) m :
  (c ≫= k) m = match c m with
               | Ret a m' => k a m'
               | Fault => Fault
               | NoFuel => NoFuel
               end.
Proof. reflexivity. Qed.

Lemma bind_run {A B} (c : M A) (k : A → M B) m a m' :
  c m = Ret a m' → (c ≫= k) m = k a m'.
Proof. intros H. by rewrite bind_eq, H. Qed.

Lemma bind_inv {A B} (c : M A) (k : A → M B) m b m'' :
  (c ≫= k) m = Ret b m'' →
  ∃ a m', c m = Ret a m' ∧ k a m' = Ret b m''.
Proof. rewrite bind_eq. destruct (c m); naive_solver. Qed.

Lemma deref_vsn_run m a v :
  versions m !! a = Some v → deref_vsn (Some a) m = Ret v m.
Proof. intros H. unfold deref_vsn. by rewrite H. Qed.

Lemma deref_vsn_inv m p v m' :
  deref_vsn p m = Ret v m' →
  m' = m ∧ ∃ a, p = Some a ∧ versions m !! a = Some v.
Proof.
  unfold deref_vsn. destruct p as [a|]; [|done].
  destruct (versions m !! a) eqn:E; [|done]. naive_solver.
Qed.

Lemma deref_wrapper_run m w W :
  wrappers m !! w = Some W → deref_wrapper w m = Ret W m.
Proof. intros H. unfold deref_wrapper. by rewrite H. Qed.

Lemma deref_wrapper_inv m w W m' :
  deref_wrapper w m = Ret W m' → m' = m ∧ wrappers m !! w = Some W.
Proof.
  unfold deref_wrapper. destruct (wrappers m !! w) eqn:E; naive_solver.
Qed.

Lemma store_vsn_run m a v0 v :
  versions m !! a = Some v0 →
  store_vsn (Some a) v m = Ret tt (set_versions (<[a := v]> (versions m)) m).
Proof.
  intros H. unfold store_vsn. by rewrite (bind_run _ _ _ _ _ (deref_vsn_run _ _ _ H)).
Qed.

Lemma store_wrapper_run m w W0 W :
  wrappers m !! w = Some W0 →
  store_wrapper w W m = Ret tt (set_wrappers (<[w := W]> (wrappers m)) m).
Proof.
  intros H. unfold store_wrapper.
  by rewrite (bind_run _ _ _ _ _ (deref_wrapper_run _ _ _ H)).
Qed.

Lemma free_vsn_run m a v0 :
  versions m !! a = Some v0 →
  free_vsn a m = Ret tt (set_versions (delete a (versions m)) m).
Proof.
  intros H. unfold free_vsn. by rewrite (bind_run _ _ _ _ _ (deref_vsn_run _ _ _ H)).
Qed.

Lemma free_wrapper_run m w W0 :
  wrappers m !! w = Some W0 →
  free_wrapper w m = Ret tt (set_wrappers (delete w (wrappers m)) m).
Proof.
  intros H. unfold free_wrapper.
  by rewrite (bind_run _ _ _ _ _ (deref_wrapper_run _ _ _ H)).
Qed.

Lemma ret_bind {A B} (a : A) (k : A → M B) m : (mret a ≫= k) m = k a m.
Proof. reflexivity. Qed.

Lemma bind_bind_run {A B C} (c : M A) (k : A → M B) (k2 : B → M C)
    m a m1 b m2 :
  c m = Ret a m1 → k a m1 = Ret b m2 → ((c ≫= k) ≫= k2) m = k2 b m2.
Proof. intros H1 H2. by rewrite bind_eq, (bind_run _ _ _ _ _ H1), H2. Qed.

Lemma get_bind {B} (k : bloom_filtmgr → M B) m : (get ≫= k) m = k m m.
Proof. reflexivity. Qed.

Lemma add_filter_run m a v name cfg hot f :
  versions m !! a = Some v →
  add_filter (Some a) name cfg hot (Some f) m =
  Ret 0 (mk_mgr (config m) (latest m) (clients m)
           (<[a := set_filter_map
                     (<[name := fresh (dom (wrappers m))]> (filter_map v)) v]>
              (versions m))
           (<[fresh (dom (wrappers m)) :=
                mk_wrapper true hot false f
                  (if decide (config m = cfg) then None else Some cfg)]>
              (wrappers m))
           (trace m)).
Proof.
  intros Hv. unfold add_filter. rewrite get_bind.
  erewrite bind_run by reflexivity.
  set (m1 := set_wrappers _ m).
  assert (versions m1 !! a = Some v) as Hv1 by done.
  rewrite (bind_run _ _ _ _ _ (deref_vsn_run _ _ _ Hv1)).
  by rewrite (bind_run _ _ _ _ _ (store_vsn_run _ _ _ _ Hv1)).
Qed.

Lemma add_filter_init_fails m p name cfg hot :
  add_filter p name cfg hot None m = Ret (-1) m.
Proof. reflexivity. Qed.

Lemma add_filter_null m name cfg hot init_res :
  add_filter None name cfg hot init_res m =
  match init_res with Some _ => Fault | None => Ret (-1) m end.
Proof. by destruct init_res. Qed.

Lemma take_filter_run m a v name :
  versions m !! a = Some v →
  take_filter (Some a) name m =
  match filter_map v !! name with
  | None => Ret None m
  | Some w =>
      match wrappers m !! w with
      | Some W => Ret (if is_active W then Some w else None) m
      | None => Fault
      end
  end.
Proof.
  intros H. unfold take_filter.
  rewrite (bind_run _ _ _ _ _ (deref_vsn_run _ _ _ H)).
  destruct (filter_map v !! name) as [w|]; [|done].
  rewrite bind_eq. unfold deref_wrapper. by destruct (wrappers m !! w).
Qed.

(** What a successful [take_filter] on [latest] says about the state. *)
Lemma take_filter_Some m name w m' :
  take_filter (latest m) name m = Ret (Some w) m' →
  m' = m ∧ ∃ a v W, latest m = Some a ∧ versions m !! a = Some v ∧
    filter_map v !! name = Some w ∧ wrappers m !! w = Some W ∧
    is_active W = true.
Proof.
  unfold take_filter. intros (v & m1 & [-> (a & Ha & Hv)]%deref_vsn_inv & H)%bind_inv.
  destruct (filter_map v !! name) as [w'|] eqn:Hn; [|done].
  apply bind_inv in H as (W & m2 & [-> HW]%deref_wrapper_inv & H).
  destruct (is_active W) eqn:Hact; [|done].
  injection H as -> ->. split; [done|]. by exists a, v, W.
Qed.

End Run.


(** ** C strings and the version chain *)

Lemma strncmp_eq (s1 s2 : string) (n : nat) :
  nul_free s1 = true → nul_free s2 = true →
  (String.length s1 < n)%nat →
  strncmp s1 s2 n = 0 ↔ s1 = s2.
Proof.
  revert s2 n. induction s1 as [|c1 s1 IH]; intros s2 n H1 H2 Hn.
  - destruct n as [|n]; [simpl in Hn; lia|].
    destruct s2 as [|c2 s2]; simpl; [done|].
    simpl in H2. apply andb_true_iff in H2 as [Hc _].
    split; [|done]. intros Hz.
    assert (char_code c2 = char_code zero) as ->%char_code_inj
      by (change (char_code zero) with 0; lia).
    done.
  - destruct n as [|n]; [simpl in Hn; lia|].
    simpl in H1. apply andb_true_iff in H1 as [Hc H1].
    destruct s2 as [|c2 s2]; simpl.
    + split; [|done]. intros Hz.
      assert (char_code c1 = char_code zero) as ->%char_code_inj
        by (change (char_code zero) with 0; lia).
      done.
    + simpl in H2. apply andb_true_iff in H2 as [_ H2].
      destruct (Ascii.eqb_spec c1 c2) as [->|Hne].
      * rewrite IH by (simpl in Hn; auto with lia).
        split; [by intros ->|by intros [= ->]].
      * split; [|by intros [= ? ?]]. intros Hz.
        destruct Hne. apply char_code_inj. lia.
Qed.

Lemma strcmp_eq (s1 s2 : string) :
  nul_free s1 = true → nul_free s2 = true →
  strcmp s1 s2 = 0 ↔ s1 = s2.
Proof.
  intros H1 H2. unfold strcmp. apply strncmp_eq; [done..|lia].
Qed.

Section Chain.
Context {bloom_filter : Type} `{!FilterOps bloom_filter}.
Implicit Types m : @bloom_filtmgr bloom_filter.
Implicit Types l : list (nat * filtmgr_vsn).
Implicit Types vs : gmap nat filtmgr_vsn.

Lemma is_chain_lookup vs p l a v :
  is_chain vs p l → (a, v) ∈ l → vs !! a = Some v.
Proof.
  revert p. induction l as [|[a' v'] l IH]; intros p Hc Hin.
  - by apply elem_of_nil in Hin.
  - destruct Hc as (_ & Hv & Hc).
    apply elem_of_cons in Hin as [[= -> ->]|Hin]; [done|].
    by apply (IH (prev v')).
Qed.

(** The chain from a pointer is determined by the heap. *)
Lemma is_chain_det vs p l1 l2 :
  is_chain vs p l1 → is_chain vs p l2 → l1 = l2.
Proof.
  revert p l2. induction l1 as [|[a v] l1 IH]; intros p [|[a' v'] l2] H1 H2;
    simpl in *.
  - done.
  - destruct H2 as (? & _). congruence.
  - destruct H1 as (? & _). congruence.
  - destruct H1 as (-> & Hv & H1), H2 as ([= <-] & Hv' & H2).
    assert (v' = v) as -> by congruence.
    f_equal. by apply (IH (prev v)).
Qed.

Lemma is_chain_suffix vs p l a v :
  is_chain vs p l → (a, v) ∈ l →
  ∃ l1 l2, l = l1 ++ (a, v) :: l2 ∧ is_chain vs (Some a) ((a, v) :: l2).
Proof.
  revert p. induction l as [|[a' v'] l IH]; intros p Hc Hin.
  - by apply elem_of_nil in Hin.
  - destruct Hc as (-> & Hv & Hc).
    apply elem_of_cons in Hin as [[= -> ->]|Hin].
    + exists [], l. by repeat split.
    + destruct (IH _ Hc Hin) as (l1 & l2 & -> & Hc').
      by exists ((a', v') :: l1), l2.
Qed.

(** A chain visits no address twice. *)
Lemma is_chain_NoDup vs p l : is_chain vs p l → NoDup (l.*1).
Proof.
  revert p. induction l as [|[a v] l IH]; intros p Hc; simpl.
  - constructor.
  - destruct Hc as (-> & Hv & Hc). constructor; [|by eapply IH].
    intros ([a' v'] & Ha & Hin)%list_elem_of_fmap. simpl in Ha. subst a'.
    assert (v' = v) as ->.
    { pose proof (is_chain_lookup _ _ _ _ _ Hc Hin). congruence. }
    destruct (is_chain_suffix _ _ _ _ _ Hc Hin) as (l1 & l2 & -> & Hc').
    assert (is_chain vs (Some a) ((a, v) :: l1 ++ (a, v) :: l2)) as Hfull
      by done.
    pose proof (is_chain_det _ _ _ _ Hfull Hc') as Heq.
    apply (f_equal List.length) in Heq. simpl in Heq.
    rewrite length_app in Heq. simpl in Heq. lia.
Qed.

Lemma is_chain_length vs p l :
  is_chain vs p l → (List.length l ≤ size vs)%nat.
Proof.
  intros Hc. pose proof (is_chain_NoDup _ _ _ Hc) as Hnd.
  rewrite <- (length_fmap fst), <- size_dom.
  rewrite <- (size_list_to_set (C := gset nat)) by done.
  apply subseteq_size. intros a Ha.
  apply elem_of_list_to_set, list_elem_of_fmap in Ha as ([a' v] & -> & Hin).
  apply elem_of_dom. eexists. by eapply is_chain_lookup.
Qed.

(** The chain is the same in a heap that agrees on its addresses. *)
Lemma is_chain_ext vs vs' p l :
  (∀ a v, (a, v) ∈ l → vs' !! a = Some v) →
  is_chain vs p l → is_chain vs' p l.
Proof.
  revert p. induction l as [|[a v] l IH]; intros p Hag Hc; [done|].
  destruct Hc as (-> & Hv & Hc). split; [done|]. split.
  - apply Hag. by left.
  - apply IH; [|done]. intros a' v' Hin. apply Hag. by right.
Qed.

Lemma is_chain_insert_fresh vs p l a v :
  vs !! a = None → is_chain vs p l → is_chain (<[a := v]> vs) p l.
Proof.
  intros Hf Hc. eapply is_chain_ext; [|done].
  intros a' v' Hin. pose proof (is_chain_lookup _ _ _ _ _ Hc Hin).
  rewrite lookup_insert_ne; [done|congruence].
Qed.

End Chain.

(** ** Reclaiming versions *)

Section Clean.
Context {bloom_filter : Type} `{!FilterOps bloom_filter}.
Implicit Types m : @bloom_filtmgr bloom_filter.
Implicit Types l : list (nat * filtmgr_vsn).
Implicit Types vs : gmap nat filtmgr_vsn.
Implicit Types ws : gmap nat (@bloom_filter_wrapper bloom_filter).

Lemma emit_bind {B} (e : event) (k : unit → M B) m :
  (emit e ≫= k) m =
  k tt (mk_mgr (config m) (latest m) (clients m) (versions m) (wrappers m)
               (trace m ++ [e])).
Proof. reflexivity. Qed.

Lemma delete_filter_run m w W :
  wrappers m !! w = Some W →
  delete_filter w m =
  Ret tt (mk_mgr (config m) (latest m) (clients m) (versions m)
                 (delete w (wrappers m)) (trace m ++ reclaim_events W)).
Proof.
  intros HW. unfold delete_filter.
  rewrite (bind_run _ _ _ _ _ (deref_wrapper_run _ _ _ HW)).
  unfold reclaim_events.
  destruct (should_delete W), (custom W) as [c|];
    rewrite !emit_bind; cbn [wrappers trace];
    try (rewrite bind_eq; unfold mret, M_ret, ret);
    erewrite free_wrapper_run by (cbn; exact HW);
    cbn; by rewrite <- ?(assoc_L (++)).
Qed.

Lemma free_versions_lookup_notin vs l a :
  a ∉ l.*1 → free_versions vs l !! a = vs !! a.
Proof.
  induction l as [|[a' v'] l IH]; intros Hnin; [done|].
  simpl in *. apply not_elem_of_cons in Hnin as [Hne Hnin].
  rewrite lookup_delete_ne by done. by apply IH.
Qed.

Lemma free_versions_lookup_in vs l a :
  a ∈ l.*1 → free_versions vs l !! a = None.
Proof.
  induction l as [|[a' v'] l IH]; intros Hin; simpl in *.
  - by apply elem_of_nil in Hin.
  - destruct (decide (a' = a)) as [->|Hne].
    + by rewrite lookup_delete_eq.
    + rewrite lookup_delete_ne by done. apply IH.
      apply elem_of_cons in Hin as [?|?]; [congruence|done].
Qed.

Lemma free_wrappers_lookup_notin ws ds w :
  w ∉ ds → free_wrappers ws ds !! w = ws !! w.
Proof.
  induction ds as [|d ds IH]; intros Hnin; [done|].
  simpl. apply not_elem_of_cons in Hnin as [Hne Hnin].
  rewrite lookup_delete_ne by done. by apply IH.
Qed.

Lemma free_wrappers_lookup_in ws ds w :
  w ∈ ds → free_wrappers ws ds !! w = None.
Proof.
  induction ds as [|d ds IH]; intros Hin; simpl.
  - by apply elem_of_nil in Hin.
  - destruct (decide (d = w)) as [->|Hne].
    + by rewrite lookup_delete_eq.
    + rewrite lookup_delete_ne by done. apply IH.
      apply elem_of_cons in Hin as [?|?]; [congruence|done].
Qed.

(** The second half of [clean_old_versions], on a version that is to be
    reclaimed. *)
Lemma clean_tail_dead m a v min_vsn :
  versions m !! a = Some v →
  vsn v < min_vsn →
  (∀ w, deleted v = Some w → is_Some (wrappers m !! w)) →
  (ver ← deref_vsn (Some a);
   if vsn ver >=? min_vsn then mret 0
   else
     match deleted ver with
     | Some w => delete_filter w
     | None => mret tt
     end;;
     destroy_version (Some a);;
     mret 1) m =
  Ret 1 (mk_mgr (config m) (latest m) (clients m)
           (delete a (versions m))
           (free_wrappers (wrappers m) (chain_deleted [(a, v)]))
           (trace m ++ version_events (wrappers m) (a, v))).
Proof.
  intros Hv Hlt HW.
  rewrite (bind_run _ _ _ _ _ (deref_vsn_run _ _ _ Hv)).
  destruct (Z.geb_spec (vsn v) min_vsn); [lia|].
  unfold destroy_version, version_events, chain_deleted. cbn [omap list_omap snd].
  destruct (deleted v) as [w|].
  - destruct (HW w eq_refl) as [W HWw]. rewrite HWw.
    rewrite (bind_run _ _ _ _ _ (delete_filter_run _ _ _ HWw)).
    erewrite bind_run by (by eapply free_vsn_run).
    done.
  - rewrite bind_eq. unfold mret, M_ret, ret.
    erewrite bind_run by (by eapply free_vsn_run).
    cbn. by rewrite app_nil_r.
Qed.

Lemma clean_tail_alive m a v min_vsn :
  versions m !! a = Some v →
  min_vsn ≤ vsn v →
  (ver ← deref_vsn (Some a);
   if vsn ver >=? min_vsn then mret 0
   else
     match deleted ver with
     | Some w => delete_filter w
     | None => mret tt
     end;;
     destroy_version (Some a);;
     mret 1) m = Ret 0 m.
Proof.
  intros Hv Hle.
  rewrite (bind_run _ _ _ _ _ (deref_vsn_run _ _ _ Hv)).
  by destruct (Z.geb_spec (vsn v) min_vsn); [|lia].
Qed.

Lemma clean_unfold fuel a min_vsn m v :
  versions m !! a = Some v →
  clean_old_versions (S fuel) (Some a) min_vsn m =
  (match prev v with
   | Some _ =>
       r ← clean_old_versions fuel (prev v) min_vsn;
       if negb (r =? 0) then store_vsn (Some a) (set_prev None v)
       else mret tt
   | None => mret tt
   end;;
   ver ← deref_vsn (Some a);
   if vsn ver >=? min_vsn then mret 0
   else
     match deleted ver with
     | Some w => delete_filter w
     | None => mret tt
     end;;
     destroy_version (Some a);;
     mret 1) m.
Proof.
  intros Hv. cbn [clean_old_versions].
  by rewrite (bind_run _ _ _ _ _ (deref_vsn_run _ _ _ Hv)).
Qed.

Lemma chain_deleted_cons a v l :
  chain_deleted ((a, v) :: l) =
  match deleted v with
  | Some w => w :: chain_deleted l
  | None => chain_deleted l
  end.
Proof. reflexivity. Qed.

Lemma reclaim_log_cons ws x l :
  reclaim_log ws (x :: l) = reclaim_log ws l ++ version_events ws x.
Proof.
  unfold reclaim_log. rewrite reverse_cons, flat_map_app. simpl.
  by rewrite app_nil_r.
Qed.

Lemma version_events_ext ws ws' a v v' :
  deleted v' = deleted v →
  (∀ w, deleted v = Some w → ws' !! w = ws !! w) →
  version_events ws' (a, v') = version_events ws (a, v).
Proof.
  intros Hd Hw. unfold version_events. simpl. rewrite Hd.
  destruct (deleted v) as [w|]; [|done]. by rewrite Hw.
Qed.

(** A chain all of whose versions are below the threshold is reclaimed
    entirely, the oldest version first. *)
Lemma clean_all_dead min_vsn D : ∀ m p fuel,
  D ≠ [] →
  is_chain (versions m) p D →
  Forall (λ x, vsn (snd x) < min_vsn) D →
  NoDup (chain_deleted D) →
  (∀ w, w ∈ chain_deleted D → is_Some (wrappers m !! w)) →
  (List.length D ≤ fuel)%nat →
  clean_old_versions fuel p min_vsn m =
  Ret 1 (mk_mgr (config m) (latest m) (clients m)
           (free_versions (versions m) D)
           (free_wrappers (wrappers m) (chain_deleted D))
           (trace m ++ reclaim_log (wrappers m) D)).
Proof.
  induction D as [|[a v] r IH]; intros m p fuel Hne Hc Hdead Hnd Hval Hfuel;
    [done|].
  pose proof (is_chain_NoDup _ _ _ Hc) as Haddr.
  destruct Hc as (-> & Hv & Hc).
  apply Forall_cons in Hdead as [Hlt Hdead]. simpl in Hlt.
  rewrite fmap_cons in Haddr. cbn [fst] in Haddr.
  apply NoDup_cons in Haddr as [Ha _].
  destruct fuel as [|fuel]; [simpl in Hfuel; lia|].
  rewrite (clean_unfold _ _ _ _ _ Hv).
  rewrite chain_deleted_cons in Hnd, Hval.
  assert (NoDup (chain_deleted r) ∧
          (∀ w, deleted v = Some w → w ∉ chain_deleted r) ∧
          (∀ w, deleted v = Some w → is_Some (wrappers m !! w)) ∧
          (∀ w, w ∈ chain_deleted r → is_Some (wrappers m !! w)))
    as (Hnd' & Hfresh & Hvw & Hval').
  { destruct (deleted v) as [w|].
    - apply NoDup_cons in Hnd as [Hw Hnd]. repeat split; [done|..].
      + by intros ? [= <-].
      + intros ? [= <-]. apply Hval. by left.
      + intros w' Hin. apply Hval. by right.
    - by repeat split. }
  destruct r as [|[b u] r'].
  - simpl in Hc. rewrite Hc. cbv beta iota. rewrite ret_bind.
    rewrite (clean_tail_dead m a v min_vsn Hv Hlt Hvw).
    rewrite reclaim_log_cons. unfold reclaim_log. simpl.
    done.
  - assert (prev v = Some b) as Hp by (by destruct Hc).
    assert ((b, u) :: r' ≠ []) as Hne' by done.
    remember ((b, u) :: r') as r eqn:Hr. clear Hr.
    rewrite Hp. rewrite Hp in Hc. cbv beta iota.
    erewrite bind_bind_run; cycle 1.
    { apply IH; [done|done|done|done|done|simpl in Hfuel; lia]. }
    { cbn [negb Z.eqb]. apply store_vsn_run with v.
      cbn [versions]. by rewrite free_versions_lookup_notin. }
    set (m2 := set_versions _ _).
    rewrite (clean_tail_dead m2 a (set_prev None v) min_vsn).
    + unfold m2. cbn [config latest clients versions wrappers trace
                      set_versions].
      rewrite delete_insert_eq.
      rewrite (chain_deleted_cons a v r), reclaim_log_cons.
      rewrite <- (assoc_L (++)).
      rewrite (version_events_ext (wrappers m) _ a v (set_prev None v));
        [|done|].
      * unfold chain_deleted at 2. cbn [omap list_omap snd set_prev deleted].
        by destruct (deleted v).
      * intros w Hw. apply free_wrappers_lookup_notin. by apply Hfresh.
    + apply lookup_insert_eq.
    + done.
    + intros w Hw. cbn [wrappers m2 set_versions].
      rewrite free_wrappers_lookup_notin by (by apply Hfresh).
      by apply Hvw.
Qed.

Lemma set_prev_None_id (v : filtmgr_vsn) : prev v = None → set_prev None v = v.
Proof. destruct v. simpl. by intros ->. Qed.

(** A chain made of versions to keep, [S], followed by versions to
    reclaim, [D]: [D] is reclaimed and the last version of [S] loses its
    [prev] link. *)
Lemma clean_split min_vsn S : ∀ D m p fuel,
  S ≠ [] →
  is_chain (versions m) p (S ++ D) →
  Forall (λ x, min_vsn ≤ vsn (snd x)) S →
  Forall (λ x, vsn (snd x) < min_vsn) D →
  NoDup (chain_deleted D) →
  (∀ w, w ∈ chain_deleted D → is_Some (wrappers m !! w)) →
  (List.length (S ++ D) ≤ fuel)%nat →
  clean_old_versions fuel p min_vsn m =
  Ret 0 (mk_mgr (config m) (latest m) (clients m)
           (cut_after S (free_versions (versions m) D))
           (free_wrappers (wrappers m) (chain_deleted D))
           (trace m ++ reclaim_log (wrappers m) D)).
Proof.
  induction S as [|[a v] S IH]; intros D m p fuel Hne Hc Halive Hdead Hnd
    Hval Hfuel; [done|].
  pose proof (is_chain_NoDup _ _ _ Hc) as Haddr.
  rewrite <- app_comm_cons in Hc, Haddr, Hfuel.
  destruct Hc as (-> & Hv & Hc).
  apply Forall_cons in Halive as [Hle Halive]. simpl in Hle.
  rewrite fmap_cons in Haddr. cbn [fst] in Haddr.
  apply NoDup_cons in Haddr as [Ha Haddr].
  destruct fuel as [|fuel]; [simpl in Hfuel; lia|].
  assert (List.length (S ++ D) ≤ fuel)%nat as Hfuel' by (simpl in Hfuel; lia).
  rewrite (clean_unfold _ _ _ _ _ Hv).
  destruct S as [|[b u] S'].
  - (* the oldest version that is kept *)
    unfold cut_after. cbn [last].
    destruct D as [|[b u] D'].
    + simpl in Hc. rewrite Hc. cbv beta iota. rewrite ret_bind.
      rewrite (clean_tail_alive m a v min_vsn Hv Hle).
      unfold free_versions, free_wrappers, reclaim_log. simpl.
      rewrite (set_prev_None_id v Hc).
      rewrite insert_id by done. rewrite app_nil_r. by destruct m.
    + assert (prev v = Some b) as Hp by (by destruct Hc).
      simpl app in *.
      remember ((b, u) :: D') as D eqn:HD.
      assert (D ≠ []) as HneD by (by subst D). clear HD.
      rewrite Hp. rewrite Hp in Hc. cbv beta iota.
      erewrite bind_bind_run; cycle 1.
      { by apply clean_all_dead. }
      { cbn [negb Z.eqb]. apply store_vsn_run with v.
        cbn [versions]. by rewrite free_versions_lookup_notin. }
      rewrite (clean_tail_alive _ a (set_prev None v) min_vsn);
        [done|apply lookup_insert_eq|done].
  - (* a newer version: nothing behind it was cut from it *)
    assert (prev v = Some b) as Hp by (by destruct Hc).
    remember ((b, u) :: S') as S eqn:HS.
    assert (S ≠ []) as HneS by (by subst S).
    assert (cut_after ((a, v) :: S) = cut_after S) as Hcut.
    { subst S. done. }
    clear HS.
    rewrite Hp. rewrite Hp in Hc. cbv beta iota.
    erewrite bind_bind_run; cycle 1.
    { by apply IH. }
    { cbn [negb Z.eqb]. reflexivity. }
    rewrite Hcut.
    apply (clean_tail_alive _ a v min_vsn); [|done].
    cbn [versions]. unfold cut_after.
    destruct (last S) as [[c t]|] eqn:Hlast.
    + assert (c ∈ (S ++ D).*1) as Hin.
      { apply last_Some in Hlast as [S0 ->].
        rewrite !fmap_app. apply elem_of_app. left.
        apply elem_of_app. right. by left. }
      rewrite lookup_insert_ne by (intros ->; done).
      rewrite free_versions_lookup_notin; [done|].
      intros HaD. apply Ha. rewrite fmap_app. apply elem_of_app. by right.
    + rewrite free_versions_lookup_notin; [done|].
      intros HaD. apply Ha. rewrite fmap_app. apply elem_of_app. by right.
Qed.

(** With increasing version numbers, the versions below a threshold are
    the old end of the chain. *)
Lemma vsn_increasing_split min_vsn l :
  vsn_increasing l →
  l = survivors min_vsn l ++ reclaimed min_vsn l.
Proof.
  unfold vsn_increasing, survivors, reclaimed.
  intros Hs. apply Sorted_StronglySorted in Hs; [|intros x y z; lia].
  induction Hs as [|x l Hs IH Hx]; [done|].
  destruct (decide (min_vsn ≤ vsn x.2)) as [Hle|Hlt].
  - rewrite filter_cons_True by done.
    rewrite (filter_cons_False (λ x, vsn x.2 < min_vsn)) by lia.
    by rewrite <- app_comm_cons, <- IH.
  - rewrite filter_cons_False by done.
    rewrite (filter_cons_True (λ x, vsn x.2 < min_vsn)) by lia.
    assert (base.filter (λ x, min_vsn ≤ vsn x.2) l = []) as Hnone.
    { clear IH Hs. induction Hx as [|y l Hy Hx IH]; [done|].
      rewrite filter_cons_False by lia. done. }
    rewrite Hnone in IH |- *. simpl in IH |- *. by rewrite <- IH.
Qed.

Lemma chain_deleted_app l1 l2 :
  chain_deleted (l1 ++ l2) = chain_deleted l1 ++ chain_deleted l2.
Proof. apply omap_app. Qed.

(** [clean_old_versions] on a chain with increasing version numbers:
    the state it leaves. *)
Lemma clean_exact m l min_vsn fuel :
  l ≠ [] →
  is_chain (versions m) (latest m) l →
  vsn_increasing l →
  NoDup (chain_deleted l) →
  (∀ w, w ∈ chain_deleted l → is_Some (wrappers m !! w)) →
  (List.length l ≤ fuel)%nat →
  clean_old_versions fuel (latest m) min_vsn m =
  Ret (if decide (survivors min_vsn l = []) then 1 else 0)
      (mk_mgr (config m) (latest m) (clients m)
         (cut_after (survivors min_vsn l)
            (free_versions (versions m) (reclaimed min_vsn l)))
         (free_wrappers (wrappers m) (chain_deleted (reclaimed min_vsn l)))
         (trace m ++ reclaim_log (wrappers m) (reclaimed min_vsn l))).
Proof.
  intros Hne Hc Hs Hnd Hval Hfuel.
  pose proof (vsn_increasing_split min_vsn l Hs) as Hsplit.
  set (S := survivors min_vsn l) in *. set (D := reclaimed min_vsn l) in *.
  assert (Forall (λ x, min_vsn ≤ vsn x.2) S) as HS.
  { apply Forall_forall. by intros x [? _]%list_elem_of_filter. }
  assert (Forall (λ x, vsn x.2 < min_vsn) D) as HD.
  { apply Forall_forall. by intros x [? _]%list_elem_of_filter. }
  rewrite Hsplit, chain_deleted_app in Hnd, Hval.
  apply NoDup_app in Hnd as (_ & _ & Hnd).
  assert (∀ w, w ∈ chain_deleted D → is_Some (wrappers m !! w)) as Hval'.
  { intros w Hw. apply Hval, elem_of_app. by right. }
  destruct (decide (S = [])) as [HSnil|HSne].
  - rewrite HSnil in Hsplit |- *. simpl in Hsplit.
    unfold cut_after. simpl.
    rewrite Hsplit in Hne, Hc, Hfuel.
    by apply clean_all_dead.
  - rewrite Hsplit in Hc, Hfuel.
    by apply clean_split.
Qed.

(** The versions that are kept still form the chain from the same
    pointer, and it ends at the oldest of them. *)
Lemma survivors_chain vs S : ∀ D p,
  S ≠ [] →
  is_chain vs p (S ++ D) →
  is_chain (cut_after S (free_versions vs D)) p (clear_last_prev S).
Proof.
  induction S as [|[a v] S IH]; intros D p Hne Hc; [done|].
  pose proof (is_chain_NoDup _ _ _ Hc) as Haddr.
  rewrite <- app_comm_cons in Hc, Haddr.
  rewrite fmap_cons in Haddr. cbn [fst] in Haddr.
  apply NoDup_cons in Haddr as [Ha Haddr].
  destruct Hc as (-> & Hv & Hc).
  destruct S as [|[b u] S'].
  - simpl. split; [done|]. split; [|done].
    unfold cut_after. simpl. apply lookup_insert_eq.
  - remember ((b, u) :: S') as S eqn:HS.
    assert (S ≠ []) as HneS by (by subst S).
    assert (cut_after ((a, v) :: S) = cut_after S) as Hcut by (by subst S).
    assert (clear_last_prev ((a, v) :: S) = (a, v) :: clear_last_prev S)
      as Hclear by (by subst S).
    clear HS. rewrite Hcut, Hclear.
    split; [done|]. split; [|by apply IH].
    unfold cut_after.
    assert (a ∉ D.*1) as HaD.
    { intros HaD. apply Ha. rewrite fmap_app. apply elem_of_app. by right. }
    destruct (last S) as [[c t]|] eqn:Hlast.
    + assert (c ∈ (S ++ D).*1) as Hin.
      { apply last_Some in Hlast as [S0 ->].
        rewrite !fmap_app. apply elem_of_app. left.
        apply elem_of_app. right. by left. }
      rewrite lookup_insert_ne by (intros ->; done).
      by rewrite free_versions_lookup_notin.
    + by rewrite free_versions_lookup_notin.
Qed.

(** Which versions of the chain are still allocated afterwards. *)
Lemma clean_versions_lookup vs p l min_vsn a v :
  is_chain vs p l →
  vsn_increasing l →
  (a, v) ∈ l →
  cut_after (survivors min_vsn l) (free_versions vs (reclaimed min_vsn l))
    !! a = None ↔ vsn v < min_vsn.
Proof.
  intros Hc Hs Hin.
  pose proof (vsn_increasing_split min_vsn l Hs) as Hsplit.
  pose proof (is_chain_NoDup _ _ _ Hc) as Haddr.
  set (S := survivors min_vsn l) in *. set (D := reclaimed min_vsn l) in *.
  rewrite Hsplit, fmap_app in Haddr.
  apply NoDup_app in Haddr as (_ & Hdisj & _).
  assert (∀ a' v', (a', v') ∈ S → is_Some (cut_after S (free_versions vs D) !! a'))
    as Hkept.
  { intros a' v' Hin'. unfold cut_after.
    assert (a' ∉ D.*1) as HnD.
    { apply Hdisj, list_elem_of_fmap. by exists (a', v'). }
    assert (vs !! a' = Some v') as Hv'.
    { eapply is_chain_lookup; [done|]. rewrite Hsplit.
      apply elem_of_app. by left. }
    destruct (last S) as [[c t]|]; [|by rewrite free_versions_lookup_notin].
    destruct (decide (c = a')) as [->|Hne].
    - rewrite lookup_insert_eq. by eexists.
    - rewrite lookup_insert_ne by done.
      by rewrite free_versions_lookup_notin. }
  assert (∀ a' v', (a', v') ∈ D → cut_after S (free_versions vs D) !! a' = None)
    as Hgone.
  { intros a' v' Hin'. unfold cut_after.
    assert (a' ∈ D.*1) as HiD.
    { apply list_elem_of_fmap. by exists (a', v'). }
    destruct (last S) as [[c t]|] eqn:Hlast;
      [|by rewrite free_versions_lookup_in].
    rewrite lookup_insert_ne; [by rewrite free_versions_lookup_in|].
    intros ->. apply (Hdisj a'); [|done].
    apply last_Some in Hlast as [S0 ->].
    rewrite fmap_app. apply elem_of_app. right. by left. }
  rewrite Hsplit in Hin. apply elem_of_app in Hin as [HinS|HinD].
  - pose proof HinS as [Hle _]%list_elem_of_filter. simpl in Hle.
    destruct (Hkept a v HinS) as [v' Hv']. rewrite Hv'.
    split; [done|lia].
  - pose proof HinD as [Hlt _]%list_elem_of_filter. simpl in Hlt.
    by rewrite (Hgone a v HinD).
Qed.

Lemma clean_versions_frame vs l min_vsn a :
  a ∉ l.*1 →
  vsn_increasing l →
  cut_after (survivors min_vsn l) (free_versions vs (reclaimed min_vsn l))
    !! a = vs !! a.
Proof.
  intros Hnin Hs.
  pose proof (vsn_increasing_split min_vsn l Hs) as Hsplit.
  set (S := survivors min_vsn l) in *. set (D := reclaimed min_vsn l) in *.
  rewrite Hsplit, fmap_app in Hnin.
  apply not_elem_of_app in Hnin as [HnS HnD].
  unfold cut_after.
  destruct (last S) as [[c t]|] eqn:Hlast;
    [|by rewrite free_versions_lookup_notin].
  rewrite lookup_insert_ne; [by rewrite free_versions_lookup_notin|].
  intros ->. apply HnS.
  apply last_Some in Hlast as [S0 ->].
  rewrite fmap_app. apply elem_of_app. right. by left.
Qed.

End Clean.
Section Properties.
Context {bloom_filter : Type} `{!FilterOps bloom_filter}.
Implicit Types m : @bloom_filtmgr bloom_filter.

Lemma fresh_vsn_None m : versions m !! fresh (dom (versions m)) = None.
Proof. apply not_elem_of_dom, is_fresh. Qed.

Lemma fresh_wrapper_None m : wrappers m !! fresh (dom (wrappers m)) = None.
Proof. apply not_elem_of_dom, is_fresh. Qed.

Lemma create_new_version_run m a lv :
  latest m = Some a → versions m !! a = Some lv →
  create_new_version 0 m =
  Ret (Some (fresh (dom (versions m))))
      (set_versions
         (<[fresh (dom (versions m)) :=
              mk_vsn (u64_add (vsn lv) 1) (filter_map lv) None (Some a)]>
            (versions m)) m).
Proof.
  intros Hl Hv. unfold create_new_version.
  rewrite bind_eq. unfold get. cbv beta iota. rewrite Hl.
  rewrite (bind_run _ _ _ _ _ (deref_vsn_run _ _ _ Hv)).
  reflexivity.
Qed.

Lemma create_new_version_fail m a lv r :
  r ≠ 0 → latest m = Some a → versions m !! a = Some lv →
  create_new_version r m = Ret None m.
Proof.
  intros Hr Hl Hv. unfold create_new_version.
  rewrite bind_eq. unfold get. cbv beta iota. rewrite Hl.
  rewrite (bind_run _ _ _ _ _ (deref_vsn_run _ _ _ Hv)).
  by destruct (Z.eqb_spec r 0).
Qed.

Lemma art_delete_run m a v name :
  versions m !! a = Some v →
  art_delete (Some a) name m =
  Ret tt (set_versions
            (<[a := set_filter_map (delete name (filter_map v)) v]>
               (versions m)) m).
Proof.
  intros Hv. unfold art_delete.
  rewrite (bind_run _ _ _ _ _ (deref_vsn_run _ _ _ Hv)).
  by apply store_vsn_run with v.
Qed.

Lemma drop_filter_unfold name r m :
  filtmgr_drop_filter name r m =
  (m ← get;
   filt ← take_filter (latest m) name;
   match filt with
   | None => mret (-1)
   | Some w => retire_filter (latest m) w name true r
   end) m.
Proof. reflexivity. Qed.

Lemma clear_filter_unfold name r m :
  filtmgr_clear_filter name r m =
  (m ← get;
   filt ← take_filter (latest m) name;
   match filt with
   | None => mret (-1)
   | Some w =>
       W ← deref_wrapper w;
       if negb (bloomf_is_proxied (filter W)) then mret (-2)
       else retire_filter (latest m) w name false r
   end) m.
Proof. reflexivity. Qed.

(** The retiring tail of drop and clear, on a state where the wrapper is
    live and [latest] is a version. *)
Lemma retire_filter_run m a lv w W name del :
  latest m = Some a → versions m !! a = Some lv →
  wrappers m !! w = Some W →
  retire_filter (Some a) w name del 0 m =
  Ret 0 (mk_mgr (config m) (Some (fresh (dom (versions m)))) (clients m)
           (<[a := set_deleted (Some w) lv]>
              (<[fresh (dom (versions m)) :=
                   mk_vsn (u64_add (vsn lv) 1) (delete name (filter_map lv))
                          None (Some a)]> (versions m)))
           (<[w := mk_wrapper false (is_hot W) del (filter W) (custom W)]>
              (wrappers m))
           (trace m)).
Proof.
  intros Hl Hv HW. unfold retire_filter.
  rewrite (bind_run _ _ _ _ _ (deref_wrapper_run _ _ _ HW)).
  rewrite (bind_run _ _ _ _ _ (store_wrapper_run _ _ _ _ HW)).
  set (m1 := set_wrappers _ m).
  assert (wrappers m1 !! w = Some (set_is_active false W)) as HW1
    by apply lookup_insert_eq.
  rewrite (bind_run _ _ _ _ _ (deref_wrapper_run _ _ _ HW1)).
  rewrite (bind_run _ _ _ _ _ (store_wrapper_run _ _ _ _ HW1)).
  set (m2 := set_wrappers _ m1).
  rewrite (bind_run _ _ _ _ _ (create_new_version_run m2 a lv Hl Hv)).
  set (a' := fresh (dom (versions m2))).
  set (m3 := set_versions _ m2).
  assert (a ≠ a') as Hne.
  { intros ->. pose proof (fresh_vsn_None m2) as Hf. fold a' in Hf.
    change (versions m2) with (versions m) in Hf. congruence. }
  assert (versions m3 !! a' = Some (mk_vsn (u64_add (vsn lv) 1)
            (filter_map lv) None (Some a))) as Hv3 by apply lookup_insert_eq.
  rewrite (bind_run _ _ _ _ _ (art_delete_run _ _ _ name Hv3)).
  set (m4 := set_versions _ m3).
  assert (versions m4 !! a = Some lv) as Hv4.
  { unfold m4, m3. cbn [versions set_versions].
    rewrite !lookup_insert_ne by done. exact Hv. }
  rewrite (bind_run _ _ _ _ _ (deref_vsn_run _ _ _ Hv4)).
  rewrite (bind_run _ _ _ _ _ (store_vsn_run _ _ _ _ Hv4)).
  unfold m4, m3, m2, m1, a'. cbn.
  rewrite insert_insert_eq. rewrite insert_insert_eq. reflexivity.
Qed.

(** The scan for a pending delete finds exactly the parked wrappers of
    that name. *)
Lemma scan_pending_run m l p name fuel :
  is_chain (versions m) p l →
  deleted_ok (wrappers m) l →
  nul_free name = true →
  (List.length l ≤ fuel)%nat →
  ∃ b : bool, scan_pending fuel p name m = Ret b m ∧
              (b = true ↔ has_pending (wrappers m) l name).
Proof.
  revert p fuel. induction l as [|[a v] l IH]; intros p fuel Hc Hok Hn Hfuel.
  - simpl in Hc. subst p. exists false. split; [by destruct fuel|].
    split; [done|]. intros (a & v & w & W & Hin & _). by apply elem_of_nil in Hin.
  - destruct Hc as (-> & Hv & Hc).
    destruct fuel as [|fuel]; [simpl in Hfuel; lia|].
    assert (deleted_ok (wrappers m) l) as Hok'.
    { intros a' v' w' Hin Hd. apply (Hok a' v' w'); [by right|done]. }
    destruct (IH (prev v) fuel Hc Hok' Hn) as (b & Hrun & Hb);
      [simpl in Hfuel; lia|].
    assert (has_pending (wrappers m) ((a, v) :: l) name ↔
            (∃ w W, deleted v = Some w ∧ wrappers m !! w = Some W ∧
                    filter_name (filter W) = name) ∨
            has_pending (wrappers m) l name) as Hsplit.
    { split.
      - intros (a' & v' & w & W & Hin & Hd & HW & HN).
        apply elem_of_cons in Hin as [[= -> ->]|Hin].
        + left. by exists w, W.
        + right. by exists a', v', w, W.
      - intros [(w & W & Hd & HW & HN)|(a' & v' & w & W & Hin & Hd & HW & HN)].
        + exists a, v, w, W. split; [by left|done].
        + exists a', v', w, W. split; [by right|done]. }
    cbn [scan_pending].
    rewrite (bind_run _ _ _ _ _ (deref_vsn_run _ _ _ Hv)).
    destruct (deleted v) as [w|] eqn:Hd.
    + destruct (Hok a v w) as (W & HW & HWn); [by left|done|].
      rewrite (bind_run _ _ _ _ _ (deref_wrapper_run _ _ _ HW)).
      destruct (Z.eqb_spec (strcmp (filter_name (filter W)) name) 0)
        as [Heq|Hne].
      * apply strcmp_eq in Heq; [|done..].
        exists true. split; [done|]. split; [|done]. intros _.
        apply Hsplit. left. by exists w, W.
      * exists b. split; [done|]. rewrite Hsplit, Hb.
        split; [by right|]. intros [(w' & W' & [= <-] & HW' & HN)|?]; [|done].
        destruct Hne. apply strcmp_eq; [done..|]. congruence.
    + exists b. split; [done|]. rewrite Hsplit, Hb.
      split; [by right|]. by intros [(w' & W' & ? & _)|?].
Qed.

(** [filtmgr_create_filter] up to the scan: -3 if a delete is pending,
    the building of the new version if not. *)
Lemma create_filter_prologue m a lv l name custom_config r init_res :
  latest m = Some a →
  versions m !! a = Some lv →
  filter_map lv !! name = None →
  is_chain (versions m) (prev lv) l →
  deleted_ok (wrappers m) l →
  nul_free name = true →
  (has_pending (wrappers m) l name ∧
   filtmgr_create_filter name custom_config r init_res m = Ret (-3) m) ∨
  (¬ has_pending (wrappers m) l name ∧
   filtmgr_create_filter name custom_config r init_res m =
   (new_vsn ← create_new_version r;
    res ← add_filter new_vsn name
            (match custom_config with Some c => c | None => config m end)
            true init_res;
    if negb (res =? 0) then destroy_version new_vsn;; mret (-2)
    else modify (set_latest new_vsn);; mret res) m).
Proof.
  intros Hl Hv Hn Hc Hok Hnf.
  destruct (scan_pending_run m l (prev lv) name (size (versions m)))
    as (b & Hrun & Hb); [done..| |].
  { by eapply is_chain_length. }
  unfold filtmgr_create_filter.
  rewrite bind_eq. unfold get. cbv beta iota. rewrite Hl.
  rewrite (bind_run _ _ _ _ _ (deref_vsn_run _ _ _ Hv)), Hn.
  rewrite (bind_run _ _ _ _ _ Hrun).
  destruct b.
  - left. split; [by apply Hb|done].
  - right. split; [|done]. intros Hp%Hb. done.
Qed.

Lemma set_versions_id m : set_versions (versions m) m = m.
Proof. by destruct m. Qed.

(** The building of the new version in [filtmgr_create_filter], when
    [art_copy] and [init_bloom_filter] succeed. *)
Lemma create_filter_install m a lv name cfg f :
  latest m = Some a →
  versions m !! a = Some lv →
  (new_vsn ← create_new_version 0;
   res ← add_filter new_vsn name cfg true (Some f);
   if negb (res =? 0) then destroy_version new_vsn;; mret (-2)
   else modify (set_latest new_vsn);; mret res) m =
  Ret 0 (mk_mgr (config m) (Some (fresh (dom (versions m)))) (clients m)
           (<[fresh (dom (versions m)) :=
                mk_vsn (u64_add (vsn lv) 1)
                       (<[name := fresh (dom (wrappers m))]> (filter_map lv))
                       None (Some a)]> (versions m))
           (<[fresh (dom (wrappers m)) :=
                mk_wrapper true true false f
                  (if decide (config m = cfg) then None else Some cfg)]>
              (wrappers m))
           (trace m)).
Proof.
  intros Hl Hv.
  rewrite (bind_run _ _ _ _ _ (create_new_version_run m a lv Hl Hv)).
  set (a' := fresh (dom (versions m))).
  set (m1 := set_versions _ m).
  assert (versions m1 !! a' = Some (mk_vsn (u64_add (vsn lv) 1)
            (filter_map lv) None (Some a))) as Hv1 by apply lookup_insert_eq.
  rewrite (bind_run _ _ _ _ _ (add_filter_run _ _ _ name cfg true f Hv1)).
  unfold m1, a'. cbn. by rewrite insert_insert_eq.
Qed.

(** ... when [art_copy] succeeds and [init_bloom_filter] fails: the new
    version is destroyed again. *)
Lemma create_filter_init_fails m a lv name cfg :
  latest m = Some a →
  versions m !! a = Some lv →
  (new_vsn ← create_new_version 0;
   res ← add_filter new_vsn name cfg true None;
   if negb (res =? 0) then destroy_version new_vsn;; mret (-2)
   else modify (set_latest new_vsn);; mret res) m = Ret (-2) m.
Proof.
  intros Hl Hv.
  rewrite (bind_run _ _ _ _ _ (create_new_version_run m a lv Hl Hv)).
  set (a' := fresh (dom (versions m))).
  set (m1 := set_versions _ m).
  rewrite (bind_run _ _ _ _ _ (add_filter_init_fails _ _ _ _ _)).
  cbn [negb Z.eqb].
  unfold destroy_version.
  assert (versions m1 !! a' = Some (mk_vsn (u64_add (vsn lv) 1)
            (filter_map lv) None (Some a))) as Hv1 by apply lookup_insert_eq.
  rewrite (bind_run _ _ _ _ _ (free_vsn_run _ _ _ Hv1)).
  unfold m1. cbn. rewrite delete_insert_eq.
  rewrite delete_id by apply fresh_vsn_None.
  by destruct m.
Qed.

(** ... when [art_copy] fails: [create_new_version] returns NULL, which
    the caller hands on to [add_filter] and [destroy_version]. *)
Lemma create_filter_copy_fails m a lv name cfg r init_res :
  r ≠ 0 →
  latest m = Some a →
  versions m !! a = Some lv →
  (new_vsn ← create_new_version r;
   res ← add_filter new_vsn name cfg true init_res;
   if negb (res =? 0) then destroy_version new_vsn;; mret (-2)
   else modify (set_latest new_vsn);; mret res) m = Fault.
Proof.
  intros Hr Hl Hv.
  rewrite (bind_run _ _ _ _ _ (create_new_version_fail m a lv r Hr Hl Hv)).
  rewrite bind_eq, add_filter_null. by destruct init_res.
Qed.

Lemma drop_filter_run m a lv name w W :
  latest m = Some a →
  versions m !! a = Some lv →
  filter_map lv !! name = Some w →
  wrappers m !! w = Some W →
  is_active W = true →
  filtmgr_drop_filter name 0 m = Ret 0 (retired m a lv w W name true).
Proof.
  intros Hl Hv Hn HW Hact. rewrite drop_filter_unfold, get_bind.
  erewrite bind_run
    by (by rewrite Hl, (take_filter_run _ _ _ _ Hv), Hn, HW, Hact).
  rewrite Hl. by apply retire_filter_run.
Qed.

(** C6.  When the index of [latest] has an entry for the name,
    whatever the state of its wrapper (active, inactive, or no wrapper
    at all at that address), [filtmgr_create_filter] returns -1 and the
    manager is left as it was: no version is created or installed. *)
Theorem create_existing_name_rejected m a lv name w
    custom_config art_copy_res init_res :
  latest m = Some a →
  versions m !! a = Some lv →
  filter_map lv !! name = Some w →
  filtmgr_create_filter name custom_config art_copy_res init_res m
  = Ret (-1) m.
Proof.
  intros Hl Hv Hn. unfold filtmgr_create_filter.
  rewrite bind_eq. unfold get. cbv beta iota. rewrite Hl.
  rewrite (bind_run _ _ _ _ _ (deref_vsn_run _ _ _ Hv)).
  by rewrite Hn.
Qed.

(** C3.  [filtmgr_drop_filter], the index copy succeeding.  When the
    name resolves to an active wrapper [W] at address [w], the call
    returns 0; [W] becomes inactive and marked for deletion; a new version
    is installed as [latest], whose index is the old index without the
    name, whose number is the old one plus one (modulo 2^64) and whose
    [prev] is the old [latest]; the old [latest] gets [w] in its
    [deleted] slot; nothing else changes.  When the name is absent, or
    its wrapper is inactive, the call returns -1 and the manager is left
    as it was. *)
Theorem drop_filter_spec m a lv name :
  latest m = Some a →
  versions m !! a = Some lv →
  (∀ w W,
     filter_map lv !! name = Some w → wrappers m !! w = Some W →
     is_active W = true →
     take_filter (latest m) name m = Ret (Some w) m ∧
     filtmgr_drop_filter name 0 m =
     Ret 0 (mk_mgr (config m) (Some (fresh (dom (versions m)))) (clients m)
              (<[a := set_deleted (Some w) lv]>
                 (<[fresh (dom (versions m)) :=
                      mk_vsn (u64_add (vsn lv) 1)
                             (delete name (filter_map lv)) None (Some a)]>
                    (versions m)))
              (<[w := mk_wrapper false (is_hot W) true (filter W) (custom W)]>
                 (wrappers m))
              (trace m))) ∧
  (filter_map lv !! name = None →
     ∀ r, filtmgr_drop_filter name r m = Ret (-1) m) ∧
  (∀ w W,
     filter_map lv !! name = Some w → wrappers m !! w = Some W →
     is_active W = false →
     ∀ r, filtmgr_drop_filter name r m = Ret (-1) m).
Proof.
  intros Hl Hv. setoid_rewrite drop_filter_unfold.
  split; [|split].
  - intros w W Hn HW Hact.
    assert (take_filter (latest m) name m = Ret (Some w) m) as Htake
      by (by rewrite Hl, (take_filter_run _ _ _ _ Hv), Hn, HW, Hact).
    split; [done|].
    rewrite bind_eq. unfold get. cbv beta iota.
    rewrite (bind_run _ _ _ _ _ Htake), Hl.
    by apply retire_filter_run.
  - intros Hn r. rewrite bind_eq. unfold get. cbv beta iota.
    by rewrite bind_eq, Hl, (take_filter_run _ _ _ _ Hv), Hn.
  - intros w W Hn HW Hact r. rewrite bind_eq. unfold get. cbv beta iota.
    by rewrite bind_eq, Hl, (take_filter_run _ _ _ _ Hv), Hn, HW, Hact.
Qed.

(** C2.  The name not being in the index of [latest], the older versions
    forming a chain whose parked wrappers are allocated, and the names
    being C strings: [filtmgr_create_filter] returns -3 if and only if a
    version older than [latest] parks a wrapper whose filter has that
    name; it then installs nothing and leaves the manager as it was. *)
Theorem create_pending_delete m a lv l name custom_config r init_res :
  latest m = Some a →
  versions m !! a = Some lv →
  is_chain (versions m) (prev lv) l →
  deleted_ok (wrappers m) l →
  nul_free name = true →
  filter_map lv !! name = None →
  ((∃ m', filtmgr_create_filter name custom_config r init_res m
          = Ret (-3) m') ↔
   has_pending (wrappers m) l name) ∧
  (has_pending (wrappers m) l name →
   filtmgr_create_filter name custom_config r init_res m = Ret (-3) m).
Proof.
  intros Hl Hv Hc Hok Hnf Hn.
  destruct (create_filter_prologue m a lv l name custom_config r init_res
              Hl Hv Hn Hc Hok Hnf) as [[Hp Hrun]|[Hnp Hrun]].
  - split; [|done]. split; [done|]. intros _. by exists m.
  - split; [|done]. split; [|done].
    intros [m' Hm']. exfalso. rewrite Hrun in Hm'.
    destruct (decide (r = 0)) as [->|Hr].
    + destruct init_res as [f|].
      * by rewrite (create_filter_install _ _ _ _ _ _ Hl Hv) in Hm'.
      * by rewrite (create_filter_init_fails _ _ _ _ _ Hl Hv) in Hm'.
    + by rewrite (create_filter_copy_fails _ _ _ _ _ _ _ Hr Hl Hv) in Hm'.
Qed.

End Properties.

(** ** Vacuum *)

Section Vacuum.
Context {bloom_filter : Type} `{!FilterOps bloom_filter}.
Implicit Types m : @bloom_filtmgr bloom_filter.
Implicit Types l : list (nat * filtmgr_vsn).

Lemma filter_all {A} (P : A → Prop) `{!∀ x, Decision (P x)} (xs : list A) :
  Forall P xs → base.filter P xs = xs.
Proof.
  induction 1 as [|x xs Hx Hxs IH]; [done|].
  by rewrite filter_cons_True, IH.
Qed.

Lemma filter_none {A} (P : A → Prop) `{!∀ x, Decision (P x)} (xs : list A) :
  Forall (λ x, ¬ P x) xs → base.filter P xs = [].
Proof.
  induction 1 as [|x xs Hx Hxs IH]; [done|].
  by rewrite filter_cons_False.
Qed.

(** With the number of the head as threshold, the head is kept and all
    that is behind it is reclaimed. *)
Lemma vacuum_split a v r :
  vsn_increasing ((a, v) :: r) →
  survivors (vsn v) ((a, v) :: r) = [(a, v)] ∧
  reclaimed (vsn v) ((a, v) :: r) = r.
Proof.
  unfold vsn_increasing, survivors, reclaimed.
  intros Hs. apply Sorted_StronglySorted in Hs; [|intros x y z; lia].
  apply StronglySorted_inv in Hs as [_ Hall]. simpl in Hall.
  rewrite filter_cons_True by (simpl; lia).
  rewrite filter_cons_False by (simpl; lia).
  rewrite filter_none, filter_all; [done|done|].
  eapply Forall_impl; [done|]. simpl. lia.
Qed.

(** C1.  On a version chain from [latest] whose numbers strictly
    increase from the tail to the head, and whose parked wrappers are
    allocated and distinct, [clean_old_versions] with enough fuel for the
    chain returns, and
    - a version of the chain is freed if and only if its number is below
      [min_vsn]; no other address of the version heap changes;
    - [delete_filter] has been run on the parked wrapper of each freed
      version, the oldest first: these wrappers are freed and the log
      grows by their [reclaim_events], which start with [bloomf_delete]
      when [should_delete] is set and with [bloomf_close] otherwise;
    - if a version is kept, the chain from [latest] is now the kept
      versions and the oldest of them has no [prev];
    - the result is 0 and [latest] is still allocated when
      [min_vsn <= latest.vsn];
    - [filtmgr_vacuum], which passes [latest.vsn], returns with [latest]
      alone in the chain, without [prev], all older versions freed. *)
Theorem clean_old_versions_spec m l min_vsn fuel :
  l ≠ [] →
  is_chain (versions m) (latest m) l →
  vsn_increasing l →
  NoDup (chain_deleted l) →
  (∀ w, w ∈ chain_deleted l → is_Some (wrappers m !! w)) →
  (List.length l ≤ fuel)%nat →
  (∃ r m',
     clean_old_versions fuel (latest m) min_vsn m = Ret r m' ∧
     (∀ a v, (a, v) ∈ l → versions m' !! a = None ↔ vsn v < min_vsn) ∧
     (∀ a, a ∉ l.*1 → versions m' !! a = versions m !! a) ∧
     wrappers m' =
       free_wrappers (wrappers m) (chain_deleted (reclaimed min_vsn l)) ∧
     trace m' = trace m ++ reclaim_log (wrappers m) (reclaimed min_vsn l) ∧
     (∀ w W, wrappers m !! w = Some W →
        delete_filter w m =
        Ret tt (mk_mgr (config m) (latest m) (clients m) (versions m)
                  (delete w (wrappers m))
                  (trace m ++
                   (if should_delete W then Ev_bloomf_delete (filter W)
                    else Ev_bloomf_close (filter W))
                   :: Ev_destroy_bloom_filter (filter W)
                   :: match custom W with
                      | Some c => [Ev_free_config c]
                      | None => []
                      end))) ∧
     (survivors min_vsn l ≠ [] →
        is_chain (versions m') (latest m')
                 (clear_last_prev (survivors min_vsn l))) ∧
     latest m' = latest m ∧ config m' = config m ∧ clients m' = clients m ∧
     (r = 1 ↔ survivors min_vsn l = []) ∧
     (∀ a v, head l = Some (a, v) → min_vsn ≤ vsn v →
        r = 0 ∧ is_Some (versions m' !! a))) ∧
  (∀ a v, head l = Some (a, v) →
     ∃ m'', filtmgr_vacuum m = Ret tt m'' ∧
       latest m'' = latest m ∧
       is_chain (versions m'') (latest m'') [(a, set_prev None v)] ∧
       (∀ a' v', (a', v') ∈ tail l → versions m'' !! a' = None)).
Proof.
  intros Hne Hc Hs Hnd Hval Hfuel. split.
  - eexists _, _. split; [by apply clean_exact|].
    cbn [versions wrappers trace latest config clients].
    split; [|split; [|split; [|split; [|split; [|split]]]]].
    + intros a v Hin. by eapply clean_versions_lookup.
    + intros a Hnin. by apply clean_versions_frame.
    + done.
    + done.
    + intros w W HW. by apply delete_filter_run.
    + intros HSne. rewrite (vsn_increasing_split min_vsn l Hs) in Hc.
      by apply survivors_chain.
    + split; [done|]. split; [done|]. split; [done|]. split.
      * destruct (decide (survivors min_vsn l = [])); [done|].
        split; [lia|done].
      * intros a v Hhd Hle.
        assert ((a, v) ∈ l) as Hin.
        { destruct l as [|x l']; [done|]. injection Hhd as ->. by left. }
        assert ((a, v) ∈ survivors min_vsn l) as HinS
          by (by apply list_elem_of_filter).
        split.
        -- destruct (decide (survivors min_vsn l = [])) as [E|]; [|done].
           rewrite E in HinS. by apply elem_of_nil in HinS.
        -- destruct (cut_after _ _ !! a) as [v'|] eqn:E; [by eexists|].
           apply (clean_versions_lookup _ _ _ _ _ _ Hc Hs Hin) in E. lia.
  - intros a v Hhd. destruct l as [|x r]; [done|]. injection Hhd as ->.
    pose proof Hc as (Hl & Hv & _).
    destruct (vacuum_split a v r Hs) as [HS HD].
    eexists. split; [|split; [|split]].
    + unfold filtmgr_vacuum. rewrite get_bind.
      erewrite bind_run by (rewrite Hl; by apply deref_vsn_run).
      erewrite bind_run.
      2:{ apply clean_exact; [done..|]. by eapply is_chain_length. }
      reflexivity.
    + done.
    + cbn [versions latest]. rewrite HS, HD.
      split; [done|]. split; [|done].
      unfold cut_after. simpl. apply lookup_insert_eq.
    + intros a' v' Hin. cbn [versions tail] in *. rewrite HS, HD.
      unfold cut_after. simpl.
      pose proof (is_chain_NoDup _ _ _ Hc) as Haddr.
      rewrite fmap_cons in Haddr. apply NoDup_cons in Haddr as [Ha _].
      rewrite lookup_insert_ne.
      * apply free_versions_lookup_in, list_elem_of_fmap. by exists (a', v').
      * intros ->. apply Ha, list_elem_of_fmap. by exists (a', v').
Qed.

End Vacuum.

(** ** Key batches *)

Section Keys.
Context {bloom_filter : Type} `{!FilterOps bloom_filter}.
Implicit Types m : @bloom_filtmgr bloom_filter.
Implicit Types f : bloom_filter.
Implicit Types op : bloom_filter → string → Z * bloom_filter.

Lemma set_loop_keys_loop f keys n i res result :
  set_loop f keys n i res result = keys_loop bloomf_add f keys n i res result.
Proof.
  revert f i res result. induction n as [|n IH]; intros f i res result;
    [done|].
  simpl. destruct (keys !! i) as [key|]; [|done].
  destruct (bloomf_add f key) as [r f']. destruct (r =? -1); [done|].
  case_decide; [|done]. apply IH.
Qed.

Lemma check_loop_keys_loop f keys n i res result :
  check_loop f keys n i res result =
  (λ x, (fst (fst x), snd (fst x))) <$>
  keys_loop (λ f key, (bloomf_contains f key, f)) f keys n i res result.
Proof.
  revert i res result. induction n as [|n IH]; intros i res result; [done|].
  simpl. destruct (keys !! i) as [key|]; [|done].
  destruct (bloomf_contains f key =? -1); [done|].
  case_decide; [|done]. apply IH.
Qed.

Lemma add_answers_op_answers f keys :
  add_answers f keys = op_answers bloomf_add f keys.
Proof.
  revert f. induction keys as [|key keys IH]; intros f; [done|].
  simpl. by rewrite IH.
Qed.

Lemma contains_answers_op_answers f keys :
  contains_answers f keys =
  op_answers (λ f key, (bloomf_contains f key, f)) f keys.
Proof.
  induction keys as [|key keys IH]; [done|]. simpl. by rewrite <- IH.
Qed.

(** The loop, from index [i] on the keys [ks] that are left, when the
    first error is [e] keys further: the slots [i .. i+e-1] get the
    answers, the others are not written. *)
Lemma keys_loop_error op keys : ∀ ks i e f res result,
  drop i keys = ks →
  (i + e < List.length result)%nat →
  first_error (op_answers op f ks) e →
  ∃ result' f',
    keys_loop op f keys (List.length ks) i res result
      = Some (-1, result', f') ∧
    List.length result' = List.length result ∧
    ∀ j, result' !! j =
         if decide (i ≤ j < i + e)%nat
         then to_char <$> op_answers op f ks !! (j - i)%nat
         else result !! j.
Proof.
  induction ks as [|key ks IH]; intros i e f res result Hdrop Hlen [He Hfirst].
  - done.
  - assert (keys !! i = Some key) as Hkey.
    { rewrite <- (Nat.add_0_r i), <- lookup_drop, Hdrop. done. }
    assert (drop (S i) keys = ks) as Hdrop'.
    { replace (S i) with (i + 1)%nat by lia.
      rewrite <- drop_drop, Hdrop. done. }
    cbn [List.length keys_loop]. rewrite Hkey.
    cbn [op_answers] in He, Hfirst |- *.
    destruct (op f key) as [r f1] eqn:Hop. cbn [fst snd] in *.
    destruct e as [|e].
    + simpl in He. injection He as ->. simpl.
      exists result, f1. split; [done|]. split; [done|].
      intros j. case_decide; [lia|done].
    + assert (r ≠ -1) as Hr.
      { intros ->. by apply (Hfirst O); [lia|]. }
      destruct (Z.eqb_spec r (-1)); [done|].
      case_decide; [|lia].
      destruct (IH (S i) e f1 r (<[i := to_char r]> result)) as
        (result' & f' & Hrun & Hlen' & Hres).
      * done.
      * rewrite length_insert. lia.
      * split; [done|]. intros j Hj. apply (Hfirst (S j)). lia.
      * exists result', f'. split; [done|].
        rewrite length_insert in Hlen'. split; [done|].
        intros j. rewrite Hres.
        destruct (decide (j = i)) as [->|Hne].
        -- rewrite decide_False by lia. rewrite decide_True by lia.
           rewrite Nat.sub_diag. simpl.
           by rewrite list_lookup_insert_eq by lia.
        -- rewrite list_lookup_insert_ne by done.
           destruct (decide (S i ≤ j < S i + e)%nat).
           ++ rewrite decide_True by lia.
              replace (j - i)%nat with (S (j - S i)) by lia. done.
           ++ by rewrite decide_False by lia.
Qed.

(** ... and when no call errs: every slot of the keys gets its answer. *)
Lemma keys_loop_ok op keys : ∀ ks i f res result,
  drop i keys = ks →
  (i + List.length ks ≤ List.length result)%nat →
  no_error (op_answers op f ks) →
  res ≠ -1 →
  ∃ res' result' f',
    keys_loop op f keys (List.length ks) i res result
      = Some (res', result', f') ∧
    res' ≠ -1 ∧
    List.length result' = List.length result ∧
    ∀ j, result' !! j =
         if decide (i ≤ j < i + List.length ks)%nat
         then to_char <$> op_answers op f ks !! (j - i)%nat
         else result !! j.
Proof.
  induction ks as [|key ks IH]; intros i f res result Hdrop Hlen Hok Hres.
  - exists res, result, f. split; [done|]. split; [done|]. split; [done|].
    intros j. simpl. case_decide; [lia|done].
  - assert (keys !! i = Some key) as Hkey.
    { rewrite <- (Nat.add_0_r i), <- lookup_drop, Hdrop. done. }
    assert (drop (S i) keys = ks) as Hdrop'.
    { replace (S i) with (i + 1)%nat by lia.
      rewrite <- drop_drop, Hdrop. done. }
    cbn [List.length keys_loop]. rewrite Hkey.
    cbn [op_answers] in Hok |- *. cbn [List.length] in Hlen.
    destruct (op f key) as [r f1] eqn:Hop. cbn [fst snd] in *.
    assert (r ≠ -1) as Hr.
    { intros ->. by apply (Hok O). }
    destruct (Z.eqb_spec r (-1)); [done|].
    case_decide; [|lia].
    destruct (IH (S i) f1 r (<[i := to_char r]> result)) as
      (res' & result' & f' & Hrun & Hres' & Hlen' & Hslots).
    + done.
    + rewrite length_insert. lia.
    + intros j. apply (Hok (S j)).
    + done.
    + exists res', result', f'. split; [done|]. split; [done|].
      rewrite length_insert in Hlen'. split; [done|].
      intros j. rewrite Hslots.
      destruct (decide (j = i)) as [->|Hne].
      * rewrite decide_False by lia. rewrite decide_True by lia.
        rewrite Nat.sub_diag. simpl.
        by rewrite list_lookup_insert_eq by lia.
      * rewrite list_lookup_insert_ne by done.
        destruct (decide (S i ≤ j < S i + List.length ks)%nat).
        -- rewrite decide_True by lia.
           replace (j - i)%nat with (S (j - S i)) by lia. done.
        -- by rewrite decide_False by lia.
Qed.

Lemma op_answers_length op f keys :
  List.length (op_answers op f keys) = List.length keys.
Proof.
  revert f. induction keys as [|key keys IH]; intros f; [done|].
  simpl. by rewrite IH.
Qed.

(** The whole batch without error, on a result array of the size of the
    batch. *)
Lemma keys_loop_ok_all op f keys result :
  List.length result = List.length keys →
  no_error (op_answers op f keys) →
  ∃ res' f',
    keys_loop op f keys (Z.to_nat (Z.of_nat (List.length keys))) 0 0 result
      = Some (res', to_char <$> op_answers op f keys, f') ∧
    res' ≠ -1.
Proof.
  intros Hlen Hok. rewrite Nat2Z.id.
  destruct (keys_loop_ok op keys keys O f 0 result) as
    (res' & result' & f' & Hrun & Hres' & Hlen' & Hslots); [done|lia|done|done|].
  exists res', f'. split; [|done]. rewrite Hrun. do 3 f_equal.
  apply list_eq. intros j. rewrite Hslots, Nat.sub_0_r, list_lookup_fmap.
  case_decide; [done|].
  rewrite !lookup_ge_None_2; [done|..].
  - rewrite op_answers_length. lia.
  - lia.
Qed.

(** The whole batch with a first error at [e]. *)
Lemma keys_loop_error_all op f keys result e :
  List.length result = List.length keys →
  first_error (op_answers op f keys) e →
  ∃ result' f',
    keys_loop op f keys (Z.to_nat (Z.of_nat (List.length keys))) 0 0 result
      = Some (-1, result', f') ∧
    (∀ j, (j < e)%nat →
       result' !! j = to_char <$> op_answers op f keys !! j) ∧
    (∀ j, (e ≤ j)%nat → result' !! j = result !! j).
Proof.
  intros Hlen Herr. rewrite Nat2Z.id.
  assert (e < List.length keys)%nat as He.
  { destruct Herr as [He _]. apply lookup_lt_Some in He.
    by rewrite op_answers_length in He. }
  destruct (keys_loop_error op keys keys O e f 0 result) as
    (result' & f' & Hrun & Hlen' & Hslots); [done|lia|done|].
  exists result', f'. split; [done|]. split.
  - intros j Hj. rewrite Hslots, Nat.sub_0_r. by rewrite decide_True by lia.
  - intros j Hj. rewrite Hslots. by rewrite decide_False by lia.
Qed.

Lemma check_keys_run m a lv name w W keys num_keys result :
  latest m = Some a →
  versions m !! a = Some lv →
  filter_map lv !! name = Some w →
  wrappers m !! w = Some W →
  is_active W = true →
  filtmgr_check_keys name keys num_keys result m =
  match check_loop (filter W) keys (Z.to_nat num_keys) 0 0 result with
  | None => Fault
  | Some (res, result') =>
      Ret (if res =? -1 then -2 else 0, result')
          (set_wrappers (<[w := set_is_hot true W]> (wrappers m)) m)
  end.
Proof.
  intros Hl Hv Hn HW Hact. unfold filtmgr_check_keys.
  rewrite get_bind, Hl.
  erewrite bind_run by (by rewrite (take_filter_run _ _ _ _ Hv), Hn, HW, Hact).
  cbv beta iota.
  rewrite (bind_run _ _ _ _ _ (deref_wrapper_run _ _ _ HW)).
  destruct (check_loop _ _ _ _ _ _) as [[res result']|]; [|done].
  cbv beta iota.
  rewrite (bind_run _ _ _ _ _ (deref_wrapper_run _ _ _ HW)).
  by rewrite (bind_run _ _ _ _ _ (store_wrapper_run _ _ _ _ HW)).
Qed.

Lemma set_keys_run m a lv name w W keys num_keys result :
  latest m = Some a →
  versions m !! a = Some lv →
  filter_map lv !! name = Some w →
  wrappers m !! w = Some W →
  is_active W = true →
  filtmgr_set_keys name keys num_keys result m =
  match set_loop (filter W) keys (Z.to_nat num_keys) 0 0 result with
  | None => Fault
  | Some (res, result', f') =>
      Ret (if res =? -1 then -2 else 0, result')
          (set_wrappers
             (<[w := set_is_hot true (set_filter f' W)]> (wrappers m)) m)
  end.
Proof.
  intros Hl Hv Hn HW Hact. unfold filtmgr_set_keys.
  rewrite get_bind, Hl.
  erewrite bind_run by (by rewrite (take_filter_run _ _ _ _ Hv), Hn, HW, Hact).
  cbv beta iota.
  rewrite (bind_run _ _ _ _ _ (deref_wrapper_run _ _ _ HW)).
  destruct (set_loop _ _ _ _ _ _) as [[[res result'] f']|]; [|done].
  cbv beta iota.
  rewrite (bind_run _ _ _ _ _ (store_wrapper_run _ _ _ _ HW)).
  erewrite bind_run by (apply deref_wrapper_run, lookup_insert_eq).
  erewrite bind_run by (eapply store_wrapper_run, lookup_insert_eq).
  cbn. by rewrite insert_insert_eq.
Qed.

Lemma keys_no_filter m a lv name keys num_keys result :
  latest m = Some a →
  versions m !! a = Some lv →
  (filter_map lv !! name = None ∨
   ∃ w W, filter_map lv !! name = Some w ∧ wrappers m !! w = Some W ∧
          is_active W = false) →
  filtmgr_check_keys name keys num_keys result m = Ret (-1, result) m ∧
  filtmgr_set_keys name keys num_keys result m = Ret (-1, result) m.
Proof.
  intros Hl Hv Hno.
  assert (take_filter (latest m) name m = Ret None m) as Htake.
  { rewrite Hl, (take_filter_run _ _ _ _ Hv).
    destruct Hno as [->|(w & W & -> & -> & ->)]; done. }
  unfold filtmgr_check_keys, filtmgr_set_keys.
  by rewrite !get_bind, !(bind_run _ _ _ _ _ Htake).
Qed.

(** C4.  On a name that resolves to an active wrapper, with [num_keys]
    keys and as many result slots:
    - if no call of the filter errs, [filtmgr_check_keys] and
      [filtmgr_set_keys] return 0 and every slot holds the answer for
      its key (as the [char] it is stored in);
    - if the first call that errs is the one for key [e], they return
      -2, the slots before [e] hold the answers and the slots from [e]
      on are as the caller passed them;
    - if the name is absent or its wrapper inactive, they return -1
      and neither the result array nor the manager changes.
    The answers of [filtmgr_set_keys] are those of [bloomf_add] on the
    filter as the previous additions left it; an answer 0 or 1 is its
    own [char]. *)
Theorem keys_batch_contract m a lv name keys result :
  latest m = Some a →
  versions m !! a = Some lv →
  List.length result = List.length keys →
  let num_keys := Z.of_nat (List.length keys) in
  (∀ w W,
     filter_map lv !! name = Some w → wrappers m !! w = Some W →
     is_active W = true →
     (no_error (contains_answers (filter W) keys) →
      ∃ m', filtmgr_check_keys name keys num_keys result m =
            Ret (0, to_char <$> contains_answers (filter W) keys) m') ∧
     (no_error (add_answers (filter W) keys) →
      ∃ m', filtmgr_set_keys name keys num_keys result m =
            Ret (0, to_char <$> add_answers (filter W) keys) m') ∧
     (∀ e, first_error (contains_answers (filter W) keys) e →
      ∃ result' m',
        filtmgr_check_keys name keys num_keys result m
          = Ret (-2, result') m' ∧
        (∀ j, (j < e)%nat →
           result' !! j =
           to_char <$> contains_answers (filter W) keys !! j) ∧
        (∀ j, (e ≤ j)%nat → result' !! j = result !! j)) ∧
     (∀ e, first_error (add_answers (filter W) keys) e →
      ∃ result' m',
        filtmgr_set_keys name keys num_keys result m
          = Ret (-2, result') m' ∧
        (∀ j, (j < e)%nat →
           result' !! j = to_char <$> add_answers (filter W) keys !! j) ∧
        (∀ j, (e ≤ j)%nat → result' !! j = result !! j))) ∧
  ((filter_map lv !! name = None ∨
    ∃ w W, filter_map lv !! name = Some w ∧ wrappers m !! w = Some W ∧
           is_active W = false) →
   filtmgr_check_keys name keys num_keys result m = Ret (-1, result) m ∧
   filtmgr_set_keys name keys num_keys result m = Ret (-1, result) m) ∧
  to_char 0 = 0 ∧ to_char 1 = 1.
Proof.
  intros Hl Hv Hlen num_keys.
  split; [|split; [by apply (keys_no_filter m a lv)|done]].
  intros w W Hn HW Hact.
  rewrite contains_answers_op_answers, add_answers_op_answers.
  split; [|split; [|split]].
  - intros Hok.
    destruct (keys_loop_ok_all _ (filter W) keys result Hlen Hok)
      as (res' & f' & Hrun & Hres').
    eexists. rewrite (check_keys_run _ _ _ _ _ _ _ _ _ Hl Hv Hn HW Hact).
    rewrite check_loop_keys_loop. unfold num_keys. rewrite Hrun. simpl.
    by destruct (Z.eqb_spec res' (-1)).
  - intros Hok.
    destruct (keys_loop_ok_all _ (filter W) keys result Hlen Hok)
      as (res' & f' & Hrun & Hres').
    eexists. rewrite (set_keys_run _ _ _ _ _ _ _ _ _ Hl Hv Hn HW Hact).
    rewrite set_loop_keys_loop. unfold num_keys. rewrite Hrun.
    by destruct (Z.eqb_spec res' (-1)).
  - intros e Herr.
    destruct (keys_loop_error_all _ (filter W) keys result e Hlen Herr)
      as (result' & f' & Hrun & Hlt & Hge).
    exists result'. eexists.
    rewrite (check_keys_run _ _ _ _ _ _ _ _ _ Hl Hv Hn HW Hact).
    rewrite check_loop_keys_loop. unfold num_keys. rewrite Hrun. simpl.
    done.
  - intros e Herr.
    destruct (keys_loop_error_all _ (filter W) keys result e Hlen Herr)
      as (result' & f' & Hrun & Hlt & Hge).
    exists result'. eexists.
    rewrite (set_keys_run _ _ _ _ _ _ _ _ _ Hl Hv Hn HW Hact).
    rewrite set_loop_keys_loop. unfold num_keys. rewrite Hrun.
    done.
Qed.

End Keys.

(** ** Listings *)

Section Listings.
Context {bloom_filter : Type} `{!FilterOps bloom_filter}.
Implicit Types m : @bloom_filtmgr bloom_filter.
Implicit Types entries : list (string * nat).
Implicit Types ws : gmap nat (@bloom_filter_wrapper bloom_filter).

Lemma list_cb_run m head k v V :
  wrappers m !! v = Some V →
  filter_map_list_cb head k v m =
  Ret (if is_active V then k :: head else head) m.
Proof.
  intros HV. unfold filter_map_list_cb.
  rewrite (bind_run _ _ _ _ _ (deref_wrapper_run _ _ _ HV)).
  by destruct (is_active V).
Qed.

Lemma list_cold_cb_run m head k v V :
  wrappers m !! v = Some V →
  filter_map_list_cold_cb head k v m =
  Ret (if is_hot V then head
       else if bloomf_is_proxied (filter V) then head else k :: head)
      (if is_hot V
       then set_wrappers (<[v := set_is_hot false V]> (wrappers m)) m
       else m).
Proof.
  intros HV. unfold filter_map_list_cold_cb.
  rewrite (bind_run _ _ _ _ _ (deref_wrapper_run _ _ _ HV)).
  destruct (is_hot V).
  - by rewrite (bind_run _ _ _ _ _ (store_wrapper_run _ _ _ _ HV)).
  - by destruct (bloomf_is_proxied (filter V)).
Qed.

(** [filter_map_list_cb] over a list of entries keeps the manager as it
    is and adds the keys of the active wrappers. *)
Lemma iter_list_cb m entries : ∀ head,
  (∀ k v, (k, v) ∈ entries → is_Some (wrappers m !! v)) →
  ∃ names,
    iter_entries filter_map_list_cb entries head m = Ret names m ∧
    ∀ n, n ∈ names ↔
         n ∈ head ∨
         ∃ v V, (n, v) ∈ entries ∧ wrappers m !! v = Some V ∧
                is_active V = true.
Proof.
  induction entries as [|[k v] entries IH]; intros head Hval.
  - exists head. split; [done|]. intros n. split; [by left|].
    intros [?|(v & V & Hin & _)]; [done|]. by apply elem_of_nil in Hin.
  - destruct (Hval k v) as [V HV]; [by left|].
    assert (∀ k' v', (k', v') ∈ entries → is_Some (wrappers m !! v'))
      as Hval' by (intros k' v' Hin; apply (Hval k' v'); by right).
    cbn [iter_entries].
    rewrite (bind_run _ _ _ _ _ (list_cb_run _ head k _ _ HV)).
    destruct (is_active V) eqn:Hact.
    + destruct (IH (k :: head) Hval') as (names & Hrun & Hnames).
      exists names. split; [done|]. intros n. rewrite Hnames.
      rewrite elem_of_cons. split.
      * intros [[->|?]|(v' & V' & Hin & HV' & Ha)].
        -- right. exists v, V. split; [by left|done].
        -- by left.
        -- right. exists v', V'. split; [by right|done].
      * intros [?|(v' & V' & Hin & HV' & Ha)]; [by left; right|].
        apply elem_of_cons in Hin as [[= -> ->]|Hin]; [by left; left|].
        right. by exists v', V'.
    + destruct (IH head Hval') as (names & Hrun & Hnames).
      exists names. split; [done|]. intros n. rewrite Hnames. split.
      * intros [?|(v' & V' & Hin & HV' & Ha)]; [by left|].
        right. exists v', V'. split; [by right|done].
      * intros [?|(v' & V' & Hin & HV' & Ha)]; [by left|].
        apply elem_of_cons in Hin as [[= -> ->]|Hin]; [congruence|].
        right. by exists v', V'.
Qed.

Lemma cooled_refl ws : cooled ws ws.
Proof. intros v. destruct (ws !! v); auto. Qed.

Lemma cooled_trans (ws1 ws2 ws3 : gmap nat (@bloom_filter_wrapper bloom_filter)) :
  cooled ws1 ws2 → cooled ws2 ws3 → cooled ws1 ws3.
Proof.
  intros H12 H23 v. specialize (H12 v). specialize (H23 v).
  destruct (ws1 !! v) as [V1|], (ws2 !! v) as [V2|], (ws3 !! v) as [V3|];
    try done.
  destruct H12 as [->|[Hh ->]], H23 as [->|[Hh' ->]]; auto.
Qed.

Lemma cooled_cold (ws ws' : gmap nat (@bloom_filter_wrapper bloom_filter)) v V :
 
  cooled ws ws' → ws !! v = Some V → is_hot V = false → ws' !! v = Some V.
Proof.
  intros Hc HV Hcold. specialize (Hc v). rewrite HV in Hc.
  destruct (ws' !! v) as [V'|]; [|done].
  destruct Hc as [->|[? _]]; [done|congruence].
Qed.

Lemma cooled_is_Some (ws ws' : gmap nat (@bloom_filter_wrapper bloom_filter)) v :
 
  cooled ws ws' → is_Some (ws !! v) → is_Some (ws' !! v).
Proof.
  intros Hc [V HV]. specialize (Hc v). rewrite HV in Hc.
  by destruct (ws' !! v).
Qed.

(** [filter_map_list_cold_cb] over a list of entries: only [is_hot]
    flags are cleared, and the key of every wrapper that was cold and not
    proxied is in the list. *)
Lemma iter_list_cold_cb entries : ∀ m head,
  (∀ k v, (k, v) ∈ entries → is_Some (wrappers m !! v)) →
  ∃ names ws',
    iter_entries filter_map_list_cold_cb entries head m =
      Ret names (set_wrappers ws' m) ∧
    cooled (wrappers m) ws' ∧
    (∀ n, n ∈ head → n ∈ names) ∧
    (∀ k v V, (k, v) ∈ entries → wrappers m !! v = Some V →
       is_hot V = false → bloomf_is_proxied (filter V) = false →
       k ∈ names).
Proof.
  induction entries as [|[k v] entries IH]; intros m head Hval.
  - exists head, (wrappers m). split; [by destruct m|].
    split; [apply cooled_refl|]. split; [done|].
    intros k v V Hin. by apply elem_of_nil in Hin.
  - destruct (Hval k v) as [V HV]; [by left|].
    cbn [iter_entries].
    rewrite (bind_run _ _ _ _ _ (list_cold_cb_run _ head k _ _ HV)).
    set (m1 := if is_hot V
               then set_wrappers (<[v := set_is_hot false V]> (wrappers m)) m
               else m).
    set (head1 := if is_hot V then head
                  else if bloomf_is_proxied (filter V) then head
                       else k :: head).
    assert (cooled (wrappers m) (wrappers m1)) as Hcool1.
    { unfold m1. destruct (is_hot V) eqn:Hhot; [|apply cooled_refl].
      intros v'. cbn [wrappers set_wrappers].
      destruct (decide (v' = v)) as [->|Hne].
      - rewrite HV, lookup_insert_eq. by right.
      - rewrite lookup_insert_ne by done. destruct (wrappers m !! v'); auto. }
    assert (∀ k' v', (k', v') ∈ entries → is_Some (wrappers m1 !! v'))
      as Hval'.
    { intros k' v' Hin. eapply cooled_is_Some; [done|].
      apply (Hval k' v'). by right. }
    destruct (IH m1 head1 Hval') as (names & ws' & Hrun & Hcool & Hhead & Hcold).
    exists names, ws'. split; [|split; [|split]].
    + rewrite Hrun. f_equal. unfold m1. by destruct (is_hot V).
    + by eapply cooled_trans.
    + intros n Hn. apply Hhead. unfold head1.
      destruct (is_hot V); [done|].
      destruct (bloomf_is_proxied (filter V)); [done|]. by right.
    + intros k' v' V' Hin HV' Hhot Hprox.
      apply elem_of_cons in Hin as [[= -> ->]|Hin].
      * apply Hhead. unfold head1.
        assert (V' = V) as -> by congruence.
        rewrite Hhot, Hprox. by left.
      * apply (Hcold k' v' V'); [done| |done..].
        by apply (cooled_cold (wrappers m)).
Qed.

Lemma elem_of_prefix_entries (t : gmap string nat) pfx k v :
  (k, v) ∈ List.filter (λ kv, String.prefix pfx (fst kv)) (map_to_list t) →
  t !! k = Some v.
Proof.
  intros [Hin _]%list_elem_of_In%filter_In.
  by apply elem_of_map_to_list, list_elem_of_In.
Qed.

(** C10.  A wrapper that is in the index of [latest] with [is_active]
    cleared: [filtmgr_list_filters], with or without a prefix, returns a
    list without its name (and leaves the manager as it was), while
    [filtmgr_list_cold_filters] returns a list with its name as soon as
    its [is_hot] is clear and its filter is not proxied, [is_active]
    playing no part. *)
Theorem inactive_wrapper_listing m a lv name w W :
  latest m = Some a →
  versions m !! a = Some lv →
  (∀ k v, filter_map lv !! k = Some v → is_Some (wrappers m !! v)) →
  filter_map lv !! name = Some w →
  wrappers m !! w = Some W →
  is_active W = false →
  (∀ pfx, ∃ names,
     filtmgr_list_filters pfx m = Ret (0, names) m ∧ name ∉ names) ∧
  (is_hot W = false → bloomf_is_proxied (filter W) = false →
   ∃ names m',
     filtmgr_list_cold_filters m = Ret (0, names) m' ∧ name ∈ names).
Proof.
  intros Hl Hv Hval Hn HW Hact. split.
  - intros pfx. unfold filtmgr_list_filters. rewrite get_bind, Hl.
    rewrite (bind_run _ _ _ _ _ (deref_vsn_run _ _ _ Hv)).
    set (entries := match pfx with
                    | Some p => List.filter (λ kv, String.prefix p (fst kv))
                                  (map_to_list (filter_map lv))
                    | None => map_to_list (filter_map lv)
                    end).
    assert (∀ k v, (k, v) ∈ entries → filter_map lv !! k = Some v) as Hent.
    { intros k v. unfold entries. destruct pfx as [p|].
      - apply elem_of_prefix_entries.
      - by intros ?%elem_of_map_to_list. }
    destruct (iter_list_cb m entries []) as (names & Hrun & Hnames).
    { intros k v Hin. apply (Hval k v). by apply Hent. }
    exists names. split.
    + erewrite bind_run; [reflexivity|].
      unfold entries in Hrun. by destruct pfx.
    + intros [Hnil|(v & V & Hin & HV & HactV)]%Hnames.
      * by apply elem_of_nil in Hnil.
      * apply Hent in Hin. congruence.
  - intros Hhot Hprox. unfold filtmgr_list_cold_filters.
    rewrite get_bind, Hl.
    rewrite (bind_run _ _ _ _ _ (deref_vsn_run _ _ _ Hv)).
    destruct (iter_list_cold_cb (map_to_list (filter_map lv)) m [])
      as (names & ws' & Hrun & _ & _ & Hcold).
    { intros k v Hin. apply (Hval k v). by apply elem_of_map_to_list. }
    exists names. eexists. split.
    + erewrite bind_run; [reflexivity|exact Hrun].
    + apply (Hcold name w W); [|done..]. by apply elem_of_map_to_list.
Qed.

End Listings.

(** ** What each operation can do to the manager *)

Section Effects.
Context {bloom_filter : Type} `{!FilterOps bloom_filter}.
Implicit Types m : @bloom_filtmgr bloom_filter.

Lemma take_filter_inv m name filt m' :
  take_filter (latest m) name m = Ret filt m' →
  m' = m ∧ ∃ a v, latest m = Some a ∧ versions m !! a = Some v ∧
    match filt with
    | Some w => ∃ W, filter_map v !! name = Some w ∧
                     wrappers m !! w = Some W ∧ is_active W = true
    | None => True
    end.
Proof.
  intros H. destruct filt as [w|].
  - apply take_filter_Some in H as (-> & a & v & W & ? & ? & ? & ? & ?).
    split; [done|]. exists a, v. repeat split; [done..|]. by exists W.
  - unfold take_filter in H.
    apply bind_inv in H as (v & m1 & [-> (a & Ha & Hv)]%deref_vsn_inv & H).
    assert (m' = m) as ->.
    { destruct (filter_map v !! name) as [w|]; [|by injection H].
      apply bind_inv in H as (W & m2 & [-> _]%deref_wrapper_inv & H).
      by injection H. }
    split; [done|]. by exists a, v.
Qed.

Lemma flush_filter_inv m name r m' :
  filtmgr_flush_filter name m = Ret r m' → tweaks_filter m m'.
Proof.
  unfold filtmgr_flush_filter. rewrite get_bind.
  intros (filt & m1 & [-> (a & v & Hl & Hv & Hf)]%take_filter_inv & H)%bind_inv.
  destruct filt as [w|]; [|left; by injection H].
  destruct Hf as (W & Hn & HW & Hact). right. exists w, W. eexists.
  split; [done|].
  rewrite (bind_run _ _ _ _ _ (deref_wrapper_run _ _ _ HW)) in H.
  rewrite (bind_run _ _ _ _ _ (store_wrapper_run _ _ _ _ HW)) in H.
  by injection H.
Qed.

Lemma unmap_filter_inv m name r m' :
  filtmgr_unmap_filter name m = Ret r m' → tweaks_filter m m'.
Proof.
  unfold filtmgr_unmap_filter. rewrite get_bind.
  intros (filt & m1 & [-> (a & v & Hl & Hv & Hf)]%take_filter_inv & H)%bind_inv.
  destruct filt as [w|]; [|left; by injection H].
  destruct Hf as (W & Hn & HW & Hact).
  rewrite (bind_run _ _ _ _ _ (deref_wrapper_run _ _ _ HW)) in H.
  destruct (in_memory (filter W)); cbn [negb] in H.
  - left. by injection H.
  - right. exists w, W. eexists. split; [done|].
    rewrite (bind_run _ _ _ _ _ (store_wrapper_run _ _ _ _ HW)) in H.
    by injection H.
Qed.

Lemma filter_cb_inv m name cb r m' :
  filtmgr_filter_cb name cb m = Ret r m' → tweaks_filter m m'.
Proof.
  unfold filtmgr_filter_cb. rewrite get_bind.
  intros (filt & m1 & [-> (a & v & Hl & Hv & Hf)]%take_filter_inv & H)%bind_inv.
  destruct filt as [w|]; [|left; by injection H].
  destruct Hf as (W & Hn & HW & Hact). right. exists w, W. eexists.
  split; [done|].
  rewrite (bind_run _ _ _ _ _ (deref_wrapper_run _ _ _ HW)) in H.
  rewrite (bind_run _ _ _ _ _ (store_wrapper_run _ _ _ _ HW)) in H.
  by injection H.
Qed.

Lemma checkpoint_inv m tid m' :
  filtmgr_client_checkpoint tid m = Ret tt m' →
  ∃ cs, m' = set_clients cs m.
Proof.
  unfold filtmgr_client_checkpoint. rewrite get_bind.
  intros (lv & m1 & [-> _]%deref_vsn_inv & H)%bind_inv.
  destruct (update_client _ _ _) as [cs|]; injection H as <-; by eexists.
Qed.

Lemma leave_inv m tid m' :
  filtmgr_client_leave tid m = Ret tt m' → ∃ cs, m' = set_clients cs m.
Proof.
  unfold filtmgr_client_leave. rewrite get_bind.
  intros [= <-]. by eexists.
Qed.

(** A batch of keys: nothing, or the wrapper of the name is marked hot
    (and its filter is what the batch left). *)
Lemma check_keys_inv m name keys num_keys result code result' m' :
  filtmgr_check_keys name keys num_keys result m = Ret (code, result') m' →
  (code = -1 ∧ m' = m) ∨
  ∃ w W f, take_filter (latest m) name m = Ret (Some w) m ∧
    wrappers m !! w = Some W ∧ (code = 0 ∨ code = -2) ∧
    m' = set_wrappers
           (<[w := set_is_hot true (set_filter f W)]> (wrappers m)) m.
Proof.
  intros H. pose proof H as H0. unfold filtmgr_check_keys in H.
  rewrite get_bind in H.
  apply bind_inv in H as (filt & m1 & Htake & H).
  pose proof Htake as [-> (a & v & Hl & Hv & Hf)]%take_filter_inv.
  destruct filt as [w|]; [|injection H as <- <- <-; by left].
  destruct Hf as (W & Hn & HW & Hact). right. clear H.
  rewrite (check_keys_run _ _ _ _ _ _ _ _ _ Hl Hv Hn HW Hact) in H0.
  destruct (check_loop _ _ _ _ _ _) as [[res r']|]; [|done].
  injection H0 as <- <- <-.
  exists w, W, (filter W). split; [done|]. split; [done|]. split.
  - destruct (res =? -1); auto.
  - by destruct W.
Qed.

Lemma set_keys_inv m name keys num_keys result code result' m' :
  filtmgr_set_keys name keys num_keys result m = Ret (code, result') m' →
  (code = -1 ∧ m' = m) ∨
  ∃ w W f, take_filter (latest m) name m = Ret (Some w) m ∧
    wrappers m !! w = Some W ∧ (code = 0 ∨ code = -2) ∧
    m' = set_wrappers
           (<[w := set_is_hot true (set_filter f W)]> (wrappers m)) m.
Proof.
  intros H. pose proof H as H0. unfold filtmgr_set_keys in H.
  rewrite get_bind in H.
  apply bind_inv in H as (filt & m1 & Htake & H).
  pose proof Htake as [-> (a & v & Hl & Hv & Hf)]%take_filter_inv.
  destruct filt as [w|]; [|injection H as <- <- <-; by left].
  destruct Hf as (W & Hn & HW & Hact). right. clear H.
  rewrite (set_keys_run _ _ _ _ _ _ _ _ _ Hl Hv Hn HW Hact) in H0.
  destruct (set_loop _ _ _ _ _ _) as [[[res r'] f']|]; [|done].
  injection H0 as <- <- <-.
  exists w, W, f'. split; [done|]. split; [done|]. split; [|done].
  destruct (res =? -1); auto.
Qed.

Lemma scan_pending_inv fuel : ∀ p name m b m',
  scan_pending fuel p name m = Ret b m' → m' = m.
Proof.
  induction fuel as [|fuel IH]; intros p name m b m' H.
  - destruct p; [done|]. by injection H.
  - destruct p as [a|]; [|by injection H].
    cbn [scan_pending] in H.
    apply bind_inv in H as (v & m1 & [-> _]%deref_vsn_inv & H).
    destruct (deleted v) as [w|]; [|by eapply IH].
    apply bind_inv in H as (W & m2 & [-> _]%deref_wrapper_inv & H).
    destruct (_ =? 0); [by injection H|by eapply IH].
Qed.

(** [filtmgr_create_filter]: nothing, or a new version with the new
    wrapper, hot, in its index. *)
Lemma create_filter_inv m name custom_config r init_res code m' :
  filtmgr_create_filter name custom_config r init_res m = Ret code m' →
  (code ≠ 0 ∧ m' = m) ∨
  ∃ a lv f c,
    code = 0 ∧ init_res = Some f ∧
    latest m = Some a ∧ versions m !! a = Some lv ∧
    m' = mk_mgr (config m) (Some (fresh (dom (versions m)))) (clients m)
           (<[fresh (dom (versions m)) :=
                mk_vsn (u64_add (vsn lv) 1)
                       (<[name := fresh (dom (wrappers m))]> (filter_map lv))
                       None (Some a)]> (versions m))
           (<[fresh (dom (wrappers m)) := mk_wrapper true true false f c]>
              (wrappers m))
           (trace m).
Proof.
  unfold filtmgr_create_filter. rewrite get_bind.
  intros (lv & m1 & [-> (a & Hl & Hv)]%deref_vsn_inv & H)%bind_inv.
  destruct (filter_map lv !! name) as [w|];
    [injection H as <- <-; by left|].
  apply bind_inv in H as (b & m1 & Hscan & H).
  pose proof (scan_pending_inv _ _ _ _ _ _ Hscan) as ->.
  destruct b; [injection H as <- <-; by left|].
  destruct (decide (r = 0)) as [->|Hr].
  - destruct init_res as [f|].
    + rewrite (create_filter_install _ _ _ _ _ _ Hl Hv) in H.
      injection H as <- <-. right. by eexists a, lv, f, _.
    + rewrite (create_filter_init_fails _ _ _ _ _ Hl Hv) in H.
      injection H as <- <-. by left.
  - by rewrite (create_filter_copy_fails _ _ _ _ _ _ _ Hr Hl Hv) in H.
Qed.

Lemma create_new_version_fault m a lv r w name del :
  r ≠ 0 → latest m = Some a → versions m !! a = Some lv →
  wrappers m !! w = Some del →
  ∀ d, retire_filter (Some a) w name d r m = Fault.
Proof.
  intros Hr Hl Hv HW d. unfold retire_filter.
  rewrite (bind_run _ _ _ _ _ (deref_wrapper_run _ _ _ HW)).
  rewrite (bind_run _ _ _ _ _ (store_wrapper_run _ _ _ _ HW)).
  erewrite bind_run by (apply deref_wrapper_run, lookup_insert_eq).
  erewrite bind_run by (eapply store_wrapper_run, lookup_insert_eq).
  erewrite bind_run by (by eapply create_new_version_fail).
  reflexivity.
Qed.

Lemma drop_filter_inv m name r code m' :
  filtmgr_drop_filter name r m = Ret code m' →
  (code ≠ 0 ∧ m' = m) ∨
  ∃ a lv w W,
    code = 0 ∧ latest m = Some a ∧ versions m !! a = Some lv ∧
    filter_map lv !! name = Some w ∧ wrappers m !! w = Some W ∧
    m' = retired m a lv w W name true.
Proof.
  rewrite drop_filter_unfold, get_bind.
  intros (filt & m1 & [-> (a & v & Hl & Hv & Hf)]%take_filter_inv & H)%bind_inv.
  destruct filt as [w|]; [|injection H as <- <-; by left].
  destruct Hf as (W & Hn & HW & Hact). rewrite Hl in H.
  destruct (decide (r = 0)) as [->|Hr].
  - rewrite (retire_filter_run _ _ _ _ _ _ _ Hl Hv HW) in H.
    injection H as <- <-. right. by exists a, v, w, W.
  - by rewrite (create_new_version_fault _ _ _ _ _ _ _ Hr Hl Hv HW) in H.
Qed.

Lemma clear_filter_inv m name r code m' :
  filtmgr_clear_filter name r m = Ret code m' →
  (code ≠ 0 ∧ m' = m) ∨
  ∃ a lv w W,
    code = 0 ∧ latest m = Some a ∧ versions m !! a = Some lv ∧
    filter_map lv !! name = Some w ∧ wrappers m !! w = Some W ∧
    m' = retired m a lv w W name false.
Proof.
  rewrite clear_filter_unfold, get_bind.
  intros (filt & m1 & [-> (a & v & Hl & Hv & Hf)]%take_filter_inv & H)%bind_inv.
  destruct filt as [w|]; [|injection H as <- <-; by left].
  destruct Hf as (W & Hn & HW & Hact). rewrite Hl in H.
  rewrite (bind_run _ _ _ _ _ (deref_wrapper_run _ _ _ HW)) in H.
  destruct (bloomf_is_proxied (filter W)); cbn [negb] in H;
    [|injection H as <- <-; by left].
  destruct (decide (r = 0)) as [->|Hr].
  - rewrite (retire_filter_run _ _ _ _ _ _ _ Hl Hv HW) in H.
    injection H as <- <-. right. by exists a, v, w, W.
  - by rewrite (create_new_version_fault _ _ _ _ _ _ _ Hr Hl Hv HW) in H.
Qed.

Lemma list_cb_inv m head k v h m' :
  filter_map_list_cb head k v m = Ret h m' → m' = m.
Proof.
  unfold filter_map_list_cb.
  intros (V & m1 & [-> _]%deref_wrapper_inv & H)%bind_inv.
  destruct (is_active V); by injection H.
Qed.

Lemma iter_list_cb_inv m entries : ∀ head names m',
  iter_entries filter_map_list_cb entries head m = Ret names m' → m' = m.
Proof.
  induction entries as [|[k v] entries IH]; intros head names m' H.
  - by injection H.
  - cbn [iter_entries] in H.
    apply bind_inv in H as (h & m1 & ->%list_cb_inv & H). by eapply IH.
Qed.

Lemma list_filters_inv m pfx r m' :
  filtmgr_list_filters pfx m = Ret r m' → m' = m.
Proof.
  unfold filtmgr_list_filters. rewrite get_bind.
  intros (v & m1 & [-> _]%deref_vsn_inv & H)%bind_inv.
  apply bind_inv in H as (h & m1 & Hiter & H).
  injection H as _ <-.
  destruct pfx; by eapply iter_list_cb_inv.
Qed.

Lemma iter_list_cold_inv entries : ∀ m head names m',
  iter_entries filter_map_list_cold_cb entries head m = Ret names m' →
  ∃ ws', m' = set_wrappers ws' m ∧ cooled (wrappers m) ws'.
Proof.
  induction entries as [|[k v] entries IH]; intros m head names m' H.
  - injection H as _ <-. exists (wrappers m).
    split; [by destruct m|apply cooled_refl].
  - cbn [iter_entries] in H.
    apply bind_inv in H as (h & m1 & Hcb & H).
    assert (∃ V, wrappers m !! v = Some V) as [V HV].
    { unfold filter_map_list_cold_cb in Hcb.
      apply bind_inv in Hcb as (V & m2 & [-> HV]%deref_wrapper_inv & _).
      by exists V. }
    rewrite (list_cold_cb_run _ _ _ _ _ HV) in Hcb. injection Hcb as <- <-.
    apply IH in H as (ws' & -> & Hcool).
    exists ws'. split; [by destruct (is_hot V)|].
    eapply cooled_trans; [|done].
    destruct (is_hot V) eqn:Hhot; [|apply cooled_refl].
    intros v'. cbn [wrappers set_wrappers].
    destruct (decide (v' = v)) as [->|Hne].
    + rewrite HV, lookup_insert_eq. by right.
    + rewrite lookup_insert_ne by done. destruct (wrappers m !! v'); auto.
Qed.

Lemma list_cold_filters_inv m r m' :
  filtmgr_list_cold_filters m = Ret r m' →
  ∃ ws', m' = set_wrappers ws' m ∧ cooled (wrappers m) ws'.
Proof.
  unfold filtmgr_list_cold_filters. rewrite get_bind.
  intros (v & m1 & [-> _]%deref_vsn_inv & H)%bind_inv.
  apply bind_inv in H as (h & m1 & Hiter & H).
  injection H as _ <-. by eapply iter_list_cold_inv.
Qed.

End Effects.

(** ** What a reclaiming pass that returns has done *)

Section CleanInv.
Context {bloom_filter : Type} `{!FilterOps bloom_filter}.
Implicit Types m : @bloom_filtmgr bloom_filter.
Implicit Types l S D : list (nat * filtmgr_vsn).

Lemma vacuumed_refl m : vacuumed m m.
Proof. by repeat split. Qed.

Lemma vacuumed_trans m1 m2 m3 :
  vacuumed m1 m2 → vacuumed m2 m3 → vacuumed m1 m3.
Proof.
  intros (? & ? & ? & H12) (? & ? & ? & H23).
  repeat split; [congruence..|]. intros w W HW. by apply H12, H23.
Qed.

Lemma store_vsn_inv m p v m' :
  store_vsn p v m = Ret tt m' →
  ∃ a, p = Some a ∧ m' = set_versions (<[a := v]> (versions m)) m.
Proof.
  unfold store_vsn.
  intros (v0 & m1 & [-> (a & -> & Hv)]%deref_vsn_inv & H)%bind_inv.
  injection H as <-. by exists a.
Qed.

Lemma destroy_version_inv m p m' :
  destroy_version p m = Ret tt m' →
  ∃ a, p = Some a ∧ m' = set_versions (delete a (versions m)) m.
Proof.
  destruct p as [a|]; [|done]. unfold destroy_version, free_vsn.
  intros (v0 & m1 & [-> _]%deref_vsn_inv & H)%bind_inv.
  injection H as <-. by exists a.
Qed.

Lemma delete_filter_inv m w m' :
  delete_filter w m = Ret tt m' →
  ∃ W, wrappers m !! w = Some W ∧
       m' = mk_mgr (config m) (latest m) (clients m) (versions m)
                   (delete w (wrappers m)) (trace m ++ reclaim_events W).
Proof.
  intros H.
  assert (∃ W, wrappers m !! w = Some W) as [W HW].
  { unfold delete_filter in H.
    apply bind_inv in H as (W & m1 & [-> HW]%deref_wrapper_inv & _).
    by exists W. }
  rewrite (delete_filter_run _ _ _ HW) in H. injection H as <-.
  by exists W.
Qed.

(** The second half of [clean_old_versions], when it returns. *)
Lemma clean_tail_inv m a v min_vsn r m' :
  versions m !! a = Some v →
  (ver ← deref_vsn (Some a);
   if vsn ver >=? min_vsn then mret 0
   else
     match deleted ver with
     | Some w => delete_filter w
     | None => mret tt
     end;;
     destroy_version (Some a);;
     mret 1) m = Ret r m' →
  (min_vsn ≤ vsn v ∧ r = 0 ∧ m' = m) ∨
  (vsn v < min_vsn ∧ r = 1 ∧ vacuumed m m' ∧
   versions m' = delete a (versions m)).
Proof.
  intros Hv H.
  rewrite (bind_run _ _ _ _ _ (deref_vsn_run _ _ _ Hv)) in H.
  destruct (Z.geb_spec (vsn v) min_vsn) as [Hge|Hlt].
  - left. injection H as <- <-. split; [lia|done].
  - right. split; [done|].
    apply bind_inv in H as ([] & m1 & Hdel & H).
    apply bind_inv in H as ([] & m2 & (a' & [= <-] & ->)%destroy_version_inv & H).
    injection H as <- <-. split; [done|].
    destruct (deleted v) as [w|].
    + apply delete_filter_inv in Hdel as (W & HW & ->).
      split; [|done]. repeat split; try done.
      intros w' W'. cbn. intros Hw'.
      by apply lookup_delete_Some in Hw' as [_ ?].
    + injection Hdel as <-. split; [|done]. by repeat split.
Qed.

(** Whatever the heap, a pass only frees wrappers. *)
Lemma clean_vacuumed fuel : ∀ p min_vsn m r m',
  clean_old_versions fuel p min_vsn m = Ret r m' → vacuumed m m'.
Proof.
  induction fuel as [|fuel IH]; intros p min_vsn m r m' H; [done|].
  cbn [clean_old_versions] in H.
  apply bind_inv in H as (v & m0 & [-> (a & -> & Hv)]%deref_vsn_inv & H).
  apply bind_inv in H as ([] & m1 & Hrec & H).
  assert (vacuumed m m1 ∧ ∃ v1, versions m1 !! a = Some v1) as [Hvac [v1 Hv1]].
  { apply bind_inv in H as (v1 & m2 & [-> (a' & [= <-] & Hv1)]%deref_vsn_inv & _).
    split; [|by exists v1].
    destruct (prev v) as [b|]; [|injection Hrec as <-; apply vacuumed_refl].
    apply bind_inv in Hrec as (r1 & m2 & Hrec%IH & Hst).
    eapply vacuumed_trans; [done|].
    destruct (negb (r1 =? 0)).
    - apply store_vsn_inv in Hst as (a' & _ & ->). by repeat split.
    - injection Hst as <-. apply vacuumed_refl. }
  eapply vacuumed_trans; [done|].
  apply (clean_tail_inv _ _ _ _ _ _ Hv1) in H
    as [(_ & _ & ->)|(_ & _ & ? & _)]; [apply vacuumed_refl|done].
Qed.

(** On a chain made of versions to keep followed by versions to
    reclaim, a pass that returns leaves the heap of versions that
    [clean_split] and [clean_all_dead] describe. *)
Lemma clean_versions_inv min_vsn l : ∀ S D m p fuel r m',
  l = S ++ D →
  l ≠ [] →
  is_chain (versions m) p l →
  Forall (λ x, min_vsn ≤ vsn (snd x)) S →
  Forall (λ x, vsn (snd x) < min_vsn) D →
  clean_old_versions fuel p min_vsn m = Ret r m' →
  versions m' = cut_after S (free_versions (versions m) D) ∧
  r = (if decide (S = []) then 1 else 0).
Proof.
  induction l as [|[a v] l IH]; intros S D m p fuel r m' Hsplit Hne Hc HS HD H;
    [done|].
  pose proof (is_chain_NoDup _ _ _ Hc) as Haddr.
  rewrite fmap_cons in Haddr. cbn [fst] in Haddr.
  apply NoDup_cons in Haddr as [Ha Haddr].
  destruct Hc as (-> & Hv & Hc).
  destruct fuel as [|fuel]; [done|].
  rewrite (clean_unfold _ _ _ _ _ Hv) in H.
  apply bind_inv in H as ([] & m1 & Hrec & H).
  destruct S as [|x S'].
  - (* all the chain is to be reclaimed *)
    simpl in Hsplit. subst D. apply Forall_cons in HD as [Hlt HD].
    simpl in Hlt. unfold cut_after. cbn [last free_versions foldr fst].
    assert (vacuumed m m1 ∧
            ∃ v1, versions m1 !! a = Some v1 ∧ vsn v1 = vsn v ∧
                  delete a (versions m1) = delete a (free_versions (versions m) l))
      as (Hvac & v1 & Hv1 & Hvsn & Hvs).
    { destruct l as [|y l'].
      - simpl in Hc. rewrite Hc in Hrec. injection Hrec as <-.
        split; [apply vacuumed_refl|]. by exists v.
      - assert (is_Some (prev v)) as [b Hp] by (destruct y; by destruct Hc).
        rewrite Hp in Hrec, Hc.
        apply bind_inv in Hrec as (r1 & m2 & Hrec & Hst).
        pose proof (clean_vacuumed _ _ _ _ _ _ Hrec) as Hvac.
        apply (IH [] (y :: l')) in Hrec as [Hvs ->]; [|done..].
        cbn [negb Z.eqb decide] in Hst. simpl in Hst.
        apply store_vsn_inv in Hst as (a' & [= <-] & ->).
        split; [done|]. exists (set_prev None v).
        cbn [versions set_versions]. rewrite lookup_insert_eq.
        split; [done|]. split; [done|].
        rewrite delete_insert_eq. by rewrite Hvs. }
    apply (clean_tail_inv _ _ _ _ _ _ Hv1) in H
      as [(? & _)|(_ & -> & _ & ->)]; [lia|].
    by rewrite Hvs.
  - (* the head is kept *)
    rewrite <- app_comm_cons in Hsplit. injection Hsplit as <- ->.
    apply Forall_cons in HS as [Hle HS]. simpl in Hle.
    assert (versions m1 = cut_after ((a, v) :: S') (free_versions (versions m) D) ∧
            ∃ v1, versions m1 !! a = Some v1 ∧ vsn v1 = vsn v)
      as (Hvs & v1 & Hv1 & Hvsn).
    { destruct (S' ++ D) as [|y l'] eqn:Hl.
      - apply app_eq_nil in Hl as [-> ->].
        simpl in Hc. rewrite Hc in Hrec. injection Hrec as <-.
        unfold cut_after. simpl.
        rewrite (set_prev_None_id v Hc), insert_id by done.
        split; [done|]. by exists v.
      - assert (is_Some (prev v)) as [b Hp] by (destruct y; by destruct Hc).
        rewrite Hp in Hrec, Hc.
        apply bind_inv in Hrec as (r1 & m2 & Hrec & Hst).
        apply (IH S' D) in Hrec as [Hvs Hr1]; [|done..].
        destruct S' as [|x' S''].
        + subst r1. simpl in Hst.
          apply store_vsn_inv in Hst as (a' & [= <-] & ->).
          cbn [versions set_versions]. unfold cut_after in *. simpl in *.
          rewrite Hvs. split; [done|]. exists (set_prev None v).
          by rewrite lookup_insert_eq.
        + subst r1. simpl in Hst.
          assert (cut_after ((a, v) :: x' :: S'') =
                  cut_after (x' :: S'')) as Hcut by done.
          rewrite Hcut.
          assert (versions m2 !! a = Some v) as Hv2.
          { rewrite Hvs. unfold cut_after.
            assert (a ∉ D.*1) as HaD.
            { intros HaD. apply Ha. rewrite <- Hl, fmap_app.
              apply elem_of_app. by right. }
            destruct (last (x' :: S'')) as [[c t]|] eqn:Hlast;
              [|by rewrite free_versions_lookup_notin].
            rewrite lookup_insert_ne.
            - by rewrite free_versions_lookup_notin.
            - intros ->. apply Ha. rewrite <- Hl, fmap_app.
              apply elem_of_app. left.
              apply last_Some in Hlast as [S0 ->].
              rewrite fmap_app. apply elem_of_app. right. by left. }
          injection Hst as <-. split; [done|]. by exists v. }
    apply (clean_tail_inv _ _ _ _ _ _ Hv1) in H
      as [(_ & -> & ->)|(? & _)]; [|lia].
    done.
Qed.

End CleanInv.

(** ** The invariant of the version chain *)

Section ChainInvariant.
Context {bloom_filter : Type} `{!FilterOps bloom_filter}.
Implicit Types m : @bloom_filtmgr bloom_filter.
Implicit Types l S D : list (nat * filtmgr_vsn).

Lemma vsn_increasing_cons a v l :
  vsn_increasing ((a, v) :: l) ↔
  vsn_increasing l ∧
  match l with
  | [] => True
  | (_, u) :: _ => vsn u < vsn v
  end.
Proof.
  unfold vsn_increasing. split.
  - intros [Hs Hhd]%Sorted_inv. split; [done|].
    destruct l as [|[b u] l']; [done|]. by apply HdRel_inv in Hhd.
  - intros [Hs Hhd]. constructor; [done|].
    destruct l as [|[b u] l']; by constructor.
Qed.

Lemma vsn_increasing_app_l S D : vsn_increasing (S ++ D) → vsn_increasing S.
Proof.
  induction S as [|[a v] S IH]; [by constructor|].
  rewrite <- app_comm_cons, !vsn_increasing_cons.
  intros [Hs Hhd]. split; [by apply IH|].
  by destruct S as [|[b u] S'].
Qed.

Lemma clear_last_prev_increasing S :
  vsn_increasing S → vsn_increasing (clear_last_prev S).
Proof.
  induction S as [|[a v] S IH]; [done|].
  destruct S as [|[b u] S'].
  - intros _. simpl. repeat constructor.
  - change (clear_last_prev ((a, v) :: (b, u) :: S'))
      with ((a, v) :: clear_last_prev ((b, u) :: S')).
    rewrite !vsn_increasing_cons. intros [Hs Hhd].
    split; [by apply IH, vsn_increasing_cons|].
    by destruct S' as [|[c t] S''].
Qed.

Lemma clear_last_prev_elem S a v' :
  (a, v') ∈ clear_last_prev S → ∃ v, (a, v) ∈ S ∧ vsn v' = vsn v.
Proof.
  induction S as [|[b u] S IH]; [by intros ?%elem_of_nil|].
  destruct S as [|[c t] S'].
  - simpl. intros [= -> ->]%list_elem_of_singleton.
    exists u. split; [by left|done].
  - change (clear_last_prev ((b, u) :: (c, t) :: S'))
      with ((b, u) :: clear_last_prev ((c, t) :: S')).
    intros [[= -> ->]|Hin]%elem_of_cons.
    + exists u. split; [by left|done].
    + destruct (IH Hin) as (v & Hv & Hvsn). exists v. split; [by right|done].
Qed.

Lemma clear_last_prev_nil S : clear_last_prev S = [] → S = [].
Proof.
  destruct S as [|[a v] [|y S']]; done.
Qed.

Lemma chain_inv_mono n n' m :
  (n ≤ n')%nat → chain_inv n m → chain_inv n' m.
Proof.
  intros Hn (l & Hne & Hc & Hs & Hb). exists l. repeat split; try done.
  - apply (Hb a v H).
  - pose proof (Hb a v H). lia.
Qed.

Lemma chain_inv_same n m m' :
  versions m' = versions m → latest m' = latest m →
  chain_inv n m → chain_inv n m'.
Proof.
  intros Hv Hl (l & Hne & Hc & Hs & Hb). exists l.
  by rewrite Hv, Hl.
Qed.

Lemma min_client_vsn_le cs : ∀ x, min_client_vsn cs x ≤ x.
Proof.
  induction cs as [|c cs IH]; intros x; simpl; [lia|].
  destruct (Z.ltb_spec (cl_vsn c) x).
  - etrans; [apply IH|lia].
  - apply IH.
Qed.

(** A pass that returns, with a threshold that is not above the number
    of [latest], keeps the invariant. *)
Lemma chain_inv_clean n m a lv fuel min_vsn r m' :
  chain_inv n m →
  latest m = Some a →
  versions m !! a = Some lv →
  min_vsn ≤ vsn lv →
  clean_old_versions fuel (latest m) min_vsn m = Ret r m' →
  chain_inv n m'.
Proof.
  intros (l & Hne & Hc & Hs & Hb) Hl Hv Hmin H.
  pose proof (vsn_increasing_split min_vsn l Hs) as Hsplit.
  pose proof (clean_vacuumed _ _ _ _ _ _ H) as (_ & Hl' & _).
  assert ((a, lv) ∈ survivors min_vsn l) as Hhead.
  { apply list_elem_of_filter. split; [done|].
    destruct l as [|[a' v'] l']; [done|].
    destruct Hc as (Ha & Hv' & _). rewrite Hl in Ha. injection Ha as <-.
    assert (v' = lv) as -> by congruence. by left. }
  apply (clean_versions_inv min_vsn l (survivors min_vsn l)
           (reclaimed min_vsn l)) in H as [Hvs _]; [|done..| |].
  2:{ apply Forall_forall. by intros x [? _]%list_elem_of_filter. }
  2:{ apply Forall_forall. by intros x [? _]%list_elem_of_filter. }
  exists (clear_last_prev (survivors min_vsn l)). split; [|split; [|split]].
  - intros E%clear_last_prev_nil. rewrite E in Hhead.
    by apply elem_of_nil in Hhead.
  - rewrite Hvs, Hl'. rewrite Hsplit in Hc. apply survivors_chain; [|done].
    intros E. rewrite E in Hhead. by apply elem_of_nil in Hhead.
  - apply clear_last_prev_increasing.
    rewrite Hsplit in Hs. by eapply vsn_increasing_app_l.
  - intros a' v' (v & Hin & ->)%clear_last_prev_elem.
    apply (Hb a' v). by apply list_elem_of_filter in Hin as [_ ?].
Qed.

Lemma vacuum_inv m m' :
  filtmgr_vacuum m = Ret tt m' →
  ∃ a lv fuel r, latest m = Some a ∧ versions m !! a = Some lv ∧
    clean_old_versions fuel (latest m) (vsn lv) m = Ret r m'.
Proof.
  unfold filtmgr_vacuum. rewrite get_bind.
  intros (lv & m1 & [-> (a & Hl & Hv)]%deref_vsn_inv & H)%bind_inv.
  apply bind_inv in H as (r & m1 & Hclean & H). injection H as <-.
  by exists a, lv, (size (versions m)), r.
Qed.

Lemma thread_pass_inv m m' :
  filtmgr_thread_pass m = Ret tt m' →
  m' = m ∨
  ∃ a lv fuel r min_vsn, latest m = Some a ∧ versions m !! a = Some lv ∧
    min_vsn ≤ vsn lv ∧
    clean_old_versions fuel (latest m) min_vsn m = Ret r m'.
Proof.
  unfold filtmgr_thread_pass. rewrite get_bind.
  intros (lv & m1 & [-> (a & Hl & Hv)]%deref_vsn_inv & H)%bind_inv.
  destruct (prev lv) as [b|]; [|left; by injection H].
  apply bind_inv in H as (r & m1 & Hclean & H). injection H as <-.
  right. exists a, lv, (size (versions m)), r. eexists.
  split; [done|]. split; [done|]. split; [|done].
  apply min_client_vsn_le.
Qed.

(** A new version on top of the chain of [latest]. *)
Lemma chain_inv_push n m a lv lv' nv m' :
  chain_inv n m →
  Z.of_nat n + 1 < 2 ^ 64 →
  latest m = Some a →
  versions m !! a = Some lv →
  vsn lv' = vsn lv → prev lv' = prev lv →
  vsn nv = u64_add (vsn lv) 1 → prev nv = Some a →
  versions m' =
    <[a := lv']> (<[fresh (dom (versions m)) := nv]> (versions m)) →
  latest m' = Some (fresh (dom (versions m))) →
  chain_inv (S n) m'.
Proof.
  intros (l & Hne & Hc & Hs & Hb) Hn Hl Hv Hvsn Hprev Hnv Hpnv Hvs' Hl'.
  set (a' := fresh (dom (versions m))) in *.
  assert (versions m !! a' = None) as Hfresh by apply fresh_vsn_None.
  assert (a ≠ a') as Hne' by congruence.
  destruct l as [|[a0 v0] r]; [done|].
  pose proof (is_chain_NoDup _ _ _ Hc) as Haddr.
  rewrite fmap_cons in Haddr. apply NoDup_cons in Haddr as [Ha0 _].
  destruct Hc as (Ha & Hv0 & Hc). rewrite Hl in Ha. injection Ha as <-.
  assert (v0 = lv) as -> by congruence.
  assert (0 ≤ vsn lv ≤ Z.of_nat n) as Hlv by (apply (Hb a lv); by left).
  assert (vsn nv = vsn lv + 1) as Hnv'.
  { rewrite Hnv. unfold u64_add. rewrite Z.mod_small; lia. }
  exists ((a', nv) :: (a, lv') :: r). split; [done|]. split; [|split].
  - rewrite Hvs', Hl'. split; [done|]. split.
    { rewrite lookup_insert_ne by done. apply lookup_insert_eq. }
    rewrite Hpnv. split; [done|]. split; [apply lookup_insert_eq|].
    rewrite Hprev. eapply is_chain_ext; [|done].
    intros b u Hin.
    pose proof (is_chain_lookup _ _ _ _ _ Hc Hin) as Hu.
    rewrite !lookup_insert_ne; [done|congruence|].
    intros <-. apply Ha0, list_elem_of_fmap. by exists (a, u).
  - apply vsn_increasing_cons. split; [|lia].
    apply vsn_increasing_cons in Hs as [Hs Hhd].
    apply vsn_increasing_cons. split; [done|].
    destruct r as [|[b u] r']; [done|]. lia.
  - intros b u [[= -> ->]|[[= -> ->]|Hin]%elem_of_cons]%elem_of_cons.
    + lia.
    + lia.
    + assert (0 ≤ vsn u ≤ Z.of_nat n) by (apply (Hb b u); by right). lia.
Qed.

End ChainInvariant.

(** ** The effect of each operation *)

Section Exec.
Context {bloom_filter : Type} `{!FilterOps bloom_filter}.
Implicit Types m : @bloom_filtmgr bloom_filter.

Lemma exec_effect o m ans m' : exec o m = Ret ans m' → effect o m ans m'.
Proof.
  destruct o; cbn [exec];
    intros (r & m1 & Hop & [= <- <-])%bind_inv.
  - destruct r. apply checkpoint_inv in Hop as [cs ->]. by eapply eff_clients.
  - destruct r. apply leave_inv in Hop as [cs ->]. by eapply eff_clients.
  - apply eff_tweak. by eapply flush_filter_inv.
  - destruct r as [code result'].
    apply check_keys_inv in Hop as [[_ ->]|(w & W & f & ? & ? & ? & ->)].
    + by apply eff_none.
    + by eapply (eff_keys _ _ _ _ name).
  - destruct r as [code result'].
    apply set_keys_inv in Hop as [[_ ->]|(w & W & f & ? & ? & ? & ->)].
    + by apply eff_none.
    + by eapply (eff_keys _ _ _ _ name).
  - apply create_filter_inv in Hop
      as [[_ ->]|(a & lv & f & c & -> & -> & ? & ? & ->)].
    + by apply eff_none.
    + by eapply eff_create.
  - apply drop_filter_inv in Hop
      as [[_ ->]|(a & lv & w & W & -> & ? & ? & ? & ? & ->)].
    + by apply eff_none.
    + by eapply eff_retire.
  - apply eff_tweak. by eapply unmap_filter_inv.
  - apply clear_filter_inv in Hop
      as [[_ ->]|(a & lv & w & W & -> & ? & ? & ? & ? & ->)].
    + by apply eff_none.
    + by eapply eff_retire.
  - apply list_filters_inv in Hop as ->. by apply eff_none.
  - apply list_cold_filters_inv in Hop as (ws' & -> & ?). by eapply eff_cold.
  - apply eff_tweak. by eapply filter_cb_inv.
  - destruct r. apply vacuum_inv in Hop as (a & lv & fuel & r & ? & ? & ?).
    apply (eff_clean _ _ _ _ a lv fuel (vsn lv) r); [done|done|lia|done].
  - destruct r.
    apply thread_pass_inv in Hop
      as [->|(a & lv & fuel & r & min_vsn & ? & ? & ? & ?)].
    + by apply eff_none.
    + by eapply eff_clean.
Qed.

(** An operation that returns keeps the invariant of the chain, as long
    as the version counter does not wrap. *)
Lemma exec_chain_inv n m o ans m' :
  chain_inv n m →
  Z.of_nat n + 1 < 2 ^ 64 →
  exec o m = Ret ans m' →
  chain_inv (S n) m'.
Proof.
  intros Hinv Hn Hex. apply exec_effect in Hex.
  destruct Hex as [->|cs ->|[->|(w & W & f & _ & ->)]| | | |ws' _ ->|].
  - by apply (chain_inv_mono n); [lia|].
  - apply (chain_inv_mono n); [lia|]. by apply (chain_inv_same n m).
  - by apply (chain_inv_mono n); [lia|].
  - apply (chain_inv_mono n); [lia|]. by apply (chain_inv_same n m).
  - subst m'. apply (chain_inv_mono n); [lia|]. by apply (chain_inv_same n m).
  - subst m'.
    apply (chain_inv_push n m a lv lv
             (mk_vsn (u64_add (vsn lv) 1)
                     (<[name := fresh (dom (wrappers m))]> (filter_map lv))
                     None (Some a))); try done.
    cbn [versions]. rewrite (insert_id _ a lv); [done|].
    rewrite lookup_insert_ne; [done|].
    intros E. pose proof (fresh_vsn_None m) as Hf. congruence.
  - subst m'.
    by apply (chain_inv_push n m a lv (set_deleted (Some w) lv)
                (mk_vsn (u64_add (vsn lv) 1) (delete name (filter_map lv))
                        None (Some a))).
  - apply (chain_inv_mono n); [lia|]. by apply (chain_inv_same n m).
  - apply (chain_inv_mono n); [lia|]. by eapply chain_inv_clean.
Qed.

(** Only create, drop and clear move [latest], and they move it to a
    version allocated on top of the old one. *)
Lemma exec_installs o m ans m' :
  exec o m = Ret ans m' →
  latest m' ≠ latest m →
  destructive o = true ∧
  ∃ a lv a' nv,
    latest m = Some a ∧ versions m !! a = Some lv ∧
    versions m !! a' = None ∧
    latest m' = Some a' ∧ versions m' !! a' = Some nv ∧
    vsn nv = u64_add (vsn lv) 1 ∧ prev nv = Some a.
Proof.
  intros Hex Hne. apply exec_effect in Hex.
  destruct Hex as [->|cs ->|[->|(w & W & f & _ & ->)]| | | |ws' _ ->|];
    try done.
  - by subst m'.
  - subst o m'. split; [done|]. eexists a, lv, _, _.
    split; [done|]. split; [done|]. split; [apply fresh_vsn_None|].
    split; [done|]. split; [apply lookup_insert_eq|done].
  - subst m'. split; [done|].
    exists a, lv, (fresh (dom (versions m))),
      (mk_vsn (u64_add (vsn lv) 1) (delete name (filter_map lv))
              None (Some a)).
    split; [done|]. split; [done|]. split; [apply fresh_vsn_None|].
    split; [done|]. split; [|done].
    cbn [versions retired].
    rewrite lookup_insert_ne; [apply lookup_insert_eq|].
    intros E. pose proof (fresh_vsn_None m) as Hf. congruence.
  - by pose proof (clean_vacuumed _ _ _ _ _ _ H2) as (_ & ? & _).
Qed.

End Exec.

(** ** The loader *)

Lemma prefix_str_drop (p s : string) :
  String.prefix p s = true →
  s = (p ++ str_drop (String.length p) s)%string.
Proof.
  revert s. induction p as [|c p IH]; intros [|c' s]; simpl; try done.
  destruct (ascii_dec c c') as [->|]; [|done].
  intros Hp.
  change (String c' s = String c' (p ++ str_drop (String.length p) s)%string).
  f_equal. by apply IH.
Qed.

Section Loader.
Context {bloom_filter : Type} `{!FilterOps bloom_filter}.
Implicit Types m : @bloom_filtmgr bloom_filter.

(** The loop of the loader on a manager with a single version: the
    version stays the only one and its index gets names cut from the
    folder names. *)
Lemma load_loop_inv init names : ∀ m a v m',
  latest m = Some a →
  versions m = {[ a := v ]} →
  load_loop names init m = Ret tt m' →
  ∃ fm, latest m' = Some a ∧
        versions m' = {[ a := set_filter_map fm v ]} ∧
        ∀ k, is_Some (fm !! k) →
             is_Some (filter_map v !! k) ∨
             ∃ folder, folder ∈ names ∧ k = str_drop FOLDER_PREFIX_LEN folder.
Proof.
  induction names as [|folder names IH]; intros m a v m' Hl Hvs H.
  - injection H as <-. exists (filter_map v). split; [done|].
    split; [by destruct v|]. by left.
  - cbn [load_loop] in H. rewrite get_bind in H.
    apply bind_inv in H as (r & m1 & Hadd & H).
    set (fname := str_drop FOLDER_PREFIX_LEN folder) in *.
    destruct (init fname) as [f|].
    + assert (versions m !! a = Some v) as Hv
        by (rewrite Hvs; apply lookup_singleton_eq).
      rewrite Hl, (add_filter_run _ _ _ _ _ _ _ Hv) in Hadd.
      injection Hadd as <- <-.
      apply (IH _ a (set_filter_map
                       (<[fname := fresh (dom (wrappers m))]> (filter_map v)) v))
        in H as (fm & Hl' & Hvs' & Hkeys).
      * exists fm. split; [done|]. split; [by destruct v|].
        intros k [Hk|(fo & Hfo & ->)]%Hkeys.
        -- cbn [filter_map set_filter_map] in Hk.
           destruct (decide (k = fname)) as [->|Hne].
           ++ right. exists folder. split; [by left|done].
           ++ left. by rewrite lookup_insert_ne in Hk.
        -- right. exists fo. split; [by right|done].
      * done.
      * cbn [versions]. rewrite Hvs. apply insert_singleton_eq.
    + rewrite add_filter_init_fails in Hadd. injection Hadd as <- <-.
      apply (IH _ a v) in H as (fm & Hl' & Hvs' & Hkeys); [|done..].
      exists fm. split; [done|]. split; [done|].
      intros k [Hk|(fo & Hfo & ->)]%Hkeys; [by left|].
      right. exists fo. split; [by right|done].
Qed.

(** [init_filter_manager] returns 0 only when [init_art_tree] and
    [pthread_create] succeed, and then the manager is the one the loader
    leaves. *)
Lemma init_filter_manager_returns_0 cfg art_init_res dir init thread_res m :
  init_filter_manager cfg art_init_res dir init thread_res = Ret 0 m →
  art_init_res = 0 ∧ thread_res = 0 ∧
  (load_existing_filters dir init;; mret 0) (fresh_manager cfg) = Ret 0 m.
Proof.
  unfold init_filter_manager.
  destruct (Z.eqb_spec art_init_res 0) as [->|Ha]; cbn [negb]; [|done].
  intros (r & m1 & Hload & H)%bind_inv.
  destruct (Z.eqb_spec thread_res 0) as [->|Ht]; cbn [negb] in H.
  - injection H as <-. split; [done|]. split; [done|].
    by rewrite (bind_run _ _ _ _ _ Hload).
  - by apply bind_inv in H as (r2 & m2 & _ & [= ? _]).
Qed.

(** The manager [init_filter_manager] builds: version 0 alone, and in
    its index only names cut from the folders the scan kept. *)
Lemma init_filter_manager_inv cfg art_init_res dir init thread_res m :
  init_filter_manager cfg art_init_res dir init thread_res = Ret 0 m →
  ∃ fm, latest m = Some O ∧
        versions m = {[ O := mk_vsn 0 fm None None ]} ∧
        ∀ k, is_Some (fm !! k) →
             ∃ entries folder,
               dir = Some entries ∧ folder ∈ entries ∧
               filter_bloomd_folders folder ≠ 0 ∧
               k = str_drop FOLDER_PREFIX_LEN folder.
Proof.
  intros (_ & _ & H)%init_filter_manager_returns_0. revert H.
  unfold load_existing_filters.
  intros (r & m1 & Hload & [= <-])%bind_inv.
  destruct dir as [entries|]; cbn [scandir] in Hload.
  - apply bind_inv in Hload as ([] & m2 & Hloop & [= _ <-]).
    apply (load_loop_inv _ _ _ O (mk_vsn 0 ∅ None None)) in Hloop
      as (fm & Hl & Hvs & Hkeys); [|done..].
    exists fm. split; [done|]. split; [done|].
    intros k [Hk|(fo & Hfo & ->)]%Hkeys.
    + cbn in Hk. rewrite lookup_empty in Hk. by destruct Hk.
    + exists entries, fo. split; [done|].
      apply list_elem_of_In, filter_In in Hfo as [Hfo Hkeep].
      split; [by apply list_elem_of_In|]. split; [|done].
      by destruct (Z.eqb_spec (filter_bloomd_folders fo) 0).
  - injection Hload as _ <-. exists ∅. split; [done|]. split; [done|].
    intros k Hk. rewrite lookup_empty in Hk. by destruct Hk.
Qed.

(** C8.  The directory filter of the loader keeps an entry (of at most
    255 bytes, as a directory entry is) if and only if its name begins
    with [bloomd.] and is at least 8 bytes long.  The entry named exactly
    [bloomd.], of 7 bytes, is rejected by the length check; hence a
    name in the index the loader builds is never empty, and it is the
    name of a scanned folder without its [bloomd.] prefix. *)
Theorem loader_folder_filter :
  (∀ d_name, (String.length d_name < 256)%nat →
     filter_bloomd_folders d_name = 1 ↔
     String.prefix "bloomd." d_name = true ∧ (8 ≤ String.length d_name)%nat) ∧
  (∀ d_name, filter_bloomd_folders d_name = 0 ∨
             filter_bloomd_folders d_name = 1) ∧
  filter_bloomd_folders "bloomd." = 0 ∧
  (∀ cfg art_init_res entries init thread_res m a lv name,
     (∀ e, e ∈ entries → (String.length e < 256)%nat) →
     init_filter_manager cfg art_init_res (Some entries) init thread_res
       = Ret 0 m →
     latest m = Some a → versions m !! a = Some lv →
     is_Some (filter_map lv !! name) →
     name ≠ EmptyString ∧ ("bloomd." ++ name)%string ∈ entries).
Proof.
  split; [|split; [|split]].
  - apply filter_bloomd_folders_iff.
  - apply filter_bloomd_folders_01.
  - reflexivity.
  - intros cfg art_init_res entries init thread_res m a lv name
           Hlen Hinit Hl Hv Hk.
    apply init_filter_manager_inv in Hinit as (fm & Hl0 & Hvs & Hkeys).
    rewrite Hl0 in Hl. injection Hl as <-.
    rewrite Hvs, lookup_singleton_eq in Hv. injection Hv as <-.
    destruct (Hkeys name Hk) as (entries' & fo & [= <-] & Hfo & Hkeep & ->).
    assert (filter_bloomd_folders fo = 1) as Hone
      by (destruct (filter_bloomd_folders_01 fo); done).
    apply filter_bloomd_folders_iff in Hone as [Hpre Hlen8]; [|by apply Hlen].
    split.
    + apply str_drop_nonempty. unfold FOLDER_PREFIX_LEN. simpl. lia.
    + apply prefix_str_drop in Hpre.
      change ((FOLDER_PREFIX ++ str_drop FOLDER_PREFIX_LEN fo)%string ∈ entries).
      unfold FOLDER_PREFIX_LEN. by rewrite <- Hpre.
Qed.

End Loader.

(** ** The chain of [latest] ends, whatever the version numbers *)

Section Acyclic.
Context {bloom_filter : Type} `{!FilterOps bloom_filter}.
Implicit Types m : @bloom_filtmgr bloom_filter.
Implicit Types l : list (nat * filtmgr_vsn).

(** A pass over a chain that returns 0 has kept the head of the chain,
    and a chain hangs from it still; a pass that returns 1 has freed the
    head, whose number was below the threshold.  Versions outside the
    chain are not touched.  Nothing is assumed of the numbers. *)
Lemma clean_keeps_chain l : ∀ m p fuel min_vsn r m',
  l ≠ [] →
  is_chain (versions m) p l →
  clean_old_versions fuel p min_vsn m = Ret r m' →
  (∀ b, b ∉ l.*1 → versions m' !! b = versions m !! b) ∧
  ∃ a v, head l = Some (a, v) ∧
    ((min_vsn ≤ vsn v ∧ r = 0 ∧
      ∃ l', l' ≠ [] ∧ is_chain (versions m') p l' ∧
            ∀ b, b ∈ l'.*1 → b ∈ l.*1) ∨
     (vsn v < min_vsn ∧ r = 1)).
Proof.
  induction l as [|[a v] l IH]; intros m p fuel min_vsn r m' Hne Hc H;
    [done|].
  pose proof (is_chain_NoDup _ _ _ Hc) as Haddr.
  rewrite fmap_cons in Haddr. cbn [fst] in Haddr.
  apply NoDup_cons in Haddr as [Ha _].
  destruct Hc as (-> & Hv & Hc).
  destruct fuel as [|fuel]; [done|].
  rewrite (clean_unfold _ _ _ _ _ Hv) in H.
  apply bind_inv in H as ([] & m1 & Hrec & H).
  assert ((∀ b, b ≠ a → b ∉ l.*1 → versions m1 !! b = versions m !! b) ∧
          ∃ v1 l1, versions m1 !! a = Some v1 ∧ vsn v1 = vsn v ∧
                   is_chain (versions m1) (prev v1) l1 ∧
                   ∀ b, b ∈ l1.*1 → b ∈ l.*1)
    as (Hframe & v1 & l1 & Hv1 & Hvsn & Hc1 & Hsub).
  { destruct l as [|[b u] l'].
    - simpl in Hc. rewrite Hc in Hrec. injection Hrec as <-.
      split; [done|]. exists v, []. by rewrite Hc.
    - assert (prev v = Some b) as Hp by (by destruct Hc).
      rewrite Hp in Hrec, Hc.
      apply bind_inv in Hrec as (r1 & m2 & Hrec & Hst).
      apply (IH m (Some b)) in Hrec as (Hfr & a0 & v0 & _ & Hcase);
        [|done|done].
      assert (versions m2 !! a = Some v) as Hv2 by (by rewrite Hfr).
      destruct Hcase as [(_ & -> & l1 & _ & Hc1 & Hsub)|(_ & ->)].
      + simpl in Hst. injection Hst as <-.
        split; [intros b0 _ Hb0; by apply Hfr|].
        exists v, l1. by rewrite Hp.
      + simpl in Hst. apply store_vsn_inv in Hst as (a' & [= <-] & ->).
        cbn [versions set_versions]. split.
        * intros b0 Hne0 Hb0. rewrite lookup_insert_ne by done.
          by apply Hfr.
        * exists (set_prev None v), []. rewrite lookup_insert_eq.
          split; [done|]. split; [done|]. split; [done|].
          by intros ? ?%elem_of_nil. }
  apply (clean_tail_inv _ _ _ _ _ _ Hv1) in H
    as [(Hge & -> & ->)|(Hlt & -> & _ & Hvs)].
  - split.
    + intros b Hb. rewrite fmap_cons in Hb. cbn [fst] in Hb.
      apply not_elem_of_cons in Hb as [Hb1 Hb2]. by apply Hframe.
    + exists a, v. split; [done|]. left. split; [lia|]. split; [done|].
      exists ((a, v1) :: l1). split; [done|]. split; [done|].
      intros b. rewrite !fmap_cons. cbn [fst].
      intros [->|Hb]%elem_of_cons; [by left|]. right. by apply Hsub.
  - split.
    + intros b Hb. rewrite fmap_cons in Hb. cbn [fst] in Hb.
      apply not_elem_of_cons in Hb as [Hb1 Hb2].
      rewrite Hvs, lookup_delete_ne by done. by apply Hframe.
    + exists a, v. split; [done|]. right. split; [lia|done].
Qed.

(** An operation that returns leaves a chain hanging from [latest]. *)
Lemma exec_keeps_chain o m ans m' :
  (∃ l, l ≠ [] ∧ is_chain (versions m) (latest m) l) →
  exec o m = Ret ans m' →
  ∃ l, l ≠ [] ∧ is_chain (versions m') (latest m') l.
Proof.
  intros (l & Hne & Hc) Hex. apply exec_effect in Hex.
  destruct Hex as [->|cs ->|[->|(w & W & f & _ & ->)]
                   |name w W f code result' _ _ _ _ _ ->
                   |name cc r a lv f c _ _ Hl Hv ->
                   |name a lv w W del _ Hl Hv HW ->
                   |ws' _ -> _
                   |a lv fuel min_vsn r Hl Hv Hmin Hclean];
    try (by exists l).
  - exists ((fresh (dom (versions m)), mk_vsn (u64_add (vsn lv) 1)
               (<[name := fresh (dom (wrappers m))]> (filter_map lv))
               None (Some a)) :: l).
    split; [done|]. cbn [versions latest]. split; [done|].
    split; [apply lookup_insert_eq|]. cbn [prev].
    apply is_chain_insert_fresh; [apply fresh_vsn_None|]. by rewrite <- Hl.
  - destruct l as [|[a0 v0] t]; [done|].
    pose proof (is_chain_NoDup _ _ _ Hc) as Haddr.
    rewrite fmap_cons in Haddr. apply NoDup_cons in Haddr as [Ha0 _].
    destruct Hc as (Ha & Hv0 & Hc). rewrite Hl in Ha. injection Ha as <-.
    assert (v0 = lv) as -> by congruence.
    assert (versions m !! fresh (dom (versions m)) = None) as Hfresh
      by apply fresh_vsn_None.
    assert (a ≠ fresh (dom (versions m))) as Hne' by congruence.
    exists ((fresh (dom (versions m)),
             mk_vsn (u64_add (vsn lv) 1) (delete name (filter_map lv))
                    None (Some a))
            :: (a, set_deleted (Some w) lv) :: t).
    split; [done|]. unfold retired. cbn [versions latest].
    split; [done|]. split.
    { rewrite lookup_insert_ne by done. apply lookup_insert_eq. }
    cbn [prev]. split; [done|]. split; [apply lookup_insert_eq|].
    cbn [prev set_deleted]. eapply is_chain_ext; [|done].
    intros b u Hin.
    pose proof (is_chain_lookup _ _ _ _ _ Hc Hin) as Hu.
    rewrite !lookup_insert_ne; [done|congruence|].
    intros <-. apply Ha0, list_elem_of_fmap. by exists (a, u).
  - destruct l as [|[a0 v0] t]; [done|].
    pose proof Hc as (Ha & Hv0 & _). rewrite Hl in Ha. injection Ha as <-.
    assert (v0 = lv) as -> by congruence.
    pose proof (clean_vacuumed _ _ _ _ _ _ Hclean) as (_ & Hl' & _).
    apply (clean_keeps_chain ((a, lv) :: t)) in Hclean
      as (_ & a1 & v1 & [= <- <-] & Hcase); [|done|done].
    destruct Hcase as [(_ & _ & l' & Hne' & Hc' & _)|(Hlt & _)]; [|lia].
    exists l'. split; [done|]. by rewrite Hl'.
Qed.

(** In every state the manager reaches, whatever the number of
    operations, a chain hangs from [latest]. *)
Lemma reachable_chain n m :
  reachable_in n m →
  ∃ l, l ≠ [] ∧ is_chain (versions m) (latest m) l.
Proof.
  induction 1 as [cfg ar dir init tr m Hinit|n m o a m' Hreach IH Hex].
  - apply init_filter_manager_inv in Hinit as (fm & Hl & Hvs & _).
    exists [(O, mk_vsn 0 fm None None)]. split; [done|].
    rewrite Hl, Hvs. split; [done|]. split; [apply lookup_singleton_eq|done].
  - by eapply exec_keeps_chain.
Qed.

End Acyclic.

(** ** Invariants of the manager *)

Section Invariants.
Context {bloom_filter : Type} `{!FilterOps bloom_filter}.
Implicit Types m : @bloom_filtmgr bloom_filter.

Lemma reachable_chain_inv n m :
  reachable_in n m → Z.of_nat n < 2 ^ 64 → chain_inv n m.
Proof.
  induction 1 as [cfg ar dir init tr m Hinit|n m o a m' Hreach IH Hex];
    intros Hn.
  - apply init_filter_manager_inv in Hinit as (fm & Hl & Hvs & _).
    exists [(O, mk_vsn 0 fm None None)]. split; [done|]. split; [|split].
    + rewrite Hl, Hvs. split; [done|]. split; [apply lookup_singleton_eq|done].
    + repeat constructor.
    + intros a v [= -> ->]%list_elem_of_singleton. simpl. lia.
  - eapply exec_chain_inv; [apply IH|..|done]; lia.
Qed.

(** C5.  An operation that returns moves [latest] only if it is a
    create, a drop or a clear, and then to a newly allocated version
    whose [prev] is the old [latest] and whose number is the old number
    plus one modulo 2^64 (plus one, as long as the old number is below
    2^64 - 1).  The manager [init_filter_manager] builds has a single
    version, numbered 0.  In every state the manager reaches, after any
    number of operations, [latest] heads a chain of versions that ends
    at NULL without visiting a version twice; after fewer than 2^64
    operations the numbers of that chain strictly increase from the tail
    to the head. *)
Theorem version_chain_invariant :
  (∀ o m ans m',
     exec o m = Ret ans m' → latest m' ≠ latest m →
     destructive o = true ∧
     ∃ a lv a' nv,
       latest m = Some a ∧ versions m !! a = Some lv ∧
       versions m !! a' = None ∧
       latest m' = Some a' ∧ versions m' !! a' = Some nv ∧
       prev nv = Some a ∧
       vsn nv = (vsn lv + 1) mod 2 ^ 64 ∧
       (0 ≤ vsn lv < 2 ^ 64 - 1 → vsn nv = vsn lv + 1)) ∧
  (∀ m, reachable_in O m →
     ∃ a v, latest m = Some a ∧ versions m !! a = Some v ∧
            vsn v = 0 ∧ prev v = None) ∧
  (∀ n m,
     reachable_in n m →
     ∃ l, l ≠ [] ∧ is_chain (versions m) (latest m) l ∧ NoDup (l.*1) ∧
          (Z.of_nat n < 2 ^ 64 → vsn_increasing l)).
Proof.
  split; [|split].
  - intros o m ans m' Hex Hne.
    destruct (exec_installs o m ans m' Hex Hne)
      as (Hd & a & lv & a' & nv & ? & ? & ? & ? & ? & Hvsn & ?).
    split; [done|]. exists a, lv, a', nv. repeat split; try done.
    intros Hb. rewrite Hvsn. unfold u64_add. rewrite Z.mod_small; lia.
  - intros m Hreach.
    inversion Hreach as [cfg ar dir init tr m0 Hinit|]; subst.
    apply init_filter_manager_inv in Hinit as (fm & Hl & Hvs & _).
    exists O, (mk_vsn 0 fm None None).
    rewrite Hl, Hvs, lookup_singleton_eq. done.
  - intros n m Hreach.
    destruct (reachable_chain n m Hreach) as (l & Hne & Hc).
    exists l. split; [done|]. split; [done|].
    split; [by eapply is_chain_NoDup|].
    intros Hn.
    destruct (reachable_chain_inv n m Hreach Hn) as (l' & _ & Hc' & Hs & _).
    by rewrite (is_chain_det _ _ _ _ Hc Hc').
Qed.

(** C9.  Across an operation that returns, for a wrapper that is there
    before and after, [is_hot] either keeps its value, or goes from
    false to true in a [filtmgr_check_keys] or [filtmgr_set_keys] on a
    name that resolves to this wrapper — whether the call returns 0 or
    -2 —, or goes from true to false in [filtmgr_list_cold_filters].  A
    wrapper that is there only after the operation was allocated by a
    [filtmgr_create_filter] that returned 0, and is hot. *)
Theorem is_hot_changes o m ans m' w W' :
  exec o m = Ret ans m' →
  wrappers m' !! w = Some W' →
  match wrappers m !! w with
  | Some W =>
      is_hot W' = is_hot W ∨
      (is_hot W = false ∧ is_hot W' = true ∧
       ∃ name code result',
         key_traffic o name ∧
         take_filter (latest m) name m = Ret (Some w) m ∧
         ans = A_keys code result' ∧ (code = 0 ∨ code = -2)) ∨
      (is_hot W = true ∧ is_hot W' = false ∧ o = Op_list_cold)
  | None =>
      is_hot W' = true ∧ ans = A_code 0 ∧
      ∃ name custom_config art_copy_res f,
        o = Op_create name custom_config art_copy_res (Some f)
  end.
Proof.
  intros Hex HW'. apply exec_effect in Hex.
  destruct Hex as [->|cs ->|[->|(w0 & W0 & f & HW0 & ->)]
                  |name w0 W0 f code result' Hkey Htake HW0 Hcode -> ->
                  |name cc r a lv f c -> -> Hl Hv ->
                  |name a lv w0 W0 del Hd Hl Hv HW0 ->
                  |ws' -> -> Hcool
                  |a lv fuel min_vsn r Hl Hv Hmin Hclean].
  - rewrite HW'. by left.
  - cbn in HW'. rewrite HW'. by left.
  - rewrite HW'. by left.
  - cbn in HW'. destruct (decide (w = w0)) as [->|Hne].
    + rewrite lookup_insert_eq in HW'. injection HW' as <-.
      rewrite HW0. by left.
    + rewrite lookup_insert_ne in HW' by done. rewrite HW'. by left.
  - cbn in HW'. destruct (decide (w = w0)) as [->|Hne].
    + rewrite lookup_insert_eq in HW'. injection HW' as <-.
      rewrite HW0. cbn. destruct (is_hot W0) eqn:Hhot; [by left|].
      right. left. split; [done|]. split; [done|].
      by exists name, code, result'.
    + rewrite lookup_insert_ne in HW' by done. rewrite HW'. by left.
  - cbn in HW'.
    destruct (decide (w = fresh (dom (wrappers m)))) as [->|Hne].
    + rewrite lookup_insert_eq in HW'. injection HW' as <-.
      rewrite fresh_wrapper_None. split; [done|]. split; [done|].
      by exists name, cc, r, f.
    + rewrite lookup_insert_ne in HW' by done. rewrite HW'. by left.
  - cbn in HW'. destruct (decide (w = w0)) as [->|Hne].
    + rewrite lookup_insert_eq in HW'. injection HW' as <-.
      rewrite HW0. by left.
    + rewrite lookup_insert_ne in HW' by done. rewrite HW'. by left.
  - cbn in HW'. specialize (Hcool w). rewrite HW' in Hcool.
    destruct (wrappers m !! w) as [W|]; [|done].
    destruct Hcool as [->|[Hhot ->]]; [by left|].
    right. right. by rewrite Hhot.
  - apply clean_vacuumed in Hclean as (_ & _ & _ & Hsub).
    rewrite (Hsub w W' HW'). by left.
Qed.

(** C7.  When [art_copy] fails (a non-zero result), [create_new_version]
    frees the new version and returns NULL; its three callers use the
    result unchecked.  [filtmgr_create_filter] hands NULL to
    [add_filter], which inserts into its index, or, when
    [init_bloom_filter] fails as well, to [destroy_version];
    [filtmgr_drop_filter] and [filtmgr_clear_filter] hand it to
    [art_delete], after they have cleared [is_active] on the wrapper.
    In all three the outcome is a dereference of NULL, not the return of
    -2. *)
Theorem version_copy_failure m a lv r :
  r ≠ 0 →
  latest m = Some a →
  versions m !! a = Some lv →
  create_new_version r m = Ret None m ∧
  (∀ name custom_config init_res l,
     filter_map lv !! name = None →
     is_chain (versions m) (prev lv) l →
     deleted_ok (wrappers m) l →
     nul_free name = true →
     ¬ has_pending (wrappers m) l name →
     filtmgr_create_filter name custom_config r init_res m = Fault) ∧
  (∀ name w W,
     filter_map lv !! name = Some w → wrappers m !! w = Some W →
     is_active W = true →
     filtmgr_drop_filter name r m = Fault ∧
     (bloomf_is_proxied (filter W) = true →
      filtmgr_clear_filter name r m = Fault)).
Proof.
  intros Hr Hl Hv. split; [by eapply create_new_version_fail|]. split.
  - intros name cc init_res l Hn Hc Hok Hnf Hnp.
    destruct (create_filter_prologue m a lv l name cc r init_res
                Hl Hv Hn Hc Hok Hnf) as [[Hp _]|[_ ->]]; [done|].
    by eapply create_filter_copy_fails.
  - intros name w W Hn HW Hact.
    assert (take_filter (latest m) name m = Ret (Some w) m) as Htake
      by (by rewrite Hl, (take_filter_run _ _ _ _ Hv), Hn, HW, Hact).
    split.
    + rewrite drop_filter_unfold.
      rewrite get_bind, (bind_run _ _ _ _ _ Htake), Hl.
      by eapply create_new_version_fault.
    + intros Hprox. rewrite clear_filter_unfold.
      rewrite get_bind, (bind_run _ _ _ _ _ Htake), Hl.
      rewrite (bind_run _ _ _ _ _ (deref_wrapper_run _ _ _ HW)), Hprox.
      by eapply create_new_version_fault.
Qed.

End Invariants.

(** ** The version counter can reach its last value *)

Section Wrap.
Context {bloom_filter : Type} `{!FilterOps bloom_filter}.
Implicit Types m : @bloom_filtmgr bloom_filter.

(** [filtmgr_vacuum] on a well-formed chain: the state it leaves. *)
Lemma vacuum_exact m a lv r :
  is_chain (versions m) (latest m) ((a, lv) :: r) →
  vsn_increasing ((a, lv) :: r) →
  NoDup (chain_deleted r) →
  (∀ w, w ∈ chain_deleted r → is_Some (wrappers m !! w)) →
  filtmgr_vacuum m =
  Ret tt (mk_mgr (config m) (latest m) (clients m)
            (<[a := set_prev None lv]> (free_versions (versions m) r))
            (free_wrappers (wrappers m) (chain_deleted r))
            (trace m ++ reclaim_log (wrappers m) r)).
Proof.
  intros Hc Hs Hnd Hval.
  pose proof Hc as (Hl & Hv & _).
  destruct (vacuum_split a lv r Hs) as [HS HD].
  unfold filtmgr_vacuum. rewrite get_bind.
  erewrite bind_run by (rewrite Hl; by apply deref_vsn_run).
  pose proof (vsn_increasing_split (vsn lv) _ Hs) as Hsplit.
  rewrite HS, HD in Hsplit.
  erewrite bind_run; [reflexivity|].
  rewrite Hl. rewrite <- Hl.
  replace (<[a := set_prev None lv]> (free_versions (versions m) r))
    with (cut_after [(a, lv)] (free_versions (versions m) r)) by done.
  apply (clean_split (vsn lv) [(a, lv)] r m (latest m) (size (versions m)));
    [done|done| | |done|done|].
  - rewrite <- HS. apply Forall_forall. by intros x [? _]%list_elem_of_filter.
  - rewrite <- HD. apply Forall_forall.
    by intros x [? _]%list_elem_of_filter.
  - by eapply is_chain_length.
Qed.

Lemma two_versions_collapse (vs : gmap nat filtmgr_vsn) (a a' : nat)
    (lv' nv' : filtmgr_vsn) :
  a ≠ a' →
  (∀ i, i ≠ a → i ≠ a' → vs !! i = None) →
  <[a' := nv']> (free_versions vs [(a, lv')]) = {[ a' := nv' ]}.
Proof.
  intros Hne Hdom. unfold free_versions. cbn [foldr fst].
  apply map_eq. intros i.
  destruct (decide (i = a')) as [->|Hi'].
  { by rewrite lookup_insert_eq, lookup_singleton_eq. }
  rewrite lookup_insert_ne, lookup_singleton_ne by done.
  destruct (decide (i = a)) as [->|Hi]; [apply lookup_delete_eq|].
  rewrite lookup_delete_ne by done. by apply Hdom.
Qed.

(** From a single version numbered [n], an operation and a vacuum lead
    to a single version numbered [n + 1]. *)
Lemma single_version_next (f : bloom_filter) n m :
  single_version n m →
  0 ≤ n < 2 ^ 64 - 1 →
  ∃ o ans m1 m2,
    exec o m = Ret ans m1 ∧ exec Op_vacuum m1 = Ret A_unit m2 ∧
    single_version (n + 1) m2.
Proof.
  intros (a & lv & Hl & Hvs & Hn & Hp & Hd & Hfoo) Hb.
  assert (versions m !! a = Some lv) as Hv
    by (rewrite Hvs; apply lookup_singleton_eq).
  set (a' := fresh (dom (versions m))).
  assert (a ≠ a') as Hne.
  { intros E. pose proof (fresh_vsn_None m) as Hf. fold a' in Hf. congruence. }
  assert (u64_add (vsn lv) 1 = n + 1) as Hadd.
  { unfold u64_add. rewrite Hn, Z.mod_small; lia. }
  destruct Hfoo as [Hnone|(w & W & Hsome & HW & Hact)].
  - (* create "foo", then vacuum *)
    set (w' := fresh (dom (wrappers m))).
    set (nv := mk_vsn (u64_add (vsn lv) 1) (<[ "foo"%string := w']> (filter_map lv))
                      None (Some a)).
    set (W' := mk_wrapper true true false f
                 (if decide (config m = config m) then None
                  else Some (config m))).
    set (m1 := mk_mgr (config m) (Some a') (clients m)
                 (<[a' := nv]> (versions m)) (<[w' := W']> (wrappers m))
                 (trace m)).
    assert (filtmgr_create_filter "foo" None 0 (Some f) m = Ret 0 m1) as Hcreate.
    { assert (is_chain (versions m) (prev lv) []) as Hc0 by (by rewrite Hp).
      assert (deleted_ok (wrappers m) []) as Hok0
        by (by intros ? ? ? ?%elem_of_nil).
      destruct (create_filter_prologue m a lv [] "foo" None 0 (Some f)
                  Hl Hv Hnone Hc0 Hok0 eq_refl)
        as [[(? & ? & ? & ? & Hin & _) _]|[_ ->]].
      - by apply elem_of_nil in Hin.
      - by rewrite (create_filter_install _ _ _ _ _ _ Hl Hv). }
    assert (is_chain (versions m1) (latest m1) [(a', nv); (a, lv)]) as Hc.
    { cbn. split; [done|]. split; [apply lookup_insert_eq|].
      split; [done|]. split; [|done]. by rewrite lookup_insert_ne. }
    exists (Op_create "foo" None 0 (Some f)), (A_code 0), m1. eexists.
    split; [cbn [exec]; by rewrite (bind_run _ _ _ _ _ Hcreate)|].
    split.
    { cbn [exec]. erewrite bind_run; [reflexivity|].
      apply (vacuum_exact m1 a' nv [(a, lv)] Hc).
      - repeat constructor. cbn. lia.
      - unfold chain_deleted. cbn. rewrite Hd. constructor.
      - intros w0. unfold chain_deleted. cbn. rewrite Hd.
        by intros ?%elem_of_nil. }
    exists a', (set_prev None nv). cbn [latest versions wrappers m1].
    split; [done|]. split.
    { apply two_versions_collapse; [done|].
      intros i Hi Hi'. rewrite lookup_insert_ne, Hvs by done.
      by apply lookup_singleton_ne. }
    split; [done|]. split; [done|]. split; [done|].
    right. exists w', W'. split; [apply lookup_insert_eq|].
    split; [|done]. unfold chain_deleted. cbn. rewrite Hd. cbn.
    apply lookup_insert_eq.
  - (* drop "foo", then vacuum *)
    set (nv := mk_vsn (u64_add (vsn lv) 1) (delete "foo"%string (filter_map lv))
                      None (Some a)).
    set (lv' := set_deleted (Some w) lv).
    set (m1 := retired m a lv w W "foo" true).
    assert (filtmgr_drop_filter "foo" 0 m = Ret 0 m1) as Hdrop
      by (by apply drop_filter_run).
    assert (is_chain (versions m1) (latest m1) [(a', nv); (a, lv')]) as Hc.
    { cbn. split; [done|]. split.
      { rewrite lookup_insert_ne by done. apply lookup_insert_eq. }
      split; [done|]. split; [apply lookup_insert_eq|done]. }
    exists (Op_drop "foo" 0), (A_code 0), m1. eexists.
    split; [cbn [exec]; by rewrite (bind_run _ _ _ _ _ Hdrop)|].
    split.
    { cbn [exec]. erewrite bind_run; [reflexivity|].
      apply (vacuum_exact m1 a' nv [(a, lv')] Hc).
      - repeat constructor. cbn. lia.
      - unfold chain_deleted. cbn. apply NoDup_singleton.
      - intros w0. unfold chain_deleted. cbn.
        intros ->%list_elem_of_singleton. rewrite lookup_insert_eq.
        by eexists. }
    exists a', (set_prev None nv). cbn [latest versions wrappers m1 retired].
    split; [done|]. split.
    { apply two_versions_collapse; [done|].
      intros i Hi Hi'. rewrite !lookup_insert_ne, Hvs by done.
      by apply lookup_singleton_ne. }
    split; [done|]. split; [done|]. split; [done|].
    left. apply lookup_delete_eq.
Qed.

(** The manager [init_filter_manager] builds on a directory it cannot
    scan has a single, empty version numbered 0. *)
Lemma single_version_init cfg :
  single_version 0 (@fresh_manager bloom_filter cfg).
Proof.
  exists O, (mk_vsn 0 ∅ None None). repeat split; try done. by left.
Qed.

(** Every number of the counter is reached. *)
Lemma single_version_reachable (f : bloom_filter) n :
  0 ≤ n → n ≤ 2 ^ 64 - 1 →
  ∃ k m, reachable_in k m ∧ single_version n m.
Proof.
  intros Hn. revert n Hn.
  apply (natlike_ind (λ n, n ≤ 2 ^ 64 - 1 →
                           ∃ k m, reachable_in k m ∧ single_version n m)).
  - intros _. exists O, (fresh_manager 0). split; [|apply single_version_init].
    by apply (reachable_init 0%nat 0 None (λ _, None) 0).
  - intros n Hn IH Hb.
    destruct IH as (k & m & Hreach & Hsingle); [lia|].
    destruct (single_version_next f n m Hsingle) as
      (o & ans & m1 & m2 & Hex1 & Hex2 & Hnext); [lia|].
    exists (S (S k)), m2. split; [|done].
    eapply reachable_step; [|exact Hex2].
    eapply reachable_step; [|exact Hex1]. done.
Qed.

(** After the last number the counter wraps: a manager is reached whose
    [latest] has number 0 and a [prev] of number 2^64 - 1. *)
Lemma wrapped_chain_reachable (f : bloom_filter) :
  ∃ k m a nv b ov,
    reachable_in k m ∧
    latest m = Some a ∧ versions m !! a = Some nv ∧
    prev nv = Some b ∧ versions m !! b = Some ov ∧
    vsn nv = 0 ∧ vsn ov = 2 ^ 64 - 1.
Proof.
  destruct (single_version_reachable f (2 ^ 64 - 1)) as
    (k & m & Hreach & a & lv & Hl & Hvs & Hn & Hp & Hd & Hfoo); [lia..|].
  assert (versions m !! a = Some lv) as Hv
    by (rewrite Hvs; apply lookup_singleton_eq).
  set (a' := fresh (dom (versions m))).
  assert (a ≠ a') as Hne.
  { intros E. pose proof (fresh_vsn_None m) as Hf. fold a' in Hf. congruence. }
  assert (u64_add (vsn lv) 1 = 0) as Hadd by (by rewrite Hn).
  destruct Hfoo as [Hnone|(w & W & Hsome & HW & Hact)].
  - assert (is_chain (versions m) (prev lv) []) as Hc0 by (by rewrite Hp).
    assert (deleted_ok (wrappers m) []) as Hok0
      by (by intros ? ? ? ?%elem_of_nil).
    destruct (create_filter_prologue m a lv [] "foo" None 0 (Some f)
                Hl Hv Hnone Hc0 Hok0 eq_refl)
      as [[(? & ? & ? & ? & Hin & _) _]|[_ Hrun]];
      [by apply elem_of_nil in Hin|].
    rewrite (create_filter_install _ _ _ _ _ _ Hl Hv) in Hrun.
    eexists (S k), _, a', _, a, lv. split.
    { eapply (reachable_step _ _ (Op_create "foo" None 0 (Some f)));
        [done|]. cbn [exec]. by rewrite (bind_run _ _ _ _ _ Hrun). }
    cbn. split; [done|]. split; [apply lookup_insert_eq|].
    split; [done|]. split; [by rewrite lookup_insert_ne|]. done.
  - pose proof (drop_filter_run m a lv "foo" w W Hl Hv Hsome HW Hact) as Hrun.
    eexists (S k), _, a', _, a, _. split.
    { eapply (reachable_step _ _ (Op_drop "foo" 0)); [done|].
      cbn [exec]. by rewrite (bind_run _ _ _ _ _ Hrun). }
    cbn. split; [done|]. split.
    { rewrite lookup_insert_ne by done. apply lookup_insert_eq. }
    split; [done|]. split; [apply lookup_insert_eq|]. done.
Qed.

End Wrap.

(** * The properties at work on concrete managers *)

Local Open Scope Z_scope.

Lemma toy_created_latest : latest toy_created = Some 1%nat.
Proof. reflexivity. Qed.

Lemma toy_created_version : versions toy_created !! 1%nat = Some toy_v1.
Proof. vm_compute. reflexivity. Qed.

Lemma toy_created_wrapper : wrappers toy_created !! O = Some toy_wrapper.
Proof. vm_compute. reflexivity. Qed.

Lemma toy_dropped_chain :
  is_chain (versions toy_dropped) (latest toy_dropped) toy_chain.
Proof. vm_compute. repeat split; reflexivity. Qed.

Lemma toy_chain_increasing : vsn_increasing toy_chain.
Proof. repeat constructor; simpl; lia. Qed.

Lemma toy_chain_parked : chain_deleted toy_chain = [O].
Proof. reflexivity. Qed.

(** [filtmgr_vacuum] on the three versions of [toy_dropped]. *)
Lemma clean_old_versions_witness :
  is_chain (versions toy_dropped) (latest toy_dropped) toy_chain ∧
  vsn_increasing toy_chain ∧
  NoDup (chain_deleted toy_chain) ∧
  ∃ m'', filtmgr_vacuum toy_dropped = Ret tt m'' ∧
         latest m'' = latest toy_dropped ∧
         is_chain (versions m'') (latest m'') [(2%nat, set_prev None toy_v2)] ∧
         versions m'' !! 1%nat = None ∧ versions m'' !! O = None.
Proof.
  assert (∀ w, w ∈ chain_deleted toy_chain →
               is_Some (wrappers toy_dropped !! w)) as Hval.
  { intros w ->%list_elem_of_singleton. vm_compute. by eexists. }
  assert (NoDup (chain_deleted toy_chain)) as Hnd.
  { rewrite toy_chain_parked. apply NoDup_singleton. }
  split; [apply toy_dropped_chain|]. split; [apply toy_chain_increasing|].
  split; [done|].
  destruct (clean_old_versions_spec toy_dropped toy_chain 2 3) as [_ Hvac];
    [done|apply toy_dropped_chain|apply toy_chain_increasing|done|done
    |simpl; lia|].
  destruct (Hvac 2%nat toy_v2 eq_refl) as (m'' & Hrun & Hl & Hc & Hfreed).
  exists m''. split; [done|]. split; [done|]. split; [done|]. split.
  - apply (Hfreed 1%nat toy_v1_parked). simpl. by left.
  - apply (Hfreed O toy_v0). simpl. right. by left.
Defined.

(** ["foo"] is pending on [toy_dropped]: it cannot be created. *)
Lemma create_pending_delete_witness :
  latest toy_dropped = Some 2%nat ∧
  versions toy_dropped !! 2%nat = Some toy_v2 ∧
  is_chain (versions toy_dropped) (prev toy_v2)
           [(1%nat, toy_v1_parked); (O, toy_v0)] ∧
  nul_free "foo" = true ∧
  filter_map toy_v2 !! "foo"%string = None ∧
  filtmgr_create_filter "foo" None 0 (toy_init [] "foo") toy_dropped
  = Ret (-3) toy_dropped.
Proof.
  assert (versions toy_dropped !! 2%nat = Some toy_v2) as Hv
    by (vm_compute; reflexivity).
  assert (is_chain (versions toy_dropped) (prev toy_v2)
            [(1%nat, toy_v1_parked); (O, toy_v0)]) as Hc
    by (vm_compute; repeat split; reflexivity).
  assert (wrappers toy_dropped !! O =
          Some (mk_wrapper false true true
                  (mk_toy "foo" false false [] ["bad"]) None)) as HW
    by (vm_compute; reflexivity).
  assert (deleted_ok (wrappers toy_dropped)
            [(1%nat, toy_v1_parked); (O, toy_v0)]) as Hok.
  { intros a v w [[= -> ->]|[[= -> ->]|[]%elem_of_nil]%elem_of_cons]%elem_of_cons;
      [|done].
    intros [= <-]. eexists. split; [exact HW|reflexivity]. }
  split; [reflexivity|]. split; [exact Hv|]. split; [exact Hc|].
  split; [reflexivity|]. split; [reflexivity|].
  apply (create_pending_delete toy_dropped 2%nat toy_v2
           [(1%nat, toy_v1_parked); (O, toy_v0)] "foo" None 0
           (toy_init [] "foo") eq_refl Hv Hc Hok eq_refl eq_refl).
  eexists 1%nat, toy_v1_parked, O, _.
  split; [by left|]. split; [done|]. split; [exact HW|reflexivity].
Defined.

(** Dropping ["foo"] from [toy_created]. *)
Lemma drop_filter_witness :
  latest toy_created = Some 1%nat ∧
  versions toy_created !! 1%nat = Some toy_v1 ∧
  filter_map toy_v1 !! "foo"%string = Some O ∧
  wrappers toy_created !! O = Some toy_wrapper ∧
  is_active toy_wrapper = true ∧
  filtmgr_drop_filter "foo" 0 toy_created =
  Ret 0 (mk_mgr 7 (Some 2%nat) []
           (<[1%nat := toy_v1_parked]>
              (<[2%nat := toy_v2]> (versions toy_created)))
           (<[O := mk_wrapper false true true
                     (mk_toy "foo" false false [] ["bad"]) None]>
              (wrappers toy_created))
           []) ∧
  filtmgr_drop_filter "bar" 0 toy_created = Ret (-1) toy_created.
Proof.
  destruct (drop_filter_spec toy_created 1%nat toy_v1 "foo"
              toy_created_latest toy_created_version) as (Hdrop & _ & _).
  destruct (drop_filter_spec toy_created 1%nat toy_v1 "bar"
              toy_created_latest toy_created_version) as (_ & Hmiss & _).
  destruct (Hdrop O toy_wrapper eq_refl toy_created_wrapper eq_refl)
    as [_ Hrun].
  split; [reflexivity|]. split; [apply toy_created_version|].
  split; [reflexivity|]. split; [apply toy_created_wrapper|].
  split; [reflexivity|]. split.
  - rewrite Hrun. vm_compute. reflexivity.
  - apply Hmiss. reflexivity.
Defined.

(** Two batches on ["foo"] in [toy_created], whose filter errs on the key
    ["bad"]. *)
Lemma keys_batch_witness :
  latest toy_created = Some 1%nat ∧
  versions toy_created !! 1%nat = Some toy_v1 ∧
  filter_map toy_v1 !! "foo"%string = Some O ∧
  wrappers toy_created !! O = Some toy_wrapper ∧
  is_active toy_wrapper = true ∧
  no_error (add_answers (filter toy_wrapper) ["a"; "b"; "a"]%string) ∧
  first_error (contains_answers (filter toy_wrapper) ["a"; "bad"; "c"]%string)
              1 ∧
  (∃ m', filtmgr_set_keys "foo" ["a"; "b"; "a"]%string 3 [9; 9; 9] toy_created
         = Ret (0, [1; 1; 0]) m') ∧
  (∃ result' m',
     filtmgr_check_keys "foo" ["a"; "bad"; "c"]%string 3 [9; 9; 9] toy_created
       = Ret (-2, result') m' ∧
     result' !! O = Some 0 ∧ result' !! 1%nat = Some 9 ∧
     result' !! 2%nat = Some 9).
Proof.
  assert (no_error (add_answers (filter toy_wrapper) ["a"; "b"; "a"]%string))
    as Hok.
  { intros [|[|[|j]]]; vm_compute; congruence. }
  assert (first_error
            (contains_answers (filter toy_wrapper) ["a"; "bad"; "c"]%string) 1)
    as Herr.
  { split; [reflexivity|]. intros [|j] Hj; [vm_compute; congruence|lia]. }
  destruct (keys_batch_contract toy_created 1%nat toy_v1 "foo"
              ["a"; "b"; "a"]%string [9; 9; 9]
              toy_created_latest toy_created_version eq_refl) as (Hset & _).
  destruct (keys_batch_contract toy_created 1%nat toy_v1 "foo"
              ["a"; "bad"; "c"]%string [9; 9; 9]
              toy_created_latest toy_created_version eq_refl) as (Hcheck & _).
  destruct (Hset O toy_wrapper eq_refl toy_created_wrapper eq_refl)
    as (_ & Hset_ok & _ & _).
  destruct (Hcheck O toy_wrapper eq_refl toy_created_wrapper eq_refl)
    as (_ & _ & Hcheck_err & _).
  split; [reflexivity|]. split; [apply toy_created_version|].
  split; [reflexivity|]. split; [apply toy_created_wrapper|].
  split; [reflexivity|]. split; [exact Hok|]. split; [exact Herr|]. split.
  - exact (Hset_ok Hok).
  - destruct (Hcheck_err 1%nat Herr) as (result' & m' & Hrun & Hlt & Hge).
    exists result', m'. split; [exact Hrun|]. split; [|split].
    + rewrite (Hlt O) by lia. reflexivity.
    + rewrite (Hge 1%nat) by lia. reflexivity.
    + rewrite (Hge 2%nat) by lia. reflexivity.
Defined.

(** Creating ["foo"] again in [toy_created], and in [toy_inactive] where
    its wrapper is inactive. *)
Lemma create_existing_name_witness :
  latest toy_created = Some 1%nat ∧
  versions toy_created !! 1%nat = Some toy_v1 ∧
  filter_map toy_v1 !! "foo"%string = Some O ∧
  filtmgr_create_filter "foo" None 0 (toy_init [] "foo") toy_created
  = Ret (-1) toy_created ∧
  (is_active <$> wrappers toy_inactive !! O) = Some false ∧
  filtmgr_create_filter "foo" None 0 (toy_init [] "foo") toy_inactive
  = Ret (-1) toy_inactive.
Proof.
  split; [reflexivity|]. split; [apply toy_created_version|].
  split; [reflexivity|]. split; [|split].
  - exact (create_existing_name_rejected toy_created 1%nat toy_v1 "foo" O
             None 0 (toy_init [] "foo")
             toy_created_latest toy_created_version eq_refl).
  - vm_compute. reflexivity.
  - exact (create_existing_name_rejected toy_inactive 1%nat toy_v1 "foo" O
             None 0 (toy_init [] "foo")
             eq_refl toy_created_version eq_refl).
Defined.

(** [art_copy] failing in [toy_created]: creating ["bar"], dropping
    ["foo"]. *)
Lemma version_copy_failure_witness :
  latest toy_created = Some 1%nat ∧
  versions toy_created !! 1%nat = Some toy_v1 ∧
  create_new_version 1 toy_created = Ret None toy_created ∧
  filtmgr_create_filter "bar" None 1 (toy_init [] "bar") toy_created
  = Fault ∧
  filtmgr_drop_filter "foo" 1 toy_created = Fault.
Proof.
  assert ((1 : Z) ≠ 0) as Hr by lia.
  destruct (version_copy_failure toy_created 1%nat toy_v1 1 Hr
              toy_created_latest toy_created_version)
    as (Hnew & Hcreate & Hdrop).
  split; [reflexivity|]. split; [apply toy_created_version|].
  split; [exact Hnew|]. split.
  - apply (Hcreate "bar" None (toy_init [] "bar") [(O, toy_v0)]).
    + reflexivity.
    + vm_compute. repeat split; reflexivity.
    + intros a v w [[= -> ->]|[]%elem_of_nil]%elem_of_cons. done.
    + reflexivity.
    + intros (a & v & w & W & [[= -> ->]|[]%elem_of_nil]%elem_of_cons & Hd & _).
      done.
  - apply (Hdrop "foo" O toy_wrapper eq_refl toy_created_wrapper eq_refl).
Defined.

(** A batch that errs on the cold wrapper of [toy_loaded]: the flag
    goes up, by key traffic, with the return code -2. *)
Lemma is_hot_changes_witness :
  exec toy_batch toy_loaded
    = Ret (A_keys (-2) [9]) toy_loaded_checked ∧
  wrappers toy_loaded !! O = Some toy_cold_wrapper ∧
  wrappers toy_loaded_checked !! O = Some (set_is_hot true toy_cold_wrapper) ∧
  ∃ name code result',
    key_traffic toy_batch name ∧
    take_filter (latest toy_loaded) name toy_loaded = Ret (Some O) toy_loaded ∧
    @A_keys (-2) [9] = A_keys code result' ∧ (code = 0 ∨ code = -2).
Proof.
  assert (exec toy_batch toy_loaded
          = Ret (A_keys (-2) [9]) toy_loaded_checked) as Hex
    by (vm_compute; reflexivity).
  assert (wrappers toy_loaded !! O = Some toy_cold_wrapper) as HW
    by (vm_compute; reflexivity).
  assert (wrappers toy_loaded_checked !! O
          = Some (set_is_hot true toy_cold_wrapper)) as HW'
    by (vm_compute; reflexivity).
  split; [exact Hex|]. split; [exact HW|]. split; [exact HW'|].
  pose proof (is_hot_changes _ _ _ _ _ _ Hex HW') as H.
  rewrite HW in H.
  destruct H as [H|[(_ & _ & H)|(H & _)]]; [discriminate H|exact H|discriminate H].
Defined.

(** The listings of [toy_inactive]. *)
Lemma inactive_wrapper_listing_witness :
  latest toy_inactive = Some 1%nat ∧
  versions toy_inactive !! 1%nat = Some toy_v1 ∧
  filter_map toy_v1 !! "foo"%string = Some O ∧
  (is_active <$> wrappers toy_inactive !! O) = Some false ∧
  (∃ names, filtmgr_list_filters None toy_inactive = Ret (0, names) toy_inactive ∧
            "foo"%string ∉ names) ∧
  (∃ names, filtmgr_list_filters (Some "fo"%string) toy_inactive
              = Ret (0, names) toy_inactive ∧
            "foo"%string ∉ names) ∧
  (∃ names m', filtmgr_list_cold_filters toy_inactive = Ret (0, names) m' ∧
               "foo"%string ∈ names).
Proof.
  assert (wrappers toy_inactive !! O =
          Some (mk_wrapper false false true
                  (mk_toy "foo" false false [] ["bad"]) None)) as HW
    by (vm_compute; reflexivity).
  assert (∀ k v, filter_map toy_v1 !! k = Some v →
                 is_Some (wrappers toy_inactive !! v)) as Hval.
  { intros k v Hk. cbn [filter_map toy_v1] in Hk.
    apply lookup_singleton_Some in Hk as [_ <-]. rewrite HW. by eexists. }
  destruct (inactive_wrapper_listing toy_inactive 1%nat toy_v1 "foo" O _
              eq_refl toy_created_version Hval eq_refl HW eq_refl)
    as [Hlist Hcold].
  split; [reflexivity|]. split; [apply toy_created_version|].
  split; [reflexivity|]. split; [by rewrite HW|].
  split; [apply Hlist|]. split; [apply Hlist|].
  apply Hcold; reflexivity.
Defined.

(** [toy_dropped] is reached in two operations. *)
Lemma toy_dropped_reachable : reachable_in 2 toy_dropped.
Proof.
  apply (reachable_step 1 toy_created (Op_drop "foo" 0) (A_code 0));
    [|vm_compute; reflexivity].
  apply (reachable_step 0 (fresh_manager 7)
           (Op_create "foo" None 0 (toy_init ["bad"] "foo")) (A_code 0));
    [|vm_compute; reflexivity].
  apply (reachable_init 7 0 (Some []) (toy_init []) 0).
  vm_compute. reflexivity.
Qed.

(** The chain of [toy_dropped], and the version its drop installed. *)
Lemma version_chain_invariant_witness :
  reachable_in 2 toy_dropped ∧
  (∃ l, l ≠ [] ∧ is_chain (versions toy_dropped) (latest toy_dropped) l ∧
        NoDup (l.*1) ∧ vsn_increasing l) ∧
  exec (Op_drop "foo" 0) toy_created = Ret (A_code 0) toy_dropped ∧
  ∃ a lv a' nv,
    latest toy_created = Some a ∧ versions toy_created !! a = Some lv ∧
    latest toy_dropped = Some a' ∧ versions toy_dropped !! a' = Some nv ∧
    prev nv = Some a ∧ vsn nv = vsn lv + 1.
Proof.
  destruct (@version_chain_invariant toy_filter toy_ops)
    as (Hinstall & _ & Hchain).
  assert (exec (Op_drop "foo" 0) toy_created = Ret (A_code 0) toy_dropped)
    as Hex by (vm_compute; reflexivity).
  split; [apply toy_dropped_reachable|].
  split.
  { destruct (Hchain 2%nat _ toy_dropped_reachable) as (l & Hne & Hc & Hnd & Hs).
    exists l. split; [exact Hne|]. split; [exact Hc|]. split; [exact Hnd|].
    apply Hs. simpl. lia. }
  split; [exact Hex|].
  destruct (Hinstall _ _ _ _ Hex) as (_ & a & lv & a' & nv & Hl & Hv & _ &
                                      Hl' & Hv' & Hp & _ & Hvsn).
  { vm_compute. congruence. }
  exists a, lv, a', nv. repeat split; try done.
  apply Hvsn. rewrite toy_created_latest in Hl. injection Hl as <-.
  rewrite toy_created_version in Hv. injection Hv as <-. simpl. lia.
Defined.

(** At the last version number the counter wraps: the version a drop
    installs on [toy_last_vsn] has number 0, below that of its [prev];
    and a manager in which [latest] has number 0 and its [prev] number
    2^64 - 1 is reached from [init_filter_manager]. *)
Lemma version_counter_wraps :
  (∃ m',
     exec (Op_drop "foo" 0) toy_last_vsn = Ret (A_code 0) m' ∧
     latest toy_last_vsn = Some O ∧
     (vsn <$> versions toy_last_vsn !! O) = Some (2 ^ 64 - 1) ∧
     latest m' = Some 1%nat ∧
     (prev <$> versions m' !! 1%nat) = Some (Some O) ∧
     (vsn <$> versions m' !! 1%nat) = Some 0 ∧
     (vsn <$> versions m' !! O) = Some (2 ^ 64 - 1)) ∧
  (∃ k (m : @bloom_filtmgr toy_filter) a nv b ov,
     reachable_in k m ∧
     latest m = Some a ∧ versions m !! a = Some nv ∧
     prev nv = Some b ∧ versions m !! b = Some ov ∧
     vsn nv = 0 ∧ vsn ov = 2 ^ 64 - 1).
Proof.
  split.
  - eexists. split; [vm_compute; reflexivity|].
    vm_compute. repeat split; reflexivity.
  - apply wrapped_chain_reachable. exact (mk_toy "foo" false false [] []).
Qed.

(** The loader on a directory that holds [bloomd.f] and [other]. *)
Lemma loader_folder_filter_witness :
  (filter_bloomd_folders "bloomd.f" = 1 ↔
   String.prefix "bloomd." "bloomd.f" = true ∧
   (8 ≤ String.length "bloomd.f")%nat) ∧
  latest toy_loaded = Some O ∧
  is_Some (filter_map (mk_vsn 0 {[ "f"%string := O ]} None None)
             !! "f"%string) ∧
  "f"%string ≠ EmptyString ∧
  ("bloomd." ++ "f")%string ∈ ["bloomd.f"%string; "other"%string].
Proof.
  destruct (@loader_folder_filter toy_filter) as (Hiff & _ & _ & Hload).
  assert (is_Some (filter_map (mk_vsn 0 {[ "f"%string := O ]} None None)
                     !! "f"%string)) as Hin by (by eexists).
  split; [apply Hiff; simpl; lia|]. split; [reflexivity|]. split; [exact Hin|].
  apply (Hload 7%nat 0 ["bloomd.f"%string; "other"%string]
           (toy_init ["bad"]) 0 toy_loaded O (mk_vsn 0 {[ "f"%string := O ]} None None) "f"%string).
  - intros e [->|[->|[]%elem_of_nil]%elem_of_cons]%elem_of_cons; simpl; lia.
  - vm_compute. reflexivity.
  - reflexivity.
  - vm_compute. reflexivity.
  - exact Hin.
Defined.

(** The folder named [bloomd.] is 7 bytes long: the filter of the scan
    rejects it, and the loader makes no filter of it. *)
Lemma bloomd_dot_rejected :
  strlen "bloomd." = 7 ∧
  filter_bloomd_folders "bloomd." = 0 ∧
  scandir (Some ["bloomd."%string]) filter_bloomd_folders = Some [] ∧
  init_filter_manager 7 0 (Some ["bloomd."%string]) (toy_init []) 0
  = Ret 0 (fresh_manager 7).
Proof. vm_compute. repeat split; reflexivity. Qed.

(** A batch that returns -2 sets [is_hot] all the same. *)
Lemma is_hot_set_by_failed_batch :
  (is_hot <$> wrappers toy_loaded !! O) = Some false ∧
  exec toy_batch toy_loaded = Ret (A_keys (-2) [9]) toy_loaded_checked ∧
  (is_hot <$> wrappers toy_loaded_checked !! O) = Some true.
Proof. vm_compute. repeat split; reflexivity. Qed.

(** * The shape of the heap *)

Section Heap.
Context {bloom_filter : Type} `{!FilterOps bloom_filter}.
Implicit Types m : @bloom_filtmgr bloom_filter.
Implicit Types ws : gmap nat (@bloom_filter_wrapper bloom_filter).
Implicit Types l : list (nat * filtmgr_vsn).

Lemma same_active_refl ws : same_active ws ws.
Proof. intros w. by destruct (ws !! w). Qed.

Lemma same_active_insert ws w W W' :
  ws !! w = Some W → is_active W' = is_active W →
  same_active ws (<[w := W']> ws).
Proof.
  intros HW Hact w'. destruct (decide (w' = w)) as [->|Hne].
  - by rewrite HW, lookup_insert_eq.
  - rewrite lookup_insert_ne by done. by destruct (ws !! w').
Qed.

Lemma same_active_trans ws1 ws2 ws3 :
  same_active ws1 ws2 → same_active ws2 ws3 → same_active ws1 ws3.
Proof.
  intros H12 H23 w. specialize (H12 w). specialize (H23 w).
  destruct (ws1 !! w), (ws2 !! w), (ws3 !! w); try done. congruence.
Qed.

Lemma cooled_same_active ws ws' : cooled ws ws' → same_active ws ws'.
Proof.
  intros Hc w. specialize (Hc w).
  destruct (ws !! w) as [V|], (ws' !! w) as [V'|]; try done.
  by destruct Hc as [->|[_ ->]].
Qed.

Lemma same_active_lookup ws ws' w W b :
  same_active ws ws' → ws !! w = Some W → is_active W = b →
  ∃ W', ws' !! w = Some W' ∧ is_active W' = b.
Proof.
  intros Hs HW Hb. specialize (Hs w). rewrite HW in Hs.
  destruct (ws' !! w) as [W'|]; [|done]. exists W'. split; [done|congruence].
Qed.

Lemma index_ok_reshape ws ws' fm :
  same_active ws ws' → index_ok ws fm → index_ok ws' fm.
Proof.
  intros Hs [Hal Hinj]. split; [|done].
  intros k w Hk. destruct (Hal k w Hk) as (W & HW & Hact).
  by eapply same_active_lookup.
Qed.

Lemma parked_ok_reshape ws ws' l :
  same_active ws ws' → parked_ok ws l → parked_ok ws' l.
Proof.
  intros Hs [Hnd Hal]. split; [done|].
  intros w Hw. destruct (Hal w Hw) as (W & HW & Hact).
  by eapply same_active_lookup.
Qed.

(** A change of the wrappers that keeps the addresses and the
    [is_active] flags keeps the shape. *)
Lemma mgr_wf_reshape m ws' :
  same_active (wrappers m) ws' → mgr_wf m → mgr_wf (set_wrappers ws' m).
Proof.
  intros Hs (a & lv & l & Hc & Hd & Hi & Hp).
  exists a, lv, l. split; [done|]. split; [done|]. split.
  - by eapply index_ok_reshape.
  - by eapply parked_ok_reshape.
Qed.

Lemma mgr_wf_clients m cs : mgr_wf m → mgr_wf (set_clients cs m).
Proof. intros (a & lv & l & H). by exists a, lv, l. Qed.

Lemma tweaks_filter_wf m m' : tweaks_filter m m' → mgr_wf m → mgr_wf m'.
Proof.
  intros [->|(w & W & f & HW & ->)] Hwf; [done|].
  apply mgr_wf_reshape; [|done]. by eapply same_active_insert.
Qed.

(** An index wrapper is not a parked one. *)
Lemma index_not_parked ws fm l k w :
  index_ok ws fm → parked_ok ws l → fm !! k = Some w → w ∉ chain_deleted l.
Proof.
  intros [Hal _] [_ Hpk] Hk Hin.
  destruct (Hal k w Hk) as (W & HW & Hact).
  destruct (Hpk w Hin) as (W' & HW' & Hact'). congruence.
Qed.

(** The state a successful [filtmgr_create_filter] leaves. *)
Lemma mgr_wf_create m a lv name f c :
  mgr_wf m →
  latest m = Some a →
  versions m !! a = Some lv →
  mgr_wf (mk_mgr (config m) (Some (fresh (dom (versions m)))) (clients m)
            (<[fresh (dom (versions m)) :=
                 mk_vsn (u64_add (vsn lv) 1)
                        (<[name := fresh (dom (wrappers m))]> (filter_map lv))
                        None (Some a)]> (versions m))
            (<[fresh (dom (wrappers m)) := mk_wrapper true true false f c]>
               (wrappers m))
            (trace m)).
Proof.
  intros (a0 & lv0 & l & Hc & Hd & [Hal Hinj] & [Hnd Hpk]) Hl Hv.
  pose proof Hc as (Ha & Hv0 & Hc').
  rewrite Hl in Ha. injection Ha as <-.
  assert (lv0 = lv) as -> by congruence.
  set (a' := fresh (dom (versions m))).
  set (w' := fresh (dom (wrappers m))).
  assert (versions m !! a' = None) as Hfa by apply fresh_vsn_None.
  assert (wrappers m !! w' = None) as Hfw by apply fresh_wrapper_None.
  eexists a', _, ((a, lv) :: l). split; [|split; [|split]].
  - cbn [versions latest]. split; [done|].
    split; [apply lookup_insert_eq|]. cbn [prev].
    apply is_chain_insert_fresh; [done|]. by rewrite <- Hl.
  - done.
  - cbn [wrappers filter_map]. split.
    + intros k w Hk. destruct (decide (k = name)) as [->|Hne].
      * rewrite lookup_insert_eq in Hk. injection Hk as <-.
        eexists. split; [apply lookup_insert_eq|done].
      * rewrite lookup_insert_ne in Hk by done.
        destruct (Hal k w Hk) as (W & HW & Hact). exists W.
        split; [|done]. rewrite lookup_insert_ne; [done|congruence].
    + intros k1 k2 w H1 H2.
      destruct (decide (k1 = name)) as [->|Hn1],
               (decide (k2 = name)) as [->|Hn2]; [done|..].
      * rewrite lookup_insert_eq in H1. injection H1 as <-.
        rewrite lookup_insert_ne in H2 by done.
        destruct (Hal k2 w' H2) as (W & HW & _). congruence.
      * rewrite lookup_insert_eq in H2. injection H2 as <-.
        rewrite lookup_insert_ne in H1 by done.
        destruct (Hal k1 w' H1) as (W & HW & _). congruence.
      * rewrite lookup_insert_ne in H1, H2 by done. by eapply Hinj.
  - unfold parked_ok. cbn [wrappers]. rewrite chain_deleted_cons, Hd.
    split; [done|].
    intros w Hw. destruct (Hpk w Hw) as (W & HW & Hact). exists W.
    split; [|done]. rewrite lookup_insert_ne; [done|congruence].
Qed.

(** The state [filtmgr_drop_filter] and [filtmgr_clear_filter] leave. *)
Lemma mgr_wf_retire m a lv w W name del :
  mgr_wf m →
  latest m = Some a →
  versions m !! a = Some lv →
  filter_map lv !! name = Some w →
  wrappers m !! w = Some W →
  mgr_wf (retired m a lv w W name del).
Proof.
  intros (a0 & lv0 & l & Hc & Hd & [Hal Hinj] & [Hnd Hpk]) Hl Hv Hn HW.
  pose proof (is_chain_NoDup _ _ _ Hc) as Haddr.
  rewrite fmap_cons in Haddr. apply NoDup_cons in Haddr as [Ha0 _].
  pose proof Hc as (Ha & Hv0 & Hc').
  rewrite Hl in Ha. injection Ha as <-.
  assert (lv0 = lv) as -> by congruence.
  set (a' := fresh (dom (versions m))).
  assert (versions m !! a' = None) as Hfa by apply fresh_vsn_None.
  assert (a ≠ a') as Hne by congruence.
  assert (w ∉ chain_deleted l) as Hwl
    by (by eapply (index_not_parked (wrappers m) (filter_map lv))).
  unfold retired. fold a'.
  eexists a', _, ((a, set_deleted (Some w) lv) :: l).
  split; [|split; [|split]].
  - cbn [versions latest]. split; [done|]. split.
    { rewrite lookup_insert_ne by done. apply lookup_insert_eq. }
    cbn [prev]. split; [done|]. split; [apply lookup_insert_eq|].
    cbn [prev set_deleted]. eapply is_chain_ext; [|done].
    intros b u Hin.
    pose proof (is_chain_lookup _ _ _ _ _ Hc' Hin) as Hu.
    rewrite !lookup_insert_ne; [done|congruence|].
    intros <-. apply Ha0, list_elem_of_fmap. by exists (a, u).
  - done.
  - cbn [wrappers filter_map]. split.
    + intros k w0 Hk. apply lookup_delete_Some in Hk as [Hne' Hk].
      destruct (Hal k w0 Hk) as (W0 & HW0 & Hact). exists W0.
      split; [|done]. rewrite lookup_insert_ne; [done|].
      intros <-. apply Hne'. by eapply Hinj.
    + intros k1 k2 w0 [_ H1]%lookup_delete_Some [_ H2]%lookup_delete_Some.
      by eapply Hinj.
  - unfold parked_ok. cbn [wrappers]. rewrite chain_deleted_cons.
    cbn [deleted set_deleted]. split; [by constructor|].
    intros w0 [->|Hw0]%elem_of_cons.
    + eexists. split; [apply lookup_insert_eq|done].
    + destruct (Hpk w0 Hw0) as (W0 & HW0 & Hact). exists W0.
      split; [|done]. rewrite lookup_insert_ne; [done|].
      by intros <-.
Qed.

Lemma chain_deleted_clear_last_prev l :
  chain_deleted (clear_last_prev l) = chain_deleted l.
Proof.
  induction l as [|[a v] l IH]; [done|].
  cbn [clear_last_prev]. destruct l as [|x l']; [done|].
  rewrite !chain_deleted_cons, IH. done.
Qed.

Lemma clear_last_prev_head a lv l :
  ∃ lv' t,
    clear_last_prev ((a, lv) :: l) = (a, lv') :: t ∧
    filter_map lv' = filter_map lv ∧ deleted lv' = deleted lv ∧
    vsn lv' = vsn lv ∧ chain_deleted t = chain_deleted l.
Proof.
  cbn [clear_last_prev]. destruct l as [|x l'].
  - by exists (set_prev None lv), [].
  - exists lv, (clear_last_prev (x :: l')). repeat split.
    apply chain_deleted_clear_last_prev.
Qed.

(** The chain of a manager that satisfies both invariants. *)
Lemma wf_chain n m :
  chain_inv n m → mgr_wf m →
  ∃ a lv l,
    is_chain (versions m) (latest m) ((a, lv) :: l) ∧
    vsn_increasing ((a, lv) :: l) ∧
    (∀ b v, (b, v) ∈ (a, lv) :: l → 0 ≤ vsn v ≤ Z.of_nat n) ∧
    deleted lv = None ∧
    index_ok (wrappers m) (filter_map lv) ∧
    parked_ok (wrappers m) l.
Proof.
  intros (l0 & _ & Hc0 & Hs & Hb) (a & lv & l & Hc & Hd & Hi & Hp).
  pose proof (is_chain_det _ _ _ _ Hc0 Hc) as ->.
  by exists a, lv, l.
Qed.

(** What [clean_old_versions] leaves of a well-formed chain, for a
    threshold that is not above the number of [latest]. *)
Lemma clean_state_wf m a lv l min_vsn :
  is_chain (versions m) (latest m) ((a, lv) :: l) →
  vsn_increasing ((a, lv) :: l) →
  deleted lv = None →
  index_ok (wrappers m) (filter_map lv) →
  parked_ok (wrappers m) l →
  min_vsn ≤ vsn lv →
  mgr_wf (mk_mgr (config m) (latest m) (clients m)
            (cut_after (survivors min_vsn ((a, lv) :: l))
               (free_versions (versions m)
                  (reclaimed min_vsn ((a, lv) :: l))))
            (free_wrappers (wrappers m)
               (chain_deleted (reclaimed min_vsn ((a, lv) :: l))))
            (trace m ++
             reclaim_log (wrappers m) (reclaimed min_vsn ((a, lv) :: l)))).
Proof.
  intros Hc Hs Hd Hi [Hnd Hpk] Hmin.
  pose proof (vsn_increasing_split min_vsn _ Hs) as Hsplit.
  assert (survivors min_vsn ((a, lv) :: l) = (a, lv) :: survivors min_vsn l)
    as HS by (unfold survivors; by rewrite filter_cons_True).
  assert (reclaimed min_vsn ((a, lv) :: l) = reclaimed min_vsn l) as HD.
  { unfold reclaimed. rewrite filter_cons_False; [done|]. simpl. lia. }
  rewrite HS, HD in *. set (S' := survivors min_vsn l) in *.
  set (D := reclaimed min_vsn l) in *.
  assert (l = S' ++ D) as Hl by (by injection Hsplit).
  rewrite Hl, chain_deleted_app in Hnd, Hpk.
  apply NoDup_app in Hnd as (HndS & Hdisj & HndD).
  destruct (clear_last_prev_head a lv S') as (lv' & t & Hclp & Hfm & Hdel & _ & Ht).
  exists a, lv', t. split; [|split; [|split]].
  - cbn [versions latest]. rewrite <- Hclp.
    apply survivors_chain; [done|]. by rewrite <- Hsplit.
  - congruence.
  - cbn [wrappers]. rewrite Hfm. destruct Hi as [Hal Hinj]. split; [|done].
    intros k w Hk. destruct (Hal k w Hk) as (W & HW & Hact). exists W.
    split; [|done]. rewrite free_wrappers_lookup_notin; [done|].
    intros Hin. destruct (Hpk w) as (W' & HW' & Hact');
      [apply elem_of_app; by right|congruence].
  - unfold parked_ok. cbn [wrappers]. rewrite Ht. split; [done|].
    intros w Hw. destruct (Hpk w) as (W & HW & Hact);
      [apply elem_of_app; by left|].
    exists W. split; [|done]. rewrite free_wrappers_lookup_notin; [done|].
    by apply Hdisj.
Qed.

(** [clean_old_versions] from [latest], with the fuel the callers give
    it. *)
Lemma clean_run m a lv l min_vsn :
  is_chain (versions m) (latest m) ((a, lv) :: l) →
  vsn_increasing ((a, lv) :: l) →
  deleted lv = None →
  parked_ok (wrappers m) l →
  clean_old_versions (size (versions m)) (latest m) min_vsn m =
  Ret (if decide (survivors min_vsn ((a, lv) :: l) = []) then 1 else 0)
      (mk_mgr (config m) (latest m) (clients m)
         (cut_after (survivors min_vsn ((a, lv) :: l))
            (free_versions (versions m) (reclaimed min_vsn ((a, lv) :: l))))
         (free_wrappers (wrappers m)
            (chain_deleted (reclaimed min_vsn ((a, lv) :: l))))
         (trace m ++
          reclaim_log (wrappers m) (reclaimed min_vsn ((a, lv) :: l)))).
Proof.
  intros Hc Hs Hd [Hnd Hpk].
  apply clean_exact; [done|done|done| | |by eapply is_chain_length].
  - by rewrite chain_deleted_cons, Hd.
  - rewrite chain_deleted_cons, Hd. intros w Hw.
    destruct (Hpk w Hw) as (W & -> & _). by eexists.
Qed.

End Heap.

(** ** The shape of the heap is an invariant *)

Section HeapInvariant.
Context {bloom_filter : Type} `{!FilterOps bloom_filter}.
Implicit Types m : @bloom_filtmgr bloom_filter.
Implicit Types ws : gmap nat (@bloom_filter_wrapper bloom_filter).
Implicit Types l : list (nat * filtmgr_vsn).

Lemma index_ok_insert ws fm name w W :
  index_ok ws fm → ws !! w = None → is_active W = true →
  index_ok (<[w := W]> ws) (<[name := w]> fm).
Proof.
  intros [Hal Hinj] Hf Hact. split.
  - intros k w0 Hk. destruct (decide (k = name)) as [->|Hne].
    + rewrite lookup_insert_eq in Hk. injection Hk as <-.
      exists W. split; [apply lookup_insert_eq|done].
    + rewrite lookup_insert_ne in Hk by done.
      destruct (Hal k w0 Hk) as (W0 & HW0 & Hact0). exists W0.
      split; [|done]. rewrite lookup_insert_ne; [done|congruence].
  - intros k1 k2 w0 H1 H2.
    destruct (decide (k1 = name)) as [->|Hn1],
             (decide (k2 = name)) as [->|Hn2]; [done|..].
    + rewrite lookup_insert_eq in H1. injection H1 as <-.
      rewrite lookup_insert_ne in H2 by done.
      destruct (Hal k2 w H2) as (W0 & HW0 & _). congruence.
    + rewrite lookup_insert_eq in H2. injection H2 as <-.
      rewrite lookup_insert_ne in H1 by done.
      destruct (Hal k1 w H1) as (W0 & HW0 & _). congruence.
    + rewrite lookup_insert_ne in H1, H2 by done. by eapply Hinj.
Qed.

(** [add_filter] on [latest], as the loader calls it. *)
Lemma mgr_wf_add m name cfg hot init_res r m' :
  mgr_wf m →
  add_filter (latest m) name cfg hot init_res m = Ret r m' →
  mgr_wf m' ∧ latest m' = latest m ∧ config m' = config m.
Proof.
  intros Hwf H.
  destruct init_res as [f|];
    [|rewrite add_filter_init_fails in H; by injection H as _ <-].
  destruct Hwf as (a & lv & l & Hc & Hd & Hi & [Hnd Hpk]).
  pose proof (is_chain_NoDup _ _ _ Hc) as Haddr.
  rewrite fmap_cons in Haddr. apply NoDup_cons in Haddr as [Ha0 _].
  pose proof Hc as (Hl & Hv & Hc').
  rewrite Hl, (add_filter_run _ _ _ _ _ _ _ Hv) in H. injection H as _ <-.
  split; [|done].
  assert (wrappers m !! fresh (dom (wrappers m)) = None) as Hfw
    by apply fresh_wrapper_None.
  eexists a, _, l. split; [|split; [|split]].
  - cbn [versions latest]. split; [done|].
    split; [apply lookup_insert_eq|]. cbn [prev set_filter_map].
    eapply is_chain_ext; [|done]. intros b u Hin.
    pose proof (is_chain_lookup _ _ _ _ _ Hc' Hin) as Hu.
    rewrite lookup_insert_ne; [done|].
    intros <-. apply Ha0, list_elem_of_fmap. by exists (a, u).
  - done.
  - cbn [wrappers filter_map set_filter_map]. by apply index_ok_insert.
  - split; [done|]. cbn [wrappers].
    intros w Hw. destruct (Hpk w Hw) as (W & HW & Hact). exists W.
    split; [|done]. rewrite lookup_insert_ne; [done|congruence].
Qed.

Lemma load_loop_wf init names : ∀ m m',
  mgr_wf m → load_loop names init m = Ret tt m' → mgr_wf m'.
Proof.
  induction names as [|folder names IH]; intros m m' Hwf H.
  - by injection H as <-.
  - cbn [load_loop] in H. rewrite get_bind in H.
    apply bind_inv in H as (r & m1 & Hadd & H).
    apply mgr_wf_add in Hadd as (Hwf1 & _ & _); [|done].
    by eapply IH.
Qed.

Lemma fresh_manager_wf cfg : @mgr_wf bloom_filter (fresh_manager cfg).
Proof.
  exists O, (mk_vsn 0 ∅ None None), []. split; [|split; [|split]].
  - split; [done|]. split; [apply lookup_singleton_eq|done].
  - done.
  - cbn [filter_map]. split; intros ? ?; by rewrite lookup_empty.
  - split; [constructor|]. intros w Hw. by apply elem_of_nil in Hw.
Qed.

Lemma init_filter_manager_wf cfg art_init_res dir init thread_res m :
  init_filter_manager cfg art_init_res dir init thread_res = Ret 0 m →
  mgr_wf m.
Proof.
  intros (_ & _ & H)%init_filter_manager_returns_0. revert H.
  unfold load_existing_filters.
  intros (r' & m1 & Hload & [= <-])%bind_inv.
  destruct (scandir dir filter_bloomd_folders) as [namelist|].
  - apply bind_inv in Hload as ([] & m2 & Hloop & [= _ <-]).
    eapply load_loop_wf; [apply fresh_manager_wf|done].
  - injection Hload as _ <-. apply fresh_manager_wf.
Qed.

(** [filtmgr_vacuum] and a pass of the vacuum thread on a well-formed
    heap. *)
Lemma vacuum_run m a lv l :
  is_chain (versions m) (latest m) ((a, lv) :: l) →
  vsn_increasing ((a, lv) :: l) →
  deleted lv = None →
  parked_ok (wrappers m) l →
  filtmgr_vacuum m =
  Ret tt
      (mk_mgr (config m) (latest m) (clients m)
         (cut_after (survivors (vsn lv) ((a, lv) :: l))
            (free_versions (versions m) (reclaimed (vsn lv) ((a, lv) :: l))))
         (free_wrappers (wrappers m)
            (chain_deleted (reclaimed (vsn lv) ((a, lv) :: l))))
         (trace m ++
          reclaim_log (wrappers m) (reclaimed (vsn lv) ((a, lv) :: l)))).
Proof.
  intros Hc Hs Hd Hp. pose proof Hc as (Hl & Hv & _).
  unfold filtmgr_vacuum. rewrite get_bind.
  erewrite bind_run by (rewrite Hl; by apply deref_vsn_run).
  by erewrite bind_run by (by apply (clean_run m a lv l)).
Qed.

Lemma thread_pass_run m a lv l :
  is_chain (versions m) (latest m) ((a, lv) :: l) →
  vsn_increasing ((a, lv) :: l) →
  deleted lv = None →
  parked_ok (wrappers m) l →
  let min_vsn := min_client_vsn (clients m) (vsn lv) in
  filtmgr_thread_pass m =
  Ret tt
      (match prev lv with
       | Some _ =>
           mk_mgr (config m) (latest m) (clients m)
             (cut_after (survivors min_vsn ((a, lv) :: l))
                (free_versions (versions m)
                   (reclaimed min_vsn ((a, lv) :: l))))
             (free_wrappers (wrappers m)
                (chain_deleted (reclaimed min_vsn ((a, lv) :: l))))
             (trace m ++
              reclaim_log (wrappers m) (reclaimed min_vsn ((a, lv) :: l)))
       | None => m
       end).
Proof.
  intros Hc Hs Hd Hp min_vsn. pose proof Hc as (Hl & Hv & _).
  unfold filtmgr_thread_pass. rewrite get_bind.
  erewrite bind_run by (rewrite Hl; by apply deref_vsn_run).
  destruct (prev lv) as [b|]; [|done].
  by erewrite bind_run by (by apply (clean_run m a lv l)).
Qed.

(** Every operation that returns keeps the shape of the heap. *)
Lemma exec_wf n m o ans m' :
  chain_inv n m → mgr_wf m → exec o m = Ret ans m' → mgr_wf m'.
Proof.
  intros Hci Hwf.
  destruct o; cbn [exec];
    intros (r & m1 & Hop & [= <- <-])%bind_inv.
  - destruct r. apply checkpoint_inv in Hop as [cs ->].
    by apply mgr_wf_clients.
  - destruct r. apply leave_inv in Hop as [cs ->]. by apply mgr_wf_clients.
  - eapply tweaks_filter_wf; [|done]. by eapply flush_filter_inv.
  - destruct r as [code result'].
    apply check_keys_inv in Hop as [[_ ->]|(w & W & f & ? & ? & ? & ->)];
      [done|].
    apply mgr_wf_reshape; [|done]. by eapply same_active_insert.
  - destruct r as [code result'].
    apply set_keys_inv in Hop as [[_ ->]|(w & W & f & ? & ? & ? & ->)];
      [done|].
    apply mgr_wf_reshape; [|done]. by eapply same_active_insert.
  - apply create_filter_inv in Hop
      as [[_ ->]|(a & lv & f & c & -> & -> & ? & ? & ->)]; [done|].
    by apply mgr_wf_create.
  - apply drop_filter_inv in Hop
      as [[_ ->]|(a & lv & w & W & -> & ? & ? & ? & ? & ->)]; [done|].
    by apply mgr_wf_retire.
  - eapply tweaks_filter_wf; [|done]. by eapply unmap_filter_inv.
  - apply clear_filter_inv in Hop
      as [[_ ->]|(a & lv & w & W & -> & ? & ? & ? & ? & ->)]; [done|].
    by apply mgr_wf_retire.
  - by apply list_filters_inv in Hop as ->.
  - apply list_cold_filters_inv in Hop as (ws' & -> & ?).
    apply mgr_wf_reshape; [|done]. by apply cooled_same_active.
  - eapply tweaks_filter_wf; [|done]. by eapply filter_cb_inv.
  - destruct (wf_chain n m Hci Hwf)
      as (a & lv & l & Hc & Hs & _ & Hd & Hi & Hp).
    rewrite (vacuum_run m a lv l Hc Hs Hd Hp) in Hop.
    injection Hop as _ Hm. rewrite <- Hm.
    by apply clean_state_wf.
  - destruct (wf_chain n m Hci Hwf)
      as (a & lv & l & Hc & Hs & _ & Hd & Hi & Hp).
    rewrite (thread_pass_run m a lv l Hc Hs Hd Hp) in Hop.
    injection Hop as _ Hm. rewrite <- Hm. destruct (prev lv); [|done].
    apply clean_state_wf; try done. apply min_client_vsn_le.
Qed.

Lemma reachable_wf n m :
  reachable_in n m → Z.of_nat n < 2 ^ 64 → mgr_wf m.
Proof.
  induction 1 as [cfg ar dir init tr m Hinit|n m o a m' Hreach IH Hex]; intros Hn.
  - by eapply init_filter_manager_wf.
  - eapply (exec_wf n); [|apply IH; lia|done].
    apply reachable_chain_inv; [done|lia].
Qed.

End HeapInvariant.

(** ** Operations return *)

Section Progress.
Context {bloom_filter : Type} `{!FilterOps bloom_filter}.
Implicit Types m : @bloom_filtmgr bloom_filter.
Implicit Types l : list (nat * filtmgr_vsn).

Lemma keys_loop_returns op keys : ∀ n i (f : bloom_filter) res result,
  (i + n ≤ List.length keys)%nat →
  (i + n ≤ List.length result)%nat →
  is_Some (keys_loop op f keys n i res result).
Proof.
  induction n as [|n IH]; intros i f res result Hk Hr; [by eexists|].
  cbn [keys_loop].
  destruct (lookup_lt_is_Some_2 keys i) as [key ->]; [lia|].
  destruct (op f key) as [r f']. destruct (r =? -1); [by eexists|].
  rewrite decide_True by lia. apply IH; rewrite ?length_insert; lia.
Qed.

(** On a well-formed heap [take_filter] on [latest] is the lookup in
    its index. *)
Lemma take_filter_wf m a lv name :
  latest m = Some a →
  versions m !! a = Some lv →
  index_ok (wrappers m) (filter_map lv) →
  take_filter (latest m) name m = Ret (filter_map lv !! name) m.
Proof.
  intros Hl Hv [Hal _]. rewrite Hl, (take_filter_run _ _ _ _ Hv).
  destruct (filter_map lv !! name) as [w|] eqn:Hn; [|done].
  destruct (Hal name w Hn) as (W & -> & ->). done.
Qed.

Lemma scan_pending_returns m name : ∀ l p fuel,
  is_chain (versions m) p l →
  (∀ w, w ∈ chain_deleted l → is_Some (wrappers m !! w)) →
  (List.length l ≤ fuel)%nat →
  ∃ b, scan_pending fuel p name m = Ret b m.
Proof.
  induction l as [|[a v] l IH]; intros p fuel Hc Hal Hfuel.
  - simpl in Hc. subst p. exists false. by destruct fuel.
  - destruct Hc as (-> & Hv & Hc).
    destruct fuel as [|fuel]; [simpl in Hfuel; lia|].
    cbn [scan_pending].
    rewrite (bind_run _ _ _ _ _ (deref_vsn_run _ _ _ Hv)).
    rewrite chain_deleted_cons in Hal.
    destruct (deleted v) as [w|].
    + destruct (Hal w) as [W HW]; [by left|].
      rewrite (bind_run _ _ _ _ _ (deref_wrapper_run _ _ _ HW)).
      destruct (_ =? 0); [by exists true|].
      apply IH; [done| |simpl in Hfuel; lia].
      intros w' Hw'. apply Hal. by right.
    + apply IH; [done..|simpl in Hfuel; lia].
Qed.

(** Every call whose arguments and environment are as the code expects
    returns, on a well-formed heap with increasing version numbers. *)
Lemma exec_returns n m o :
  chain_inv n m → mgr_wf m → op_ok o → ∃ ans m', exec o m = Ret ans m'.
Proof.
  intros Hci Hwf Hok.
  destruct (wf_chain n m Hci Hwf) as (a & lv & l & Hc & Hs & _ & Hd & Hi & Hp).
  pose proof Hc as (Hl & Hv & Hc').
  pose proof (take_filter_wf m a lv) as Htake.
  assert (∀ name w, filter_map lv !! name = Some w →
            ∃ W, wrappers m !! w = Some W ∧ is_active W = true) as Hal
    by (intros name w; apply Hi).
  destruct o; cbn [exec op_ok] in *.
  - rewrite bind_eq. unfold filtmgr_client_checkpoint. rewrite get_bind, Hl.
    rewrite (bind_run _ _ _ _ _ (deref_vsn_run _ _ _ Hv)).
    destruct (update_client _ _ _); by eexists _, _.
  - by eexists _, _.
  - unfold filtmgr_flush_filter. rewrite bind_eq, get_bind.
    rewrite (bind_run _ _ _ _ _ (Htake name Hl Hv Hi)).
    destruct (filter_map lv !! name) as [w|] eqn:Hn; [|by eexists _, _].
    destruct (Hal name w Hn) as (W & HW & _).
    rewrite (bind_run _ _ _ _ _ (deref_wrapper_run _ _ _ HW)).
    rewrite (bind_run _ _ _ _ _ (store_wrapper_run _ _ _ _ HW)).
    by eexists _, _.
  - destruct Hok as [Hk Hr].
    destruct (filter_map lv !! name) as [w|] eqn:Hn.
    + destruct (Hal name w Hn) as (W & HW & Hact).
      rewrite bind_eq, (check_keys_run _ _ _ _ _ _ _ _ _ Hl Hv Hn HW Hact).
      rewrite check_loop_keys_loop.
      destruct (keys_loop_returns (λ f key, (bloomf_contains f key, f)) keys
                  (Z.to_nat num_keys) 0 (filter W) 0 result)
        as [[[res result'] f'] ->]; [lia..|].
      by eexists _, _.
    + rewrite bind_eq.
      destruct (keys_no_filter m a lv name keys num_keys result Hl Hv)
        as [-> _]; [by left|]. by eexists _, _.
  - destruct Hok as [Hk Hr].
    destruct (filter_map lv !! name) as [w|] eqn:Hn.
    + destruct (Hal name w Hn) as (W & HW & Hact).
      rewrite bind_eq, (set_keys_run _ _ _ _ _ _ _ _ _ Hl Hv Hn HW Hact).
      rewrite set_loop_keys_loop.
      destruct (keys_loop_returns bloomf_add keys
                  (Z.to_nat num_keys) 0 (filter W) 0 result)
        as [[[res result'] f'] ->]; [lia..|].
      by eexists _, _.
    + rewrite bind_eq.
      destruct (keys_no_filter m a lv name keys num_keys result Hl Hv)
        as [_ ->]; [by left|]. by eexists _, _.
  - subst art_copy_res. unfold filtmgr_create_filter.
    rewrite bind_eq, get_bind, Hl.
    rewrite (bind_run _ _ _ _ _ (deref_vsn_run _ _ _ Hv)).
    destruct (filter_map lv !! name) as [w|] eqn:Hn; [by eexists _, _|].
    destruct (scan_pending_returns m name l (prev lv) (size (versions m)))
      as [b Hscan]; [done| |..].
    { intros w Hw. destruct Hp as [_ Hp].
      destruct (Hp w Hw) as (W & -> & _). by eexists. }
    { pose proof (is_chain_length _ _ _ Hc) as Hlen. simpl in Hlen. lia. }
    rewrite (bind_run _ _ _ _ _ Hscan).
    destruct b; [by eexists _, _|].
    destruct init_res as [f|].
    + rewrite (create_filter_install _ _ _ _ _ _ Hl Hv). by eexists _, _.
    + rewrite (create_filter_init_fails _ _ _ _ _ Hl Hv). by eexists _, _.
  - subst art_copy_res. rewrite bind_eq.
    destruct (filter_map lv !! name) as [w|] eqn:Hn.
    + destruct (Hal name w Hn) as (W & HW & Hact).
      rewrite (drop_filter_run _ _ _ _ _ _ Hl Hv Hn HW Hact).
      by eexists _, _.
    + rewrite drop_filter_unfold, get_bind.
      rewrite (bind_run _ _ _ _ _ (Htake name Hl Hv Hi)), Hn.
      by eexists _, _.
  - unfold filtmgr_unmap_filter. rewrite bind_eq, get_bind.
    rewrite (bind_run _ _ _ _ _ (Htake name Hl Hv Hi)).
    destruct (filter_map lv !! name) as [w|] eqn:Hn; [|by eexists _, _].
    destruct (Hal name w Hn) as (W & HW & _).
    rewrite (bind_run _ _ _ _ _ (deref_wrapper_run _ _ _ HW)).
    destruct (in_memory (filter W)); cbn [negb]; [by eexists _, _|].
    rewrite (bind_run _ _ _ _ _ (store_wrapper_run _ _ _ _ HW)).
    by eexists _, _.
  - subst art_copy_res. rewrite bind_eq, clear_filter_unfold, get_bind.
    rewrite (bind_run _ _ _ _ _ (Htake name Hl Hv Hi)).
    destruct (filter_map lv !! name) as [w|] eqn:Hn; [|by eexists _, _].
    destruct (Hal name w Hn) as (W & HW & Hact).
    rewrite (bind_run _ _ _ _ _ (deref_wrapper_run _ _ _ HW)).
    destruct (bloomf_is_proxied (filter W)); cbn [negb]; [|by eexists _, _].
    rewrite Hl, (retire_filter_run _ _ _ _ _ _ _ Hl Hv HW).
    by eexists _, _.
  - unfold filtmgr_list_filters. rewrite bind_eq, get_bind, Hl.
    rewrite (bind_run _ _ _ _ _ (deref_vsn_run _ _ _ Hv)).
    destruct pfx as [p|].
    + destruct (iter_list_cb m
                  (List.filter (λ kv, String.prefix p (fst kv))
                     (map_to_list (filter_map lv))) [])
        as (names & Hrun & _).
      { intros k v Hin%elem_of_prefix_entries.
        destruct (Hal k v Hin) as (V & -> & _). by eexists. }
      unfold art_iter_prefix. rewrite (bind_run _ _ _ _ _ Hrun).
      by eexists _, _.
    + destruct (iter_list_cb m (map_to_list (filter_map lv)) [])
        as (names & Hrun & _).
      { intros k v Hin%elem_of_map_to_list.
        destruct (Hal k v Hin) as (V & -> & _). by eexists. }
      unfold art_iter. rewrite (bind_run _ _ _ _ _ Hrun).
      by eexists _, _.
  - unfold filtmgr_list_cold_filters. rewrite bind_eq, get_bind, Hl.
    rewrite (bind_run _ _ _ _ _ (deref_vsn_run _ _ _ Hv)).
    destruct (iter_list_cold_cb (map_to_list (filter_map lv)) m [])
      as (names & ws' & Hrun & _).
    { intros k v Hin%elem_of_map_to_list.
      destruct (Hal k v Hin) as (V & -> & _). by eexists. }
    unfold art_iter. rewrite (bind_run _ _ _ _ _ Hrun).
    by eexists _, _.
  - unfold filtmgr_filter_cb. rewrite bind_eq, get_bind.
    rewrite (bind_run _ _ _ _ _ (Htake name Hl Hv Hi)).
    destruct (filter_map lv !! name) as [w|] eqn:Hn; [|by eexists _, _].
    destruct (Hal name w Hn) as (W & HW & _).
    rewrite (bind_run _ _ _ _ _ (deref_wrapper_run _ _ _ HW)).
    rewrite (bind_run _ _ _ _ _ (store_wrapper_run _ _ _ _ HW)).
    by eexists _, _.
  - rewrite bind_eq, (vacuum_run m a lv l Hc Hs Hd Hp). by eexists _, _.
  - rewrite bind_eq, (thread_pass_run m a lv l Hc Hs Hd Hp).
    by eexists _, _.
Qed.

End Progress.

(** ** The registry of clients *)

Section Clients.
Context {bloom_filter : Type} `{!FilterOps bloom_filter}.
Implicit Types m : @bloom_filtmgr bloom_filter.
Implicit Types cs : list filtmgr_client.
Implicit Types l : list (nat * filtmgr_vsn).

Lemma update_client_ids tid v cs cs' :
  update_client tid v cs = Some cs' → id <$> cs' = id <$> cs.
Proof.
  revert cs'. induction cs as [|c cs IH]; intros cs' H; [done|].
  cbn [update_client] in H. case_decide as Hc.
  - injection H as <-. rewrite !fmap_cons. cbn [id]. by rewrite Hc.
  - destruct (update_client tid v cs) as [r|]; [|done].
    injection H as <-. rewrite !fmap_cons. f_equal. by apply IH.
Qed.

Lemma update_client_absent tid v cs :
  update_client tid v cs = None ↔ tid ∉ id <$> cs.
Proof.
  induction cs as [|c cs IH]; cbn [update_client].
  - split; [|done]. intros _. apply not_elem_of_nil.
  - rewrite fmap_cons, not_elem_of_cons. case_decide as Hc.
    + split; [done|]. by intros [? _].
    + destruct (update_client tid v cs) as [r|]; cbn [fmap option_fmap option_map].
      * split; [done|]. intros [_ Hn]. by apply IH in Hn.
      * split; [|done]. intros _. split; [done|]. by apply IH.
Qed.

(** With one record per thread, the update replaces the record of the
    thread and keeps the others. *)
Lemma update_client_spec tid v cs cs' :
  NoDup (id <$> cs) →
  update_client tid v cs = Some cs' →
  ∀ c, c ∈ cs' ↔ c = mk_client tid v ∨ (c ∈ cs ∧ id c ≠ tid).
Proof.
  revert cs'. induction cs as [|c0 cs IH]; intros cs' Hnd H c; [done|].
  rewrite fmap_cons in Hnd. apply NoDup_cons in Hnd as [Hc0 Hnd].
  cbn [update_client] in H. case_decide as Hc.
  - injection H as <-. rewrite !elem_of_cons. split.
    + intros [->|Hin]; [by left|]. right. split; [by right|].
      intros Hid. apply Hc0. rewrite Hc, <- Hid.
      by apply list_elem_of_fmap_2.
    + intros [->|[[->|Hin] Hne]]; [by left|done|by right].
  - destruct (update_client tid v cs) as [r|] eqn:Hr; [|done].
    injection H as <-. rewrite !elem_of_cons, (IH r Hnd eq_refl c). split.
    + intros [->|[->|[Hin Hne]]]; [right|by left|right]; split; auto.
    + intros [->|[[->|Hin] Hne]]; [right; by left|by left|].
      right. right. done.
Qed.

Lemma unlink_client_spec tid cs :
  NoDup (id <$> cs) →
  ∀ c, c ∈ unlink_client tid cs ↔ c ∈ cs ∧ id c ≠ tid.
Proof.
  induction cs as [|c0 cs IH]; intros Hnd c.
  - split; [by intros ?%elem_of_nil|by intros [?%elem_of_nil _]].
  - rewrite fmap_cons in Hnd. apply NoDup_cons in Hnd as [Hc0 Hnd].
    cbn [unlink_client]. case_decide as Hc.
    + rewrite elem_of_cons. split.
      * intros Hin. split; [by right|]. intros Hid. apply Hc0.
        rewrite Hc, <- Hid. by apply list_elem_of_fmap_2.
      * intros [[->|Hin] Hne]; done.
    + rewrite !elem_of_cons, (IH Hnd c). split.
      * intros [->|[Hin Hne]]; split; auto.
      * intros [[->|Hin] Hne]; auto.
Qed.

Lemma unlink_client_absent tid cs :
  tid ∉ id <$> cs → unlink_client tid cs = cs.
Proof.
  induction cs as [|c0 cs IH]; intros Hn; [done|].
  rewrite fmap_cons in Hn. apply not_elem_of_cons in Hn as [Hne Hn].
  cbn [unlink_client]. rewrite decide_False by done. f_equal. by apply IH.
Qed.

Lemma unlink_client_sublist tid cs : sublist (unlink_client tid cs) cs.
Proof.
  induction cs as [|c0 cs IH]; [done|].
  cbn [unlink_client]. case_decide.
  - by apply sublist_cons.
  - by apply sublist_skip.
Qed.

Lemma checkpoint_run m a lv tid :
  latest m = Some a →
  versions m !! a = Some lv →
  filtmgr_client_checkpoint tid m =
  Ret tt (set_clients
            (match update_client tid (vsn lv) (clients m) with
             | Some cs => cs
             | None => mk_client tid (vsn lv) :: clients m
             end) m).
Proof.
  intros Hl Hv. unfold filtmgr_client_checkpoint. rewrite get_bind, Hl.
  rewrite (bind_run _ _ _ _ _ (deref_vsn_run _ _ _ Hv)).
  by destruct (update_client _ _ _).
Qed.

(** The registry after a step that leaves the clients alone and does not
    take the number of [latest] down. *)
Lemma clients_ok_move m m' a lv a' lv' :
  clients_ok m →
  latest m = Some a → versions m !! a = Some lv →
  latest m' = Some a' → versions m' !! a' = Some lv' →
  vsn lv ≤ vsn lv' →
  clients m' = clients m →
  clients_ok m'.
Proof.
  intros (Hnd & a0 & lv0 & Hl0 & Hv0 & Hb) Hl Hv Hl' Hv' Hle Hcs.
  assert (a0 = a) as -> by congruence.
  assert (lv0 = lv) as -> by congruence.
  split; [by rewrite Hcs|]. exists a', lv'. split; [done|]. split; [done|].
  intros c Hc. rewrite Hcs in Hc. specialize (Hb c Hc). lia.
Qed.

Lemma clients_ok_same m m' :
  versions m' = versions m → latest m' = latest m →
  clients m' = clients m → clients_ok m → clients_ok m'.
Proof.
  intros Hvs Hl Hcs Hok. pose proof Hok as (_ & a & lv & Hl0 & Hv0 & _).
  apply (clients_ok_move m m' a lv a lv); try done; congruence.
Qed.

Lemma tweaks_filter_clients_ok m m' :
  tweaks_filter m m' → clients_ok m → clients_ok m'.
Proof.
  intros [->|(w & W & f & _ & ->)]; [done|]. by apply (clients_ok_same m).
Qed.

Lemma clients_ok_checkpoint m tid m' :
  clients_ok m → filtmgr_client_checkpoint tid m = Ret tt m' →
  clients_ok m'.
Proof.
  intros (Hnd & a & lv & Hl & Hv & Hb) H.
  rewrite (checkpoint_run m a lv tid Hl Hv) in H. injection H as <-.
  destruct (update_client tid (vsn lv) (clients m)) as [cs|] eqn:Hu.
  - split; [cbn [clients set_clients];
            by rewrite (update_client_ids _ _ _ _ Hu)|].
    exists a, lv. split; [done|]. split; [done|].
    intros c [->|[Hc _]]%(update_client_spec _ _ _ _ Hnd Hu);
      [simpl; lia|by apply Hb].
  - split.
    + cbn [clients set_clients]. rewrite fmap_cons. apply NoDup_cons.
      split; [|done]. by apply (update_client_absent tid (vsn lv)).
    + exists a, lv. split; [done|]. split; [done|].
      intros c [->|Hc]%elem_of_cons; [simpl; lia|by apply Hb].
Qed.

Lemma clients_ok_leave m tid m' :
  clients_ok m → filtmgr_client_leave tid m = Ret tt m' → clients_ok m'.
Proof.
  intros (Hnd & a & lv & Hl & Hv & Hb) H.
  unfold filtmgr_client_leave in H. rewrite get_bind in H.
  injection H as <-. split.
  - cbn [clients set_clients].
    eapply sublist_NoDup; [exact Hnd|].
    apply fmap_sublist, unlink_client_sublist.
  - exists a, lv. split; [done|]. split; [done|].
    intros c [Hc _]%(unlink_client_spec _ _ Hnd). by apply Hb.
Qed.

(** The record of [latest] after a reclaiming pass. *)
Lemma clean_state_latest vs p a lv l min_vsn :
  is_chain vs p ((a, lv) :: l) →
  vsn_increasing ((a, lv) :: l) →
  min_vsn ≤ vsn lv →
  ∃ lv', cut_after (survivors min_vsn ((a, lv) :: l))
           (free_versions vs (reclaimed min_vsn ((a, lv) :: l))) !! a
         = Some lv' ∧
         vsn lv' = vsn lv ∧ filter_map lv' = filter_map lv ∧
         deleted lv' = deleted lv.
Proof.
  intros Hc Hs Hmin.
  pose proof (vsn_increasing_split min_vsn _ Hs) as Hsplit.
  assert (survivors min_vsn ((a, lv) :: l) = (a, lv) :: survivors min_vsn l)
    as HS by (unfold survivors; by rewrite filter_cons_True).
  destruct (clear_last_prev_head a lv (survivors min_vsn l))
    as (lv' & t & Hclp & Hfm & Hdel & Hvsn & _).
  exists lv'. split; [|done].
  assert (is_chain
            (cut_after (survivors min_vsn ((a, lv) :: l))
               (free_versions vs (reclaimed min_vsn ((a, lv) :: l))))
            p ((a, lv') :: t)) as (_ & Hv' & _); [|done].
  rewrite <- Hclp, <- HS. apply survivors_chain; [by rewrite HS|].
  by rewrite <- Hsplit.
Qed.

(** Every operation that returns keeps the registry as [clients_ok]
    says, as long as the version counter does not wrap. *)
Lemma exec_clients_ok n m o ans m' :
  chain_inv n m → mgr_wf m → clients_ok m →
  Z.of_nat n + 1 < 2 ^ 64 →
  exec o m = Ret ans m' →
  clients_ok m'.
Proof.
  intros Hci Hwf Hok Hn.
  destruct (wf_chain n m Hci Hwf)
    as (a & lv & l & Hc & Hs & Hb & Hd & Hi & Hp).
  pose proof Hc as (Hl & Hv & _).
  assert (0 ≤ vsn lv ≤ Z.of_nat n) as Hlv by (apply (Hb a lv); by left).
  assert (vsn lv ≤ u64_add (vsn lv) 1) as Hnext.
  { unfold u64_add. rewrite Z.mod_small; lia. }
  destruct o; cbn [exec];
    intros (r & m1 & Hop & [= <- <-])%bind_inv.
  - destruct r. by apply (clients_ok_checkpoint m tid).
  - destruct r. by apply (clients_ok_leave m tid).
  - eapply tweaks_filter_clients_ok; [|done]. by eapply flush_filter_inv.
  - destruct r as [code result'].
    apply check_keys_inv in Hop as [[_ ->]|(w & W & f & ? & ? & ? & ->)];
      [done|]. by apply (clients_ok_same m).
  - destruct r as [code result'].
    apply set_keys_inv in Hop as [[_ ->]|(w & W & f & ? & ? & ? & ->)];
      [done|]. by apply (clients_ok_same m).
  - apply create_filter_inv in Hop
      as [[_ ->]|(a0 & lv0 & f & c & -> & -> & Hl0 & Hv0 & ->)]; [done|].
    assert (a0 = a) as -> by congruence.
    assert (lv0 = lv) as -> by congruence.
    apply (clients_ok_move m _ a lv (fresh (dom (versions m)))
             (mk_vsn (u64_add (vsn lv) 1)
                     (<[name := fresh (dom (wrappers m))]> (filter_map lv))
                     None (Some a)));
      [done|done|done|done|apply lookup_insert_eq|done|done].
  - apply drop_filter_inv in Hop
      as [[_ ->]|(a0 & lv0 & w & W & -> & Hl0 & Hv0 & ? & ? & ->)]; [done|].
    assert (a0 = a) as -> by congruence.
    assert (lv0 = lv) as -> by congruence.
    apply (clients_ok_move m _ a lv (fresh (dom (versions m)))
             (mk_vsn (u64_add (vsn lv) 1) (delete name (filter_map lv))
                     None (Some a)));
      [done|done|done|done| |done|done].
    cbn [versions retired]. rewrite lookup_insert_ne; [apply lookup_insert_eq|].
    intros E. pose proof (fresh_vsn_None m) as Hf. congruence.
  - eapply tweaks_filter_clients_ok; [|done]. by eapply unmap_filter_inv.
  - apply clear_filter_inv in Hop
      as [[_ ->]|(a0 & lv0 & w & W & -> & Hl0 & Hv0 & ? & ? & ->)]; [done|].
    assert (a0 = a) as -> by congruence.
    assert (lv0 = lv) as -> by congruence.
    apply (clients_ok_move m _ a lv (fresh (dom (versions m)))
             (mk_vsn (u64_add (vsn lv) 1) (delete name (filter_map lv))
                     None (Some a)));
      [done|done|done|done| |done|done].
    cbn [versions retired]. rewrite lookup_insert_ne; [apply lookup_insert_eq|].
    intros E. pose proof (fresh_vsn_None m) as Hf. congruence.
  - by apply list_filters_inv in Hop as ->.
  - apply list_cold_filters_inv in Hop as (ws' & -> & ?).
    by apply (clients_ok_same m).
  - eapply tweaks_filter_clients_ok; [|done]. by eapply filter_cb_inv.
  - rewrite (vacuum_run m a lv l Hc Hs Hd Hp) in Hop.
    injection Hop as _ Hm. rewrite <- Hm.
    destruct (clean_state_latest (versions m) (latest m) a lv l (vsn lv))
      as (lv' & Hv' & Hvsn & _); [done|done|lia|].
    eapply (clients_ok_move m _ a lv a lv'); try done. lia.
  - rewrite (thread_pass_run m a lv l Hc Hs Hd Hp) in Hop.
    injection Hop as _ Hm. rewrite <- Hm. destruct (prev lv); [|done].
    destruct (clean_state_latest (versions m) (latest m) a lv l
                (min_client_vsn (clients m) (vsn lv)))
      as (lv' & Hv' & Hvsn & _); [done|done|apply min_client_vsn_le|].
    eapply (clients_ok_move m _ a lv a lv'); try done. lia.
Qed.

Lemma init_filter_manager_clients cfg art_init_res dir init thread_res m :
  init_filter_manager cfg art_init_res dir init thread_res = Ret 0 m →
  clients m = [].
Proof.
  intros (_ & _ & H)%init_filter_manager_returns_0. revert H.
  unfold load_existing_filters.
  intros (r' & m1 & Hload & [= <-])%bind_inv.
  destruct (scandir dir filter_bloomd_folders) as [namelist|];
    [|by injection Hload as _ <-].
  apply bind_inv in Hload as ([] & m2 & Hloop & [= _ <-]).
  assert (∀ names (m0 m0' : @bloom_filtmgr bloom_filter),
            load_loop names init m0 = Ret tt m0' →
            clients m0' = clients m0) as Hgen.
  { induction names as [|folder names IH]; intros m0 m0' H.
    - by injection H as <-.
    - cbn [load_loop] in H. rewrite get_bind in H.
      apply bind_inv in H as (r0 & m3 & Hadd & H).
      rewrite (IH _ _ H). unfold add_filter in Hadd.
      rewrite get_bind in Hadd.
      destruct (init _) as [f|]; [|by injection Hadd as _ <-].
      apply bind_inv in Hadd as (w & m4 & [= _ <-] & Hadd).
      apply bind_inv in Hadd as (v & m5 & [-> _]%deref_vsn_inv & Hadd).
      apply bind_inv in Hadd as ([] & m6 & (b & _ & ->)%store_vsn_inv & Hadd).
      by injection Hadd as _ <-. }
  by rewrite (Hgen _ _ _ Hloop).
Qed.

Lemma reachable_clients_ok n m :
  reachable_in n m → Z.of_nat n < 2 ^ 64 → clients_ok m.
Proof.
  induction 1 as [cfg ar dir init tr m Hinit|n m o a m' Hreach IH Hex];
    intros Hn.
  - pose proof (init_filter_manager_clients _ _ _ _ _ _ Hinit) as Hcs.
    apply init_filter_manager_inv in Hinit as (fm & Hl & Hvs & _).
    split; [rewrite Hcs; constructor|].
    exists O, (mk_vsn 0 fm None None). split; [done|].
    split; [rewrite Hvs; apply lookup_singleton_eq|].
    intros c Hc. rewrite Hcs in Hc. by apply elem_of_nil in Hc.
  - eapply (exec_clients_ok n); [|apply (reachable_wf n)|apply IH|..|done];
      [|done| | |]; try lia.
    apply reachable_chain_inv; [done|lia].
Qed.

End Clients.

(** ** Teardown *)

Section TeardownProofs.
Context {bloom_filter : Type} `{!FilterOps bloom_filter}.
Implicit Types m : @bloom_filtmgr bloom_filter.
Implicit Types ws : gmap nat (@bloom_filter_wrapper bloom_filter).
Implicit Types l : list (nat * filtmgr_vsn).
Implicit Types vs : gmap nat filtmgr_vsn.

Lemma free_wrappers_delete ws w ds :
  free_wrappers (delete w ws) ds = delete w (free_wrappers ws ds).
Proof.
  induction ds as [|d ds IH]; [done|].
  cbn [free_wrappers foldr]. fold (free_wrappers (delete w ws) ds).
  fold (free_wrappers ws ds). rewrite IH. apply delete_delete.
Qed.

Lemma free_versions_delete vs a l :
  free_versions (delete a vs) l = delete a (free_versions vs l).
Proof.
  induction l as [|[b u] l IH]; [done|].
  cbn [free_versions foldr fst]. fold (free_versions (delete a vs) l).
  fold (free_versions vs l). rewrite IH. apply delete_delete.
Qed.

Lemma free_wrappers_app ws ds1 ds2 :
  free_wrappers ws (ds1 ++ ds2) = free_wrappers (free_wrappers ws ds2) ds1.
Proof. unfold free_wrappers. by rewrite foldr_app. Qed.

Lemma close_log_ext ws ws' entries :
  (∀ k v, (k, v) ∈ entries → ws' !! v = ws !! v) →
  close_log ws' entries = close_log ws entries.
Proof.
  induction entries as [|[k v] entries IH]; intros Hag; [done|].
  unfold close_log. cbn [flat_map snd].
  fold (close_log ws' entries). fold (close_log ws entries).
  rewrite (Hag k v) by (by left). f_equal. apply IH.
  intros k' v' Hin. apply (Hag k' v'). by right.
Qed.

Lemma parked_log_ext ws ws' l :
  (∀ w, w ∈ chain_deleted l → ws' !! w = ws !! w) →
  parked_log ws' l = parked_log ws l.
Proof.
  induction l as [|[a v] l IH]; intros Hag; [done|].
  unfold parked_log. cbn [flat_map].
  fold (parked_log ws' l). fold (parked_log ws l).
  rewrite chain_deleted_cons in Hag. f_equal.
  - apply version_events_ext; [done|].
    intros w Hw. apply Hag. rewrite Hw. by left.
  - apply IH. intros w Hw. apply Hag.
    destruct (deleted v); [by right|done].
Qed.

Lemma delete_cb_run m data k w W :
  wrappers m !! w = Some W →
  filter_map_delete_cb data k w m =
  Ret data (mk_mgr (config m) (latest m) (clients m) (versions m)
              (delete w (wrappers m))
              (trace m ++ reclaim_events (set_should_delete false W))).
Proof.
  intros HW. unfold filter_map_delete_cb.
  rewrite (bind_run _ _ _ _ _ (deref_wrapper_run _ _ _ HW)).
  rewrite (bind_run _ _ _ _ _ (store_wrapper_run _ _ _ _ HW)).
  erewrite bind_run
    by (apply delete_filter_run; cbn [wrappers set_wrappers];
        apply lookup_insert_eq).
  cbn. by rewrite delete_insert_eq.
Qed.

(** [filter_map_delete_cb] over the entries of an index whose wrappers
    are allocated and distinct. *)
Lemma iter_delete_cb entries : ∀ m data,
  NoDup (entries.*2) →
  (∀ k v, (k, v) ∈ entries → is_Some (wrappers m !! v)) →
  iter_entries filter_map_delete_cb entries data m =
  Ret data (mk_mgr (config m) (latest m) (clients m) (versions m)
              (free_wrappers (wrappers m) (entries.*2))
              (trace m ++ close_log (wrappers m) entries)).
Proof.
  induction entries as [|[k v] entries IH]; intros m data Hnd Hal.
  - cbn. rewrite app_nil_r. by destruct m.
  - rewrite fmap_cons in Hnd. cbn [snd] in Hnd.
    apply NoDup_cons in Hnd as [Hv Hnd].
    destruct (Hal k v) as [V HV]; [by left|].
    cbn [iter_entries].
    rewrite (bind_run _ _ _ _ _ (delete_cb_run _ data k _ _ HV)).
    rewrite IH; [|done|]; cbn [config latest clients versions wrappers trace].
    + rewrite free_wrappers_delete.
      rewrite (close_log_ext (wrappers m)).
      * unfold close_log at 2. cbn [flat_map snd]. rewrite HV.
        by rewrite <- (assoc_L (++)).
      * intros k' v' Hin. rewrite lookup_delete_ne; [done|].
        intros <-. apply Hv, list_elem_of_fmap. by exists (k', v).
    + intros k' v' Hin. rewrite lookup_delete_ne; [apply (Hal k' v'); by right|].
      intros <-. apply Hv, list_elem_of_fmap. by exists (k', v).
Qed.

(** The loop over the versions. *)
Lemma destroy_versions_run : ∀ l m p fuel,
  is_chain (versions m) p l →
  NoDup (chain_deleted l) →
  (∀ w, w ∈ chain_deleted l → is_Some (wrappers m !! w)) →
  (List.length l ≤ fuel)%nat →
  destroy_versions fuel p m =
  Ret tt (mk_mgr (config m) (latest m) (clients m)
            (free_versions (versions m) l)
            (free_wrappers (wrappers m) (chain_deleted l))
            (trace m ++ parked_log (wrappers m) l)).
Proof.
  induction l as [|[a v] l IH]; intros m p fuel Hc Hnd Hal Hfuel.
  - simpl in Hc. subst p.
    destruct fuel; cbn; rewrite app_nil_r; by destruct m.
  - pose proof (is_chain_NoDup _ _ _ Hc) as Haddr.
    rewrite fmap_cons in Haddr. cbn [fst] in Haddr.
    apply NoDup_cons in Haddr as [Ha _].
    destruct Hc as (-> & Hv & Hc).
    destruct fuel as [|fuel]; [simpl in Hfuel; lia|].
    cbn [destroy_versions].
    rewrite (bind_run _ _ _ _ _ (deref_vsn_run _ _ _ Hv)).
    rewrite chain_deleted_cons in Hnd, Hal.
    unfold parked_log. cbn [flat_map]. fold (parked_log (wrappers m) l).
    unfold version_events at 1. cbn [snd].
    cbn [free_versions foldr fst]. fold (free_versions (versions m) l).
    rewrite chain_deleted_cons.
    destruct (deleted v) as [w|] eqn:Hd.
    + apply NoDup_cons in Hnd as [Hw Hnd].
      destruct (Hal w) as [W HW]; [by left|]. rewrite HW.
      rewrite (bind_run _ _ _ _ _ (delete_filter_run _ _ _ HW)).
      erewrite bind_run by (by apply deref_vsn_run).
      erewrite bind_run by (unfold destroy_version; by eapply free_vsn_run).
      rewrite IH; cbn [config latest clients versions wrappers trace
                       set_versions].
      * rewrite free_versions_delete, free_wrappers_delete.
        rewrite (parked_log_ext (wrappers m)).
        -- cbn [free_wrappers foldr]. by rewrite <- (assoc_L (++)).
        -- intros w' Hw'. rewrite lookup_delete_ne; [done|congruence].
      * eapply is_chain_ext; [|done]. intros b u Hin.
        rewrite lookup_delete_ne; [by eapply is_chain_lookup|].
        intros <-. apply Ha, list_elem_of_fmap. by exists (a, u).
      * done.
      * intros w' Hw'. rewrite lookup_delete_ne; [|congruence].
        apply Hal. by right.
      * simpl in Hfuel. lia.
    + rewrite ret_bind.
      erewrite bind_run by (by apply deref_vsn_run).
      erewrite bind_run by (unfold destroy_version; by eapply free_vsn_run).
      rewrite IH; cbn [config latest clients versions wrappers trace
                       set_versions].
      * by rewrite free_versions_delete.
      * eapply is_chain_ext; [|done]. intros b u Hin.
        rewrite lookup_delete_ne; [by eapply is_chain_lookup|].
        intros <-. apply Ha, list_elem_of_fmap. by exists (a, u).
      * done.
      * done.
      * simpl in Hfuel. lia.
Qed.

Lemma index_values_NoDup ws fm :
  index_ok ws fm → NoDup ((map_to_list fm).*2).
Proof.
  intros [_ Hinj]. apply NoDup_fmap_2_strong; [|apply NoDup_map_to_list].
  intros [k1 v1] [k2 v2] H1%elem_of_map_to_list H2%elem_of_map_to_list Heq.
  simpl in Heq. subst v2. f_equal. by eapply Hinj.
Qed.

Lemma close_log_no_delete ws entries e :
  e ∈ close_log ws entries → is_bloomf_delete e = false.
Proof.
  unfold close_log. intros ([k v] & Hin & He)%list_elem_of_In%in_flat_map.
  cbn [snd] in He. destruct (ws !! v) as [W|]; [|done].
  unfold reclaim_events in He. cbn [should_delete set_should_delete] in He.
  destruct He as [<-|[<-|He]]; [done..|].
  destruct (custom (set_should_delete false W)); [|done].
  by destruct He as [<-|[]].
Qed.

(** [destroy_filter_manager] on a well-formed heap. *)
Lemma destroy_filter_manager_run m a lv l :
  is_chain (versions m) (latest m) ((a, lv) :: l) →
  deleted lv = None →
  index_ok (wrappers m) (filter_map lv) →
  parked_ok (wrappers m) l →
  destroy_filter_manager m =
  Ret 0 (mk_mgr (config m) (latest m) []
           (free_versions (versions m) ((a, lv) :: l))
           (free_wrappers (wrappers m)
              (chain_deleted l ++ (map_to_list (filter_map lv)).*2))
           (trace m ++ close_log (wrappers m) (map_to_list (filter_map lv))
            ++ parked_log (wrappers m) l)).
Proof.
  intros Hc Hd Hi Hp. pose proof Hc as (Hl & Hv & _).
  pose proof Hi as [Hal _]. pose proof Hp as [Hnd Hpk].
  unfold destroy_filter_manager. rewrite get_bind, Hl.
  rewrite (bind_run _ _ _ _ _ (deref_vsn_run _ _ _ Hv)).
  unfold art_iter.
  erewrite bind_run; cycle 1.
  { apply iter_delete_cb; [by eapply index_values_NoDup|].
    intros k v Hin%elem_of_map_to_list.
    destruct (Hal k v Hin) as (V & -> & _). by eexists. }
  rewrite get_bind. cbn [versions latest].
  assert (∀ w, w ∈ chain_deleted l →
            free_wrappers (wrappers m) (map_to_list (filter_map lv)).*2 !! w
            = wrappers m !! w) as Hkeep.
  { intros w Hw. apply free_wrappers_lookup_notin.
    intros ([k v] & -> & Hin%elem_of_map_to_list)%list_elem_of_fmap.
    by eapply (index_not_parked (wrappers m) (filter_map lv) l). }
  erewrite bind_run; cycle 1.
  { apply (destroy_versions_run ((a, lv) :: l)); cbn [versions wrappers].
    - done.
    - by rewrite chain_deleted_cons, Hd.
    - rewrite chain_deleted_cons, Hd. intros w Hw. rewrite Hkeep by done.
      destruct (Hpk w Hw) as (W & -> & _). by eexists.
    - by eapply is_chain_length. }
  cbn [config latest clients versions wrappers trace].
  rewrite chain_deleted_cons, Hd, free_wrappers_app.
  unfold parked_log at 1. cbn [flat_map].
  unfold version_events at 1. cbn [snd]. rewrite Hd. cbn [app].
  fold (parked_log
          (free_wrappers (wrappers m) (map_to_list (filter_map lv)).*2) l).
  rewrite (parked_log_ext (wrappers m)) by done.
  rewrite <- (assoc_L (++)). by rewrite Hl.
Qed.

End TeardownProofs.

(** ** What a pass of the vacuum thread reclaims *)

Section Mvcc.
Context {bloom_filter : Type} `{!FilterOps bloom_filter}.
Implicit Types m : @bloom_filtmgr bloom_filter.
Implicit Types cs : list filtmgr_client.
Implicit Types l : list (nat * filtmgr_vsn).

(** The loop over the clients computes the minimum of the number of
    [latest] and the numbers the clients checkpointed. *)
Lemma min_client_vsn_lt cs : ∀ x z,
  z < min_client_vsn cs x ↔ z < x ∧ ∀ c, c ∈ cs → z < cl_vsn c.
Proof.
  induction cs as [|c0 cs IH]; intros x z; cbn [min_client_vsn].
  - split; [|by intros [? _]]. intros Hz. split; [done|].
    by intros c ?%elem_of_nil.
  - rewrite IH. destruct (Z.ltb_spec (cl_vsn c0) x).
    + split.
      * intros [Hz Hcs]. split; [lia|].
        intros c [->|Hc]%elem_of_cons; [done|by apply Hcs].
      * intros [Hz Hcs]. split; [apply Hcs; by left|].
        intros c Hc. apply Hcs. by right.
    + split.
      * intros [Hz Hcs]. split; [done|].
        intros c [->|Hc]%elem_of_cons; [lia|by apply Hcs].
      * intros [Hz Hcs]. split; [done|].
        intros c Hc. apply Hcs. by right.
Qed.

Lemma min_client_vsn_le_client cs x c :
  c ∈ cs → min_client_vsn cs x ≤ cl_vsn c.
Proof.
  intros Hc.
  destruct (Z.le_gt_cases (min_client_vsn cs x) (cl_vsn c)) as [|Hlt];
    [done|].
  apply min_client_vsn_lt in Hlt as [_ Hcs]. specialize (Hcs c Hc). lia.
Qed.

Lemma min_client_vsn_attained cs : ∀ x,
  min_client_vsn cs x = x ∨
  ∃ c, c ∈ cs ∧ min_client_vsn cs x = cl_vsn c.
Proof.
  induction cs as [|c0 cs IH]; intros x; cbn [min_client_vsn]; [by left|].
  destruct (IH (if cl_vsn c0 <? x then cl_vsn c0 else x))
    as [Heq|(c & Hc & Heq)].
  - rewrite Heq. destruct (cl_vsn c0 <? x); [|by left].
    right. exists c0. split; [by left|done].
  - right. exists c. split; [by right|done].
Qed.

Lemma elem_of_chain_deleted l w :
  w ∈ chain_deleted l ↔ ∃ b v, (b, v) ∈ l ∧ deleted v = Some w.
Proof.
  unfold chain_deleted. rewrite list_elem_of_omap. split.
  - intros ([b v] & Hin & Hd). by exists b, v.
  - intros (b & v & Hin & Hd). by exists (b, v).
Qed.

(** A wrapper is parked on one version only. *)
Lemma chain_deleted_unique l b v b' v' w :
  NoDup (chain_deleted l) →
  (b, v) ∈ l → (b', v') ∈ l →
  deleted v = Some w → deleted v' = Some w →
  (b, v) = (b', v').
Proof.
  induction l as [|[b0 v0] l IH]; intros Hnd Hin Hin' Hd Hd'.
  - by apply elem_of_nil in Hin.
  - rewrite chain_deleted_cons in Hnd.
    assert (NoDup (chain_deleted l) ∧
            (deleted v0 = Some w → w ∉ chain_deleted l)) as [Hnd' Hw].
    { destruct (deleted v0) as [w0|].
      - apply NoDup_cons in Hnd as [? ?]. split; [done|]. by intros [= <-].
      - done. }
    apply elem_of_cons in Hin as [[= -> ->]|Hin],
          Hin' as [[= -> ->]|Hin']; [done|..].
    + destruct (Hw Hd). apply elem_of_chain_deleted. by exists b', v'.
    + destruct (Hw Hd'). apply elem_of_chain_deleted. by exists b, v.
    + by apply IH.
Qed.

(** The wrappers parked on the versions a pass reclaims. *)
Lemma parked_reclaimed l min_vsn b v w :
  NoDup (chain_deleted l) →
  (b, v) ∈ l → deleted v = Some w →
  w ∈ chain_deleted (reclaimed min_vsn l) ↔ vsn v < min_vsn.
Proof.
  intros Hnd Hin Hd. rewrite elem_of_chain_deleted. split.
  - intros (b' & v' & [Hlt Hin']%list_elem_of_filter & Hd').
    by pose proof (chain_deleted_unique l b v b' v' w Hnd Hin Hin' Hd Hd')
      as [= -> ->].
  - intros Hlt. exists b, v. split; [|done].
    by apply list_elem_of_filter.
Qed.

End Mvcc.

(** * Further properties of the manager *)

Section Further.
Context {bloom_filter : Type} `{!FilterOps bloom_filter}.
Implicit Types m : @bloom_filtmgr bloom_filter.
Implicit Types l : list (nat * filtmgr_vsn).

(** X1.  In every state the manager reaches in fewer than 2^64
    operations the heap is well formed: [latest] heads a chain of
    allocated versions that ends at NULL and parks no wrapper itself;
    every name of its index resolves to an allocated, active wrapper and
    no wrapper is indexed under two names; the wrappers parked on the
    older versions are allocated, inactive and pairwise distinct.  Hence
    [take_filter] on [latest] finds a wrapper exactly for the names of the
    index. *)
Theorem heap_shape_invariant n m :
  reachable_in n m →
  Z.of_nat n < 2 ^ 64 →
  mgr_wf m ∧
  ∃ a lv, latest m = Some a ∧ versions m !! a = Some lv ∧
    ∀ name, take_filter (latest m) name m = Ret (filter_map lv !! name) m.
Proof.
  intros Hreach Hn. pose proof (reachable_wf n m Hreach Hn) as Hwf.
  split; [done|].
  destruct Hwf as (a & lv & l & (Hl & Hv & _) & _ & Hi & _).
  exists a, lv. split; [done|]. split; [done|].
  intros name. by apply (take_filter_wf m a lv).
Qed.

(** X2.  In every state the manager reaches in fewer than 2^64
    operations, every call of the interface and every pass of the vacuum
    thread returns: no NULL or freed pointer to a version or to a wrapper
    is dereferenced, no version and no wrapper is freed twice, and the
    walks along the chain end -- provided the copy of the index succeeds
    in the destructive calls and the key and result arrays of a batch
    hold [num_keys] entries.  The custom configurations are not objects
    of this heap: their release is only logged, and nothing is said here
    of a configuration that the caller hands to two creates. *)
Theorem operations_return n m o :
  reachable_in n m →
  Z.of_nat n < 2 ^ 64 →
  op_ok o →
  ∃ ans m', exec o m = Ret ans m'.
Proof.
  intros Hreach Hn Hok.
  apply (exec_returns n);
    [by apply reachable_chain_inv|by apply (reachable_wf n)|done].
Qed.

(** X3.  [destroy_filter_manager] on a well-formed heap returns 0.  It
    frees every version of the chain, every wrapper of the index of
    [latest] and every parked wrapper, and the client records, and
    leaves the rest of the heap alone.  The filters of the index are
    closed, never deleted, whatever their [should_delete] flag
    ([filter_map_delete_cb] clears it first); after them the parked
    wrappers are reclaimed, the newest version first, deleted or closed
    as their [should_delete] flag says. *)
Theorem destroy_filter_manager_spec m :
  mgr_wf m →
  ∃ a lv l m',
    is_chain (versions m) (latest m) ((a, lv) :: l) ∧
    destroy_filter_manager m = Ret 0 m' ∧
    clients m' = [] ∧
    (∀ b, b ∈ ((a, lv) :: l).*1 → versions m' !! b = None) ∧
    (∀ b, b ∉ ((a, lv) :: l).*1 → versions m' !! b = versions m !! b) ∧
    (∀ k w, filter_map lv !! k = Some w → wrappers m' !! w = None) ∧
    (∀ w, w ∈ chain_deleted l → wrappers m' !! w = None) ∧
    (∀ w, (∀ k, filter_map lv !! k ≠ Some w) → w ∉ chain_deleted l →
          wrappers m' !! w = wrappers m !! w) ∧
    trace m' =
      trace m ++ close_log (wrappers m) (map_to_list (filter_map lv)) ++
      parked_log (wrappers m) l ∧
    (∀ e, e ∈ close_log (wrappers m) (map_to_list (filter_map lv)) →
          is_bloomf_delete e = false) ∧
    (∀ k w W, filter_map lv !! k = Some w → wrappers m !! w = Some W →
       Ev_bloomf_close (filter W) ∈
         close_log (wrappers m) (map_to_list (filter_map lv))).
Proof.
  intros (a & lv & l & Hc & Hd & Hi & Hp).
  exists a, lv, l. eexists. split; [done|].
  split; [by apply (destroy_filter_manager_run m a lv l)|].
  cbn [clients versions wrappers trace].
  split; [done|].
  split; [|split; [|split; [|split; [|split; [|split; [done|split]]]]]].
  - intros b Hb. by apply free_versions_lookup_in.
  - intros b Hb. by apply free_versions_lookup_notin.
  - intros k w Hk. apply free_wrappers_lookup_in, elem_of_app. right.
    apply list_elem_of_fmap. exists (k, w).
    split; [done|]. by apply elem_of_map_to_list.
  - intros w Hw. apply free_wrappers_lookup_in, elem_of_app. by left.
  - intros w Hidx Hpk. apply free_wrappers_lookup_notin.
    intros [Hin|([k v] & -> & Hin%elem_of_map_to_list)%list_elem_of_fmap]
           %elem_of_app; [done|]. by apply (Hidx k).
  - intros e. apply close_log_no_delete.
  - intros k w W Hk HW. unfold close_log.
    apply list_elem_of_In, in_flat_map. exists (k, w).
    split; [by apply list_elem_of_In, elem_of_map_to_list|].
    cbn [snd]. rewrite HW. by left.
Qed.

(** X4.  A pass of the vacuum thread on a well-formed heap with
    increasing version numbers returns, and frees a version of the chain
    if and only if its number is below the number of [latest] and below
    the number every registered client checkpointed: a version a client
    may still be using, and [latest], are never freed.  The wrapper
    parked on a version is freed exactly when the version is; every other
    wrapper and every version outside the chain is left as it was, as
    are [latest] and the registry. *)
Theorem thread_pass_reclaims m a lv l :
  is_chain (versions m) (latest m) ((a, lv) :: l) →
  vsn_increasing ((a, lv) :: l) →
  deleted lv = None →
  parked_ok (wrappers m) l →
  ∃ m',
    filtmgr_thread_pass m = Ret tt m' ∧
    config m' = config m ∧ latest m' = latest m ∧ clients m' = clients m ∧
    (∀ b v, (b, v) ∈ (a, lv) :: l →
       versions m' !! b = None ↔
       vsn v < vsn lv ∧ ∀ c, c ∈ clients m → vsn v < cl_vsn c) ∧
    (∀ b, b ∉ ((a, lv) :: l).*1 → versions m' !! b = versions m !! b) ∧
    (∀ b v w, (b, v) ∈ l → deleted v = Some w →
       (wrappers m' !! w = None ↔ versions m' !! b = None) ∧
       (wrappers m' !! w = None ∨ wrappers m' !! w = wrappers m !! w)) ∧
    (∀ w, w ∉ chain_deleted l → wrappers m' !! w = wrappers m !! w).
Proof.
  intros Hc Hs Hd Hp. pose proof Hc as (Hl & Hv & Hc').
  pose proof Hp as [Hnd Hpk].
  set (min_vsn := min_client_vsn (clients m) (vsn lv)).
  assert (∀ b v, (b, v) ∈ (a, lv) :: l → versions m !! b = Some v) as Hlook
    by (intros b v; by eapply is_chain_lookup).
  eexists. split; [by apply (thread_pass_run m a lv l)|]. fold min_vsn.
  destruct (prev lv) as [p|] eqn:Hprev.
  - cbn [config latest clients versions wrappers].
    assert (reclaimed min_vsn ((a, lv) :: l) = reclaimed min_vsn l) as HD.
    { unfold reclaimed. rewrite filter_cons_False; [done|]. simpl.
      pose proof (min_client_vsn_le (clients m) (vsn lv)). fold min_vsn in H.
      lia. }
    split; [done|]. split; [done|]. split; [done|].
    assert (∀ b v, (b, v) ∈ (a, lv) :: l →
              cut_after (survivors min_vsn ((a, lv) :: l))
                (free_versions (versions m)
                   (reclaimed min_vsn ((a, lv) :: l))) !! b = None ↔
              vsn v < min_vsn) as Hfreed
      by (intros b v Hin; by eapply clean_versions_lookup).
    split; [|split; [|split]].
    + intros b v Hin. rewrite (Hfreed b v Hin). unfold min_vsn.
      apply min_client_vsn_lt.
    + intros b Hb. by apply clean_versions_frame.
    + intros b v w Hin Hdel. rewrite HD.
      pose proof (parked_reclaimed l min_vsn b v w Hnd Hin Hdel) as Hpr.
      rewrite <- HD. rewrite (Hfreed b v) by (by right). rewrite HD.
      destruct (decide (vsn v < min_vsn)) as [Hlt|Hge].
      * assert (free_wrappers (wrappers m)
                  (chain_deleted (reclaimed min_vsn l)) !! w = None) as ->
          by (by apply free_wrappers_lookup_in, Hpr).
        split; [done|by left].
      * assert (free_wrappers (wrappers m)
                  (chain_deleted (reclaimed min_vsn l)) !! w
                = wrappers m !! w) as ->.
        { apply free_wrappers_lookup_notin. by rewrite Hpr. }
        split; [|by right].
        destruct (Hpk w) as (W & -> & _); [|done].
        apply elem_of_chain_deleted. by exists b, v.
    + intros w Hw. rewrite HD. apply free_wrappers_lookup_notin.
      intros (b & v & [_ Hin]%list_elem_of_filter & Hdel)%elem_of_chain_deleted.
      apply Hw, elem_of_chain_deleted. by exists b, v.
  - assert (l = []) as ->.
    { destruct l as [|[b u] l']; [done|]. destruct Hc' as (? & _).
      congruence. }
    split; [done|]. split; [done|]. split; [done|].
    split; [|split; [|split]]; try done.
    + intros b v [= -> ->]%list_elem_of_singleton. rewrite Hv.
      split; [done|]. lia.
    + intros b v w Hin. by apply elem_of_nil in Hin.
Qed.

(** X5.  In every state the manager reaches in fewer than 2^64
    operations the registry holds at most one record per thread, and no
    record carries a version number above the number of [latest]: the
    threshold the vacuum thread computes is the smallest number a client
    checkpointed, or the number of [latest] when no client is
    registered. *)
Theorem client_registry_invariant n m :
  reachable_in n m →
  Z.of_nat n < 2 ^ 64 →
  NoDup (id <$> clients m) ∧
  ∃ a lv,
    latest m = Some a ∧ versions m !! a = Some lv ∧
    (∀ c, c ∈ clients m → cl_vsn c ≤ vsn lv) ∧
    (∀ z, z < min_client_vsn (clients m) (vsn lv) ↔
          z < vsn lv ∧ ∀ c, c ∈ clients m → z < cl_vsn c) ∧
    (clients m = [] → min_client_vsn (clients m) (vsn lv) = vsn lv) ∧
    (clients m ≠ [] →
       ∃ c, c ∈ clients m ∧ min_client_vsn (clients m) (vsn lv) = cl_vsn c).
Proof.
  intros Hreach Hn.
  destruct (reachable_clients_ok n m Hreach Hn)
    as (Hnd & a & lv & Hl & Hv & Hb).
  split; [done|]. exists a, lv. split; [done|]. split; [done|].
  split; [done|]. split; [apply min_client_vsn_lt|]. split.
  - by intros ->.
  - intros Hne.
    destruct (min_client_vsn_attained (clients m) (vsn lv)) as [Heq|Hex];
      [|done].
    destruct (clients m) as [|c0 cs] eqn:E; [done|].
    exists c0. split; [by left|].
    assert (cl_vsn c0 ≤ vsn lv) by (apply Hb; by left).
    assert (min_client_vsn (c0 :: cs) (vsn lv) ≤ cl_vsn c0)
      by (apply min_client_vsn_le_client; by left).
    lia.
Qed.

(** X6.  [filtmgr_client_checkpoint] on a registry with one record per
    thread returns; afterwards the calling thread has exactly one record,
    carrying the number of [latest], and the records of the other
    threads are as they were.  [filtmgr_client_leave] removes the record
    of the calling thread and no other; for a thread without a record it
    changes nothing, so that a checkpoint followed by a leave of a thread
    that was not registered restores the manager. *)
Theorem client_registry_spec m a lv tid :
  latest m = Some a →
  versions m !! a = Some lv →
  NoDup (id <$> clients m) →
  ∃ cs cs',
    filtmgr_client_checkpoint tid m = Ret tt (set_clients cs m) ∧
    NoDup (id <$> cs) ∧
    (∀ c, c ∈ cs ↔ c = mk_client tid (vsn lv) ∨ (c ∈ clients m ∧ id c ≠ tid)) ∧
    filtmgr_client_leave tid (set_clients cs m) = Ret tt (set_clients cs' m) ∧
    filtmgr_client_leave tid m = Ret tt (set_clients cs' m) ∧
    (∀ c, c ∈ cs' ↔ c ∈ clients m ∧ id c ≠ tid) ∧
    (tid ∉ id <$> clients m → set_clients cs' m = m).
Proof.
  intros Hl Hv Hnd.
  set (cs := match update_client tid (vsn lv) (clients m) with
             | Some cs => cs
             | None => mk_client tid (vsn lv) :: clients m
             end).
  assert (NoDup (id <$> cs) ∧
          (∀ c, c ∈ cs ↔
                c = mk_client tid (vsn lv) ∨ (c ∈ clients m ∧ id c ≠ tid)))
    as [Hnd' Hcs].
  { unfold cs.
    destruct (update_client tid (vsn lv) (clients m)) as [r|] eqn:Hu.
    - split; [by rewrite (update_client_ids _ _ _ _ Hu)|].
      by apply update_client_spec.
    - apply update_client_absent in Hu.
      split; [rewrite fmap_cons; by apply NoDup_cons|].
      intros c. rewrite elem_of_cons. split.
      + intros [->|Hc]; [by left|]. right. split; [done|].
        intros Hid. apply Hu. rewrite <- Hid. by apply list_elem_of_fmap_2.
      + intros [->|[Hc _]]; [by left|by right]. }
  assert (∀ c, c ∈ unlink_client tid cs ↔ c ∈ clients m ∧ id c ≠ tid)
    as Hleave.
  { intros c. rewrite (unlink_client_spec tid cs Hnd' c), Hcs. split.
    - intros [[->|[Hc Hne]] Hid]; done.
    - intros [Hc Hne]. split; [by right|done]. }
  assert (unlink_client tid cs = unlink_client tid (clients m)) as Heq.
  { unfold cs. clear cs Hnd' Hcs Hleave.
    destruct (update_client tid (vsn lv) (clients m)) as [r|] eqn:Hu.
    - clear Hnd. revert r Hu.
      induction (clients m) as [|c0 cs0 IH]; intros r Hu; [done|].
      cbn [update_client] in Hu. cbn [unlink_client]. case_decide as Hc.
      + injection Hu as <-. cbn [unlink_client id]. by rewrite decide_True.
      + destruct (update_client tid (vsn lv) cs0) as [r0|]; [|done].
        injection Hu as <-. cbn [unlink_client].
        rewrite decide_False by done. f_equal. by apply IH.
    - cbn [unlink_client id]. rewrite decide_True by done.
      apply update_client_absent in Hu.
      symmetry. by apply unlink_client_absent. }
  exists cs, (unlink_client tid cs).
  split; [by apply (checkpoint_run m a lv)|]. split; [done|]. split; [done|].
  split; [done|]. split; [|split; [done|]].
  - unfold filtmgr_client_leave. rewrite get_bind. by rewrite Heq.
  - intros Hn. rewrite Heq, (unlink_client_absent _ _ Hn). by destruct m.
Qed.

End Further.

(** ** Calls on one filter *)

Section Calls.
Context {bloom_filter : Type} `{!FilterOps bloom_filter}.
Implicit Types m : @bloom_filtmgr bloom_filter.
Implicit Types l : list (nat * filtmgr_vsn).

(** [take_filter] on [latest], for a name that has no active wrapper. *)
Lemma take_filter_none m a lv name :
  latest m = Some a →
  versions m !! a = Some lv →
  (filter_map lv !! name = None ∨
   ∃ w W, filter_map lv !! name = Some w ∧ wrappers m !! w = Some W ∧
          is_active W = false) →
  take_filter (latest m) name m = Ret None m.
Proof.
  intros Hl Hv Hno. rewrite Hl, (take_filter_run _ _ _ _ Hv).
  by destruct Hno as [->|(w & W & -> & -> & ->)].
Qed.

Lemma take_filter_some m a lv name w W :
  latest m = Some a →
  versions m !! a = Some lv →
  filter_map lv !! name = Some w → wrappers m !! w = Some W →
  is_active W = true →
  take_filter (latest m) name m = Ret (Some w) m.
Proof.
  intros Hl Hv Hn HW Hact.
  by rewrite Hl, (take_filter_run _ _ _ _ Hv), Hn, HW, Hact.
Qed.

(** X7.  [filtmgr_clear_filter], the index copy succeeding.  On a name
    that resolves to an active wrapper whose filter is proxied, the call
    returns 0 and does what a drop does, except that [should_delete] is
    cleared (the filter will be closed, not deleted, when the wrapper is
    reclaimed): the wrapper becomes inactive and is parked on the old
    [latest], and a new version without the name, numbered one more
    (modulo 2^64), is installed on top of it.  When the filter is not
    proxied the call returns -2, and when the name is absent or its
    wrapper inactive it returns -1; in both cases the manager is left as
    it was. *)
Theorem clear_filter_spec m a lv name :
  latest m = Some a →
  versions m !! a = Some lv →
  (∀ w W,
     filter_map lv !! name = Some w → wrappers m !! w = Some W →
     is_active W = true →
     (bloomf_is_proxied (filter W) = true →
      filtmgr_clear_filter name 0 m =
      Ret 0 (mk_mgr (config m) (Some (fresh (dom (versions m)))) (clients m)
               (<[a := set_deleted (Some w) lv]>
                  (<[fresh (dom (versions m)) :=
                       mk_vsn (u64_add (vsn lv) 1)
                              (delete name (filter_map lv)) None (Some a)]>
                     (versions m)))
               (<[w := mk_wrapper false (is_hot W) false (filter W)
                                  (custom W)]> (wrappers m))
               (trace m))) ∧
     (bloomf_is_proxied (filter W) = false →
      ∀ r, filtmgr_clear_filter name r m = Ret (-2) m)) ∧
  ((filter_map lv !! name = None ∨
    ∃ w W, filter_map lv !! name = Some w ∧ wrappers m !! w = Some W ∧
           is_active W = false) →
   ∀ r, filtmgr_clear_filter name r m = Ret (-1) m).
Proof.
  intros Hl Hv. split.
  - intros w W Hn HW Hact.
    pose proof (take_filter_some m a lv name w W Hl Hv Hn HW Hact) as Htake.
    split.
    + intros Hprox. rewrite clear_filter_unfold, get_bind.
      rewrite (bind_run _ _ _ _ _ Htake).
      rewrite (bind_run _ _ _ _ _ (deref_wrapper_run _ _ _ HW)).
      rewrite Hprox, Hl. cbn [negb]. by apply retire_filter_run.
    + intros Hprox r. rewrite clear_filter_unfold, get_bind.
      rewrite (bind_run _ _ _ _ _ Htake).
      rewrite (bind_run _ _ _ _ _ (deref_wrapper_run _ _ _ HW)).
      by rewrite Hprox.
  - intros Hno r. rewrite clear_filter_unfold, get_bind.
    by rewrite (bind_run _ _ _ _ _ (take_filter_none m a lv name Hl Hv Hno)).
Qed.

(** X8.  [filtmgr_create_filter] on a name that is not in the index of
    [latest] and has no pending delete, the index copy succeeding.  When
    [init_bloom_filter] succeeds the call returns 0: a wrapper is
    allocated -- active, hot, not to be deleted, holding a custom
    configuration only if the configuration used is not the manager's
    own -- and a new version, numbered one more (modulo 2^64), whose
    index is the old one plus the name, is installed on top of the old
    [latest]; nothing else changes.  When [init_bloom_filter] fails the
    call returns -2 and the manager is left as it was: the version that
    was built is destroyed again. *)
Theorem create_filter_outcomes m a lv l name custom_config :
  latest m = Some a →
  versions m !! a = Some lv →
  filter_map lv !! name = None →
  is_chain (versions m) (prev lv) l →
  deleted_ok (wrappers m) l →
  nul_free name = true →
  ¬ has_pending (wrappers m) l name →
  let cfg := match custom_config with Some c => c | None => config m end in
  (∀ f,
     filtmgr_create_filter name custom_config 0 (Some f) m =
     Ret 0 (mk_mgr (config m) (Some (fresh (dom (versions m)))) (clients m)
              (<[fresh (dom (versions m)) :=
                   mk_vsn (u64_add (vsn lv) 1)
                          (<[name := fresh (dom (wrappers m))]>
                             (filter_map lv))
                          None (Some a)]> (versions m))
              (<[fresh (dom (wrappers m)) :=
                   mk_wrapper true true false f
                     (if decide (config m = cfg) then None else Some cfg)]>
                 (wrappers m))
              (trace m))) ∧
  filtmgr_create_filter name custom_config 0 None m = Ret (-2) m ∧
  versions m !! fresh (dom (versions m)) = None ∧
  wrappers m !! fresh (dom (wrappers m)) = None.
Proof.
  intros Hl Hv Hn Hc Hok Hnf Hnp cfg.
  split; [|split; [|split]].
  - intros f.
    destruct (create_filter_prologue m a lv l name custom_config 0 (Some f)
                Hl Hv Hn Hc Hok Hnf) as [[Hp _]|[_ ->]]; [done|].
    by apply (create_filter_install m a lv).
  - destruct (create_filter_prologue m a lv l name custom_config 0 None
                Hl Hv Hn Hc Hok Hnf) as [[Hp _]|[_ ->]]; [done|].
    by apply (create_filter_init_fails m a lv).
  - apply fresh_vsn_None.
  - apply fresh_wrapper_None.
Qed.

(** X9.  [filtmgr_flush_filter], [filtmgr_unmap_filter] and
    [filtmgr_filter_cb] return -1 and leave the manager as it was when
    the name is absent from the index of [latest] or its wrapper is
    inactive.  On an active wrapper they return 0 and change nothing but
    the filter object of that wrapper: the flush flushes it, the callback
    is run on it (with the name), and the unmap closes it unless the
    filter is in memory, in which case nothing is done.  The flags of
    the wrapper, the versions and the registry are not touched. *)
Theorem filter_access_spec m a lv name :
  latest m = Some a →
  versions m !! a = Some lv →
  (∀ w W,
     filter_map lv !! name = Some w → wrappers m !! w = Some W →
     is_active W = true →
     let put f :=
       set_wrappers
         (<[w := mk_wrapper true (is_hot W) (should_delete W) f (custom W)]>
            (wrappers m)) m in
     filtmgr_flush_filter name m = Ret 0 (put (bloomf_flush (filter W))) ∧
     (∀ cb, filtmgr_filter_cb name cb m = Ret 0 (put (cb name (filter W)))) ∧
     filtmgr_unmap_filter name m =
       Ret 0 (if in_memory (filter W) then m
              else put (bloomf_close (filter W)))) ∧
  ((filter_map lv !! name = None ∨
    ∃ w W, filter_map lv !! name = Some w ∧ wrappers m !! w = Some W ∧
           is_active W = false) →
   filtmgr_flush_filter name m = Ret (-1) m ∧
   (∀ cb, filtmgr_filter_cb name cb m = Ret (-1) m) ∧
   filtmgr_unmap_filter name m = Ret (-1) m).
Proof.
  intros Hl Hv. split.
  - intros w W Hn HW Hact put.
    pose proof (take_filter_some m a lv name w W Hl Hv Hn HW Hact) as Htake.
    assert (∀ f, set_filter f W
                 = mk_wrapper true (is_hot W) (should_delete W) f (custom W))
      as Hset by (intros f; unfold set_filter; by rewrite Hact).
    split; [|split].
    + unfold filtmgr_flush_filter. rewrite get_bind.
      rewrite (bind_run _ _ _ _ _ Htake).
      rewrite (bind_run _ _ _ _ _ (deref_wrapper_run _ _ _ HW)).
      rewrite (bind_run _ _ _ _ _ (store_wrapper_run _ _ _ _ HW)).
      by rewrite Hset.
    + intros cb. unfold filtmgr_filter_cb. rewrite get_bind.
      rewrite (bind_run _ _ _ _ _ Htake).
      rewrite (bind_run _ _ _ _ _ (deref_wrapper_run _ _ _ HW)).
      rewrite (bind_run _ _ _ _ _ (store_wrapper_run _ _ _ _ HW)).
      by rewrite Hset.
    + unfold filtmgr_unmap_filter. rewrite get_bind.
      rewrite (bind_run _ _ _ _ _ Htake).
      rewrite (bind_run _ _ _ _ _ (deref_wrapper_run _ _ _ HW)).
      destruct (in_memory (filter W)); cbn [negb]; [done|].
      rewrite (bind_run _ _ _ _ _ (store_wrapper_run _ _ _ _ HW)).
      by rewrite Hset.
  - intros Hno.
    pose proof (take_filter_none m a lv name Hl Hv Hno) as Htake.
    unfold filtmgr_flush_filter, filtmgr_filter_cb, filtmgr_unmap_filter.
    split; [|split]; [|intros cb|];
      by rewrite get_bind, (bind_run _ _ _ _ _ Htake).
Qed.

End Calls.

(** ** The life of a retired filter *)

Section Lifecycle.
Context {bloom_filter : Type} `{!FilterOps bloom_filter}.
Implicit Types m : @bloom_filtmgr bloom_filter.
Implicit Types ws : gmap nat (@bloom_filter_wrapper bloom_filter).
Implicit Types l : list (nat * filtmgr_vsn).

Lemma reclaim_log_ext ws ws' l :
  (∀ w, w ∈ chain_deleted l → ws' !! w = ws !! w) →
  reclaim_log ws' l = reclaim_log ws l.
Proof.
  induction l as [|[a v] l IH]; intros Hag; [done|].
  rewrite !reclaim_log_cons. rewrite chain_deleted_cons in Hag. f_equal.
  - apply IH. intros w Hw. apply Hag. destruct (deleted v); [by right|done].
  - apply version_events_ext; [done|].
    intros w Hw. apply Hag. rewrite Hw. by left.
Qed.

(** The chain after a drop or a clear. *)
Lemma retired_chain m a lv l w W name del :
  is_chain (versions m) (latest m) ((a, lv) :: l) →
  is_chain (versions (retired m a lv w W name del))
    (latest (retired m a lv w W name del))
    ((fresh (dom (versions m)),
      mk_vsn (u64_add (vsn lv) 1) (delete name (filter_map lv)) None (Some a))
     :: (a, set_deleted (Some w) lv) :: l).
Proof.
  intros Hc. pose proof (is_chain_NoDup _ _ _ Hc) as Haddr.
  rewrite fmap_cons in Haddr. apply NoDup_cons in Haddr as [Ha0 _].
  destruct Hc as (Hl & Hv & Hc).
  assert (versions m !! fresh (dom (versions m)) = None) as Hfa
    by apply fresh_vsn_None.
  assert (a ≠ fresh (dom (versions m))) as Hne by congruence.
  unfold retired. cbn [versions latest]. split; [done|]. split.
  { rewrite lookup_insert_ne by done. apply lookup_insert_eq. }
  cbn [prev]. split; [done|]. split; [apply lookup_insert_eq|].
  cbn [prev set_deleted]. eapply is_chain_ext; [|done].
  intros b u Hin.
  pose proof (is_chain_lookup _ _ _ _ _ Hc Hin) as Hu.
  rewrite !lookup_insert_ne; [done|congruence|].
  intros <-. apply Ha0, list_elem_of_fmap. by exists (a, u).
Qed.

(** [filtmgr_vacuum] after a drop or a clear: the retired wrapper is
    reclaimed last, and [latest] is left alone in the heap of the
    chain. *)
Lemma retired_vacuum m a lv l w W name del :
  is_chain (versions m) (latest m) ((a, lv) :: l) →
  vsn_increasing ((a, lv) :: l) →
  0 ≤ vsn lv < 2 ^ 64 - 1 →
  deleted lv = None →
  parked_ok (wrappers m) l →
  wrappers m !! w = Some W →
  is_active W = true →
  filtmgr_vacuum (retired m a lv w W name del) =
  Ret tt
    (mk_mgr (config m) (Some (fresh (dom (versions m)))) (clients m)
       (<[fresh (dom (versions m)) :=
            mk_vsn (vsn lv + 1) (delete name (filter_map lv)) None None]>
          (free_versions (versions m) ((a, lv) :: l)))
       (free_wrappers (wrappers m) (w :: chain_deleted l))
       (trace m ++ reclaim_log (wrappers m) l ++
        reclaim_events (mk_wrapper false (is_hot W) del (filter W)
                                   (custom W)))).
Proof.
  intros Hc Hs Hlv Hd [Hnd Hpk] HW Hact.
  pose proof (retired_chain m a lv l w W name del Hc) as Hc1.
  set (a' := fresh (dom (versions m))) in *.
  assert (versions m !! a' = None) as Hfa by apply fresh_vsn_None.
  assert (a ≠ a') as Hne by (destruct Hc as (_ & ? & _); congruence).
  assert (u64_add (vsn lv) 1 = vsn lv + 1) as Hnext
    by (unfold u64_add; rewrite Z.mod_small; lia).
  assert (w ∉ chain_deleted l) as Hwl.
  { intros Hin. destruct (Hpk w Hin) as (W' & HW' & Hact'). congruence. }
  rewrite (vacuum_exact _ _ _ _ Hc1).
  - unfold retired. fold a'.
    cbn [config latest clients versions wrappers trace vsn].
    rewrite chain_deleted_cons. cbn [deleted set_deleted].
    rewrite reclaim_log_cons.
    unfold version_events at 1. cbn [snd deleted set_deleted].
    rewrite lookup_insert_eq.
    rewrite (reclaim_log_ext (wrappers m)).
    2:{ intros w' Hw'. rewrite lookup_insert_ne; [done|congruence]. }
    f_equal. f_equal.
    + unfold set_prev. cbn [vsn filter_map deleted prev]. rewrite Hnext.
      apply map_eq. intros b.
      destruct (decide (b = a')) as [->|Hb]; [by rewrite !lookup_insert_eq|].
      rewrite !lookup_insert_ne by done.
      cbn [free_versions foldr fst].
      fold (free_versions
              (<[a:=set_deleted (Some w) lv]>
                 (<[a':=mk_vsn (vsn lv + 1) (delete name (filter_map lv))
                          None (Some a)]> (versions m))) l).
      fold (free_versions (versions m) l).
      destruct (decide (b = a)) as [->|Hba]; [by rewrite !lookup_delete_eq|].
      rewrite !lookup_delete_ne by done.
      destruct (decide (b ∈ l.*1)) as [Hin|Hnin].
      * by rewrite !free_versions_lookup_in.
      * rewrite !free_versions_lookup_notin by done.
        by rewrite !lookup_insert_ne.
    + apply map_eq. intros w'. cbn [free_wrappers foldr].
      fold (free_wrappers
              (<[w:=mk_wrapper false (is_hot W) del (filter W) (custom W)]>
                 (wrappers m)) (chain_deleted l)).
      fold (free_wrappers (wrappers m) (chain_deleted l)).
      destruct (decide (w' = w)) as [->|Hw']; [by rewrite !lookup_delete_eq|].
      rewrite !lookup_delete_ne by done.
      destruct (decide (w' ∈ chain_deleted l)) as [Hin|Hnin].
      * by rewrite !free_wrappers_lookup_in.
      * rewrite !free_wrappers_lookup_notin by done.
        by rewrite lookup_insert_ne.
  - apply vsn_increasing_cons. split; [|cbn [vsn set_deleted]; lia].
    apply vsn_increasing_cons in Hs as [Hs Hhd].
    apply vsn_increasing_cons. split; [done|].
    by destruct l as [|[b u] l'].
  - rewrite chain_deleted_cons. cbn [deleted set_deleted].
    by apply NoDup_cons.
  - rewrite chain_deleted_cons. cbn [deleted set_deleted].
    unfold retired. cbn [wrappers].
    intros w' [->|Hw']%elem_of_cons.
    + rewrite lookup_insert_eq. by eexists.
    + rewrite lookup_insert_ne by congruence.
      destruct (Hpk w' Hw') as (W' & -> & _). by eexists.
Qed.

(** X10.  A filter that is dropped is deleted, and a filter that is
    cleared is only closed, at the next vacuum.  On a well-formed heap
    whose version numbers increase (and are below 2^64 - 1), a drop of an
    active filter followed by [filtmgr_vacuum] leaves [latest] as the
    only version of the chain, without the name and without [prev]; the
    wrapper is freed; and the external calls made are those for the
    wrappers that were parked before, the oldest first, and then, for
    the dropped filter, [bloomf_delete], [destroy_bloom_filter] and the
    release of its custom configuration if it has one.  After a clear (of
    a proxied filter) the same holds with [bloomf_close] in the place of
    [bloomf_delete]. *)
Theorem retired_filter_reclaimed m a lv l name w W :
  is_chain (versions m) (latest m) ((a, lv) :: l) →
  vsn_increasing ((a, lv) :: l) →
  0 ≤ vsn lv < 2 ^ 64 - 1 →
  deleted lv = None →
  parked_ok (wrappers m) l →
  filter_map lv !! name = Some w →
  wrappers m !! w = Some W →
  is_active W = true →
  let after first :=
    mk_mgr (config m) (Some (fresh (dom (versions m)))) (clients m)
      (<[fresh (dom (versions m)) :=
           mk_vsn (vsn lv + 1) (delete name (filter_map lv)) None None]>
         (free_versions (versions m) ((a, lv) :: l)))
      (free_wrappers (wrappers m) (w :: chain_deleted l))
      (trace m ++ reclaim_log (wrappers m) l ++
       first :: Ev_destroy_bloom_filter (filter W) ::
       match custom W with
       | Some c => [Ev_free_config c]
       | None => []
       end) in
  (∃ m1, filtmgr_drop_filter name 0 m = Ret 0 m1 ∧
         filtmgr_vacuum m1 = Ret tt (after (Ev_bloomf_delete (filter W)))) ∧
  (bloomf_is_proxied (filter W) = true →
   ∃ m1, filtmgr_clear_filter name 0 m = Ret 0 m1 ∧
         filtmgr_vacuum m1 = Ret tt (after (Ev_bloomf_close (filter W)))) ∧
  (∀ first b, b ∈ ((a, lv) :: l).*1 → versions (after first) !! b = None) ∧
  (∀ first, wrappers (after first) !! w = None).
Proof.
  intros Hc Hs Hlv Hd Hp Hn HW Hact after.
  pose proof Hc as (Hl & Hv & _).
  pose proof (take_filter_some m a lv name w W Hl Hv Hn HW Hact) as Htake.
  split; [|split; [|split]].
  - exists (retired m a lv w W name true).
    split; [by apply drop_filter_run|].
    by rewrite (retired_vacuum m a lv l w W name true).
  - intros Hprox. exists (retired m a lv w W name false). split.
    + rewrite clear_filter_unfold, get_bind.
      rewrite (bind_run _ _ _ _ _ Htake).
      rewrite (bind_run _ _ _ _ _ (deref_wrapper_run _ _ _ HW)).
      rewrite Hprox, Hl. cbn [negb]. by apply retire_filter_run.
    + by rewrite (retired_vacuum m a lv l w W name false).
  - intros first b Hb. unfold after. cbn [versions].
    rewrite lookup_insert_ne; [by apply free_versions_lookup_in|].
    intros <-. apply list_elem_of_fmap in Hb as ([b u] & Heq & Hin).
    pose proof (is_chain_lookup _ _ _ _ _ Hc Hin) as Hu. cbn [fst] in Heq.
    pose proof (fresh_vsn_None m). congruence.
  - intros first. unfold after. cbn [wrappers].
    apply free_wrappers_lookup_in. by left.
Qed.


End Lifecycle.

(** ** What the listings return *)

Section ListingsExact.
Context {bloom_filter : Type} `{!FilterOps bloom_filter}.
Implicit Types m : @bloom_filtmgr bloom_filter.
Implicit Types ws : gmap nat (@bloom_filter_wrapper bloom_filter).
Implicit Types entries : list (string * nat).

(** A callback that at most puts the key in front of the list yields a
    list without repetition over entries with distinct keys. *)
Lemma iter_entries_NoDup
    (cb : list string → string → nat → M (list string)) :
  (∀ head k v m h m',
     cb head k v m = Ret h m' → h = head ∨ h = k :: head) →
  ∀ entries head m names m',
    iter_entries cb entries head m = Ret names m' →
    NoDup (head ++ entries.*1) →
    NoDup names.
Proof.
  intros Hcb. induction entries as [|[k v] entries IH];
    intros head m names m' H Hnd.
  - injection H as <- _. by rewrite app_nil_r in Hnd.
  - cbn [iter_entries] in H.
    apply bind_inv in H as (h & m1 & Hh & H).
    apply (IH _ _ _ _ H). rewrite fmap_cons in Hnd. cbn [fst] in Hnd.
    apply Hcb in Hh as [->| ->].
    + apply NoDup_app in Hnd as (Hh & Hdisj & [_ Hr]%NoDup_cons).
      apply NoDup_app. split; [done|]. split; [|done].
      intros x Hx Hin. apply (Hdisj x Hx). by right.
    + revert Hnd. rewrite <- !Permutation_middle. by rewrite app_comm_cons.
Qed.

Lemma list_cb_shape head k v m h m' :
  filter_map_list_cb head k v m = Ret h m' → h = head ∨ h = k :: head.
Proof.
  unfold filter_map_list_cb.
  intros (V & m1 & _ & H)%bind_inv.
  destruct (is_active V); injection H as <- _; auto.
Qed.

Lemma list_cold_cb_shape head k v m h m' :
  filter_map_list_cold_cb head k v m = Ret h m' → h = head ∨ h = k :: head.
Proof.
  unfold filter_map_list_cold_cb.
  intros (V & m1 & [-> HV]%deref_wrapper_inv & H)%bind_inv.
  destruct (is_hot V).
  - rewrite (bind_run _ _ _ _ _ (store_wrapper_run _ _ _ _ HV)) in H.
    injection H as <- _. by left.
  - destruct (bloomf_is_proxied (filter V)); injection H as <- _; auto.
Qed.

Lemma prefix_entries_spec (t : gmap string nat) pfx k v :
  (k, v) ∈ List.filter (λ kv, String.prefix pfx (fst kv)) (map_to_list t) ↔
  t !! k = Some v ∧ String.prefix pfx k = true.
Proof.
  rewrite list_elem_of_In, filter_In, <- list_elem_of_In.
  by rewrite elem_of_map_to_list.
Qed.

Lemma filter_sublist {A} (f : A → bool) (xs : list A) :
  sublist (List.filter f xs) xs.
Proof.
  induction xs as [|x xs IH]; [done|]. simpl.
  destruct (f x); [by apply sublist_skip|by apply sublist_cons].
Qed.

Lemma prefix_entries_NoDup (t : gmap string nat) pfx :
  NoDup (List.filter (λ kv, String.prefix pfx (fst kv)) (map_to_list t)).*1.
Proof.
  eapply sublist_NoDup; [apply (NoDup_fst_map_to_list t)|].
  apply fmap_sublist, filter_sublist.
Qed.

(** [filtmgr_list_filters] on an index whose wrappers are allocated. *)
Lemma list_filters_run m a lv pfx :
  latest m = Some a →
  versions m !! a = Some lv →
  (∀ k v, filter_map lv !! k = Some v → is_Some (wrappers m !! v)) →
  ∃ names,
    filtmgr_list_filters pfx m = Ret (0, names) m ∧
    NoDup names ∧
    ∀ n, n ∈ names ↔
         (∃ v V, filter_map lv !! n = Some v ∧ wrappers m !! v = Some V ∧
                 is_active V = true) ∧
         match pfx with
         | Some p => String.prefix p n = true
         | None => True
         end.
Proof.
  intros Hl Hv Hal.
  set (entries := match pfx with
                  | Some p => List.filter (λ kv, String.prefix p (fst kv))
                                (map_to_list (filter_map lv))
                  | None => map_to_list (filter_map lv)
                  end).
  assert (∀ k v, (k, v) ∈ entries ↔
                 filter_map lv !! k = Some v ∧
                 match pfx with
                 | Some p => String.prefix p k = true
                 | None => True
                 end) as Hent.
  { intros k v. unfold entries. destruct pfx as [p|].
    - apply prefix_entries_spec.
    - rewrite elem_of_map_to_list. split; [done|by intros [? _]]. }
  assert (NoDup entries.*1) as Hnd.
  { unfold entries. destruct pfx as [p|];
      [apply prefix_entries_NoDup|apply NoDup_fst_map_to_list]. }
  destruct (iter_list_cb m entries []) as (names & Hrun & Hnames).
  { intros k v [Hk _]%Hent. by eapply Hal. }
  exists names. split; [|split].
  - unfold filtmgr_list_filters. rewrite get_bind, Hl.
    rewrite (bind_run _ _ _ _ _ (deref_vsn_run _ _ _ Hv)).
    unfold art_iter_prefix, art_iter. fold entries.
    assert (match pfx with
            | Some p =>
                iter_entries filter_map_list_cb
                  (List.filter (λ kv, String.prefix p (fst kv))
                     (map_to_list (filter_map lv))) []
            | None =>
                iter_entries filter_map_list_cb
                  (map_to_list (filter_map lv)) []
            end = iter_entries filter_map_list_cb entries []) as ->
      by (unfold entries; by destruct pfx).
    by rewrite (bind_run _ _ _ _ _ Hrun).
  - eapply (iter_entries_NoDup _ list_cb_shape); [exact Hrun|done].
  - intros n. rewrite Hnames. split.
    + intros [Hin|(v & V & [Hk Hp]%Hent & HV & Hact)];
        [by apply elem_of_nil in Hin|].
      split; [by exists v, V|done].
    + intros [(v & V & Hk & HV & Hact) Hp]. right. exists v, V.
      split; [by apply Hent|done].
Qed.

(** X12.  [filtmgr_list_filters], on an index whose wrappers are
    allocated, returns 0 and leaves the manager as it was.  The list
    holds each name once, and a name is on it if and only if it is in the
    index of [latest] with an active wrapper and, when a prefix is given,
    begins with the prefix.  On a well-formed heap, where the wrappers of
    the index are all active, the list holds exactly the names of the
    index (that begin with the prefix). *)
Theorem list_filters_exact m a lv pfx :
  latest m = Some a →
  versions m !! a = Some lv →
  (∀ k v, filter_map lv !! k = Some v → is_Some (wrappers m !! v)) →
  ∃ names,
    filtmgr_list_filters pfx m = Ret (0, names) m ∧
    NoDup names ∧
    (∀ n, n ∈ names ↔
          (∃ v V, filter_map lv !! n = Some v ∧ wrappers m !! v = Some V ∧
                  is_active V = true) ∧
          match pfx with
          | Some p => String.prefix p n = true
          | None => True
          end) ∧
    (index_ok (wrappers m) (filter_map lv) →
     ∀ n, n ∈ names ↔
          is_Some (filter_map lv !! n) ∧
          match pfx with
          | Some p => String.prefix p n = true
          | None => True
          end).
Proof.
  intros Hl Hv Hal.
  destruct (list_filters_run m a lv pfx Hl Hv Hal)
    as (names & Hrun & Hnd & Hnames).
  exists names. split; [done|]. split; [done|]. split; [done|].
  intros [Hact _] n. rewrite Hnames. split.
  - intros [(v & V & Hk & _) Hp]. split; [by eexists|done].
  - intros [[v Hk] Hp]. split; [|done].
    destruct (Hact n v Hk) as (V & HV & HA). by exists v, V.
Qed.

(** The cold sweep over entries with distinct, allocated wrappers. *)
Lemma iter_cold_exact entries : ∀ m head,
  NoDup (entries.*2) →
  (∀ k v, (k, v) ∈ entries → is_Some (wrappers m !! v)) →
  ∃ names ws',
    iter_entries filter_map_list_cold_cb entries head m =
      Ret names (set_wrappers ws' m) ∧
    (∀ n, n ∈ names ↔
          n ∈ head ∨
          ∃ v V, (n, v) ∈ entries ∧ wrappers m !! v = Some V ∧
                 is_hot V = false ∧ bloomf_is_proxied (filter V) = false) ∧
    (∀ k v V, (k, v) ∈ entries → wrappers m !! v = Some V →
       ws' !! v = Some (set_is_hot false V)) ∧
    (∀ v, v ∉ entries.*2 → ws' !! v = wrappers m !! v).
Proof.
  induction entries as [|[k v] entries IH]; intros m head Hnd Hal.
  - exists head, (wrappers m). split; [by destruct m|].
    split; [|split]; [|by intros ? ? ? ?%elem_of_nil|done].
    intros n. split; [by left|].
    by intros [?|(? & ? & ?%elem_of_nil & _)].
  - rewrite fmap_cons in Hnd. cbn [snd] in Hnd.
    apply NoDup_cons in Hnd as [Hv Hnd].
    destruct (Hal k v) as [V HV]; [by left|].
    cbn [iter_entries].
    rewrite (bind_run _ _ _ _ _ (list_cold_cb_run _ head k _ _ HV)).
    set (m1 := if is_hot V
               then set_wrappers (<[v := set_is_hot false V]> (wrappers m)) m
               else m).
    set (head1 := if is_hot V then head
                  else if bloomf_is_proxied (filter V) then head
                       else k :: head).
    assert (wrappers m1 !! v = Some (set_is_hot false V)) as HV1.
    { unfold m1. destruct (is_hot V) eqn:Hhot.
      - apply lookup_insert_eq.
      - rewrite HV. f_equal. destruct V. simpl in *. by subst. }
    assert (∀ v', v' ≠ v → wrappers m1 !! v' = wrappers m !! v') as Hoth.
    { intros v' Hne. unfold m1. destruct (is_hot V); [|done].
      cbn [wrappers set_wrappers]. by rewrite lookup_insert_ne. }
    assert (∀ k' v', (k', v') ∈ entries → v' ≠ v) as Hrest.
    { intros k' v' Hin ->. apply Hv, list_elem_of_fmap. by exists (k', v). }
    destruct (IH m1 head1 Hnd) as (names & ws' & Hrun & Hnames & Hcool & Hfr).
    { intros k' v' Hin. rewrite Hoth by (by eapply Hrest).
      apply (Hal k' v'). by right. }
    exists names, ws'. split; [|split; [|split]].
    + rewrite Hrun. f_equal. unfold m1. by destruct (is_hot V).
    + intros n. rewrite Hnames. split.
      * intros [Hin|(v' & V' & Hin & HV' & Hhot & Hprox)].
        -- unfold head1 in Hin. destruct (is_hot V) eqn:Hhot; [by left|].
           destruct (bloomf_is_proxied (filter V)) eqn:Hprox; [by left|].
           apply elem_of_cons in Hin as [->|Hin]; [|by left].
           right. exists v, V. split; [by left|done].
        -- right. exists v', V'. split; [by right|].
           rewrite Hoth in HV' by (by eapply Hrest). done.
      * intros [Hin|(v' & V' & Hin & HV' & Hhot & Hprox)].
        -- left. unfold head1. destruct (is_hot V); [done|].
           destruct (bloomf_is_proxied (filter V)); [done|by right].
        -- apply elem_of_cons in Hin as [[= -> ->]|Hin].
           ++ left. unfold head1. assert (V' = V) as -> by congruence.
              rewrite Hhot, Hprox. by left.
           ++ right. exists v', V'. split; [done|].
              rewrite Hoth by (by eapply Hrest). done.
    + intros k' v' V' [[= -> ->]|Hin]%elem_of_cons HV'.
      * assert (V' = V) as -> by congruence. by rewrite Hfr.
      * apply (Hcool k' v' V' Hin). rewrite Hoth by (by eapply Hrest). done.
    + intros v' Hv'. rewrite fmap_cons in Hv'.
      apply not_elem_of_cons in Hv' as [Hne Hv']. cbn [snd] in Hne.
      rewrite (Hfr v' Hv'). by apply Hoth.
Qed.

Lemma index_values_distinct (fm : gmap string nat) :
  (∀ k1 k2 v, fm !! k1 = Some v → fm !! k2 = Some v → k1 = k2) →
  NoDup ((map_to_list fm).*2).
Proof.
  intros Hinj. apply NoDup_fmap_2_strong; [|apply NoDup_map_to_list].
  intros [k1 v1] [k2 v2] H1%elem_of_map_to_list H2%elem_of_map_to_list Heq.
  simpl in Heq. subst v2. f_equal. by eapply Hinj.
Qed.

(** [filtmgr_list_cold_filters] on an index whose wrappers are allocated
    and distinct. *)
Lemma list_cold_run m a lv :
  latest m = Some a →
  versions m !! a = Some lv →
  (∀ k v, filter_map lv !! k = Some v → is_Some (wrappers m !! v)) →
  (∀ k1 k2 v, filter_map lv !! k1 = Some v → filter_map lv !! k2 = Some v →
     k1 = k2) →
  ∃ names ws',
    filtmgr_list_cold_filters m = Ret (0, names) (set_wrappers ws' m) ∧
    NoDup names ∧
    (∀ n, n ∈ names ↔
          ∃ v V, filter_map lv !! n = Some v ∧ wrappers m !! v = Some V ∧
                 is_hot V = false ∧ bloomf_is_proxied (filter V) = false) ∧
    (∀ k v V, filter_map lv !! k = Some v → wrappers m !! v = Some V →
       ws' !! v = Some (set_is_hot false V)) ∧
    (∀ v, (∀ k, filter_map lv !! k ≠ Some v) → ws' !! v = wrappers m !! v).
Proof.
  intros Hl Hv Hal Hinj.
  destruct (iter_cold_exact (map_to_list (filter_map lv)) m [])
    as (names & ws' & Hrun & Hnames & Hcool & Hfr).
  { by apply index_values_distinct. }
  { intros k v Hin%elem_of_map_to_list. by eapply Hal. }
  exists names, ws'. split; [|split; [|split; [|split]]].
  - unfold filtmgr_list_cold_filters. rewrite get_bind, Hl.
    rewrite (bind_run _ _ _ _ _ (deref_vsn_run _ _ _ Hv)).
    unfold art_iter. by rewrite (bind_run _ _ _ _ _ Hrun).
  - eapply (iter_entries_NoDup _ list_cold_cb_shape); [exact Hrun|].
    apply (NoDup_fst_map_to_list (filter_map lv)).
  - intros n. rewrite Hnames. split.
    + intros [Hin|(v & V & Hk%elem_of_map_to_list & HV)];
        [by apply elem_of_nil in Hin|]. by exists v, V.
    + intros (v & V & Hk & HV). right. exists v, V.
      split; [by apply elem_of_map_to_list|done].
  - intros k v V Hk HV. apply (Hcool k v V); [|done].
    by apply elem_of_map_to_list.
  - intros v Hv'. apply Hfr.
    intros ([k v'] & -> & Hk%elem_of_map_to_list)%list_elem_of_fmap.
    by apply (Hv' k).
Qed.

(** X13.  [filtmgr_list_cold_filters], on an index whose wrappers are
    allocated and distinct, returns 0.  The list holds each name once,
    and a name is on it if and only if its wrapper in the index of
    [latest] was not hot and its filter is not proxied -- whether the
    wrapper is active or not.  Afterwards every wrapper of the index is
    cold and nothing else has changed, so that a second sweep right after
    the first lists every filter of the index that is not proxied, and
    changes nothing. *)
Theorem list_cold_filters_exact m a lv :
  latest m = Some a →
  versions m !! a = Some lv →
  (∀ k v, filter_map lv !! k = Some v → is_Some (wrappers m !! v)) →
  (∀ k1 k2 v, filter_map lv !! k1 = Some v → filter_map lv !! k2 = Some v →
     k1 = k2) →
  ∃ names ws' names2,
    filtmgr_list_cold_filters m = Ret (0, names) (set_wrappers ws' m) ∧
    NoDup names ∧
    (∀ n, n ∈ names ↔
          ∃ v V, filter_map lv !! n = Some v ∧ wrappers m !! v = Some V ∧
                 is_hot V = false ∧ bloomf_is_proxied (filter V) = false) ∧
    (∀ k v V, filter_map lv !! k = Some v → wrappers m !! v = Some V →
       ws' !! v = Some (set_is_hot false V)) ∧
    (∀ v, (∀ k, filter_map lv !! k ≠ Some v) → ws' !! v = wrappers m !! v) ∧
    filtmgr_list_cold_filters (set_wrappers ws' m)
      = Ret (0, names2) (set_wrappers ws' m) ∧
    (∀ n, n ∈ names2 ↔
          ∃ v V, filter_map lv !! n = Some v ∧ wrappers m !! v = Some V ∧
                 bloomf_is_proxied (filter V) = false).
Proof.
  intros Hl Hv Hal Hinj.
  destruct (list_cold_run m a lv Hl Hv Hal Hinj)
    as (names & ws' & Hrun & Hnd & Hnames & Hcool & Hfr).
  assert (∀ k v, filter_map lv !! k = Some v →
            is_Some (wrappers (set_wrappers ws' m) !! v)) as Hal'.
  { intros k v Hk. destruct (Hal k v Hk) as [V HV].
    cbn [wrappers set_wrappers]. rewrite (Hcool k v V Hk HV). by eexists. }
  destruct (list_cold_run (set_wrappers ws' m) a lv Hl Hv Hal' Hinj)
    as (names2 & ws2 & Hrun2 & _ & Hnames2 & Hcool2 & Hfr2).
  cbn [wrappers set_wrappers] in *.
  assert (ws2 = ws') as ->.
  { apply map_eq. intros v.
    destruct (decide (v ∈ (map_to_list (filter_map lv)).*2)) as [Hin|Hnk].
    - apply list_elem_of_fmap in Hin
        as ([k v'] & -> & Hk%elem_of_map_to_list). cbn [snd].
      destruct (Hal k v' Hk) as [V HV].
      pose proof (Hcool k v' V Hk HV) as Hv'.
      by rewrite (Hcool2 k v' _ Hk Hv'), Hv'.
    - apply Hfr2. intros k Hk. apply Hnk, list_elem_of_fmap.
      exists (k, v). split; [done|]. by apply elem_of_map_to_list. }
  exists names, ws', names2.
  split; [done|]. split; [done|]. split; [done|]. split; [done|].
  split; [done|]. split.
  - rewrite Hrun2. by destruct m.
  - intros n. rewrite Hnames2. split.
    + intros (v & V' & Hk & HV' & _ & Hprox).
      destruct (Hal n v) as [V HV]; [done|].
      rewrite (Hcool n v V Hk HV) in HV'. injection HV' as <-.
      by exists v, V.
    + intros (v & V & Hk & HV & Hprox).
      exists v, (set_is_hot false V). by rewrite (Hcool n v V Hk HV).
Qed.

End ListingsExact.

(** ** A dropped filter is out of reach *)

Section Gone.
Context {bloom_filter : Type} `{!FilterOps bloom_filter}.
Implicit Types m : @bloom_filtmgr bloom_filter.

(** The calls that take a filter by name, on a name [take_filter] does
    not resolve. *)
Lemma calls_without_filter m name :
  take_filter (latest m) name m = Ret None m →
  filtmgr_flush_filter name m = Ret (-1) m ∧
  filtmgr_unmap_filter name m = Ret (-1) m ∧
  (∀ cb, filtmgr_filter_cb name cb m = Ret (-1) m) ∧
  (∀ keys num_keys result,
     filtmgr_check_keys name keys num_keys result m = Ret (-1, result) m ∧
     filtmgr_set_keys name keys num_keys result m = Ret (-1, result) m) ∧
  (∀ r, filtmgr_drop_filter name r m = Ret (-1) m) ∧
  (∀ r, filtmgr_clear_filter name r m = Ret (-1) m).
Proof.
  intros Htake.
  unfold filtmgr_flush_filter, filtmgr_unmap_filter, filtmgr_filter_cb,
    filtmgr_check_keys, filtmgr_set_keys.
  setoid_rewrite drop_filter_unfold. setoid_rewrite clear_filter_unfold.
  repeat split; intros; by rewrite get_bind, (bind_run _ _ _ _ _ Htake).
Qed.

(** X14.  Once [filtmgr_drop_filter] has returned 0 for a name, the
    filter is out of reach of every call: on the manager the drop
    leaves, the flush, the unmap, the callback, both key batches, a
    second drop and a clear of that name return -1 and change nothing,
    and no listing by [filtmgr_list_filters] holds the name.  The other
    names of the index resolve to the wrappers they resolved to
    before. *)
Theorem dropped_filter_is_gone m a lv name w W :
  latest m = Some a →
  versions m !! a = Some lv →
  index_ok (wrappers m) (filter_map lv) →
  filter_map lv !! name = Some w →
  wrappers m !! w = Some W →
  ∃ m1,
    filtmgr_drop_filter name 0 m = Ret 0 m1 ∧
    filtmgr_flush_filter name m1 = Ret (-1) m1 ∧
    filtmgr_unmap_filter name m1 = Ret (-1) m1 ∧
    (∀ cb, filtmgr_filter_cb name cb m1 = Ret (-1) m1) ∧
    (∀ keys num_keys result,
       filtmgr_check_keys name keys num_keys result m1
         = Ret (-1, result) m1 ∧
       filtmgr_set_keys name keys num_keys result m1
         = Ret (-1, result) m1) ∧
    (∀ r, filtmgr_drop_filter name r m1 = Ret (-1) m1) ∧
    (∀ r, filtmgr_clear_filter name r m1 = Ret (-1) m1) ∧
    (∀ pfx, ∃ names,
       filtmgr_list_filters pfx m1 = Ret (0, names) m1 ∧ name ∉ names) ∧
    (∀ name', name' ≠ name →
       take_filter (latest m) name' m = Ret (filter_map lv !! name') m ∧
       take_filter (latest m1) name' m1 = Ret (filter_map lv !! name') m1).
Proof.
  intros Hl Hv Hi Hn HW. pose proof Hi as [Hal Hinj].
  assert (is_active W = true) as Hact.
  { destruct (Hal name w Hn) as (W' & HW' & ?). congruence. }
  set (m1 := retired m a lv w W name true).
  set (nv := mk_vsn (u64_add (vsn lv) 1) (delete name (filter_map lv))
                    None (Some a)).
  assert (latest m1 = Some (fresh (dom (versions m)))) as Hl1 by done.
  assert (versions m1 !! fresh (dom (versions m)) = Some nv) as Hv1.
  { unfold m1, retired. cbn [versions].
    rewrite lookup_insert_ne; [apply lookup_insert_eq|].
    intros E. pose proof (fresh_vsn_None m) as Hf. congruence. }
  assert (∀ k v, filter_map nv !! k = Some v →
            k ≠ name ∧ filter_map lv !! k = Some v ∧ v ≠ w ∧
            wrappers m1 !! v = wrappers m !! v) as Hidx.
  { intros k v Hk. unfold nv in Hk. cbn [filter_map] in Hk.
    apply lookup_delete_Some in Hk as [Hne Hk].
    assert (v ≠ w) as Hvw by (intros ->; apply Hne; by eapply Hinj).
    split; [done|]. split; [done|]. split; [done|].
    unfold m1, retired. cbn [wrappers]. by rewrite lookup_insert_ne. }
  assert (take_filter (latest m1) name m1 = Ret None m1) as Htake.
  { apply (take_filter_none m1 (fresh (dom (versions m))) nv); [done..|].
    left. apply lookup_delete_eq. }
  destruct (calls_without_filter m1 name Htake)
    as (Hflush & Hunmap & Hcb & Hkeys & Hdrop & Hclear).
  exists m1. split; [by apply drop_filter_run|].
  split; [done|]. split; [done|]. split; [done|]. split; [done|].
  split; [done|]. split; [done|]. split.
  - intros pfx.
    destruct (list_filters_run m1 (fresh (dom (versions m))) nv pfx Hl1 Hv1)
      as (names & Hrun & _ & Hnames).
    { intros k v (_ & Hk & _ & ->)%Hidx.
      destruct (Hal k v Hk) as (V & -> & _). by eexists. }
    exists names. split; [done|].
    intros [(v & V & Hk & _) _]%Hnames.
    cbn [filter_map nv] in Hk. by rewrite lookup_delete_eq in Hk.
  - intros name' Hne. split; [by apply (take_filter_wf m a lv)|].
    rewrite Hl1, (take_filter_run _ _ _ _ Hv1). cbn [filter_map nv].
    rewrite lookup_delete_ne by done.
    destruct (filter_map lv !! name') as [v|] eqn:Hk; [|done].
    destruct (Hidx name' v) as (_ & _ & _ & ->).
    { cbn [filter_map nv]. by rewrite lookup_delete_ne. }
    by destruct (Hal name' v Hk) as (V & -> & ->).
Qed.

End Gone.

(** ** What the loader builds *)

Section LoaderExact.
Context {bloom_filter : Type} `{!FilterOps bloom_filter}.
Implicit Types m : @bloom_filtmgr bloom_filter.

Lemma set_filter_map_twice fm fm' (v : filtmgr_vsn) :
  set_filter_map fm (set_filter_map fm' v) = set_filter_map fm v.
Proof. done. Qed.

(** The loop of the loader: a wrapper for each folder whose filter can be
    initialised, under the name of the folder without its prefix; the
    wrapper is active, cold, not to be deleted and has no configuration
    of its own. *)
Lemma load_loop_exact init names : ∀ m a v,
  latest m = Some a →
  versions m !! a = Some v →
  ∃ m' fm,
    load_loop names init m = Ret tt m' ∧
    latest m' = Some a ∧ config m' = config m ∧
    clients m' = clients m ∧ trace m' = trace m ∧
    versions m' = <[a := set_filter_map fm v]> (versions m) ∧
    (∀ k, is_Some (fm !! k) ↔
          is_Some (filter_map v !! k) ∨
          ∃ fo, fo ∈ names ∧ k = str_drop FOLDER_PREFIX_LEN fo ∧
                is_Some (init k)) ∧
    (∀ fo f, fo ∈ names → init (str_drop FOLDER_PREFIX_LEN fo) = Some f →
       ∃ w, fm !! str_drop FOLDER_PREFIX_LEN fo = Some w ∧
            wrappers m !! w = None ∧
            wrappers m' !! w = Some (mk_wrapper true false false f None)) ∧
    (∀ k, (∀ fo, fo ∈ names → k = str_drop FOLDER_PREFIX_LEN fo →
                 init k = None) →
          fm !! k = filter_map v !! k) ∧
    (∀ w W, wrappers m !! w = Some W → wrappers m' !! w = Some W).
Proof.
  induction names as [|fo0 names IH]; intros m a v Hl Hv.
  - exists m, (filter_map v). split; [done|]. repeat split; try done.
    + destruct v. cbn. by rewrite insert_id.
    + by left.
    + by intros [?|(? & ?%elem_of_nil & _)].
    + by intros ? ? ?%elem_of_nil.
  - set (k0 := str_drop FOLDER_PREFIX_LEN fo0).
    cbn [load_loop]. fold k0. setoid_rewrite get_bind. rewrite Hl.
    destruct (init k0) as [f0|] eqn:Hinit.
    + setoid_rewrite (bind_run _ _ _ _ _ (add_filter_run m a v k0 (config m)
                                         false f0 Hv)).
      rewrite decide_True by done.
      set (w0 := fresh (dom (wrappers m))).
      set (W0 := mk_wrapper true false false f0 None).
      set (v1 := set_filter_map (<[k0 := w0]> (filter_map v)) v).
      set (m1 := mk_mgr _ _ _ _ _ _).
      assert (wrappers m !! w0 = None) as Hfw by apply fresh_wrapper_None.
      destruct (IH m1 a v1) as
        (m' & fm & Hrun & Hl' & Hcfg & Hcs & Htr & Hvs & Hkeys & Hnew & Hold
         & Hws); [done|apply lookup_insert_eq|].
      exists m', fm. split; [done|]. split; [done|]. split; [done|].
      split; [done|]. split; [done|]. split; [|split; [|split; [|split]]].
      * rewrite Hvs. unfold m1, v1. cbn [versions].
        by rewrite insert_insert_eq, set_filter_map_twice.
      * intros k. rewrite Hkeys. unfold v1. cbn [filter_map set_filter_map].
        destruct (decide (k = k0)) as [->|Hne].
        -- rewrite lookup_insert_eq. split; [|by left; eexists].
           intros _. right. exists fo0. split; [by left|].
           split; [done|]. rewrite Hinit. by eexists.
        -- rewrite lookup_insert_ne by done. split.
           ++ intros [?|(fo & Hfo & Hk & Hi)]; [by left|].
              right. exists fo. split; [by right|done].
           ++ intros [?|(fo & [->|Hfo]%elem_of_cons & Hk & Hi)];
                [by left|done|].
              right. by exists fo.
      * intros fo f Hfo Hf.
        destruct (decide (str_drop FOLDER_PREFIX_LEN fo
                          ∈ str_drop FOLDER_PREFIX_LEN <$> names))
          as [Hin|Hnin].
        -- apply list_elem_of_fmap in Hin as (fo' & Heq & Hfo').
           destruct (Hnew fo' f Hfo') as (w & Hk & Hnone & Hsome);
             [by rewrite <- Heq|].
           exists w. rewrite Heq. split; [done|]. split; [|done].
           unfold m1 in Hnone. cbn [wrappers] in Hnone.
           destruct (decide (w = w0)) as [->|Hne];
             [by rewrite lookup_insert_eq in Hnone|].
           by rewrite lookup_insert_ne in Hnone.
        -- apply elem_of_cons in Hfo as [->|Hfo].
           2:{ destruct Hnin. by apply list_elem_of_fmap_2. }
           fold k0 in Hf, Hnin |- *.
           assert (f = f0) as -> by congruence.
           exists w0. split; [|split; [done|]].
           ++ rewrite Hold; [apply lookup_insert_eq|].
              intros fo Hfo Hk. destruct Hnin. rewrite Hk.
              by apply list_elem_of_fmap_2.
           ++ apply Hws. apply lookup_insert_eq.
      * intros k Hk. assert (k ≠ k0) as Hne.
        { intros ->. specialize (Hk fo0). rewrite Hk in Hinit; [done| |done].
          by left. }
        rewrite Hold.
        -- unfold v1. cbn [filter_map set_filter_map].
           by rewrite lookup_insert_ne.
        -- intros fo Hfo. apply Hk. by right.
      * intros w W HW. apply Hws. unfold m1. cbn [wrappers].
        rewrite lookup_insert_ne; [done|congruence].
    + setoid_rewrite (bind_run _ _ _ _ _ (add_filter_init_fails m (Some a) k0
                                         (config m) false)).
      destruct (IH m a v Hl Hv) as
        (m' & fm & Hrun & Hl' & Hcfg & Hcs & Htr & Hvs & Hkeys & Hnew & Hold
         & Hws).
      exists m', fm. split; [done|]. split; [done|]. split; [done|].
      split; [done|]. split; [done|]. split; [done|].
      split; [|split; [|split; [|done]]].
      * intros k. rewrite Hkeys. split.
        -- intros [?|(fo & Hfo & Hk & Hi)]; [by left|].
           right. exists fo. split; [by right|done].
        -- intros [?|(fo & [->|Hfo]%elem_of_cons & Hk & Hi)]; [by left| |].
           ++ fold k0 in Hk. subst k. rewrite Hinit in Hi. by destruct Hi.
           ++ right. by exists fo.
      * intros fo f [->|Hfo]%elem_of_cons Hf; [|by apply Hnew].
        fold k0 in Hf. congruence.
      * intros k Hk. apply Hold. intros fo Hfo. apply Hk. by right.
Qed.

(** [load_existing_filters] on the manager the initializer has
    allocated. *)
Lemma load_existing_filters_exact cfg dir init :
  ∃ r m fm,
    load_existing_filters dir init (fresh_manager cfg) = Ret r m ∧
    config m = cfg ∧ clients m = [] ∧ trace m = [] ∧
    latest m = Some O ∧
    versions m = {[ O := mk_vsn 0 fm None None ]} ∧
    (∀ k, is_Some (fm !! k) ↔
          ∃ entries folder,
            dir = Some entries ∧ folder ∈ entries ∧
            filter_bloomd_folders folder = 1 ∧
            k = str_drop FOLDER_PREFIX_LEN folder ∧ is_Some (init k)) ∧
    (∀ k w, fm !! k = Some w →
       ∃ f, init k = Some f ∧
            wrappers m !! w = Some (mk_wrapper true false false f None)) ∧
    (scandir dir filter_bloomd_folders = None →
     m = fresh_manager cfg ∧ fm = ∅).
Proof.
  unfold load_existing_filters.
  destruct dir as [entries|]; cbn [scandir].
  - set (namelist := List.filter _ entries).
    assert (∀ fo, fo ∈ namelist ↔
                  fo ∈ entries ∧ filter_bloomd_folders fo = 1) as Hkept.
    { intros fo. unfold namelist.
      rewrite list_elem_of_In, filter_In, <- list_elem_of_In.
      destruct (filter_bloomd_folders_01 fo) as [-> | ->]; simpl;
        split; intros [? ?]; done. }
    destruct (load_loop_exact init namelist (fresh_manager cfg) O
                (mk_vsn 0 ∅ None None))
      as (m & fm & Hrun & Hl & Hcfg & Hcs & Htr & Hvs & Hkeys & Hnew & Hold
          & Hws); [done|apply lookup_singleton_eq|].
    exists 0, m, fm. split; [|split; [done|split; [done|split; [done|]]]].
    { rewrite bind_eq, Hrun. done. }
    split; [done|]. split; [|split; [|split; [|done]]].
    + rewrite Hvs. cbn. apply insert_singleton_eq.
    + intros k. rewrite Hkeys. cbn [filter_map]. split.
      * intros [[? Hk]|(fo & [Hfo Hkeep]%Hkept & Hk & Hi)];
          [by rewrite lookup_empty in Hk|].
        by exists entries, fo.
      * intros (en & fo & [= <-] & Hfo & Hkeep & Hk & Hi).
        right. exists fo. split; [by apply Hkept|done].
    + intros k w Hk.
      assert (is_Some (fm !! k)) as [[? He]|(fo & Hfo & -> & [f Hf])]%Hkeys
        by (by eexists).
      { cbn in He. by rewrite lookup_empty in He. }
      exists f. split; [done|].
      destruct (Hnew fo f Hfo Hf) as (w' & Hk' & _ & HW'). congruence.
  - exists (-1), (fresh_manager cfg), ∅.
    do 6 (split; [done|]). split; [|split; [|done]].
    + intros k. split.
      * intros [? Hk]. by rewrite lookup_empty in Hk.
      * by intros (? & ? & ? & _).
    + intros k w Hk. by rewrite lookup_empty in Hk.
Qed.

(** X15.  [init_filter_manager] has three outcomes.  When
    [init_art_tree] fails it returns -1 at once: the manager struct is
    freed, the version that was allocated is not, and no filter is
    loaded.  Otherwise it loads the filters, whatever the directory scan
    gives -- a failed scan leaves the manager empty, and its error is not
    passed on.  The manager loaded has the configuration it was given,
    no client, and a single version, numbered 0, with no [prev] and
    nothing parked.  A name is in the index of that version if and only
    if the scan gave a folder that the folder filter keeps, whose name
    without its first seven bytes is that name, and for which
    [init_bloom_filter] succeeded: a folder whose filter cannot be
    initialised is skipped and the load goes on.  Every wrapper of the
    index is active, cold, not marked for deletion, holds the filter
    [init_bloom_filter] gave for its name and has no configuration of its
    own.  When [pthread_create] then succeeds the call returns 0 with
    that manager; when it fails the call returns 1 with what
    [destroy_filter_manager] leaves of that manager: the version and the
    wrappers of its index are freed, and every filter that was loaded
    has been closed, none deleted. *)
Theorem init_filter_manager_spec cfg art_init_res dir init thread_res :
  (art_init_res ≠ 0 →
   init_filter_manager cfg art_init_res dir init thread_res
     = Ret (-1) (fresh_manager cfg)) ∧
  (art_init_res = 0 →
   ∃ m fm,
     config m = cfg ∧ clients m = [] ∧ trace m = [] ∧
     latest m = Some O ∧
     versions m = {[ O := mk_vsn 0 fm None None ]} ∧
     (∀ k, is_Some (fm !! k) ↔
           ∃ entries folder,
             dir = Some entries ∧ folder ∈ entries ∧
             filter_bloomd_folders folder = 1 ∧
             k = str_drop FOLDER_PREFIX_LEN folder ∧ is_Some (init k)) ∧
     (∀ k w, fm !! k = Some w →
        ∃ f, init k = Some f ∧
             wrappers m !! w = Some (mk_wrapper true false false f None)) ∧
     (scandir dir filter_bloomd_folders = None →
      m = fresh_manager cfg ∧ fm = ∅) ∧
     (thread_res = 0 →
      init_filter_manager cfg art_init_res dir init thread_res = Ret 0 m) ∧
     (thread_res ≠ 0 →
      ∃ m',
        init_filter_manager cfg art_init_res dir init thread_res = Ret 1 m' ∧
        destroy_filter_manager m = Ret 0 m' ∧
        versions m' = ∅ ∧ clients m' = [] ∧
        (∀ k w, fm !! k = Some w → wrappers m' !! w = None) ∧
        trace m' = close_log (wrappers m) (map_to_list fm) ∧
        (∀ k w f, fm !! k = Some w → init k = Some f →
           Ev_bloomf_close f ∈ trace m') ∧
        (∀ e, e ∈ trace m' → is_bloomf_delete e = false))).
Proof.
  split.
  - intros Ha. unfold init_filter_manager.
    by destruct (Z.eqb_spec art_init_res 0).
  - intros ->.
    destruct (load_existing_filters_exact cfg dir init)
      as (r & m & fm & Hload & Hcfg & Hcs & Htr & Hl & Hvs & Hkeys & Hws
          & Hfail).
    assert (init_filter_manager cfg 0 dir init 0 = Ret 0 m) as Hinit0.
    { unfold init_filter_manager. cbn [Z.eqb negb].
      by rewrite (bind_run _ _ _ _ _ Hload). }
    exists m, fm. do 8 (split; [done|]). split.
    + by intros ->.
    + intros Ht.
      assert (is_chain (versions m) (latest m) [(O, mk_vsn 0 fm None None)])
        as Hc.
      { rewrite Hl, Hvs. split; [done|].
        split; [apply lookup_singleton_eq|done]. }
      assert (index_ok (wrappers m) fm) as Hi.
      { destruct (init_filter_manager_wf _ _ _ _ _ _ Hinit0)
          as (a & lv & l & Hc' & _ & Hi & _).
        pose proof (is_chain_det _ _ _ _ Hc' Hc) as Heq.
        by injection Heq as -> -> ->. }
      assert (parked_ok (wrappers m) []) as Hp.
      { split; [constructor|]. by intros w ?%elem_of_nil. }
      pose proof (destroy_filter_manager_run m O (mk_vsn 0 fm None None) []
                    Hc eq_refl Hi Hp) as Hd.
      eexists. split; [|split; [exact Hd|]].
      { unfold init_filter_manager. cbn [Z.eqb negb].
        rewrite (bind_run _ _ _ _ _ Hload).
        destruct (Z.eqb_spec thread_res 0); [done|]. cbn [negb].
        by rewrite (bind_run _ _ _ _ _ Hd). }
      cbn [versions clients wrappers trace filter_map].
      assert (trace m ++ close_log (wrappers m) (map_to_list fm)
                ++ parked_log (wrappers m) []
              = close_log (wrappers m) (map_to_list fm)) as ->.
      { rewrite Htr. cbn. by rewrite app_nil_r. }
      split; [|split; [done|split; [|split; [done|split]]]].
      * rewrite Hvs. cbn. apply delete_singleton_eq.
      * intros k w Hk. apply free_wrappers_lookup_in, elem_of_app. right.
        apply list_elem_of_fmap. exists (k, w).
        split; [done|]. by apply elem_of_map_to_list.
      * intros k w f Hk Hf. destruct (Hws k w Hk) as (f' & Hf' & HW).
        assert (f' = f) as -> by congruence.
        unfold close_log. apply list_elem_of_In, in_flat_map.
        exists (k, w).
        split; [by apply list_elem_of_In, elem_of_map_to_list|].
        cbn [snd]. rewrite HW. by left.
      * intros e. apply close_log_no_delete.
Qed.

End LoaderExact.

(** ** Nothing is allocated that [latest] does not reach *)

Section Tight.
Context {bloom_filter : Type} `{!FilterOps bloom_filter}.
Implicit Types m : @bloom_filtmgr bloom_filter.
Implicit Types ws : gmap nat (@bloom_filter_wrapper bloom_filter).
Implicit Types l : list (nat * filtmgr_vsn).

Lemma same_active_dom ws ws' w :
  same_active ws ws' → is_Some (ws' !! w) → is_Some (ws !! w).
Proof.
  intros Hs [W' HW']. specialize (Hs w). rewrite HW' in Hs.
  destruct (ws !! w); [by eexists|done].
Qed.

Lemma mgr_tight_reshape m ws' :
  same_active (wrappers m) ws' → mgr_tight m → mgr_tight (set_wrappers ws' m).
Proof.
  intros Hs (a & lv & l & Hc & Hvs & Hws).
  exists a, lv, l. split; [done|]. split; [done|].
  intros w Hw. apply Hws. by eapply same_active_dom.
Qed.

Lemma mgr_tight_clients m cs : mgr_tight m → mgr_tight (set_clients cs m).
Proof. intros (a & lv & l & H). by exists a, lv, l. Qed.

Lemma tweaks_filter_tight m m' :
  tweaks_filter m m' → mgr_tight m → mgr_tight m'.
Proof.
  intros [->|(w & W & f & HW & ->)] Ht; [done|].
  apply mgr_tight_reshape; [|done]. by eapply same_active_insert.
Qed.

(** The chain of a manager that satisfies the three invariants. *)
Lemma tight_chain n m :
  chain_inv n m → mgr_wf m → mgr_tight m →
  ∃ a lv l,
    is_chain (versions m) (latest m) ((a, lv) :: l) ∧
    vsn_increasing ((a, lv) :: l) ∧
    deleted lv = None ∧
    index_ok (wrappers m) (filter_map lv) ∧
    parked_ok (wrappers m) l ∧
    (∀ b, is_Some (versions m !! b) → b ∈ ((a, lv) :: l).*1) ∧
    (∀ w, is_Some (wrappers m !! w) →
       (∃ k, filter_map lv !! k = Some w) ∨ w ∈ chain_deleted l).
Proof.
  intros Hci Hwf (a0 & lv0 & l0 & Hc0 & Hvs & Hws).
  destruct (wf_chain n m Hci Hwf) as (a & lv & l & Hc & Hs & _ & Hd & Hi & Hp).
  pose proof (is_chain_det _ _ _ _ Hc0 Hc) as [= -> -> ->].
  by exists a, lv, l.
Qed.

(** [filtmgr_create_filter] returns 0 only for a name that is not in the
    index. *)
Lemma create_filter_fresh_name m a lv name cc r init_res m' :
  latest m = Some a → versions m !! a = Some lv →
  filtmgr_create_filter name cc r init_res m = Ret 0 m' →
  filter_map lv !! name = None.
Proof.
  intros Hl Hv. unfold filtmgr_create_filter. rewrite get_bind, Hl.
  rewrite (bind_run _ _ _ _ _ (deref_vsn_run _ _ _ Hv)).
  by destruct (filter_map lv !! name).
Qed.

Lemma mgr_tight_create m a lv l name f c :
  is_chain (versions m) (latest m) ((a, lv) :: l) →
  deleted lv = None →
  filter_map lv !! name = None →
  (∀ b, is_Some (versions m !! b) → b ∈ ((a, lv) :: l).*1) →
  (∀ w, is_Some (wrappers m !! w) →
     (∃ k, filter_map lv !! k = Some w) ∨ w ∈ chain_deleted l) →
  mgr_tight (mk_mgr (config m) (Some (fresh (dom (versions m)))) (clients m)
               (<[fresh (dom (versions m)) :=
                    mk_vsn (u64_add (vsn lv) 1)
                           (<[name := fresh (dom (wrappers m))]>
                              (filter_map lv))
                           None (Some a)]> (versions m))
               (<[fresh (dom (wrappers m)) := mk_wrapper true true false f c]>
                  (wrappers m))
               (trace m)).
Proof.
  intros Hc Hd Hn Hvs Hws. pose proof Hc as (Hl & Hv & _).
  assert (versions m !! fresh (dom (versions m)) = None) as Hfa
    by apply fresh_vsn_None.
  eexists _, _, ((a, lv) :: l). split; [|split].
  - cbn [versions latest]. split; [done|].
    split; [apply lookup_insert_eq|]. cbn [prev].
    apply is_chain_insert_fresh; [done|]. by rewrite <- Hl.
  - cbn [versions]. intros b Hb. rewrite fmap_cons. cbn [fst].
    destruct (decide (b = fresh (dom (versions m)))) as [->|Hne];
      [by left|].
    right. apply Hvs. by rewrite lookup_insert_ne in Hb.
  - cbn [wrappers filter_map]. intros w Hw.
    rewrite chain_deleted_cons, Hd.
    destruct (decide (w = fresh (dom (wrappers m)))) as [->|Hne].
    + left. exists name. apply lookup_insert_eq.
    + rewrite lookup_insert_ne in Hw by done.
      destruct (Hws w Hw) as [[k Hk]|Hin]; [|by right].
      left. exists k. rewrite lookup_insert_ne; [done|congruence].
Qed.

Lemma mgr_tight_retire m a lv l w W name del :
  is_chain (versions m) (latest m) ((a, lv) :: l) →
  filter_map lv !! name = Some w →
  wrappers m !! w = Some W →
  (∀ b, is_Some (versions m !! b) → b ∈ ((a, lv) :: l).*1) →
  (∀ w, is_Some (wrappers m !! w) →
     (∃ k, filter_map lv !! k = Some w) ∨ w ∈ chain_deleted l) →
  mgr_tight (retired m a lv w W name del).
Proof.
  intros Hc Hn HW Hvs Hws.
  pose proof (retired_chain m a lv l w W name del Hc) as Hc1.
  eexists _, _, _. split; [exact Hc1|]. split.
  - unfold retired. cbn [versions]. intros b Hb.
    rewrite !fmap_cons. cbn [fst].
    destruct (decide (b = fresh (dom (versions m)))) as [->|Hne];
      [by left|]. right.
    destruct (decide (b = a)) as [->|Hne']; [by left|].
    rewrite !lookup_insert_ne in Hb by done.
    apply Hvs in Hb. rewrite fmap_cons in Hb. cbn [fst] in Hb.
    apply elem_of_cons in Hb as [?|?]; [done|by right].
  - unfold retired. cbn [wrappers filter_map]. intros w0 Hw0.
    rewrite chain_deleted_cons. cbn [deleted set_deleted].
    destruct (decide (w0 = w)) as [->|Hne]; [right; by left|].
    rewrite lookup_insert_ne in Hw0 by done.
    destruct (Hws w0 Hw0) as [[k Hk]|Hin]; [|right; by right].
    left. exists k. rewrite lookup_delete_ne; [done|congruence].
Qed.

Lemma clear_last_prev_addrs l : (clear_last_prev l).*1 = l.*1.
Proof.
  induction l as [|[a v] l IH]; [done|].
  cbn [clear_last_prev]. destruct l as [|x l']; [done|].
  rewrite !fmap_cons. by rewrite IH.
Qed.

Lemma clean_state_tight m a lv l min_vsn :
  is_chain (versions m) (latest m) ((a, lv) :: l) →
  vsn_increasing ((a, lv) :: l) →
  min_vsn ≤ vsn lv →
  (∀ b, is_Some (versions m !! b) → b ∈ ((a, lv) :: l).*1) →
  (∀ w, is_Some (wrappers m !! w) →
     (∃ k, filter_map lv !! k = Some w) ∨ w ∈ chain_deleted l) →
  mgr_tight (mk_mgr (config m) (latest m) (clients m)
               (cut_after (survivors min_vsn ((a, lv) :: l))
                  (free_versions (versions m)
                     (reclaimed min_vsn ((a, lv) :: l))))
               (free_wrappers (wrappers m)
                  (chain_deleted (reclaimed min_vsn ((a, lv) :: l))))
               (trace m ++
                reclaim_log (wrappers m) (reclaimed min_vsn ((a, lv) :: l)))).
Proof.
  intros Hc Hs Hmin Hvs Hws.
  pose proof (vsn_increasing_split min_vsn _ Hs) as Hsplit.
  assert (survivors min_vsn ((a, lv) :: l) = (a, lv) :: survivors min_vsn l)
    as HS by (unfold survivors; by rewrite filter_cons_True).
  assert (reclaimed min_vsn ((a, lv) :: l) = reclaimed min_vsn l) as HD.
  { unfold reclaimed. rewrite filter_cons_False; [done|]. simpl. lia. }
  assert (l = survivors min_vsn l ++ reclaimed min_vsn l) as Hl.
  { rewrite HS, HD in Hsplit. by injection Hsplit. }
  destruct (clear_last_prev_head a lv (survivors min_vsn l))
    as (lv' & t & Hclp & Hfm & Hdel & _ & Ht).
  exists a, lv', t. split; [|split].
  - cbn [versions latest]. rewrite <- Hclp, <- HS.
    apply survivors_chain; [by rewrite HS|]. by rewrite <- Hsplit.
  - cbn [versions]. intros b Hb.
    assert ((a, lv') :: t = clear_last_prev (survivors min_vsn ((a, lv) :: l)))
      as -> by (by rewrite HS).
    rewrite clear_last_prev_addrs.
    destruct (decide (b ∈ ((a, lv) :: l).*1)) as [Hin|Hnin].
    + apply list_elem_of_fmap in Hin as ([b' v] & -> & Hin). cbn [fst] in *.
      apply list_elem_of_fmap. exists (b', v). split; [done|].
      apply list_elem_of_filter. split; [|done].
      destruct (Z.le_gt_cases min_vsn (vsn v)) as [|Hlt]; [done|].
      apply (clean_versions_lookup (versions m) (latest m) _ min_vsn b' v Hc
               Hs Hin) in Hlt.
      rewrite Hlt in Hb. by destruct Hb.
    + rewrite clean_versions_frame in Hb by done. by apply Hvs in Hb.
  - cbn [wrappers]. rewrite Hfm, Ht, HD. intros w Hw.
    destruct (decide (w ∈ chain_deleted (reclaimed min_vsn l))) as [Hin|Hnin].
    { rewrite free_wrappers_lookup_in in Hw by done. by destruct Hw. }
    rewrite free_wrappers_lookup_notin in Hw by done.
    destruct (Hws w Hw) as [?|Hin]; [by left|]. right.
    rewrite Hl, chain_deleted_app in Hin.
    by apply elem_of_app in Hin as [?|?].
Qed.

(** Every operation that returns keeps the heap tight. *)
Lemma exec_tight n m o ans m' :
  chain_inv n m → mgr_wf m → mgr_tight m →
  exec o m = Ret ans m' →
  mgr_tight m'.
Proof.
  intros Hci Hwf Ht.
  destruct (tight_chain n m Hci Hwf Ht)
    as (a & lv & l & Hc & Hs & Hd & Hi & Hp & Hvs & Hws).
  pose proof Hc as (Hl & Hv & _).
  destruct o; cbn [exec];
    intros (r & m1 & Hop & [= <- <-])%bind_inv.
  - destruct r. apply checkpoint_inv in Hop as [cs ->].
    by apply mgr_tight_clients.
  - destruct r. apply leave_inv in Hop as [cs ->].
    by apply mgr_tight_clients.
  - eapply tweaks_filter_tight; [|done]. by eapply flush_filter_inv.
  - destruct r as [code result'].
    apply check_keys_inv in Hop as [[_ ->]|(w & W & f & ? & ? & ? & ->)];
      [done|].
    apply mgr_tight_reshape; [|done]. by eapply same_active_insert.
  - destruct r as [code result'].
    apply set_keys_inv in Hop as [[_ ->]|(w & W & f & ? & ? & ? & ->)];
      [done|].
    apply mgr_tight_reshape; [|done]. by eapply same_active_insert.
  - pose proof Hop as Hop'. apply create_filter_inv in Hop
      as [[_ ->]|(a0 & lv0 & f & c & -> & -> & Hl0 & Hv0 & ->)]; [done|].
    assert (a0 = a) as -> by congruence.
    assert (lv0 = lv) as -> by congruence.
    apply (mgr_tight_create m a lv l); try done.
    by eapply create_filter_fresh_name.
  - apply drop_filter_inv in Hop
      as [[_ ->]|(a0 & lv0 & w & W & -> & Hl0 & Hv0 & ? & ? & ->)]; [done|].
    assert (a0 = a) as -> by congruence.
    assert (lv0 = lv) as -> by congruence.
    by apply (mgr_tight_retire m a lv l).
  - eapply tweaks_filter_tight; [|done]. by eapply unmap_filter_inv.
  - apply clear_filter_inv in Hop
      as [[_ ->]|(a0 & lv0 & w & W & -> & Hl0 & Hv0 & ? & ? & ->)]; [done|].
    assert (a0 = a) as -> by congruence.
    assert (lv0 = lv) as -> by congruence.
    by apply (mgr_tight_retire m a lv l).
  - by apply list_filters_inv in Hop as ->.
  - apply list_cold_filters_inv in Hop as (ws' & -> & ?).
    apply mgr_tight_reshape; [|done]. by apply cooled_same_active.
  - eapply tweaks_filter_tight; [|done]. by eapply filter_cb_inv.
  - rewrite (vacuum_run m a lv l Hc Hs Hd Hp) in Hop.
    injection Hop as _ Hm. rewrite <- Hm.
    by apply clean_state_tight.
  - rewrite (thread_pass_run m a lv l Hc Hs Hd Hp) in Hop.
    injection Hop as _ Hm. rewrite <- Hm. destruct (prev lv); [|done].
    apply clean_state_tight; try done. apply min_client_vsn_le.
Qed.

(** The loader on a directory whose entries are distinct. *)

Lemma filter_kept_prefix fo :
  filter_bloomd_folders fo = 1 → String.prefix FOLDER_PREFIX fo = true.
Proof.
  unfold filter_bloomd_folders. destruct (_ <? 8); [done|].
  destruct (Z.eqb_spec (strncmp fo FOLDER_PREFIX FOLDER_PREFIX_LEN) 0)
    as [Hz|]; [|done].
  intros _. by apply (strncmp_prefix FOLDER_PREFIX fo).
Qed.

Lemma str_drop_kept_inj fo1 fo2 :
  filter_bloomd_folders fo1 = 1 → filter_bloomd_folders fo2 = 1 →
  str_drop FOLDER_PREFIX_LEN fo1 = str_drop FOLDER_PREFIX_LEN fo2 →
  fo1 = fo2.
Proof.
  intros H1%filter_kept_prefix%prefix_str_drop
         H2%filter_kept_prefix%prefix_str_drop Heq.
  fold FOLDER_PREFIX_LEN in H1, H2. rewrite H1, H2. by rewrite Heq.
Qed.

Lemma mgr_tight_add m a lv l name cfg hot f :
  is_chain (versions m) (latest m) ((a, lv) :: l) →
  filter_map lv !! name = None →
  (∀ b, is_Some (versions m !! b) → b ∈ ((a, lv) :: l).*1) →
  (∀ w, is_Some (wrappers m !! w) →
     (∃ k, filter_map lv !! k = Some w) ∨ w ∈ chain_deleted l) →
  ∃ m',
    add_filter (latest m) name cfg hot (Some f) m = Ret 0 m' ∧
    mgr_tight m' ∧ latest m' = latest m ∧ config m' = config m ∧
    versions m' =
      <[a := set_filter_map
               (<[name := fresh (dom (wrappers m))]> (filter_map lv)) lv]>
        (versions m).
Proof.
  intros Hc Hn Hvs Hws.
  pose proof (is_chain_NoDup _ _ _ Hc) as Haddr.
  rewrite fmap_cons in Haddr. apply NoDup_cons in Haddr as [Ha0 _].
  pose proof Hc as (Hl & Hv & Hc').
  eexists. split; [rewrite Hl; by apply add_filter_run|].
  split; [|done].
  eexists a, _, l. split; [|split].
  - cbn [versions latest]. split; [done|].
    split; [apply lookup_insert_eq|]. cbn [prev set_filter_map].
    eapply is_chain_ext; [|done]. intros b u Hin.
    pose proof (is_chain_lookup _ _ _ _ _ Hc' Hin) as Hu.
    rewrite lookup_insert_ne; [done|].
    intros <-. apply Ha0, list_elem_of_fmap. by exists (a, u).
  - cbn [versions]. intros b Hb. apply Hvs.
    destruct (decide (b = a)) as [->|Hne]; [by eexists|].
    by rewrite lookup_insert_ne in Hb.
  - cbn [wrappers filter_map set_filter_map]. intros w Hw.
    destruct (decide (w = fresh (dom (wrappers m)))) as [->|Hne].
    + left. exists name. apply lookup_insert_eq.
    + rewrite lookup_insert_ne in Hw by done.
      destruct (Hws w Hw) as [[k Hk]|Hin]; [|by right].
      left. exists k. rewrite lookup_insert_ne; [done|congruence].
Qed.

Lemma load_loop_tight init names : ∀ m a lv l m',
  is_chain (versions m) (latest m) ((a, lv) :: l) →
  (∀ b, is_Some (versions m !! b) → b ∈ ((a, lv) :: l).*1) →
  (∀ w, is_Some (wrappers m !! w) →
     (∃ k, filter_map lv !! k = Some w) ∨ w ∈ chain_deleted l) →
  NoDup (str_drop FOLDER_PREFIX_LEN <$> names) →
  (∀ fo, fo ∈ names →
     filter_map lv !! str_drop FOLDER_PREFIX_LEN fo = None) →
  load_loop names init m = Ret tt m' →
  mgr_tight m'.
Proof.
  induction names as [|fo0 names IH]; intros m a lv l m' Hc Hvs Hws Hnd Hnew H.
  - injection H as <-. by exists a, lv, l.
  - rewrite fmap_cons in Hnd. apply NoDup_cons in Hnd as [Hfo0 Hnd].
    cbn [load_loop] in H. rewrite get_bind in H.
    set (k0 := str_drop FOLDER_PREFIX_LEN fo0) in *.
    destruct (init k0) as [f0|].
    + destruct (mgr_tight_add m a lv l k0 (config m) false f0)
        as (m1 & Hadd & (a1 & lv1 & l1 & Hc1 & Hvs1 & Hws1) & Hl1 & _ & Hv1);
        [done|apply Hnew; by left|done|done|].
      rewrite (bind_run _ _ _ _ _ Hadd) in H.
      apply (IH m1 a1 lv1 l1 m' Hc1 Hvs1 Hws1 Hnd); [|done].
      intros fo Hfo.
      pose proof Hc1 as (Ha1 & Hlv1 & _). pose proof Hc as (Ha & _).
      assert (a1 = a) as -> by congruence.
      rewrite Hv1, lookup_insert_eq in Hlv1. injection Hlv1 as <-.
      cbn [filter_map set_filter_map]. rewrite lookup_insert_ne.
      * apply Hnew. by right.
      * intros Heq. apply Hfo0. rewrite Heq. by apply list_elem_of_fmap_2.
    + rewrite (bind_run _ _ _ _ _ (add_filter_init_fails _ _ _ _ _)) in H.
      apply (IH m a lv l m' Hc Hvs Hws Hnd); [|done].
      intros fo Hfo. apply Hnew. by right.
Qed.

Lemma init_filter_manager_tight cfg art_init_res dir init thread_res m :
  (∀ entries, dir = Some entries → NoDup entries) →
  init_filter_manager cfg art_init_res dir init thread_res = Ret 0 m →
  mgr_tight m.
Proof.
  intros Hdir (_ & _ & H)%init_filter_manager_returns_0. revert H.
  unfold load_existing_filters.
  intros (r' & m1 & Hload & [= <-])%bind_inv.
  assert (@mgr_tight bloom_filter (fresh_manager cfg) ∧
          is_chain (versions (@fresh_manager bloom_filter cfg))
            (latest (@fresh_manager bloom_filter cfg))
            [(O, mk_vsn 0 ∅ None None)]) as [Hfresh Hc].
  { assert (is_chain (versions (@fresh_manager bloom_filter cfg))
              (latest (@fresh_manager bloom_filter cfg))
              [(O, mk_vsn 0 ∅ None None)]) as Hc.
    { split; [done|]. split; [apply lookup_singleton_eq|done]. }
    split; [|done]. exists O, (mk_vsn 0 ∅ None None), [].
    split; [done|]. split.
    - intros b [v Hb]. cbn in Hb.
      apply lookup_singleton_Some in Hb as [<- _]. by left.
    - intros w [W HW]. cbn in HW. by rewrite lookup_empty in HW. }
  destruct dir as [entries|]; cbn [scandir] in Hload;
    [|by injection Hload as _ <-].
  apply bind_inv in Hload as ([] & m2 & Hloop & [= _ <-]).
  eapply (load_loop_tight _ _ _ O (mk_vsn 0 ∅ None None) []);
    [exact Hc| | | | |exact Hloop].
  - intros b [v Hb]. cbn in Hb.
    apply lookup_singleton_Some in Hb as [<- _]. by left.
  - intros w [W HW]. cbn in HW. by rewrite lookup_empty in HW.
  - apply NoDup_fmap_2_strong.
    + intros fo1 fo2 [_ H1]%list_elem_of_In%filter_In
             [_ H2]%list_elem_of_In%filter_In.
      apply str_drop_kept_inj.
      * destruct (filter_bloomd_folders_01 fo1) as [E|E]; [|done].
        by rewrite E in H1.
      * destruct (filter_bloomd_folders_01 fo2) as [E|E]; [|done].
        by rewrite E in H2.
    + eapply sublist_NoDup; [by apply Hdir|]. apply filter_sublist.
  - intros fo _. apply lookup_empty.
Qed.

Lemma steps_tight cfg art_init_res dir init thread_res m0 n m :
  (∀ entries, dir = Some entries → NoDup entries) →
  init_filter_manager cfg art_init_res dir init thread_res = Ret 0 m0 →
  steps n m0 m →
  Z.of_nat n < 2 ^ 64 →
  reachable_in n m ∧ mgr_tight m.
Proof.
  intros Hdir Hinit Hst. revert Hinit.
  induction Hst as [|n m0 m o a m' Hst IH Hex]; intros Hinit Hn.
  - split; [by eapply reachable_init|].
    by eapply init_filter_manager_tight.
  - destruct IH as [Hreach Ht]; [done|lia|].
    split; [by eapply reachable_step|].
    eapply (exec_tight n); [|by apply (reachable_wf n); [|lia]|done|done].
    apply reachable_chain_inv; [done|lia].
Qed.

(** [destroy_filter_manager] on a well-formed, tight heap leaves nothing
    allocated. *)
Lemma destroy_empty m :
  mgr_wf m → mgr_tight m →
  ∃ m', destroy_filter_manager m = Ret 0 m' ∧
        versions m' = ∅ ∧ wrappers m' = ∅ ∧ clients m' = [] ∧
        config m' = config m.
Proof.
  intros (a & lv & l & Hc & Hd & Hi & Hp) (a0 & lv0 & l0 & Hc0 & Hvs & Hws).
  pose proof (is_chain_det _ _ _ _ Hc0 Hc) as [= -> -> ->].
  eexists. split; [by apply (destroy_filter_manager_run m a lv l)|].
  cbn [versions wrappers clients config]. split; [|split; [|done]].
  - apply map_empty. intros b.
    destruct (decide (b ∈ ((a, lv) :: l).*1)) as [Hin|Hnin].
    + by apply free_versions_lookup_in.
    + rewrite free_versions_lookup_notin by done.
      destruct (versions m !! b) eqn:E; [|done].
      destruct Hnin. apply Hvs. by eexists.
  - apply map_empty. intros w.
    destruct (decide (w ∈ chain_deleted l ++ (map_to_list (filter_map lv)).*2))
      as [Hin|Hnin].
    + by apply free_wrappers_lookup_in.
    + rewrite free_wrappers_lookup_notin by done.
      destruct (wrappers m !! w) eqn:E; [|done].
      destruct Hnin. apply elem_of_app.
      destruct (Hws w) as [[k Hk]|Hin]; [by eexists| |by left].
      right. apply list_elem_of_fmap. exists (k, w).
      split; [done|]. by apply elem_of_map_to_list.
Qed.

(** X16.  The manager leaks nothing.  Started on a directory whose entries
    are distinct (or whose scan failed), after fewer than 2^64 operations
    every allocated version is on the chain from [latest], and every
    allocated wrapper is either in the index of [latest] or parked on an
    older version of the chain: what create, drop and clear allocate, the
    vacuum and a failed create free again. *)
Theorem no_leak_invariant cfg art_init_res dir init thread_res m0 n m :
  (∀ entries, dir = Some entries → NoDup entries) →
  init_filter_manager cfg art_init_res dir init thread_res = Ret 0 m0 →
  steps n m0 m →
  Z.of_nat n < 2 ^ 64 →
  ∃ a lv l,
    is_chain (versions m) (latest m) ((a, lv) :: l) ∧
    (∀ b, is_Some (versions m !! b) ↔ b ∈ ((a, lv) :: l).*1) ∧
    (∀ w, is_Some (wrappers m !! w) ↔
          (∃ k, filter_map lv !! k = Some w) ∨ w ∈ chain_deleted l).
Proof.
  intros Hdir Hinit Hst Hn.
  destruct (steps_tight cfg art_init_res dir init thread_res m0 n m
              Hdir Hinit Hst Hn) as [Hreach Ht].
  pose proof (reachable_wf n m Hreach Hn) as Hwf.
  destruct Hwf as (a & lv & l & Hc & Hd & [Hal _] & [_ Hpk]).
  destruct Ht as (a0 & lv0 & l0 & Hc0 & Hvs & Hws).
  pose proof (is_chain_det _ _ _ _ Hc0 Hc) as [= -> -> ->].
  exists a, lv, l. split; [done|]. split.
  - intros b. split; [apply Hvs|].
    intros ([b' v] & -> & Hin)%list_elem_of_fmap. cbn [fst].
    rewrite (is_chain_lookup _ _ _ _ _ Hc Hin). by eexists.
  - intros w. split; [apply Hws|].
    intros [[k Hk]|Hin].
    + destruct (Hal k w Hk) as (W & -> & _). by eexists.
    + destruct (Hpk w Hin) as (W & -> & _). by eexists.
Qed.

(** X17.  Started on a directory whose entries are distinct (or whose
    scan failed), after fewer than 2^64 operations
    [destroy_filter_manager] returns 0 and leaves the heap empty: every
    version and every wrapper that was allocated has been freed, once,
    and so have the client records. *)
Theorem destroy_frees_everything cfg art_init_res dir init thread_res m0 n m :
  (∀ entries, dir = Some entries → NoDup entries) →
  init_filter_manager cfg art_init_res dir init thread_res = Ret 0 m0 →
  steps n m0 m →
  Z.of_nat n < 2 ^ 64 →
  ∃ m', destroy_filter_manager m = Ret 0 m' ∧
        versions m' = ∅ ∧ wrappers m' = ∅ ∧ clients m' = [].
Proof.
  intros Hdir Hinit Hst Hn.
  destruct (steps_tight cfg art_init_res dir init thread_res m0 n m
              Hdir Hinit Hst Hn) as [Hreach Ht].
  destruct (destroy_empty m (reachable_wf n m Hreach Hn) Ht)
    as (m' & Hrun & Hvs & Hws & Hcs & _).
  by exists m'.
Qed.

End Tight.

(** ** Edge cases *)

Section Edges.
Context {bloom_filter : Type} `{!FilterOps bloom_filter}.
Implicit Types m : @bloom_filtmgr bloom_filter.
Implicit Types l : list (nat * filtmgr_vsn).

(** X18.  A batch without keys ([num_keys] zero or negative) on an active
    filter makes no call to the filter and writes no result: both
    [filtmgr_check_keys] and [filtmgr_set_keys] return 0 with the result
    array as the caller passed it, whatever the key array holds.  The
    wrapper is marked hot all the same, and nothing else changes. *)
Theorem empty_batch m a lv name w W keys num_keys result :
  latest m = Some a →
  versions m !! a = Some lv →
  filter_map lv !! name = Some w →
  wrappers m !! w = Some W →
  is_active W = true →
  num_keys ≤ 0 →
  filtmgr_check_keys name keys num_keys result m =
    Ret (0, result)
        (set_wrappers
           (<[w := mk_wrapper true true (should_delete W) (filter W)
                              (custom W)]> (wrappers m)) m) ∧
  filtmgr_set_keys name keys num_keys result m =
    Ret (0, result)
        (set_wrappers
           (<[w := mk_wrapper true true (should_delete W) (filter W)
                              (custom W)]> (wrappers m)) m).
Proof.
  intros Hl Hv Hn HW Hact Hz.
  assert (Z.to_nat num_keys = O) as Hnat by lia.
  rewrite (check_keys_run _ _ _ _ _ _ _ _ _ Hl Hv Hn HW Hact).
  rewrite (set_keys_run _ _ _ _ _ _ _ _ _ Hl Hv Hn HW Hact).
  rewrite Hnat. cbn [check_loop set_loop Z.eqb].
  unfold set_is_hot, set_filter. cbn. by rewrite Hact.
Qed.

(** X19.  [filtmgr_vacuum] is idempotent: on a chain whose numbers
    increase and whose parked wrappers are allocated and distinct, a
    second vacuum right after the first changes nothing, and neither
    does a pass of the vacuum thread.  When no client is registered, a
    pass of the vacuum thread does exactly what [filtmgr_vacuum] does. *)
Theorem vacuum_idempotent m a lv l :
  is_chain (versions m) (latest m) ((a, lv) :: l) →
  vsn_increasing ((a, lv) :: l) →
  NoDup (chain_deleted l) →
  (∀ w, w ∈ chain_deleted l → is_Some (wrappers m !! w)) →
  ∃ m1,
    filtmgr_vacuum m = Ret tt m1 ∧
    filtmgr_vacuum m1 = Ret tt m1 ∧
    filtmgr_thread_pass m1 = Ret tt m1 ∧
    (clients m = [] → filtmgr_thread_pass m = Ret tt m1).
Proof.
  intros Hc Hs Hnd Hal. pose proof Hc as (Hl & Hv & Hc').
  eexists. split; [by apply (vacuum_exact m a lv l)|].
  set (m1 := mk_mgr _ _ _ _ _ _).
  assert (versions m1 !! a = Some (set_prev None lv)) as Hv1
    by apply lookup_insert_eq.
  assert (is_chain (versions m1) (latest m1) [(a, set_prev None lv)]) as Hc1
    by done.
  assert (filtmgr_vacuum m1 = Ret tt m1) as Hvac.
  { rewrite (vacuum_exact m1 a (set_prev None lv) [] Hc1);
      [|repeat constructor|constructor|by intros ? ?%elem_of_nil].
    unfold m1. cbn. by rewrite insert_insert_eq, app_nil_r. }
  split; [done|]. split.
  - unfold filtmgr_thread_pass. rewrite get_bind.
    destruct Hc1 as (Hl1 & _). rewrite Hl1.
    by rewrite (bind_run _ _ _ _ _ (deref_vsn_run _ _ _ Hv1)).
  - intros Hcs. unfold filtmgr_thread_pass. rewrite get_bind, Hl.
    rewrite (bind_run _ _ _ _ _ (deref_vsn_run _ _ _ Hv)).
    rewrite Hcs. cbn [min_client_vsn].
    pose proof (vacuum_exact m a lv l Hc Hs Hnd Hal) as Hrun.
    fold m1 in Hrun. unfold filtmgr_vacuum in Hrun.
    rewrite get_bind, Hl in Hrun.
    rewrite (bind_run _ _ _ _ _ (deref_vsn_run _ _ _ Hv)) in Hrun.
    destruct (prev lv) as [p|] eqn:Hprev; [done|].
    assert (l = []) as ->.
    { destruct l as [|[b u] l']; [done|]. destruct Hc' as (? & _).
      congruence. }
    unfold m1. cbn. rewrite app_nil_r, set_prev_None_id by done.
    rewrite insert_id by done. by destruct m.
Qed.

End Edges.

(** * The further properties at work on concrete managers *)

Local Open Scope Z_scope.

Lemma toy_created_reachable : reachable_in 1 toy_created.
Proof.
  apply (reachable_step 0 (fresh_manager 7)
           (Op_create "foo" None 0 (toy_init ["bad"] "foo")) (A_code 0));
    [|vm_compute; reflexivity].
  apply (reachable_init 7 0 (Some []) (toy_init []) 0).
  vm_compute. reflexivity.
Qed.

(** [toy_two_clients] is reached by a create, a checkpoint of thread 5,
    a drop and a checkpoint of thread 6. *)
Lemma toy_two_clients_reachable : reachable_in 4 toy_two_clients.
Proof.
  apply (reachable_step 3 toy_watched (Op_checkpoint 6) A_unit);
    [|vm_compute; reflexivity].
  apply (reachable_step 2 (set_clients [mk_client 5 1] toy_created)
           (Op_drop "foo" 0) (A_code 0)); [|vm_compute; reflexivity].
  apply (reachable_step 1 toy_created (Op_checkpoint 5) A_unit);
    [|vm_compute; reflexivity].
  apply toy_created_reachable.
Qed.

Lemma toy_dropped_steps : steps 2 (fresh_manager 7) toy_dropped.
Proof.
  apply (steps_step 1 _ toy_created (Op_drop "foo" 0) (A_code 0));
    [|vm_compute; reflexivity].
  apply (steps_step 0 _ (fresh_manager 7)
           (Op_create "foo" None 0 (toy_init ["bad"] "foo")) (A_code 0));
    [|vm_compute; reflexivity].
  apply steps_refl.
Qed.

Lemma toy_dropped_latest : latest toy_dropped = Some 2%nat.
Proof. reflexivity. Qed.

Lemma toy_dropped_version : versions toy_dropped !! 2%nat = Some toy_v2.
Proof. vm_compute. reflexivity. Qed.

Lemma toy_older_parked : parked_ok (wrappers toy_dropped) toy_older.
Proof.
  split; [apply NoDup_singleton|].
  intros w ->%list_elem_of_singleton. eexists.
  split; [vm_compute; reflexivity|reflexivity].
Qed.

Lemma toy_created_chain :
  is_chain (versions toy_created) (latest toy_created)
           [(1%nat, toy_v1); (O, toy_v0)].
Proof. vm_compute. repeat split; reflexivity. Qed.

Lemma toy_created_increasing : vsn_increasing [(1%nat, toy_v1); (O, toy_v0)].
Proof. repeat constructor; simpl; lia. Qed.

Lemma toy_created_parked : parked_ok (wrappers toy_created) [(O, toy_v0)].
Proof. split; [constructor|]. by intros w ?%elem_of_nil. Qed.

Lemma toy_created_index :
  index_ok (wrappers toy_created) (filter_map toy_v1).
Proof.
  unfold toy_v1. cbn [filter_map]. split.
  - intros k w [_ <-]%lookup_singleton_Some. exists toy_wrapper.
    split; [apply toy_created_wrapper|reflexivity].
  - intros k1 k2 w [<- _]%lookup_singleton_Some [<- _]%lookup_singleton_Some.
    reflexivity.
Qed.

(** The heap of [toy_dropped] is well formed; ["foo"] is out of its
    index. *)
Lemma heap_shape_witness :
  reachable_in 2 toy_dropped ∧ Z.of_nat 2 < 2 ^ 64 ∧
  mgr_wf toy_dropped ∧
  take_filter (latest toy_dropped) "foo" toy_dropped = Ret None toy_dropped.
Proof.
  assert (Z.of_nat 2 < 2 ^ 64) as Hn by (simpl; lia).
  destruct (heap_shape_invariant 2 toy_dropped toy_dropped_reachable Hn)
    as (Hwf & a & lv & Hl & Hv & Htake).
  split; [apply toy_dropped_reachable|]. split; [exact Hn|].
  split; [exact Hwf|].
  rewrite Htake. rewrite toy_dropped_latest in Hl. injection Hl as <-.
  rewrite toy_dropped_version in Hv. injection Hv as <-. reflexivity.
Defined.

(** A batch on [toy_created] returns. *)
Lemma operations_return_witness :
  reachable_in 1 toy_created ∧ Z.of_nat 1 < 2 ^ 64 ∧
  op_ok (Op_set_keys "foo" ["a"]%string 1 [9] : @op toy_filter) ∧
  ∃ ans m',
    exec (Op_set_keys "foo" ["a"]%string 1 [9]) toy_created = Ret ans m'.
Proof.
  assert (Z.of_nat 1 < 2 ^ 64) as Hn by (simpl; lia).
  assert (op_ok (Op_set_keys "foo" ["a"]%string 1 [9] : @op toy_filter))
    as Hok by (simpl; lia).
  split; [apply toy_created_reachable|]. split; [exact Hn|].
  split; [exact Hok|].
  exact (operations_return 1 toy_created _ toy_created_reachable Hn Hok).
Defined.

(** Teardown of [toy_dropped]: the three versions and the parked wrapper
    of ["foo"] are freed, and the dropped filter is deleted. *)
Lemma destroy_filter_manager_witness :
  mgr_wf toy_dropped ∧
  ∃ m',
    destroy_filter_manager toy_dropped = Ret 0 m' ∧
    versions m' !! O = None ∧ versions m' !! 1%nat = None ∧
    versions m' !! 2%nat = None ∧ wrappers m' !! O = None ∧
    trace m' =
      [Ev_bloomf_delete (mk_toy "foo" false false [] ["bad"]);
       Ev_destroy_bloom_filter (mk_toy "foo" false false [] ["bad"])].
Proof.
  assert (mgr_wf toy_dropped) as Hwf.
  { apply (reachable_wf 2 _ toy_dropped_reachable). simpl. lia. }
  split; [exact Hwf|].
  destruct (destroy_filter_manager_spec toy_dropped Hwf)
    as (a & lv & l & m' & Hc & Hrun & _ & Hfreed & _ & _ & Hpk & _ & Htr & _).
  pose proof (is_chain_det _ _ _ _ Hc toy_dropped_chain) as [= -> -> ->].
  exists m'. split; [exact Hrun|].
  split; [apply Hfreed; right; right; by left|].
  split; [apply Hfreed; right; by left|].
  split; [apply Hfreed; by left|].
  split; [apply Hpk; by left|].
  rewrite Htr. vm_compute. reflexivity.
Defined.

(** A pass of the vacuum thread on [toy_watched], whose client is at
    version 1: version 0 is freed, version 1 and the wrapper parked on it
    are kept. *)
Lemma thread_pass_witness :
  is_chain (versions toy_watched) (latest toy_watched)
           ((2%nat, toy_v2) :: toy_older) ∧
  vsn_increasing ((2%nat, toy_v2) :: toy_older) ∧
  deleted toy_v2 = None ∧
  parked_ok (wrappers toy_watched) toy_older ∧
  ∃ m',
    filtmgr_thread_pass toy_watched = Ret tt m' ∧
    versions m' !! O = None ∧
    is_Some (versions m' !! 1%nat) ∧ is_Some (wrappers m' !! O).
Proof.
  assert (is_chain (versions toy_watched) (latest toy_watched)
            ((2%nat, toy_v2) :: toy_older)) as Hc
    by apply toy_dropped_chain.
  assert (vsn_increasing ((2%nat, toy_v2) :: toy_older)) as Hs
    by apply toy_chain_increasing.
  assert (parked_ok (wrappers toy_watched) toy_older) as Hp
    by apply toy_older_parked.
  split; [exact Hc|]. split; [exact Hs|]. split; [reflexivity|].
  split; [exact Hp|].
  destruct (thread_pass_reclaims toy_watched 2%nat toy_v2 toy_older
              Hc Hs eq_refl Hp)
    as (m' & Hrun & _ & _ & _ & Hfreed & _ & Hpk & _).
  exists m'. split; [exact Hrun|].
  assert (versions m' !! O = None) as H0.
  { apply (Hfreed O toy_v0); [right; right; by left|].
    split; [simpl; lia|].
    intros c ->%list_elem_of_singleton. simpl. lia. }
  assert (is_Some (versions m' !! 1%nat)) as H1.
  { destruct (versions m' !! 1%nat) eqn:E; [by eexists|].
    apply (Hfreed 1%nat toy_v1_parked) in E as [_ E]; [|right; by left].
    specialize (E (mk_client 5 1)). simpl in E.
    assert (1 < 1) by (apply E; by left). lia. }
  split; [exact H0|]. split; [exact H1|].
  destruct (Hpk 1%nat toy_v1_parked O) as [Hiff Hsame];
    [by left|reflexivity|].
  destruct Hsame as [E|E].
  - apply Hiff in E. rewrite E in H1. by destruct H1.
  - rewrite E. vm_compute. by eexists.
Defined.

(** The registry of [toy_two_clients]: thread 6 is at version 2, the
    number of [latest], and thread 5 at version 1, which is the threshold
    of the vacuum thread. *)
Lemma client_registry_invariant_witness :
  reachable_in 4 toy_two_clients ∧ Z.of_nat 4 < 2 ^ 64 ∧
  clients toy_two_clients = [mk_client 6 2; mk_client 5 1] ∧
  NoDup (id <$> clients toy_two_clients) ∧
  (∀ c, c ∈ clients toy_two_clients → cl_vsn c ≤ 2) ∧
  min_client_vsn (clients toy_two_clients) 2 = 1 ∧
  ∃ c, c ∈ clients toy_two_clients ∧
       min_client_vsn (clients toy_two_clients) 2 = cl_vsn c.
Proof.
  assert (Z.of_nat 4 < 2 ^ 64) as Hn by (simpl; lia).
  destruct (client_registry_invariant 4 toy_two_clients
              toy_two_clients_reachable Hn)
    as (Hnd & a & lv & Hl & Hv & Hle & Hlt & _ & Hatt).
  assert (a = 2%nat) as -> by (by injection Hl).
  assert (lv = toy_v2) as ->.
  { assert (versions toy_two_clients !! 2%nat = Some toy_v2) as Hv2
      by (vm_compute; reflexivity).
    rewrite Hv2 in Hv. by injection Hv. }
  change (vsn toy_v2) with 2 in Hle, Hlt, Hatt.
  split; [apply toy_two_clients_reachable|]. split; [exact Hn|].
  split; [reflexivity|]. split; [exact Hnd|]. split; [exact Hle|].
  split; [|apply Hatt; discriminate].
  assert (0 < min_client_vsn (clients toy_two_clients) 2) as H0.
  { apply Hlt. split; [lia|].
    intros c [->|[->|[]%elem_of_nil]%elem_of_cons]%elem_of_cons;
      simpl; lia. }
  assert (¬ 1 < min_client_vsn (clients toy_two_clients) 2) as H1.
  { intros [_ H]%Hlt. specialize (H (mk_client 5 1)). simpl in H.
    assert (1 < 1) by (apply H; right; by left). lia. }
  lia.
Defined.

(** Thread 5 checkpoints on [toy_dropped] and leaves again. *)
Lemma client_registry_spec_witness :
  latest toy_dropped = Some 2%nat ∧
  versions toy_dropped !! 2%nat = Some toy_v2 ∧
  NoDup (id <$> clients toy_dropped) ∧
  ∃ cs,
    filtmgr_client_checkpoint 5 toy_dropped
      = Ret tt (set_clients cs toy_dropped) ∧
    mk_client 5 2 ∈ cs ∧
    filtmgr_client_leave 5 (set_clients cs toy_dropped) = Ret tt toy_dropped.
Proof.
  assert (NoDup (id <$> clients toy_dropped)) as Hnd by constructor.
  split; [reflexivity|]. split; [apply toy_dropped_version|].
  split; [exact Hnd|].
  destruct (client_registry_spec toy_dropped 2%nat toy_v2 5%nat
              toy_dropped_latest toy_dropped_version Hnd)
    as (cs & cs' & Hcp & _ & Hcs & Hleave & _ & _ & Hback).
  exists cs. split; [exact Hcp|]. split; [apply Hcs; by left|].
  rewrite Hleave. f_equal. apply Hback. apply not_elem_of_nil.
Defined.

(** Clearing ["foo"] in [toy_created], whose filter is not proxied, and
    ["p"] in [toy_proxied_mgr], whose filter is. *)
Lemma clear_filter_witness :
  latest toy_created = Some 1%nat ∧
  versions toy_created !! 1%nat = Some toy_v1 ∧
  filter_map toy_v1 !! "foo"%string = Some O ∧
  wrappers toy_created !! O = Some toy_wrapper ∧
  is_active toy_wrapper = true ∧
  bloomf_is_proxied (filter toy_wrapper) = false ∧
  filtmgr_clear_filter "foo" 0 toy_created = Ret (-2) toy_created ∧
  filtmgr_clear_filter "bar" 0 toy_created = Ret (-1) toy_created ∧
  ∃ m', filtmgr_clear_filter "p" 0 toy_proxied_mgr = Ret 0 m' ∧
        (∃ W, wrappers m' !! O = Some W ∧ is_active W = false ∧
              should_delete W = false) ∧
        latest m' = Some 2%nat.
Proof.
  destruct (clear_filter_spec toy_created 1%nat toy_v1 "foo"
              toy_created_latest toy_created_version) as [Hfoo _].
  destruct (clear_filter_spec toy_created 1%nat toy_v1 "bar"
              toy_created_latest toy_created_version) as [_ Hbar].
  destruct (Hfoo O toy_wrapper eq_refl toy_created_wrapper eq_refl)
    as [_ Hno].
  split; [reflexivity|]. split; [apply toy_created_version|].
  split; [reflexivity|]. split; [apply toy_created_wrapper|].
  split; [reflexivity|]. split; [reflexivity|].
  split; [exact (Hno eq_refl 0)|].
  split; [apply Hbar; left; reflexivity|].
  assert (versions toy_proxied_mgr !! 1%nat =
          Some (mk_vsn 1 {[ "p"%string := O ]} None (Some O))) as Hv
    by (vm_compute; reflexivity).
  assert (wrappers toy_proxied_mgr !! O =
          Some (mk_wrapper true true false (mk_toy "p" false true [] [])
                           (Some 9%nat))) as HW
    by (vm_compute; reflexivity).
  destruct (clear_filter_spec toy_proxied_mgr 1%nat _ "p" eq_refl Hv)
    as [Hp _].
  destruct (Hp O _ eq_refl HW eq_refl) as [Hyes _].
  eexists. split; [exact (Hyes eq_refl)|]. split; [|reflexivity].
  eexists. split; [vm_compute; reflexivity|]. split; reflexivity.
Defined.

(** Creating ["foo"] in a fresh manager, with and without a filter that
    can be initialised. *)
Lemma create_filter_outcomes_witness :
  latest (fresh_manager 7 : @bloom_filtmgr toy_filter) = Some O ∧
  versions (fresh_manager 7 : @bloom_filtmgr toy_filter) !! O = Some toy_v0 ∧
  filter_map toy_v0 !! "foo"%string = None ∧
  nul_free "foo" = true ∧
  filtmgr_create_filter "foo" None 0 (toy_init ["bad"] "foo")
    (fresh_manager 7) = Ret 0 toy_created ∧
  filtmgr_create_filter "foo" None 0 None
    (fresh_manager 7 : @bloom_filtmgr toy_filter) = Ret (-2) (fresh_manager 7).
Proof.
  assert (versions (fresh_manager 7 : @bloom_filtmgr toy_filter) !! O
          = Some toy_v0) as Hv by (vm_compute; reflexivity).
  assert (is_chain (versions (fresh_manager 7 : @bloom_filtmgr toy_filter))
            (prev toy_v0) []) as Hc by reflexivity.
  assert (deleted_ok (wrappers (fresh_manager 7 : @bloom_filtmgr toy_filter))
            []) as Hok by (by intros ? ? ? ?%elem_of_nil).
  assert (¬ has_pending
              (wrappers (fresh_manager 7 : @bloom_filtmgr toy_filter))
              [] "foo") as Hnp
    by (by intros (? & ? & ? & ? & ?%elem_of_nil & _)).
  destruct (create_filter_outcomes (fresh_manager 7) O toy_v0 [] "foo" None
              eq_refl Hv eq_refl Hc Hok eq_refl Hnp)
    as (Hyes & Hno & _).
  split; [reflexivity|]. split; [exact Hv|]. split; [reflexivity|].
  split; [reflexivity|]. split; [|exact Hno].
  unfold toy_init. rewrite Hyes. vm_compute. reflexivity.
Defined.

(** Flush, callback and unmap on ["foo"] and on ["bar"] in
    [toy_created]. *)
Lemma filter_access_witness :
  latest toy_created = Some 1%nat ∧
  versions toy_created !! 1%nat = Some toy_v1 ∧
  filter_map toy_v1 !! "foo"%string = Some O ∧
  wrappers toy_created !! O = Some toy_wrapper ∧
  is_active toy_wrapper = true ∧
  filtmgr_flush_filter "foo" toy_created = Ret 0 toy_created ∧
  filtmgr_unmap_filter "foo" toy_created = Ret 0 toy_created ∧
  filtmgr_flush_filter "bar" toy_created = Ret (-1) toy_created ∧
  filtmgr_filter_cb "bar" (λ _ f, f) toy_created = Ret (-1) toy_created.
Proof.
  destruct (filter_access_spec toy_created 1%nat toy_v1 "foo"
              toy_created_latest toy_created_version) as [Hfoo _].
  destruct (filter_access_spec toy_created 1%nat toy_v1 "bar"
              toy_created_latest toy_created_version) as [_ Hbar].
  destruct (Hfoo O toy_wrapper eq_refl toy_created_wrapper eq_refl)
    as (Hflush & _ & Hunmap).
  destruct Hbar as (Hflush' & Hcb' & _); [left; reflexivity|].
  split; [reflexivity|]. split; [apply toy_created_version|].
  split; [reflexivity|]. split; [apply toy_created_wrapper|].
  split; [reflexivity|].
  split; [rewrite Hflush; vm_compute; reflexivity|].
  split; [rewrite Hunmap; vm_compute; reflexivity|].
  split; [exact Hflush'|apply Hcb'].
Defined.

(** Dropping ["foo"] in [toy_created] and vacuuming: the filter is
    deleted. *)
Lemma retired_filter_witness :
  is_chain (versions toy_created) (latest toy_created)
           [(1%nat, toy_v1); (O, toy_v0)] ∧
  vsn_increasing [(1%nat, toy_v1); (O, toy_v0)] ∧
  0 ≤ vsn toy_v1 < 2 ^ 64 - 1 ∧
  deleted toy_v1 = None ∧
  parked_ok (wrappers toy_created) [(O, toy_v0)] ∧
  filter_map toy_v1 !! "foo"%string = Some O ∧
  wrappers toy_created !! O = Some toy_wrapper ∧
  is_active toy_wrapper = true ∧
  ∃ m1 m2,
    filtmgr_drop_filter "foo" 0 toy_created = Ret 0 m1 ∧
    filtmgr_vacuum m1 = Ret tt m2 ∧
    trace m2 = [Ev_bloomf_delete (mk_toy "foo" false false [] ["bad"]);
                Ev_destroy_bloom_filter (mk_toy "foo" false false [] ["bad"])]
    ∧ wrappers m2 !! O = None ∧ versions m2 !! 1%nat = None.
Proof.
  assert (0 ≤ vsn toy_v1 < 2 ^ 64 - 1) as Hb by (simpl; lia).
  destruct (retired_filter_reclaimed toy_created 1%nat toy_v1 [(O, toy_v0)]
              "foo" O toy_wrapper toy_created_chain toy_created_increasing
              Hb eq_refl toy_created_parked eq_refl toy_created_wrapper
              eq_refl)
    as ((m1 & Hdrop & Hvac) & _ & Hvs & Hws).
  split; [apply toy_created_chain|].
  split; [apply toy_created_increasing|]. split; [exact Hb|].
  split; [reflexivity|]. split; [apply toy_created_parked|].
  split; [reflexivity|]. split; [apply toy_created_wrapper|].
  split; [reflexivity|].
  exists m1. eexists. split; [exact Hdrop|]. split; [exact Hvac|].
  split; [vm_compute; reflexivity|]. split; [apply Hws|].
  apply Hvs. by left.
Defined.


Lemma toy_created_allocated :
  ∀ k v, filter_map toy_v1 !! k = Some v →
         is_Some (wrappers toy_created !! v).
Proof.
  intros k v Hk. destruct toy_created_index as [Hal _].
  destruct (Hal k v Hk) as (W & HW & _). by eexists.
Qed.

Lemma toy_created_one_name :
  ∀ k1 k2 v, filter_map toy_v1 !! k1 = Some v →
             filter_map toy_v1 !! k2 = Some v → k1 = k2.
Proof. apply toy_created_index. Qed.

Lemma toy_dir_NoDup :
  ∀ entries : list string, Some [] = Some entries → NoDup entries.
Proof. intros entries [= <-]. constructor. Qed.

Lemma toy_fresh_init :
  init_filter_manager 7 0 (Some []) (toy_init []) 0
    = Ret 0 (fresh_manager 7).
Proof. vm_compute. reflexivity. Qed.

(** The three outcomes of [init_filter_manager] on the directory of
    [toy_loaded]: -1 when [init_art_tree] answers 5; 0 and [toy_loaded]
    when the thread starts; 1, with the filter ["f"] closed and nothing
    left allocated, when [pthread_create] answers 11. *)
Lemma init_filter_manager_witness :
  init_filter_manager 7 5 toy_dir (toy_init ["bad"]) 0
    = Ret (-1) (fresh_manager 7) ∧
  init_filter_manager 7 0 toy_dir (toy_init ["bad"]) 0 = Ret 0 toy_loaded ∧
  ∃ m',
    init_filter_manager 7 0 toy_dir (toy_init ["bad"]) 11 = Ret 1 m' ∧
    versions m' = ∅ ∧ wrappers m' = ∅ ∧ clients m' = [] ∧
    trace m' = [Ev_bloomf_close (mk_toy "f" false false [] ["bad"]);
                Ev_destroy_bloom_filter (mk_toy "f" false false [] ["bad"])].
Proof.
  destruct (init_filter_manager_spec 7 5 toy_dir (toy_init ["bad"]) 0)
    as [Hfail _].
  destruct (init_filter_manager_spec 7 0 toy_dir (toy_init ["bad"]) 0)
    as [_ Hok].
  destruct (init_filter_manager_spec 7 0 toy_dir (toy_init ["bad"]) 11)
    as [_ Hthread].
  split; [apply Hfail; discriminate|].
  destruct (Hok eq_refl) as (m & fm & _ & _ & _ & _ & _ & _ & _ & _ & H0 & _).
  specialize (H0 eq_refl).
  split.
  { rewrite H0. f_equal.
    assert (init_filter_manager 7 0 toy_dir (toy_init ["bad"]) 0
            = Ret 0 toy_loaded) as Hc by (vm_compute; reflexivity).
    rewrite Hc in H0. by injection H0. }
  destruct (Hthread eq_refl)
    as (m1 & fm1 & _ & _ & _ & _ & _ & _ & _ & _ & _ & H1).
  destruct H1 as (m' & Hrun & _ & Hvs & Hcs & _); [discriminate|].
  exists m'. split; [exact Hrun|]. split; [exact Hvs|].
  assert (init_filter_manager 7 0 toy_dir (toy_init ["bad"]) 11
          = Ret 1 (mk_mgr 7 (Some O) [] ∅ ∅
                     [Ev_bloomf_close (mk_toy "f" false false [] ["bad"]);
                      Ev_destroy_bloom_filter
                        (mk_toy "f" false false [] ["bad"])])) as Hc
    by (vm_compute; reflexivity).
  rewrite Hc in Hrun. injection Hrun as <-.
  split; [reflexivity|]. split; [reflexivity|reflexivity].
Defined.

(** The listing of [toy_created] under the prefix ["f"] holds ["foo"]. *)
Lemma list_filters_witness :
  latest toy_created = Some 1%nat ∧
  versions toy_created !! 1%nat = Some toy_v1 ∧
  (∀ k v, filter_map toy_v1 !! k = Some v →
          is_Some (wrappers toy_created !! v)) ∧
  ∃ names,
    filtmgr_list_filters (Some "f"%string) toy_created
      = Ret (0, names) toy_created ∧
    "foo"%string ∈ names ∧ "bar"%string ∉ names.
Proof.
  split; [reflexivity|]. split; [apply toy_created_version|].
  split; [apply toy_created_allocated|].
  destruct (list_filters_exact toy_created 1%nat toy_v1 (Some "f"%string)
              toy_created_latest toy_created_version toy_created_allocated)
    as (names & Hrun & _ & _ & Hix).
  specialize (Hix toy_created_index).
  exists names. split; [exact Hrun|]. split.
  - apply Hix. split; [by eexists|reflexivity].
  - intros Hbar. apply Hix in Hbar as [[v Hv] _].
    unfold toy_v1 in Hv. cbn [filter_map] in Hv.
    by apply lookup_singleton_Some in Hv as [[=] _].
Defined.

(** ["foo"] is hot in [toy_created]: the first sweep for cold filters
    leaves it out and cools it, the second reports it. *)
Lemma list_cold_filters_witness :
  latest toy_created = Some 1%nat ∧
  versions toy_created !! 1%nat = Some toy_v1 ∧
  (∀ k v, filter_map toy_v1 !! k = Some v →
          is_Some (wrappers toy_created !! v)) ∧
  (∀ k1 k2 v, filter_map toy_v1 !! k1 = Some v →
              filter_map toy_v1 !! k2 = Some v → k1 = k2) ∧
  ∃ names ws' names2,
    filtmgr_list_cold_filters toy_created
      = Ret (0, names) (set_wrappers ws' toy_created) ∧
    ("foo"%string ∉ names) ∧
    ws' !! O = Some (set_is_hot false toy_wrapper) ∧
    filtmgr_list_cold_filters (set_wrappers ws' toy_created)
      = Ret (0, names2) (set_wrappers ws' toy_created) ∧
    "foo"%string ∈ names2.
Proof.
  split; [reflexivity|]. split; [apply toy_created_version|].
  split; [apply toy_created_allocated|].
  split; [apply toy_created_one_name|].
  destruct (list_cold_filters_exact toy_created 1%nat toy_v1
              toy_created_latest toy_created_version toy_created_allocated
              toy_created_one_name)
    as (names & ws' & names2 & Hrun & _ & Hin & Hcool & _ & Hrun2 & Hin2).
  exists names, ws', names2. split; [exact Hrun|]. split; [|split; [|split]].
  - intros (v & V & Hv & HV & Hhot & _)%Hin.
    unfold toy_v1 in Hv. cbn [filter_map] in Hv.
    apply lookup_singleton_Some in Hv as [_ <-].
    rewrite toy_created_wrapper in HV. injection HV as <-. discriminate Hhot.
  - apply (Hcool "foo"%string); [reflexivity|apply toy_created_wrapper].
  - exact Hrun2.
  - apply Hin2. exists O, toy_wrapper.
    split; [reflexivity|]. split; [apply toy_created_wrapper|reflexivity].
Defined.

(** After its drop, ["foo"] is unknown to the calls on [toy_created]. *)
Lemma dropped_filter_witness :
  latest toy_created = Some 1%nat ∧
  versions toy_created !! 1%nat = Some toy_v1 ∧
  index_ok (wrappers toy_created) (filter_map toy_v1) ∧
  filter_map toy_v1 !! "foo"%string = Some O ∧
  wrappers toy_created !! O = Some toy_wrapper ∧
  filtmgr_drop_filter "foo" 0 toy_created = Ret 0 toy_dropped ∧
  filtmgr_flush_filter "foo" toy_dropped = Ret (-1) toy_dropped ∧
  filtmgr_set_keys "foo" ["a"]%string 1 [9] toy_dropped
    = Ret (-1, [9]) toy_dropped ∧
  filtmgr_drop_filter "foo" 0 toy_dropped = Ret (-1) toy_dropped.
Proof.
  split; [reflexivity|]. split; [apply toy_created_version|].
  split; [apply toy_created_index|]. split; [reflexivity|].
  split; [apply toy_created_wrapper|].
  destruct (dropped_filter_is_gone toy_created 1%nat toy_v1 "foo" O
              toy_wrapper toy_created_latest toy_created_version
              toy_created_index eq_refl toy_created_wrapper)
    as (m1 & Hdrop & Hflush & _ & _ & Hkeys & Hagain & _).
  assert (m1 = toy_dropped) as ->.
  { assert (filtmgr_drop_filter "foo" 0 toy_created = Ret 0 toy_dropped)
      as Hd by (vm_compute; reflexivity).
    rewrite Hd in Hdrop. by injection Hdrop. }
  split; [exact Hdrop|]. split; [exact Hflush|].
  split; [apply Hkeys|apply Hagain].
Defined.

(** Nothing leaks in [toy_dropped], which two calls make from a manager
    started on an empty directory. *)
Lemma no_leak_witness :
  (∀ entries : list string, Some [] = Some entries → NoDup entries) ∧
  init_filter_manager 7 0 (Some []) (toy_init []) 0
    = Ret 0 (fresh_manager 7) ∧
  steps 2 (fresh_manager 7) toy_dropped ∧
  Z.of_nat 2 < 2 ^ 64 ∧
  (∀ b, is_Some (versions toy_dropped !! b) ↔
        b ∈ ((2%nat, toy_v2) :: toy_older).*1) ∧
  (∀ w, is_Some (wrappers toy_dropped !! w) ↔
        (∃ k, filter_map toy_v2 !! k = Some w) ∨
        w ∈ chain_deleted toy_older).
Proof.
  assert (Z.of_nat 2 < 2 ^ 64) as Hn by (simpl; lia).
  split; [apply toy_dir_NoDup|]. split; [apply toy_fresh_init|].
  split; [apply toy_dropped_steps|]. split; [exact Hn|].
  destruct (no_leak_invariant 7 0 (Some []) (toy_init []) 0 (fresh_manager 7)
              2 toy_dropped toy_dir_NoDup toy_fresh_init toy_dropped_steps Hn)
    as (a & lv & l & Hc & Hvs & Hws).
  pose proof (is_chain_det _ _ _ _ Hc toy_dropped_chain) as Heq.
  injection Heq as -> -> ->. split; [exact Hvs|exact Hws].
Defined.

(** Teardown of [toy_dropped] leaves an empty heap. *)
Lemma destroy_frees_witness :
  (∀ entries : list string, Some [] = Some entries → NoDup entries) ∧
  init_filter_manager 7 0 (Some []) (toy_init []) 0
    = Ret 0 (fresh_manager 7) ∧
  steps 2 (fresh_manager 7) toy_dropped ∧
  Z.of_nat 2 < 2 ^ 64 ∧
  ∃ m', destroy_filter_manager toy_dropped = Ret 0 m' ∧
        versions m' = ∅ ∧ wrappers m' = ∅ ∧ clients m' = [].
Proof.
  assert (Z.of_nat 2 < 2 ^ 64) as Hn by (simpl; lia).
  split; [apply toy_dir_NoDup|]. split; [apply toy_fresh_init|].
  split; [apply toy_dropped_steps|]. split; [exact Hn|].
  exact (destroy_frees_everything 7 0 (Some []) (toy_init []) 0
           (fresh_manager 7)
           2 toy_dropped toy_dir_NoDup toy_fresh_init toy_dropped_steps Hn).
Defined.

(** A batch of no keys on ["f"] in [toy_loaded], where it is cold. *)
Lemma empty_batch_witness :
  latest toy_loaded = Some O ∧
  (∃ lv w W,
     versions toy_loaded !! O = Some lv ∧
     filter_map lv !! "f"%string = Some w ∧
     wrappers toy_loaded !! w = Some W ∧
     is_active W = true ∧ is_hot W = false ∧
     0 ≤ 0 ∧
     ∃ m',
       filtmgr_check_keys "f" ["a"; "b"]%string 0 [7; 8] toy_loaded
         = Ret (0, [7; 8]) m' ∧
       (∃ W', wrappers m' !! w = Some W' ∧ is_hot W' = true)).
Proof.
  split; [vm_compute; reflexivity|].
  assert (versions toy_loaded !! O
          = Some (mk_vsn 0 {[ "f"%string := O ]} None None)) as Hv
    by (vm_compute; reflexivity).
  assert (wrappers toy_loaded !! O = Some toy_cold_wrapper) as HW
    by (vm_compute; reflexivity).
  assert (0 ≤ 0) as Hz by lia.
  eexists _, O, _. split; [exact Hv|]. split; [reflexivity|].
  split; [exact HW|]. split; [reflexivity|]. split; [reflexivity|].
  split; [exact Hz|].
  destruct (empty_batch toy_loaded O _ "f" O _ ["a"; "b"]%string 0 [7; 8]
              eq_refl Hv eq_refl HW eq_refl Hz) as [Hcheck _].
  eexists. split; [exact Hcheck|].
  eexists. split; [apply lookup_insert_eq|reflexivity].
Defined.

(** Two vacuums of [toy_dropped]. *)
Lemma vacuum_idempotent_witness :
  is_chain (versions toy_dropped) (latest toy_dropped)
           ((2%nat, toy_v2) :: toy_older) ∧
  vsn_increasing ((2%nat, toy_v2) :: toy_older) ∧
  NoDup (chain_deleted toy_older) ∧
  (∀ w, w ∈ chain_deleted toy_older →
        is_Some (wrappers toy_dropped !! w)) ∧
  ∃ m1,
    filtmgr_vacuum toy_dropped = Ret tt m1 ∧
    filtmgr_vacuum m1 = Ret tt m1 ∧
    filtmgr_thread_pass toy_dropped = Ret tt m1.
Proof.
  destruct toy_older_parked as [Hnd Hal].
  assert (∀ w, w ∈ chain_deleted toy_older →
               is_Some (wrappers toy_dropped !! w)) as Hal'.
  { intros w Hw. destruct (Hal w Hw) as (W & HW & _). by eexists. }
  split; [apply toy_dropped_chain|]. split; [apply toy_chain_increasing|].
  split; [exact Hnd|]. split; [exact Hal'|].
  destruct (vacuum_idempotent toy_dropped 2%nat toy_v2 toy_older
              toy_dropped_chain toy_chain_increasing Hnd Hal')
    as (m1 & Hvac & Hvac2 & _ & Hpass).
  exists m1. split; [exact Hvac|]. split; [exact Hvac2|].
  apply Hpass. reflexivity.
Defined.
